(** * A doubly-linked ring with a sentinel: [sjtu::list<T>] (src/list.hpp)

    The container of [list.hpp] is embedded over an explicit store: node
    objects live in a finite map from addresses to node records, list
    objects in a second finite map.  Reading or writing through the null
    pointer or through the address of a destroyed object has no defined
    result in C++; the embedding makes that outcome explicit ([Undefined])
    next to normal return, the two exceptions of [exceptions.hpp], and
    exhausted loop fuel ([Diverge]). *)

From stdpp Require Import gmap list.
From Stdlib Require Import ZArith Lia.

Local Open Scope Z_scope.

(** ** Addresses *)

(** Addresses of node objects and of list objects are natural numbers;
    [null] is [nullptr]. *)
Abbreviation ptr := N (only parsing).
Definition null : N := 0%N.

(** [size_t] is 64 bits wide; arithmetic on it wraps around. *)
Definition size_max : Z := 2 ^ 64.
Definition wrap64 (z : Z) : Z := z mod size_max.
Arguments size_max : simpl never.
Arguments wrap64 : simpl never.

(** The exceptions thrown by [list.hpp]. *)
Inductive exn := invalid_iterator | container_is_empty.

#[global] Instance exn_eq_dec : EqDecision exn.
Proof. solve_decision. Defined.

(** ** Objects *)

(** [class node]: [prev], [next] and the owned value slot [val]
    ([nullptr] for the sentinel, hence [None]). *)
Record node (T : Type) := Node { prev : N; next : N; val : option T }.
Arguments Node {T} _ _ _.
Arguments prev {T} _.
Arguments next {T} _.
Arguments val {T} _.

(** The data members of [class list]: the sentinel [s] and the count [n]. *)
Record lobj := LObj { list_s : N; list_n : Z }.

(** The store: live nodes and live list objects. *)
Record state (T : Type) := State { nodes : gmap N (node T); lists : gmap N lobj }.
Arguments State {T} _ _.
Arguments nodes {T} _.
Arguments lists {T} _.

(** [class iterator] and [class const_iterator]: the owner and the node. *)
Record iterator := It { it_owner : N; it_p : N }.
Record const_iterator := CIt { cit_owner : N; cit_p : N }.

#[global] Instance iterator_eq_dec : EqDecision iterator.
Proof. solve_decision. Defined.
#[global] Instance const_iterator_eq_dec : EqDecision const_iterator.
Proof. solve_decision. Defined.

(** ** Outcomes and the computation monad *)

Inductive res (T A : Type) :=
| Ok (a : A) (σ : state T)
| Throw (e : exn) (σ : state T)
| Undefined
| Diverge.
Arguments Ok {T A} _ _.
Arguments Throw {T A} _ _.
Arguments Undefined {T A}.
Arguments Diverge {T A}.

Definition M (T A : Type) : Type := state T → res T A.

Definition ret {T A} (a : A) : M T A := λ σ, Ok a σ.
Definition bind {T A B} (m : M T A) (k : A → M T B) : M T B :=
  λ σ, match m σ with
       | Ok a σ' => k a σ'
       | Throw e σ' => Throw e σ'
       | Undefined => Undefined
       | Diverge => Diverge
       end.
Definition throw {T A} (e : exn) : M T A := λ σ, Throw e σ.
Definition undefined {T A} : M T A := λ _, Undefined.
Definition diverge {T A} : M T A := λ _, Diverge.

Declare Scope list_monad_scope.
Delimit Scope list_monad_scope with lm.
Notation "'do' x <- m ; k" := (bind m (λ x, k))
  (at level 10, x name, m at level 100, k at level 200,
   format "'[v' 'do'  x  <-  m ; '/' k ']'") : list_monad_scope.
Notation "m ;; k" := (bind m (λ _, k))
  (at level 100, k at level 200, right associativity) : list_monad_scope.
Local Open Scope list_monad_scope.

Section List.

Context {T : Type}.

(** The element type's [operator<] and [operator==]. *)
Variable lt : T → T → bool.
Variable eqb : T → T → bool.

(** [new] returns the address of storage that holds no live node; which
    one is left to the allocator. *)
Variable alloc : gmap N (node T) → N.

Abbreviation state := (state T).
Abbreviation M := (M T).

(** ** Store access *)

(** The node object at [p], when [p] is non-null and live. *)
Definition deref (σ : state) (p : ptr) : option (node T) :=
  if decide (p = null) then None else nodes σ !! p.

(** The list object at [c], when [c] is non-null and live. *)
Definition lderef (σ : state) (c : ptr) : option lobj :=
  if decide (c = null) then None else lists σ !! c.

Definition nxt (σ : state) (x : ptr) : option N := next <$> deref σ x.
Definition prv (σ : state) (x : ptr) : option N := prev <$> deref σ x.
Definition vl (σ : state) (x : ptr) : option (option T) := val <$> deref σ x.

Definition upd_node (f : node T → node T) (x : ptr) (σ : state) : state :=
  State (alter f x (nodes σ)) (lists σ).
Definition upd_next (x v : ptr) : state → state :=
  upd_node (λ nd, Node (prev nd) v (val nd)) x.
Definition upd_prev (x v : ptr) : state → state :=
  upd_node (λ nd, Node v (next nd) (val nd)) x.
Definition upd_n (c : ptr) (v : Z) (σ : state) : state :=
  State (nodes σ) (alter (λ lo, LObj (list_s lo) v) c (lists σ)).
Definition free_node (x : ptr) (σ : state) : state :=
  State (delete x (nodes σ)) (lists σ).
Definition put_node (x : ptr) (nd : node T) (σ : state) : state :=
  State (<[x := nd]> (nodes σ)) (lists σ).
Definition put_list (c : ptr) (lo : lobj) (σ : state) : state :=
  State (nodes σ) (<[c := lo]> (lists σ)).

(** [x->next], [x->prev], [x->val] *)
Definition get_next (x : ptr) : M N :=
  λ σ, match nxt σ x with Some y => Ok y σ | None => Undefined end.
Definition get_prev (x : ptr) : M N :=
  λ σ, match prv σ x with Some y => Ok y σ | None => Undefined end.
Definition get_val (x : ptr) : M (option T) :=
  λ σ, match vl σ x with Some v => Ok v σ | None => Undefined end.

(** [x->next = v], [x->prev = v] *)
Definition set_next (x v : ptr) : M unit :=
  λ σ, match deref σ x with Some _ => Ok tt (upd_next x v σ) | None => Undefined end.
Definition set_prev (x v : ptr) : M unit :=
  λ σ, match deref σ x with Some _ => Ok tt (upd_prev x v σ) | None => Undefined end.

(** [*(x->val)]: reading through a null value slot is undefined. *)
Definition get_value (x : ptr) : M T :=
  do v <- get_val x;
  match v with Some t => ret t | None => undefined end.

(** [c->s], [c->n], [c->n = v] *)
Definition get_s (c : ptr) : M N :=
  λ σ, match lderef σ c with Some lo => Ok (list_s lo) σ | None => Undefined end.
Definition get_n (c : ptr) : M Z :=
  λ σ, match lderef σ c with Some lo => Ok (list_n lo) σ | None => Undefined end.
Definition set_n (c : ptr) (v : Z) : M unit :=
  λ σ, match lderef σ c with Some _ => Ok tt (upd_n c v σ) | None => Undefined end.

(** [new node()]: the sentinel constructor, [prev(this), next(this),
    val(nullptr)]. *)
Definition new_sentinel : M N :=
  λ σ, let a := alloc (nodes σ) in Ok a (put_node a (Node a a None) σ).

(** [new node(value)]: [prev(nullptr), next(nullptr), val(new T(value))]. *)
Definition new_node (value : T) : M N :=
  λ σ, let a := alloc (nodes σ) in Ok a (put_node a (Node null null (Some value)) σ).

(** [delete x]: runs [~node] and releases the storage.  Deleting the null
    pointer does nothing; deleting a dead object is undefined. *)
Definition delete_node (x : ptr) : M unit :=
  λ σ, if decide (x = null) then Ok tt σ
       else match nodes σ !! x with
            | Some _ => Ok tt (free_node x σ)
            | None => Undefined
            end.

(** ** The link primitives (list.hpp 33-46) *)

(** [node *insert(node *pos, node *cur)]: link [cur] before [pos]. *)
Definition insert_node (pos cur : ptr) : M N :=
  set_next cur pos;;
  do pp <- get_prev pos;
  set_prev cur pp;;
  do pp' <- get_prev pos;
  set_next pp' cur;;
  set_prev pos cur;;
  ret cur.

(** [node *erase(node *pos)]: unlink [pos], do not delete it. *)
Definition erase_node (pos : ptr) : M N :=
  do pn <- get_next pos;
  do pp <- get_prev pos;
  set_next pp pn;;
  do pp' <- get_prev pos;
  do pn' <- get_next pos;
  set_prev pn' pp';;
  ret pos.

(** ** [class iterator] (list.hpp 50-101) *)

(** Each operator takes the iterator object and yields the value the
    operator returns together with the iterator object afterwards. *)

(** The guard [owner == nullptr || p == nullptr || p == owner->s], with
    the short-circuit evaluation of [||]: [owner->s] is only read when
    both pointers are non-null. *)
Definition at_end_or_null (owner p : ptr) : M bool :=
  if decide (owner = null) then ret true
  else if decide (p = null) then ret true
  else do s <- get_s owner; ret (bool_decide (p = s)).

(** [iterator operator++(int)] *)
Definition it_post_incr (it : iterator) : M (iterator * iterator) :=
  do bad <- at_end_or_null (it_owner it) (it_p it);
  if (bad : bool) then throw invalid_iterator
  else
    let tmp := it in
    do nx <- get_next (it_p it);
    ret (tmp, It (it_owner it) nx).

(** [iterator & operator++()] *)
Definition it_pre_incr (it : iterator) : M (iterator * iterator) :=
  do bad <- at_end_or_null (it_owner it) (it_p it);
  if (bad : bool) then throw invalid_iterator
  else
    do nx <- get_next (it_p it);
    let it' := It (it_owner it) nx in
    ret (it', it').

(** [iterator operator--(int)] *)
Definition it_post_decr (it : iterator) : M (iterator * iterator) :=
  if decide (it_owner it = null) then throw invalid_iterator
  else if decide (it_p it = null) then throw invalid_iterator
  else
    do s <- get_s (it_owner it);
    (if decide (it_p it = s) then
       do n <- get_n (it_owner it);
       if decide (n = 0) then throw invalid_iterator else ret tt
     else ret tt);;
    let tmp := it in
    do s' <- get_s (it_owner it);
    if decide (it_p it = s') then
      do s'' <- get_s (it_owner it);
      do q <- get_prev s'';
      ret (tmp, It (it_owner it) q)
    else
      do q <- get_prev (it_p it);
      ret (tmp, It (it_owner it) q).

(** [iterator & operator--()] *)
Definition it_pre_decr (it : iterator) : M (iterator * iterator) :=
  if decide (it_owner it = null) then throw invalid_iterator
  else if decide (it_p it = null) then throw invalid_iterator
  else
    do s <- get_s (it_owner it);
    if decide (it_p it = s) then
      do n <- get_n (it_owner it);
      if decide (n = 0) then throw invalid_iterator
      else
        do s' <- get_s (it_owner it);
        do q <- get_prev s';
        let it' := It (it_owner it) q in
        ret (it', it')
    else
      do q <- get_prev (it_p it);
      let it' := It (it_owner it) q in
      ret (it', it').

(** The guard of [operator*] and [operator->]:
    [owner == nullptr || p == nullptr || p == owner->s || p->val == nullptr]. *)
Definition not_dereferenceable (owner p : ptr) : M bool :=
  do bad <- at_end_or_null owner p;
  if (bad : bool) then ret true
  else do v <- get_val p; ret (bool_decide (v = None :> option T)).

(** [T & operator*() const] *)
Definition it_deref (it : iterator) : M T :=
  do bad <- not_dereferenceable (it_owner it) (it_p it);
  if (bad : bool) then throw invalid_iterator
  else get_value (it_p it).

(** [bool operator==(const iterator &rhs) const] *)
Definition it_eq (a b : iterator) : bool :=
  bool_decide (it_owner a = it_owner b) && bool_decide (it_p a = it_p b).

(** ** [class const_iterator] (list.hpp 102-153) *)

(** [const_iterator(const iterator &it)] *)
Definition cit_of_it (it : iterator) : const_iterator :=
  CIt (it_owner it) (it_p it).

(** [const_iterator operator++(int)] *)
Definition cit_post_incr (it : const_iterator) : M (const_iterator * const_iterator) :=
  do bad <- at_end_or_null (cit_owner it) (cit_p it);
  if (bad : bool) then throw invalid_iterator
  else
    let tmp := it in
    do nx <- get_next (cit_p it);
    ret (tmp, CIt (cit_owner it) nx).

(** [const_iterator & operator++()] *)
Definition cit_pre_incr (it : const_iterator) : M (const_iterator * const_iterator) :=
  do bad <- at_end_or_null (cit_owner it) (cit_p it);
  if (bad : bool) then throw invalid_iterator
  else
    do nx <- get_next (cit_p it);
    let it' := CIt (cit_owner it) nx in
    ret (it', it').

(** [const_iterator operator--(int)] *)
Definition cit_post_decr (it : const_iterator) : M (const_iterator * const_iterator) :=
  if decide (cit_owner it = null) then throw invalid_iterator
  else if decide (cit_p it = null) then throw invalid_iterator
  else
    do s <- get_s (cit_owner it);
    (if decide (cit_p it = s) then
       do n <- get_n (cit_owner it);
       if decide (n = 0) then throw invalid_iterator else ret tt
     else ret tt);;
    let tmp := it in
    do s' <- get_s (cit_owner it);
    if decide (cit_p it = s') then
      do s'' <- get_s (cit_owner it);
      do q <- get_prev s'';
      ret (tmp, CIt (cit_owner it) q)
    else
      do q <- get_prev (cit_p it);
      ret (tmp, CIt (cit_owner it) q).

(** [const_iterator & operator--()] *)
Definition cit_pre_decr (it : const_iterator) : M (const_iterator * const_iterator) :=
  if decide (cit_owner it = null) then throw invalid_iterator
  else if decide (cit_p it = null) then throw invalid_iterator
  else
    do s <- get_s (cit_owner it);
    if decide (cit_p it = s) then
      do n <- get_n (cit_owner it);
      if decide (n = 0) then throw invalid_iterator
      else
        do s' <- get_s (cit_owner it);
        do q <- get_prev s';
        let it' := CIt (cit_owner it) q in
        ret (it', it')
    else
      do q <- get_prev (cit_p it);
      let it' := CIt (cit_owner it) q in
      ret (it', it').

(** [const T & operator*() const] *)
Definition cit_deref (it : const_iterator) : M T :=
  do bad <- not_dereferenceable (cit_owner it) (cit_p it);
  if (bad : bool) then throw invalid_iterator
  else get_value (cit_p it).

(** [bool operator==(const const_iterator &rhs) const] *)
Definition cit_eq (a b : const_iterator) : bool :=
  bool_decide (cit_owner a = cit_owner b) && bool_decide (cit_p a = cit_p b).

(** ** [class list]: construction, access, mutation (list.hpp 155-220) *)

(** The number of live nodes; it bounds the length of every traversal
    that comes back to its start, and is the fuel given to the loops. *)
Definition heap_size : M nat := λ σ, Ok (size (nodes σ)) σ.

(** [list(): s(new node()), n(0)] *)
Definition list_ctor (this : ptr) : M unit :=
  do a <- new_sentinel;
  λ σ, Ok tt (put_list this (LObj a 0) σ).

(** [iterator begin()], [iterator end()], [cbegin], [cend] *)
Definition begin_ (this : ptr) : M iterator :=
  do s <- get_s this; do x <- get_next s; ret (It this x).
Definition end_ (this : ptr) : M iterator :=
  do s <- get_s this; ret (It this s).
Definition cbegin (this : ptr) : M const_iterator :=
  do s <- get_s this; do x <- get_next s; ret (CIt this x).
Definition cend (this : ptr) : M const_iterator :=
  do s <- get_s this; ret (CIt this s).

(** [bool empty() const], [size_t size() const] *)
Definition empty (this : ptr) : M bool :=
  do n <- get_n this; ret (bool_decide (n = 0)).
Definition size_ (this : ptr) : M Z := get_n this.

(** [const T & front() const], [const T & back() const] *)
Definition front (this : ptr) : M T :=
  do n <- get_n this;
  if decide (n = 0) then throw container_is_empty
  else do s <- get_s this; do x <- get_next s; get_value x.
Definition back (this : ptr) : M T :=
  do n <- get_n this;
  if decide (n = 0) then throw container_is_empty
  else do s <- get_s this; do x <- get_prev s; get_value x.

(** [iterator insert(iterator pos, const T &value)] *)
Definition insert (this : ptr) (pos : iterator) (value : T) : M iterator :=
  if decide (it_owner pos ≠ this) then throw invalid_iterator
  else if decide (it_p pos = null) then throw invalid_iterator
  else
    do cur <- new_node value;
    insert_node (it_p pos) cur;;
    do n <- get_n this;
    set_n this (wrap64 (n + 1));;
    ret (It this cur).

(** [iterator erase(iterator pos)] *)
Definition erase (this : ptr) (pos : iterator) : M iterator :=
  do n <- get_n this;
  if decide (n = 0) then throw container_is_empty
  else if decide (it_owner pos ≠ this) then throw invalid_iterator
  else if decide (it_p pos = null) then throw invalid_iterator
  else
    do s <- get_s this;
    if decide (it_p pos = s) then throw invalid_iterator
    else
      do nextp <- get_next (it_p pos);
      do removed <- erase_node (it_p pos);
      delete_node removed;;
      do n' <- get_n this;
      set_n this (wrap64 (n' - 1));;
      ret (It this nextp).

(** [void push_back(const T &value)], [void push_front(const T &value)] *)
Definition push_back (this : ptr) (value : T) : M unit :=
  do s <- get_s this;
  insert this (It this s) value;;
  ret tt.
Definition push_front (this : ptr) (value : T) : M unit :=
  do s <- get_s this;
  do x <- get_next s;
  insert this (It this x) value;;
  ret tt.

(** [void pop_back()], [void pop_front()] *)
Definition pop_back (this : ptr) : M unit :=
  do n <- get_n this;
  if decide (n = 0) then throw container_is_empty
  else
    do s <- get_s this;
    do x <- get_prev s;
    erase this (It this x);;
    ret tt.
Definition pop_front (this : ptr) : M unit :=
  do n <- get_n this;
  if decide (n = 0) then throw container_is_empty
  else
    do s <- get_s this;
    do x <- get_next s;
    erase this (It this x);;
    ret tt.

(** [s->next = s->prev = s]: the right-hand assignment is done first. *)
Definition reset_sentinel (this : ptr) : M unit :=
  do s <- get_s this;
  set_prev s s;;
  set_next s s.

(** The loop of [clear]: [while (cur != s) { nx = cur->next; delete cur;
    cur = nx; }] *)
Fixpoint clear_loop (fuel : nat) (this cur : ptr) : M unit :=
  do s <- get_s this;
  if decide (cur = s) then ret tt
  else match fuel with
       | O => diverge
       | S f =>
           do nx <- get_next cur;
           delete_node cur;;
           clear_loop f this nx
       end.

(** [void clear()] *)
Definition clear (this : ptr) : M unit :=
  do n <- get_n this;
  if decide (n = 0) then reset_sentinel this
  else
    do s <- get_s this;
    do cur <- get_next s;
    do k <- heap_size;
    clear_loop (S k) this cur;;
    reset_sentinel this;;
    set_n this 0.

(** The loop shared by the copy constructor and [operator=]:
    [for (x = other.s->next; x != other.s; x = x->next)
       push_back( *(x->val) );] *)
Fixpoint copy_loop (fuel : nat) (this other x : ptr) : M unit :=
  do os <- get_s other;
  if decide (x = os) then ret tt
  else match fuel with
       | O => diverge
       | S f =>
           do v <- get_value x;
           push_back this v;;
           do nx <- get_next x;
           copy_loop f this other nx
       end.

(** [list(const list &other): s(new node()), n(0)] *)
Definition list_copy_ctor (this other : ptr) : M unit :=
  list_ctor this;;
  do os <- get_s other;
  do x <- get_next os;
  do k <- heap_size;
  copy_loop (S k) this other x.

(** [list &operator=(const list &other)] *)
Definition assign (this other : ptr) : M unit :=
  if decide (this = other) then ret tt
  else
    clear this;;
    do os <- get_s other;
    do x <- get_next os;
    do k <- heap_size;
    copy_loop (S k) this other x.

(** [virtual ~list() { clear(); delete s; s = nullptr; }] (list.hpp
    159-162); when the destructor has run, the list object is gone. *)
Definition set_s (c v : ptr) : M unit :=
  λ σ, match lderef σ c with
       | Some lo => Ok tt (put_list c (LObj v (list_n lo)) σ)
       | None => Undefined
       end.
Definition free_list (c : ptr) (σ : state) : state :=
  State (nodes σ) (delete c (lists σ)).
Definition list_dtor (this : ptr) : M unit :=
  clear this;;
  do s <- get_s this;
  delete_node s;;
  set_s this null;;
  λ σ, Ok tt (free_list this σ).

(** ** [sort] (list.hpp 221-251) *)

(** The arrays [arr] and [tmp] of node pointers; an access outside the
    array is undefined. *)
Definition arr_get (arr : list N) (i : Z) : M N :=
  match arr !! Z.to_nat i with
  | Some x => ret x
  | None => undefined
  end.
Definition arr_set (arr : list N) (i : Z) (x : ptr) : M (list N) :=
  if decide (Z.to_nat i < length arr)%nat
  then ret (<[Z.to_nat i := x]> arr)
  else undefined.

(** [for (node *x = s->next; x != s; x = x->next) arr[idx++] = x;] *)
Fixpoint sort_fill (fuel : nat) (this x : ptr) (idx : Z) (arr : list N)
  : M (list N) :=
  do s <- get_s this;
  if decide (x = s) then ret arr
  else match fuel with
       | O => diverge
       | S f =>
           do arr' <- arr_set arr idx x;
           do nx <- get_next x;
           sort_fill f this nx (wrap64 (idx + 1)) arr'
       end.

(** [while (p < mid && q < r) { if (!( *arr[q]->val < *arr[p]->val))
      tmp[t++] = arr[p++]; else tmp[t++] = arr[q++]; }] *)
Fixpoint sort_merge (fuel : nat) (arr tmp : list N) (p mid q r t : Z)
  : M (list N * (Z * Z * Z)) :=
  if decide (p < mid ∧ q < r) then
    match fuel with
    | O => diverge
    | S f =>
        do aq <- arr_get arr q;
        do vq <- get_value aq;
        do ap <- arr_get arr p;
        do vp <- get_value ap;
        if negb (lt vq vp) then
          do ap' <- arr_get arr p;
          do tmp' <- arr_set tmp t ap';
          sort_merge f arr tmp' (wrap64 (p + 1)) mid q r (wrap64 (t + 1))
        else
          do aq' <- arr_get arr q;
          do tmp' <- arr_set tmp t aq';
          sort_merge f arr tmp' p mid (wrap64 (q + 1)) r (wrap64 (t + 1))
    end
  else ret (tmp, (p, q, t)).

(** [while (p < hi) tmp[t++] = arr[p++];] (used for both tails) *)
Fixpoint sort_copy (fuel : nat) (arr tmp : list N) (p hi t : Z)
  : M (list N * Z) :=
  if decide (p < hi) then
    match fuel with
    | O => diverge
    | S f =>
        do x <- arr_get arr p;
        do tmp' <- arr_set tmp t x;
        sort_copy f arr tmp' (wrap64 (p + 1)) hi (wrap64 (t + 1))
    end
  else ret (tmp, t).

(** [for (size_t k = l; k < r; ++k) arr[k] = tmp[k];] *)
Fixpoint sort_copy_back (fuel : nat) (arr tmp : list N) (k r : Z)
  : M (list N) :=
  if decide (k < r) then
    match fuel with
    | O => diverge
    | S f =>
        do x <- arr_get tmp k;
        do arr' <- arr_set arr k x;
        sort_copy_back f arr' tmp (wrap64 (k + 1)) r
    end
  else ret arr.

(** One run of the body of the inner [for]: merge [arr[l..mid)] and
    [arr[mid..r)] through [tmp]. *)
Definition sort_run (fuel : nat) (arr tmp : list N) (m width i : Z)
  : M (list N * list N) :=
  let l := i in
  let mid := if decide (wrap64 (i + width) < m) then wrap64 (i + width) else m in
  let w2 := wrap64 (Z.shiftl width 1) in
  let r := if decide (wrap64 (i + w2) < m) then wrap64 (i + w2) else m in
  do x <- sort_merge fuel arr tmp l mid mid r l;
  let '(tmp1, (p, q, t)) := x in
  do y <- sort_copy fuel arr tmp1 p mid t;
  let '(tmp2, t2) := y in
  do z <- sort_copy fuel arr tmp2 q r t2;
  let '(tmp3, _) := z in
  do arr' <- sort_copy_back fuel arr tmp3 l r;
  ret (arr', tmp3).

(** [for (size_t i = 0; i < m; i += (width << 1)) { ... }] *)
Fixpoint sort_pass (fuel : nat) (arr tmp : list N) (m width i : Z)
  : M (list N * list N) :=
  if decide (i < m) then
    match fuel with
    | O => diverge
    | S f =>
        do x <- sort_run (Z.to_nat m) arr tmp m width i;
        sort_pass f x.1 x.2 m width (wrap64 (i + wrap64 (Z.shiftl width 1)))
    end
  else ret (arr, tmp).

(** [for (size_t width = 1; width < m; width <<= 1) { ... }] *)
Fixpoint sort_widths (fuel : nat) (arr tmp : list N) (m width : Z)
  : M (list N * list N) :=
  if decide (width < m) then
    match fuel with
    | O => diverge
    | S f =>
        do x <- sort_pass (Z.to_nat m) arr tmp m width 0;
        sort_widths f x.1 x.2 m (wrap64 (Z.shiftl width 1))
    end
  else ret (arr, tmp).

(** [for (size_t i = 1; i < m; ++i) { arr[i-1]->next = arr[i];
      arr[i]->prev = arr[i-1]; }] *)
Fixpoint sort_relink (fuel : nat) (arr : list N) (m i : Z) : M unit :=
  if decide (i < m) then
    match fuel with
    | O => diverge
    | S f =>
        do b <- arr_get arr i;
        do a <- arr_get arr (wrap64 (i - 1));
        set_next a b;;
        do a' <- arr_get arr (wrap64 (i - 1));
        do b' <- arr_get arr i;
        set_prev b' a';;
        sort_relink f arr m (wrap64 (i + 1))
    end
  else ret tt.

(** [void sort()] *)
Definition sort (this : ptr) : M unit :=
  do n <- get_n this;
  if decide (n ≤ 1) then ret tt
  else
    let m := n in
    let arr0 := replicate (Z.to_nat m) null in
    do s <- get_s this;
    do x <- get_next s;
    do k <- heap_size;
    do arr <- sort_fill (S k) this x 0 arr0;
    let tmp := replicate (Z.to_nat m) null in
    do at_ <- sort_widths 64 arr tmp m 1;
    let arr := at_.1 in
    (* s->next = arr[0]; arr[0]->prev = s; *)
    do a0 <- arr_get arr 0;
    set_next s a0;;
    do a0' <- arr_get arr 0;
    set_prev a0' s;;
    sort_relink (Z.to_nat m) arr m 1;;
    (* arr[m-1]->next = s; s->prev = arr[m-1]; *)
    do al <- arr_get arr (wrap64 (m - 1));
    set_next al s;;
    do al' <- arr_get arr (wrap64 (m - 1));
    set_prev s al'.

(** ** [merge] (list.hpp 252-294) *)

(** The branch [n == 0]: move the whole ring of [other]. *)
Definition merge_move_all (this other : ptr) : M unit :=
  do s <- get_s this;
  do os <- get_s other;
  (* s->next = other.s->next; s->prev = other.s->prev; *)
  do x <- get_next os;
  set_next s x;;
  do y <- get_prev os;
  set_prev s y;;
  (* s->next->prev = s; s->prev->next = s; *)
  do x' <- get_next s;
  set_prev x' s;;
  do y' <- get_prev s;
  set_next y' s;;
  (* n = other.n; *)
  do on <- get_n other;
  set_n this on;;
  (* other.s->next = other.s->prev = other.s; other.n = 0; *)
  set_prev os os;;
  set_next os os;;
  set_n other 0.

(** [while (a != s && !( *b->val < *a->val)) a = a->next;] *)
Fixpoint merge_skip (fuel : nat) (this a b : ptr) : M N :=
  do s <- get_s this;
  if decide (a = s) then ret a
  else
    do vb <- get_value b;
    do va <- get_value a;
    if negb (lt vb va) then
      match fuel with
      | O => diverge
      | S f => do na <- get_next a; merge_skip f this na b
      end
    else ret a.

(** The branch [a == s]: splice the remaining nodes [b .. other.s->prev]
    at the end. *)
Definition merge_splice_rest (this other b : ptr) : M unit :=
  do s <- get_s this;
  do os <- get_s other;
  do b_end <- get_prev os;
  (* b->prev->next = b_end->next; *)
  do v <- get_next b_end;
  do bp <- get_prev b;
  set_next bp v;;
  (* b_end->next->prev = b->prev; *)
  do v' <- get_prev b;
  do ben <- get_next b_end;
  set_prev ben v';;
  (* other.s->next = other.s; other.s->prev = other.s; *)
  set_next os os;;
  set_prev os os;;
  (* s->prev->next = b; b->prev = s->prev; b_end->next = s; s->prev = b_end; *)
  do sp <- get_prev s;
  set_next sp b;;
  do sp' <- get_prev s;
  set_prev b sp';;
  set_next b_end s;;
  set_prev s b_end;;
  (* n += other.n; other.n = 0; *)
  do on <- get_n other;
  do n <- get_n this;
  set_n this (wrap64 (n + on));;
  set_n other 0.

(** [while (b != other.s && ( *b->val < *a->val)) { b = b->next; ++cnt; }] *)
Fixpoint merge_block (fuel : nat) (other a b : ptr) (cnt : Z) : M (N * Z) :=
  do os <- get_s other;
  if decide (b = os) then ret (b, cnt)
  else
    do vb <- get_value b;
    do va <- get_value a;
    if lt vb va then
      match fuel with
      | O => diverge
      | S f => do nb <- get_next b; merge_block f other a nb (wrap64 (cnt + 1))
      end
    else ret (b, cnt).

(** [for (size_t i = 1; i < cnt; ++i) endblk = endblk->next;] *)
Fixpoint merge_walk (fuel : nat) (endblk : ptr) (i cnt : Z) : M N :=
  if decide (i < cnt) then
    match fuel with
    | O => diverge
    | S f => do e <- get_next endblk; merge_walk f e (wrap64 (i + 1)) cnt
    end
  else ret endblk.

(** The branch [a != s]: move the block of [other] that starts at [b] and
    whose values are less than [*a] before [a]; yields the new [b]. *)
Definition merge_take_block (fuel : nat) (this other a b : ptr) : M N :=
  let start := b in
  do bc <- merge_block fuel other a b 0;
  let b := bc.1 in
  let cnt := bc.2 in
  merge_walk fuel start 1 cnt;;
  (* endblk = (b == other.s ? other.s->prev : b->prev); *)
  do os <- get_s other;
  do endblk <- (if decide (b = os) then get_prev os else get_prev b);
  (* start->prev->next = endblk->next; *)
  do v <- get_next endblk;
  do sp <- get_prev start;
  set_next sp v;;
  (* endblk->next->prev = start->prev; *)
  do v' <- get_prev start;
  do en <- get_next endblk;
  set_prev en v';;
  (* a->prev->next = start; start->prev = a->prev; *)
  do ap <- get_prev a;
  set_next ap start;;
  do ap' <- get_prev a;
  set_prev start ap';;
  (* endblk->next = a; a->prev = endblk; *)
  set_next endblk a;;
  set_prev a endblk;;
  (* n += cnt; other.n -= cnt; *)
  do n <- get_n this;
  set_n this (wrap64 (n + cnt));;
  do on <- get_n other;
  set_n other (wrap64 (on - cnt));;
  ret b.

(** [while (b != other.s) { ... }] *)
Fixpoint merge_loop (fuel k : nat) (this other a b : ptr) : M unit :=
  do os <- get_s other;
  if decide (b = os) then ret tt
  else match fuel with
       | O => diverge
       | S f =>
           do a' <- merge_skip k this a b;
           do s <- get_s this;
           if decide (a' = s) then merge_splice_rest this other b
           else
             do b' <- merge_take_block k this other a' b;
             merge_loop f k this other a' b'
       end.

(** [void merge(list &other)] *)
Definition merge (this other : ptr) : M unit :=
  if decide (this = other) then ret tt
  else
    do on <- get_n other;
    if decide (on = 0) then ret tt
    else
      do n <- get_n this;
      if decide (n = 0) then merge_move_all this other
      else
        do s <- get_s this;
        do a <- get_next s;
        do os <- get_s other;
        do b <- get_next os;
        do k <- heap_size;
        merge_loop (S k) (S k) this other a b.

(** ** [reverse] (list.hpp 295-299) *)

(** [do { t = cur->next; cur->next = cur->prev; cur->prev = t; cur = t; }
    while (cur != s);] *)
Fixpoint reverse_loop (fuel : nat) (this cur : ptr) : M unit :=
  match fuel with
  | O => diverge
  | S f =>
      do t <- get_next cur;
      do pv <- get_prev cur;
      set_next cur pv;;
      set_prev cur t;;
      do s <- get_s this;
      if decide (t ≠ s) then reverse_loop f this t else ret tt
  end.

(** [void reverse()] *)
Definition reverse (this : ptr) : M unit :=
  do cur <- get_s this;
  do k <- heap_size;
  reverse_loop (S k) this cur.

(** ** [unique] (list.hpp 300-310) *)

(** [while (nx != s && ( *(cur->val) == *(nx->val))) { to_del = nx;
      nx = nx->next; erase(to_del); delete to_del; --n; }] *)
Fixpoint unique_run (fuel : nat) (this cur nx : ptr) : M N :=
  do s <- get_s this;
  if decide (nx = s) then ret nx
  else
    do vc <- get_value cur;
    do vn <- get_value nx;
    if eqb vc vn then
      match fuel with
      | O => diverge
      | S f =>
          let to_del := nx in
          do nx' <- get_next nx;
          erase_node to_del;;
          delete_node to_del;;
          do n <- get_n this;
          set_n this (wrap64 (n - 1));;
          unique_run f this cur nx'
      end
    else ret nx.

(** [while (cur != s) { nx = cur->next; ...; cur = nx; }] *)
Fixpoint unique_loop (fuel k : nat) (this cur : ptr) : M unit :=
  do s <- get_s this;
  if decide (cur = s) then ret tt
  else match fuel with
       | O => diverge
       | S f =>
           do nx <- get_next cur;
           do nx' <- unique_run k this cur nx;
           unique_loop f k this nx'
       end.

(** [void unique()] *)
Definition unique (this : ptr) : M unit :=
  do n <- get_n this;
  if decide (n ≤ 1) then ret tt
  else
    do s <- get_s this;
    do cur <- get_next s;
    do k <- heap_size;
    unique_loop (S k) (S k) this cur.

(** ** The ring, seen from outside *)

(** [x] and [y] are neighbours: [x->next == y] and [y->prev == x]. *)
Definition link (σ : state) (x y : ptr) : Prop :=
  nxt σ x = Some y ∧ prv σ y = Some x.

(** The nodes [a], [q], [b] are linked in this order. *)
Fixpoint seg (σ : state) (a : ptr) (q : list N) (b : ptr) : Prop :=
  match q with
  | [] => link σ a b
  | x :: q' => link σ a x ∧ seg σ x q' b
  end.

(** The sentinel [s] and the data nodes [l], pairwise distinct, form a
    ring: starting at [s], following [next] visits [l] in order and comes
    back to [s]; following [prev] visits it backwards. *)
Definition ring (σ : state) (s : ptr) (l : list N) : Prop :=
  NoDup (s :: l) ∧ seg σ s l s.

(** The list object [this] is live, its sentinel is [s], and its ring
    holds the data nodes [items.*1] with the values [items.*2], in this
    order; [n] is their number, a [size_t]; the sentinel's value slot is
    empty and every data node's is populated. *)
Definition rep (σ : state) (this s : ptr) (items : list (N * T)) : Prop :=
  lderef σ this = Some (LObj s (Z.of_nat (length items))) ∧
  Z.of_nat (length items) < size_max ∧
  ring σ s (items.*1) ∧
  vl σ s = Some None ∧
  Forall (λ xv, vl σ xv.1 = Some (Some xv.2)) items.

(** An iterator is valid while it denotes a node of the current ring of
    its owner, the sentinel included. *)
Definition valid (σ : state) (it : iterator) : Prop :=
  ∃ s items, rep σ (it_owner it) s items ∧ it_p it ∈ s :: items.*1.

(** Following [next] from [x] until [s] comes up, at most [fuel] steps. *)
Fixpoint walk (σ : state) (fuel : nat) (s x : ptr) : option (list N) :=
  if decide (x = s) then Some []
  else match fuel with
       | O => None
       | S f => y ← nxt σ x; (x ::.) <$> walk σ f s y
       end.

(** The data nodes reached from the sentinel of [this] by [next], and by
    [prev] read backwards. *)
Definition forward (σ : state) (s : ptr) : option (list N) :=
  y ← nxt σ s; walk σ (size (nodes σ)) s y.

End List.

(** The loops are unfolded one iteration at a time. *)
Arguments clear_loop : simpl never.
Arguments copy_loop : simpl never.
Arguments sort_fill : simpl never.
Arguments sort_merge : simpl never.
Arguments sort_copy : simpl never.
Arguments sort_copy_back : simpl never.
Arguments sort_pass : simpl never.
Arguments sort_widths : simpl never.
Arguments sort_relink : simpl never.
Arguments merge_skip : simpl never.
Arguments merge_block : simpl never.
Arguments merge_walk : simpl never.
Arguments merge_loop : simpl never.
Arguments reverse_loop : simpl never.
Arguments unique_run : simpl never.
Arguments unique_loop : simpl never.
Arguments walk : simpl never.

(** ** An allocator *)

(** One allocator among those [new] may be: the address after the largest
    live one. *)
Definition alloc_above {T} (h : gmap N (node T)) : N :=
  N.succ (map_fold (λ k _ acc, N.max k acc) 0%N h).

(** ** Stable merging and sorting of lists

    The lists against which [merge] and [sort] are stated: the stable
    merge, the stable insertion sort, and the passes of the bottom-up
    merge sort as [sort] runs them on its array. *)

Section Sequences.
Context {A : Type} (ltA : A → A → bool).

(** The stable merge: an element of the right list is taken only when it
    is less than the head of the left list. *)
Fixpoint merge_list (l1 : list A) : list A → list A :=
  match l1 with
  | [] => λ l2, l2
  | a :: l1' =>
      fix merge_aux (l2 : list A) : list A :=
        match l2 with
        | [] => a :: l1'
        | b :: l2' =>
            if ltA b a then b :: merge_aux l2' else a :: merge_list l1' l2
        end
  end.

(** The longest prefix whose elements satisfy [p], and the rest. *)
Fixpoint span (p : A → bool) (l : list A) : list A * list A :=
  match l with
  | [] => ([], [])
  | a :: l' => if p a then (a :: (span p l').1, (span p l').2) else ([], l)
  end.

(** Insertion before the first element that is not less than [x]: the
    stable insertion of an element that came before all of [l]. *)
Fixpoint sinsert (x : A) (l : list A) : list A :=
  match l with
  | [] => [x]
  | y :: l' => if ltA y x then y :: sinsert x l' else x :: l
  end.

(** The stable sort. *)
Fixpoint ssort (l : list A) : list A :=
  match l with
  | [] => []
  | x :: l' => sinsert x (ssort l')
  end.

(** No element is less than an earlier one. *)
Fixpoint sorted (l : list A) : Prop :=
  match l with
  | [] => True
  | a :: l' => Forall (λ b, ltA b a = false) l' ∧ sorted l'
  end.

(** [a] comes before [b] in [l]. *)
Definition before (a b : A) (l : list A) : Prop :=
  ∃ l1 l2 l3, l = l1 ++ a :: l2 ++ b :: l3.

(** The array before the pass of width [w]: a sequence of chunks, all of
    length [w] but the last, which is not empty and at most [w] long. *)
Fixpoint chunks_ok (w : nat) (cs : list (list A)) : Prop :=
  match cs with
  | [] => True
  | c :: cs' =>
      match cs' with
      | [] => (0 < length c ≤ w)%nat
      | _ :: _ => length c = w ∧ chunks_ok w cs'
      end
  end.

(** The chunks of the next pass: neighbours joined two by two. *)
Fixpoint pair_up (cs : list (list A)) : list (list A) :=
  match cs with
  | c1 :: c2 :: cs' => (c1 ++ c2) :: pair_up cs'
  | _ => cs
  end.

(** One pass: neighbouring chunks are merged two by two. *)
Fixpoint merge_pairs (cs : list (list A)) : list (list A) :=
  match cs with
  | c1 :: c2 :: cs' => merge_list c1 c2 :: merge_pairs cs'
  | _ => cs
  end.

(** The passes of width [w], [2w], [4w], ... while the width is below
    the length [m] of the array; [fuel] bounds their number. *)
Fixpoint merge_passes (fuel : nat) (w m : nat) (cs : list (list A))
  : list (list A) :=
  match fuel with
  | O => cs
  | S f =>
      if decide (w < m)%nat then merge_passes f (w + w) m (merge_pairs cs)
      else cs
  end.

(** The bottom-up merge sort of [list.hpp]: chunks of one element, then
    the passes; as many passes as there are elements are more than
    enough. *)
Definition bottom_up_sort (l : list A) : list A :=
  concat (merge_passes (length l) 1 (length l) ((λ x, [x]) <$> l)).

End Sequences.

Arguments merge_list : simpl never.

(** ** The stores the operations leave *)

Section Stores.

Context {T : Type}.
Variable lt : T → T → bool.
Variable eqb : T → T → bool.
Variable alloc : gmap N (node T) → N.

Abbreviation state := (state T).
Abbreviation M := (M T).

(** The store after [erase(x); delete x; --n]. *)
Definition unlinked (this A x C : N) (n' : Z) (σ : state) : state :=
  upd_n this n' (free_node x (upd_prev C A (upd_next A C σ))).

(** The store after [cur = new node(value); insert(pos, cur); ++n]. *)
Definition linked (this P pos cur : N) (value : T) (n' : Z) (σ : state) : state :=
  upd_n this n'
    (upd_prev pos cur (upd_next P cur (upd_prev cur P (upd_next cur pos
       (put_node cur (Node null null (Some value)) σ))))).

(** The [next] fields along [l] lead to [b]. *)
Fixpoint npath (σ : state) (l : list N) (b : N) : Prop :=
  match l with
  | [] => True
  | x :: l' => nxt σ x = Some (default b (head l')) ∧ npath σ l' b
  end.

(** The store after the nodes [l] have been deleted. *)
Definition free_all (l : list N) (σ : state) : state :=
  foldl (λ σ x, free_node x σ) σ l.

(** The store after [clear()]. *)
Definition cleared (this s : N) (l : list N) (σ : state) : state :=
  match l with
  | [] => upd_next s s (upd_prev s s σ)
  | _ => upd_n this 0 (upd_next s s (upd_prev s s (free_all l σ)))
  end.

(** A node with its two links exchanged. *)
Definition swap_links (nd : node T) : node T :=
  Node (next nd) (prev nd) (val nd).

(** What [unique] leaves of the items: [uniq_from a l] keeps [a], drops
    the items that follow it while their value equals the value of [a],
    and goes on from the first one that differs. *)
Fixpoint uniq_from (a : N * T) (l : list (N * T)) : list (N * T) :=
  match l with
  | [] => [a]
  | b :: l' => if eqb a.2 b.2 then uniq_from a l' else a :: uniq_from b l'
  end.

Definition unique_list (l : list (N * T)) : list (N * T) :=
  match l with
  | [] => []
  | a :: l' => uniq_from a l'
  end.

(** The items left after the run of values equal to [v] that starts [l]. *)
Fixpoint drop_eq (v : T) (l : list (N * T)) : list (N * T) :=
  match l with
  | [] => []
  | b :: l' => if eqb v b.2 then drop_eq v l' else l
  end.

(** The store [σ'] holds the ring of [this] with the items [result],
    which are among [items]; the nodes taken out are destroyed and every
    node outside the ring, like every other list object, is as in [σ]. *)
Definition shrunk (σ σ' : state) (this s : N) (items result : list (N * T)) : Prop :=
  rep σ' this s result ∧
  result ⊆ items ∧
  (∀ y, y ∉ s :: items.*1 → deref σ' y = deref σ y) ∧
  (∀ y, y ∈ items.*1 → y ∉ result.*1 → deref σ' y = None) ∧
  (∀ c, c ≠ this → lderef σ' c = lderef σ c).

(** The comparison of two items by their values. *)
Definition lt_item (e1 e2 : N * T) : bool := lt e1.2 e2.2.

(** The result of a [merge] of [this] and [other]: both rings are as
    stated, no value slot has changed, and what belongs to neither ring is
    untouched. *)
Definition merged (σ σ' : state) (this s other os : N)
    (l1 l2 result : list (N * T)) : Prop :=
  rep σ' this s result ∧
  rep σ' other os [] ∧
  (∀ y, vl σ' y = vl σ y) ∧
  (∀ y, y ∉ s :: l1.*1 → y ∉ os :: l2.*1 → deref σ' y = deref σ y) ∧
  (∀ c, c ≠ this → c ≠ other → lderef σ' c = lderef σ c).

(** Every node of [l] holds its value. *)
Definition valued (σ : state) (l : list (N * T)) : Prop :=
  Forall (λ e, vl σ e.1 = Some (Some e.2)) l.

(** The state after [sort]: the ring of [this] holds the same nodes in
    the order computed by the merge passes, no value slot and no list
    object has changed, and what is outside the ring is untouched. *)
Definition sorted_state (σ σ' : state) (this s : N) (items : list (N * T)) : Prop :=
  rep σ' this s (bottom_up_sort lt_item items) ∧
  (∀ y, vl σ' y = vl σ y) ∧
  (∀ c, lderef σ' c = lderef σ c) ∧
  (∀ y, y ∉ s :: items.*1 → deref σ' y = deref σ y).

(** The wording of the specification: of every maximal run of
    consecutive equal values the first element stays; an element stays
    when it is the first of the list or differs from the element just
    before it. *)
Fixpoint keep_changes (p : N * T) (l : list (N * T)) : list (N * T) :=
  match l with
  | [] => []
  | e :: l' =>
      if eqb p.2 e.2 then keep_changes e l' else e :: keep_changes e l'
  end.

Definition first_of_runs (l : list (N * T)) : list (N * T) :=
  match l with
  | [] => []
  | e :: l' => e :: keep_changes e l'
  end.

(** The state invariant as the specification words it, read on the
    store: the list object is live; following [next] from the sentinel
    comes back to the sentinel, past the data nodes [l]; for every node
    [x] of the ring, [x.next.prev = x] and [x.prev.next = x]; the count is
    the number of data nodes; and the count is zero exactly when the
    sentinel is its own successor. *)
Definition ring_count_inv (σ : state) (this : N) : Prop :=
  ∃ s n l,
    lderef σ this = Some (LObj s n) ∧
    forward σ s = Some l ∧
    n = Z.of_nat (length l) ∧
    (∀ x, x ∈ s :: l →
       ∃ y z, nxt σ x = Some y ∧ prv σ y = Some x ∧
              prv σ x = Some z ∧ nxt σ z = Some x) ∧
    (n = 0 ↔ nxt σ s = Some s).

(** The mutating operations on one container. *)
Inductive op :=
| op_insert (pos : iterator) (value : T)
| op_erase (pos : iterator)
| op_push_back (value : T)
| op_push_front (value : T)
| op_pop_back
| op_pop_front
| op_clear
| op_sort
| op_reverse
| op_unique.

Definition run_op (this : N) (o : op) : M unit :=
  match o with
  | op_insert pos value => insert alloc this pos value;; ret tt
  | op_erase pos => erase this pos;; ret tt
  | op_push_back value => push_back alloc this value
  | op_push_front value => push_front alloc this value
  | op_pop_back => pop_back this
  | op_pop_front => pop_front this
  | op_clear => clear this
  | op_sort => sort lt this
  | op_reverse => reverse this
  | op_unique => unique eqb this
  end.

(** A position handed to [insert] or [erase] that carries this
    container as its owner and is not null denotes a node of its ring. *)
Definition op_ok (σ : state) (this : N) (o : op) : Prop :=
  match o with
  | op_insert pos _ | op_erase pos =>
      it_owner pos = this → it_p pos ≠ null → valid σ pos
  | _ => True
  end.

End Stores.

Arguments free_all : simpl never.

(** ** Concrete stores

    The representation predicate is decidable, so that it can be
    evaluated on a concrete store; such stores are built by constructing
    containers of [Z] and pushing values to their backs, with the
    allocator [alloc_above]. *)

#[global] Instance lobj_eq_dec : EqDecision lobj.
Proof. solve_decision. Defined.

#[global] Instance link_dec {T} (σ : state T) x y : Decision (link σ x y).
Proof. unfold link. apply _. Defined.

#[global] Instance seg_dec {T} (σ : state T) a q b : Decision (seg σ a q b).
Proof. revert a. induction q as [|x q IH]; intros a; simpl; apply _. Defined.

#[global] Instance rep_dec {T} `{EqDecision T} (σ : state T) this s items :
  Decision (rep σ this s items).
Proof. unfold rep, ring. apply _. Defined.

(** The store left by a computation, whatever its outcome. *)
Definition store_of {T A} (σ : state T) (r : res T A) : state T :=
  match r with
  | Ok _ σ' | Throw _ σ' => σ'
  | _ => σ
  end.

(** The store in which the list object at [this] has been constructed
    and the values [vs] pushed to its back, one after the other. *)
Definition built (this : N) (vs : list Z) (σ : state Z) : state Z :=
  foldl (λ σ v, store_of σ (push_back alloc_above this v σ))
        (store_of σ (list_ctor alloc_above this σ)) vs.

Definition empty_store : state Z := State ∅ ∅.

(** * Properties of the stable merge and of the stable sort *)

Section Order.
Context {A : Type} (ltA : A → A → bool).
Implicit Types (a b x : A) (l : list A) (p : A → bool).

Lemma merge_list_nil_r l : merge_list ltA l [] = l.
Proof. by destruct l. Qed.

Lemma merge_list_cons a l1 b l2 :
  merge_list ltA (a :: l1) (b :: l2) =
  if ltA b a then b :: merge_list ltA (a :: l1) l2
  else a :: merge_list ltA l1 (b :: l2).
Proof. done. Qed.

Lemma span_app p l : (span p l).1 ++ (span p l).2 = l.
Proof.
  induction l as [|a l IH]; simpl; [done|].
  destruct (p a); simpl; [by rewrite IH|done].
Qed.

Lemma span_fst_Forall p l : Forall (λ a, p a = true) (span p l).1.
Proof.
  induction l as [|a l IH]; simpl; [done|].
  destruct (p a) eqn:E; simpl; [by constructor|done].
Qed.

Lemma span_snd_head p l a : head (span p l).2 = Some a → p a = false.
Proof.
  induction l as [|b l IH]; simpl; [done|].
  destruct (p b) eqn:E; simpl; [done|]. by intros [= <-].
Qed.

(** The elements of the left list that the head of the right list is not
    less than come first. *)
Lemma merge_list_skip l1 b l2 :
  merge_list ltA l1 (b :: l2) =
  (span (λ a, negb (ltA b a)) l1).1 ++
  merge_list ltA (span (λ a, negb (ltA b a)) l1).2 (b :: l2).
Proof.
  induction l1 as [|a l1 IH]; [done|].
  rewrite merge_list_cons. simpl span.
  destruct (ltA b a) eqn:E; simpl; [by rewrite merge_list_cons, E|].
  by rewrite IH.
Qed.

(** The elements of the right list that are less than the head of the
    left list come first. *)
Lemma merge_list_block a l1 l2 :
  merge_list ltA (a :: l1) l2 =
  (span (λ b, ltA b a) l2).1 ++ merge_list ltA (a :: l1) (span (λ b, ltA b a) l2).2.
Proof.
  induction l2 as [|b l2 IH]; [done|].
  rewrite merge_list_cons. simpl span.
  destruct (ltA b a) eqn:E; simpl.
  - by rewrite IH.
  - by rewrite merge_list_cons, E.
Qed.

Lemma merge_list_length l1 l2 :
  length (merge_list ltA l1 l2) = (length l1 + length l2)%nat.
Proof.
  revert l2. induction l1 as [|a l1 IH1]; intros l2; [done|].
  induction l2 as [|b l2 IH2]; [simpl; lia|].
  rewrite merge_list_cons. destruct (ltA b a); simpl.
  - rewrite IH2. simpl. lia.
  - rewrite IH1. simpl. lia.
Qed.

Lemma merge_list_perm l1 l2 : merge_list ltA l1 l2 ≡ₚ l1 ++ l2.
Proof.
  revert l2. induction l1 as [|a l1 IH1]; intros l2; [done|].
  induction l2 as [|b l2 IH2]; [by rewrite app_nil_r|].
  rewrite merge_list_cons. destruct (ltA b a).
  - rewrite IH2. by rewrite (Permutation_middle (a :: l1) l2 b).
  - by rewrite IH1.
Qed.

Lemma sinsert_split x l :
  ∃ l1 l2, l = l1 ++ l2 ∧ sinsert ltA x l = l1 ++ x :: l2 ∧
           Forall (λ y, ltA y x = true) l1 ∧
           (∀ y, head l2 = Some y → ltA y x = false).
Proof.
  induction l as [|y l (l1 & l2 & -> & Hi & Hl1 & Hl2)]; simpl.
  - by exists [], [].
  - destruct (ltA y x) eqn:E.
    + exists (y :: l1), l2. rewrite Hi. repeat split; try done. by constructor.
    + exists [], (y :: l1 ++ l2). repeat split; try done.
      simpl. by intros ? [= <-].
Qed.

Lemma sinsert_perm x l : sinsert ltA x l ≡ₚ x :: l.
Proof.
  destruct (sinsert_split x l) as (l1 & l2 & -> & -> & _).
  by rewrite Permutation_middle.
Qed.

Lemma ssort_perm l : ssort ltA l ≡ₚ l.
Proof.
  induction l as [|x l IH]; simpl; [done|]. by rewrite sinsert_perm, IH.
Qed.

Lemma ssort_length l : length (ssort ltA l) = length l.
Proof. by rewrite ssort_perm. Qed.

Lemma sinsert_merge x l1 l2 :
  (∀ a b c, ltA b a = false → ltA c b = false → ltA c a = false) →
  (∀ a b, ltA a b = true → ltA b a = false) →
  sinsert ltA x (merge_list ltA l1 l2) = merge_list ltA (sinsert ltA x l1) l2.
Proof.
  intros Htrans Hasym.
  assert (∀ a b c, ltA a b = true → ltA b c = true → ltA a c = true) as Hlt.
  { intros a b c Hab Hbc. destruct (ltA a c) eqn:E; [done|].
    apply Hasym in Hbc. rewrite (Htrans _ _ _ Hbc E) in Hab. done. }
  revert l2. induction l1 as [|a l1 IH1]; intros l2.
  - change (merge_list ltA [] l2) with l2.
    induction l2 as [|b l2 IH2]; [done|].
    simpl. rewrite merge_list_cons.
    destruct (ltA b x); [by rewrite IH2|done].
  - induction l2 as [|b l2 IH2]; [by rewrite !merge_list_nil_r|].
    rewrite merge_list_cons. destruct (ltA b a) eqn:Eba.
    + simpl sinsert at 1. destruct (ltA b x) eqn:Ebx.
      * rewrite IH2. simpl sinsert. destruct (ltA a x) eqn:Eax.
        -- by rewrite merge_list_cons, Eba.
        -- by rewrite merge_list_cons, Ebx.
      * simpl sinsert. destruct (ltA a x) eqn:Eax.
        -- by rewrite (Hlt _ _ _ Eba Eax) in Ebx.
        -- by rewrite !merge_list_cons, Ebx, Eba.
    + simpl sinsert. destruct (ltA a x) eqn:Eax.
      * rewrite merge_list_cons, Eba. by rewrite <-IH1.
      * rewrite merge_list_cons.
        rewrite (Htrans _ _ _ Eax Eba). by rewrite merge_list_cons, Eba.
Qed.

End Order.

Section StrictWeakOrder.
Context {A : Type} (ltA : A → A → bool).

(** [ltA] is a strict weak order: asymmetric, and "not less" is
    transitive. *)
Hypothesis ltA_le_trans :
  ∀ a b c, ltA b a = false → ltA c b = false → ltA c a = false.
Hypothesis ltA_asym : ∀ a b, ltA a b = true → ltA b a = false.

Lemma merge_ssort l1 l2 :
  merge_list ltA (ssort ltA l1) (ssort ltA l2) = ssort ltA (l1 ++ l2).
Proof.
  induction l1 as [|x l1 IH]; simpl; [done|].
  by rewrite <-IH, sinsert_merge.
Qed.

Lemma sinsert_sorted x l : sorted ltA l → sorted ltA (sinsert ltA x l).
Proof.
  induction l as [|y l IH]; simpl; [done|].
  intros [Hy Hl]. destruct (ltA y x) eqn:E; simpl.
  - split; [|by apply IH].
    rewrite Forall_forall in Hy |- *. intros z Hz.
    rewrite sinsert_perm in Hz. apply elem_of_cons in Hz as [->|Hz].
    + by apply ltA_asym.
    + by apply Hy.
  - split; [|done]. constructor; [done|].
    rewrite Forall_forall in Hy |- *. intros z Hz.
    eapply ltA_le_trans; [done|by apply Hy].
Qed.

Lemma ssort_sorted l : sorted ltA (ssort ltA l).
Proof. induction l as [|x l IH]; simpl; [done|]. by apply sinsert_sorted. Qed.

Lemma ssort_id l : sorted ltA l → ssort ltA l = l.
Proof.
  induction l as [|x l IH]; simpl; [done|].
  intros [Hx Hl]. rewrite IH by done.
  destruct l as [|y l]; simpl; [done|].
  apply Forall_cons in Hx as [-> _]. done.
Qed.

Lemma ssort_idempotent l : ssort ltA (ssort ltA l) = ssort ltA l.
Proof. apply ssort_id, ssort_sorted. Qed.

Lemma merge_sorted l1 l2 :
  sorted ltA l1 → sorted ltA l2 →
  merge_list ltA l1 l2 = ssort ltA (l1 ++ l2).
Proof.
  intros H1 H2. rewrite <-merge_ssort. by rewrite !ssort_id.
Qed.

End StrictWeakOrder.

Section Stable.
Context {A : Type} (ltA : A → A → bool).

Lemma before_cons_here (a b : A) l : b ∈ l → before a b (a :: l).
Proof.
  intros (l2 & l3 & ->)%list_elem_of_split. by exists [], l2, l3.
Qed.

Lemma before_cons (a b x : A) l : before a b l → before a b (x :: l).
Proof. intros (l1 & l2 & l3 & ->). by exists (x :: l1), l2, l3. Qed.

Lemma before_cons_inv (a b x : A) l :
  before a b (x :: l) → (a = x ∧ b ∈ l) ∨ before a b l.
Proof.
  intros ([|y l1] & l2 & l3 & Heq); simpl in Heq.
  - injection Heq as -> ->. left. split; [done|].
    apply elem_of_app. right. by left.
  - injection Heq as -> ->. right. by exists l1, l2, l3.
Qed.

Lemma before_app_l (a b : A) l k : before a b l → before a b (l ++ k).
Proof.
  intros (l1 & l2 & l3 & ->). exists l1, l2, (l3 ++ k).
  rewrite <-app_assoc. simpl. by rewrite <-app_assoc.
Qed.

Lemma before_app_r (a b : A) l k : before a b k → before a b (l ++ k).
Proof.
  intros (l1 & l2 & l3 & ->). exists (l ++ l1), l2, l3.
  by rewrite <-app_assoc.
Qed.

Lemma before_app_lr (a b : A) l k : a ∈ l → b ∈ k → before a b (l ++ k).
Proof.
  intros (l1 & l2 & ->)%list_elem_of_split (k1 & k2 & ->)%list_elem_of_split.
  exists l1, (l2 ++ k1), k2. rewrite <-app_assoc. simpl.
  by rewrite <-app_assoc.
Qed.

Lemma before_app_inv (a b : A) l k :
  before a b (l ++ k) → before a b l ∨ before a b k ∨ (a ∈ l ∧ b ∈ k).
Proof.
  induction l as [|x l IH]; simpl; [by right; left|].
  intros [[-> Hb]|H]%before_cons_inv.
  - apply elem_of_app in Hb as [Hb|Hb].
    + left. by apply before_cons_here.
    + right. right. split; [by left|done].
  - destruct (IH H) as [?|[?|[? ?]]].
    + left. by apply before_cons.
    + by right; left.
    + right. right. split; [by right|done].
Qed.

Lemma before_insert (a b x : A) l1 l2 :
  before a b (l1 ++ l2) → before a b (l1 ++ x :: l2).
Proof.
  intros [H|[H|[Ha Hb]]]%before_app_inv.
  - by apply before_app_l.
  - by apply before_app_r, before_cons.
  - apply before_app_lr; [done|by right].
Qed.

(** The stable sort keeps the order of two elements neither of which is
    less than the other. *)
Lemma ssort_stable (a b : A) l :
  before a b l → ltA b a = false → before a b (ssort ltA l).
Proof.
  intros Hb Hba. induction l as [|x l IH]; simpl.
  - destruct Hb as ([|??] & ? & ? & ?); done.
  - destruct (sinsert_split ltA x (ssort ltA l)) as (l1 & l2 & Hs & -> & Hl1 & _).
    apply before_cons_inv in Hb as [[-> Hb]|Hb].
    + rewrite <-(ssort_perm ltA), Hs in Hb.
      apply elem_of_app in Hb as [Hb|Hb].
      * rewrite Forall_forall in Hl1. rewrite (Hl1 _ Hb) in Hba. done.
      * by apply before_app_r, before_cons_here.
    + apply before_insert. rewrite <-Hs. by apply IH.
Qed.

End Stable.

(** ** The passes of the bottom-up merge sort

    Before the pass of width [w] the array is a sequence of chunks, each
    sorted, all of length [w] but the last, which is not empty and at most
    [w] long.  The pass merges the chunks two by two. *)

Section Chunks.
Context {A : Type} (ltA : A → A → bool).
Implicit Types (l : list A) (cs : list (list A)).

Lemma pair_up_ind (P : list (list A) → Prop) :
  P [] → (∀ c, P [c]) → (∀ c1 c2 cs, P cs → P (c1 :: c2 :: cs)) →
  ∀ cs, P cs.
Proof.
  intros H0 H1 H2 cs.
  assert (P cs ∧ ∀ c, P (c :: cs)) as [? _]; [|done].
  induction cs as [|c cs [IH1 IH2]]; [by split|].
  split; [apply IH2|]. intros c'. by apply H2.
Qed.

Lemma pair_up_concat cs : concat (pair_up cs) = concat cs.
Proof.
  induction cs as [|c|c1 c2 cs IH] using pair_up_ind; simpl; [done..|].
  by rewrite IH, app_assoc.
Qed.

Lemma chunks_ok_nonempty w cs : chunks_ok w cs → cs ≠ [] → concat cs ≠ [].
Proof.
  induction cs as [|c cs IH]; [done|]. intros H _.
  destruct cs as [|c' cs].
  - simpl in *. destruct c; simpl in *; [lia|done].
  - destruct H as [_ H]. specialize (IH H).
    change (concat (c :: c' :: cs)) with (c ++ concat (c' :: cs)).
    destruct (concat (c' :: cs)); [by destruct IH|]. by destruct c.
Qed.

Lemma chunks_ok_pair_up w cs :
  chunks_ok w cs → chunks_ok (w + w) (pair_up cs).
Proof.
  induction cs as [|c|c1 c2 cs IH] using pair_up_ind; simpl; [done|lia|].
  intros [H1 H2]. destruct cs as [|c3 cs].
  - simpl. rewrite length_app. lia.
  - destruct H2 as [H2 H3]. specialize (IH H3).
    assert (pair_up (c3 :: cs) ≠ []) as Hne by (by destruct cs).
    destruct (pair_up (c3 :: cs)); [done|].
    split; [|done]. rewrite length_app. lia.
Qed.

Lemma chunks_ok_single w cs :
  chunks_ok w cs → cs ≠ [] → (length (concat cs) ≤ w)%nat → cs = [concat cs].
Proof.
  destruct cs as [|c [|c' cs]]; simpl; [done| |].
  - intros _ _ _. by rewrite app_nil_r.
  - intros [H1 H2] _ Hlen. exfalso.
    pose proof (chunks_ok_nonempty w (c' :: cs) H2) as Hne.
    rewrite length_app in Hlen.
    destruct (concat (c' :: cs)) eqn:E; [by apply Hne|].
    simpl in E. rewrite E in Hlen. simpl in Hlen. lia.
Qed.

Lemma chunks_ok_singletons l : chunks_ok 1 ((λ x, [x]) <$> l).
Proof.
  induction l as [|x [|y l] IH]; simpl; [done|lia|]. split; [done|]. exact IH.
Qed.

Lemma concat_singletons l : concat ((λ x : A, [x]) <$> l) = l.
Proof. induction l as [|x l IH]; simpl; [done|]. f_equal. exact IH. Qed.

Lemma concat_ssort_singletons l :
  concat (ssort ltA <$> ((λ x : A, [x]) <$> l)) = l.
Proof. induction l as [|x l IH]; simpl; [done|]. f_equal. exact IH. Qed.

Lemma concat_ssort_length cs :
  length (concat (ssort ltA <$> cs)) = length (concat cs).
Proof.
  induction cs as [|c cs IH]; simpl; [done|].
  rewrite !length_app, ssort_length. f_equal. exact IH.
Qed.

Lemma concat_ssort_perm cs : concat (ssort ltA <$> cs) ≡ₚ concat cs.
Proof.
  induction cs as [|c cs IH]; simpl; [done|]. rewrite ssort_perm. f_equiv. exact IH.
Qed.

End Chunks.

(** ** What the passes compute, for any comparison *)

Section MergePasses.
Context {A : Type} (ltA : A → A → bool).
Implicit Types (l : list A) (cs : list (list A)).

Lemma merge_pairs_perm cs : concat (merge_pairs ltA cs) ≡ₚ concat cs.
Proof.
  induction cs as [|c|c1 c2 cs IH] using pair_up_ind; simpl; [done..|].
  by rewrite merge_list_perm, IH, app_assoc.
Qed.

Lemma merge_pairs_length cs : length (concat (merge_pairs ltA cs)) = length (concat cs).
Proof. by rewrite merge_pairs_perm. Qed.

Lemma merge_pairs_nonempty cs : cs ≠ [] → merge_pairs ltA cs ≠ [].
Proof. by destruct cs as [|c1 [|c2 cs]]. Qed.

Lemma chunks_ok_merge_pairs w cs :
  chunks_ok w cs → chunks_ok (w + w) (merge_pairs ltA cs).
Proof.
  induction cs as [|c|c1 c2 cs IH] using pair_up_ind; simpl; [done|lia|].
  intros [H1 H2]. destruct cs as [|c3 cs].
  - simpl. rewrite merge_list_length. lia.
  - destruct H2 as [H2 H3]. specialize (IH H3).
    pose proof (merge_pairs_nonempty (c3 :: cs)) as Hne.
    destruct (merge_pairs ltA (c3 :: cs)); [by destruct Hne|].
    split; [|done]. rewrite merge_list_length. lia.
Qed.

Lemma merge_passes_perm fuel w m cs :
  concat (merge_passes ltA fuel w m cs) ≡ₚ concat cs.
Proof.
  revert w cs. induction fuel as [|fuel IH]; intros w cs; simpl; [done|].
  case_decide; [|done]. by rewrite IH, merge_pairs_perm.
Qed.

Lemma bottom_up_sort_perm l : bottom_up_sort ltA l ≡ₚ l.
Proof.
  unfold bottom_up_sort. by rewrite merge_passes_perm, concat_singletons.
Qed.

Lemma bottom_up_sort_length l : length (bottom_up_sort ltA l) = length l.
Proof. by rewrite bottom_up_sort_perm. Qed.

Lemma merge_passes_exit fuel w m cs :
  (m ≤ w)%nat → merge_passes ltA fuel w m cs = cs.
Proof. intros H. destruct fuel; simpl; [done|]. by rewrite decide_False by lia. Qed.

Lemma merge_passes_step fuel w m cs :
  (w < m)%nat →
  merge_passes ltA (S fuel) w m cs = merge_passes ltA fuel (w + w) m (merge_pairs ltA cs).
Proof. intros H. simpl. by rewrite decide_True. Qed.

(** Once the passes suffice, more fuel changes nothing. *)
Lemma merge_passes_fuel f1 f2 w m cs :
  (0 < w)%nat →
  Z.of_nat m ≤ Z.of_nat w * 2 ^ Z.of_nat f1 →
  Z.of_nat m ≤ Z.of_nat w * 2 ^ Z.of_nat f2 →
  merge_passes ltA f1 w m cs = merge_passes ltA f2 w m cs.
Proof.
  revert f2 w cs. induction f1 as [|f1 IH]; intros f2 w cs Hw H1 H2.
  - rewrite !merge_passes_exit by (simpl in H1; lia). done.
  - destruct (decide (w < m)%nat) as [Hlt|Hge].
    + destruct f2 as [|f2]; [simpl in H2; lia|].
      rewrite !merge_passes_step by done.
      rewrite Nat2Z.inj_succ, Z.pow_succ_r in H1, H2 by lia.
      apply IH; lia.
    + rewrite !merge_passes_exit by lia. done.
Qed.

Lemma bottom_up_sort_eq l :
  bottom_up_sort ltA l =
  concat (merge_passes ltA (length l) 1 (length l) ((λ x, [x]) <$> l)).
Proof. done. Qed.

Lemma pow2_ge (n : nat) : Z.of_nat n ≤ 1 * 2 ^ Z.of_nat n.
Proof. pose proof (Z.pow_gt_lin_r 2 (Z.of_nat n)). lia. Qed.

Lemma bottom_up_sort_small l : (length l ≤ 1)%nat → bottom_up_sort ltA l = l.
Proof.
  intros H. unfold bottom_up_sort. rewrite merge_passes_exit by done.
  apply concat_singletons.
Qed.

(** When [<] is a strict weak order, the passes sort. *)
Section Sorting.
Hypothesis ltA_le_trans :
  ∀ a b c, ltA b a = false → ltA c b = false → ltA c a = false.
Hypothesis ltA_asym : ∀ a b, ltA a b = true → ltA b a = false.

Lemma merge_pairs_ssort cs :
  merge_pairs ltA (ssort ltA <$> cs) = ssort ltA <$> pair_up cs.
Proof.
  induction cs as [|c|c1 c2 cs IH] using pair_up_ind; [done..|].
  change (merge_pairs ltA (ssort ltA <$> c1 :: c2 :: cs))
    with (merge_list ltA (ssort ltA c1) (ssort ltA c2)
            :: merge_pairs ltA (ssort ltA <$> cs)).
  rewrite IH, merge_ssort by done. done.
Qed.

Lemma merge_passes_ssort fuel w cs :
  chunks_ok w cs → cs ≠ [] → (0 < w)%nat →
  Z.of_nat (length (concat cs)) ≤ Z.of_nat w * 2 ^ Z.of_nat fuel →
  concat (merge_passes ltA fuel w (length (concat cs)) (ssort ltA <$> cs))
  = ssort ltA (concat cs).
Proof.
  revert w cs. induction fuel as [|fuel IH]; intros w cs Hok Hne Hw Hlen.
  - rewrite merge_passes_exit by (simpl in Hlen; lia).
    rewrite (chunks_ok_single w cs Hok Hne) at 1 by (simpl in Hlen; lia).
    simpl. by rewrite app_nil_r.
  - destruct (decide (w < length (concat cs))%nat) as [Hlt|Hlt].
    + rewrite merge_passes_step by done.
      rewrite merge_pairs_ssort, <-(pair_up_concat cs).
      apply IH.
      * by apply chunks_ok_pair_up.
      * by destruct cs as [|c1 [|c2 cs]].
      * lia.
      * rewrite pair_up_concat.
        rewrite Nat2Z.inj_succ, Z.pow_succ_r in Hlen by lia. lia.
    + rewrite merge_passes_exit by lia.
      rewrite (chunks_ok_single w cs Hok Hne) at 1 by lia.
      simpl. by rewrite app_nil_r.
Qed.

Lemma bottom_up_sort_ssort l : bottom_up_sort ltA l = ssort ltA l.
Proof.
  destruct l as [|x l]; [done|].
  unfold bottom_up_sort.
  pose proof (merge_passes_ssort (length (x :: l)) 1 ((λ e, [e]) <$> x :: l)) as H.
  rewrite concat_singletons in H.
  assert ((ssort ltA <$> ((λ e : A, [e]) <$> x :: l)) = ((λ e, [e]) <$> x :: l)) as E.
  { rewrite <-list_fmap_compose. by apply list_fmap_ext. }
  rewrite E in H. apply H.
  - apply chunks_ok_singletons.
  - done.
  - lia.
  - apply pow2_ge.
Qed.

End Sorting.

End MergePasses.

Arguments merge_pairs : simpl never.
Arguments merge_passes : simpl never.
Arguments bottom_up_sort : simpl never.

Section Proofs.
#[local] Set Default Proof Using "Type".

Context {T : Type}.
Variable lt : T → T → bool.
Variable eqb : T → T → bool.
Variable alloc : gmap N (node T) → N.

Abbreviation state := (state T).
Abbreviation M := (M T).

Implicit Types (σ : state) (x y a b s this : N) (items : list (N * T)).

(** ** Reading the store after an update *)

Lemma deref_upd_next σ x v y :
  deref (upd_next x v σ) y =
  if decide (x = y) then (λ nd, Node (prev nd) v (val nd)) <$> deref σ y
  else deref σ y.
Proof.
  unfold deref, upd_next, upd_node; simpl.
  destruct (decide (y = null)); [by case_decide|].
  rewrite lookup_alter. case_decide; by subst.
Qed.

Lemma deref_upd_prev σ x v y :
  deref (upd_prev x v σ) y =
  if decide (x = y) then (λ nd, Node v (next nd) (val nd)) <$> deref σ y
  else deref σ y.
Proof.
  unfold deref, upd_prev, upd_node; simpl.
  destruct (decide (y = null)); [by case_decide|].
  rewrite lookup_alter. case_decide; by subst.
Qed.

Lemma deref_upd_n σ c v y : deref (upd_n c v σ) y = deref σ y.
Proof. done. Qed.

Lemma deref_free_node σ x y :
  deref (free_node x σ) y = if decide (x = y) then None else deref σ y.
Proof.
  unfold deref, free_node; simpl.
  destruct (decide (y = null)); [by case_decide|].
  rewrite lookup_delete. by case_decide.
Qed.

Lemma deref_put_node σ x nd y :
  x ≠ null →
  deref (put_node x nd σ) y = if decide (x = y) then Some nd else deref σ y.
Proof.
  intros Hx. unfold deref, put_node; simpl.
  destruct (decide (y = null)); [case_decide; congruence|].
  rewrite lookup_insert. by case_decide.
Qed.

Lemma deref_put_list σ c lo y : deref (put_list c lo σ) y = deref σ y.
Proof. done. Qed.

Lemma lderef_upd_node σ f x c : lderef (upd_node f x σ) c = lderef σ c.
Proof. done. Qed.
Lemma lderef_upd_next σ x v c : lderef (upd_next x v σ) c = lderef σ c.
Proof. done. Qed.
Lemma lderef_upd_prev σ x v c : lderef (upd_prev x v σ) c = lderef σ c.
Proof. done. Qed.
Lemma lderef_free_node σ x c : lderef (free_node x σ) c = lderef σ c.
Proof. done. Qed.
Lemma lderef_put_node σ x nd c : lderef (put_node x nd σ) c = lderef σ c.
Proof. done. Qed.

Lemma lderef_upd_n σ c v c' :
  lderef (upd_n c v σ) c' =
  if decide (c = c') then (λ lo, LObj (list_s lo) v) <$> lderef σ c'
  else lderef σ c'.
Proof.
  unfold lderef, upd_n; simpl.
  destruct (decide (c' = null)); [by case_decide|].
  rewrite lookup_alter. case_decide; by subst.
Qed.

Lemma lderef_put_list σ c lo c' :
  c ≠ null →
  lderef (put_list c lo σ) c' = if decide (c = c') then Some lo else lderef σ c'.
Proof.
  intros Hc. unfold lderef, put_list; simpl.
  destruct (decide (c' = null)); [case_decide; congruence|].
  rewrite lookup_insert. by case_decide.
Qed.

Lemma nxt_upd_next σ x v y :
  nxt (upd_next x v σ) y = if decide (x = y) then (λ _, v) <$> nxt σ y else nxt σ y.
Proof.
  unfold nxt. rewrite deref_upd_next. case_decide; [|done].
  by destruct (deref σ y).
Qed.
Lemma nxt_upd_prev σ x v y : nxt (upd_prev x v σ) y = nxt σ y.
Proof.
  unfold nxt. rewrite deref_upd_prev. case_decide; [|done].
  by destruct (deref σ y).
Qed.
Lemma prv_upd_prev σ x v y :
  prv (upd_prev x v σ) y = if decide (x = y) then (λ _, v) <$> prv σ y else prv σ y.
Proof.
  unfold prv. rewrite deref_upd_prev. case_decide; [|done].
  by destruct (deref σ y).
Qed.
Lemma prv_upd_next σ x v y : prv (upd_next x v σ) y = prv σ y.
Proof.
  unfold prv. rewrite deref_upd_next. case_decide; [|done].
  by destruct (deref σ y).
Qed.
Lemma vl_upd_next σ x v y : vl (upd_next x v σ) y = vl σ y.
Proof.
  unfold vl. rewrite deref_upd_next. case_decide; [|done].
  by destruct (deref σ y).
Qed.
Lemma vl_upd_prev σ x v y : vl (upd_prev x v σ) y = vl σ y.
Proof.
  unfold vl. rewrite deref_upd_prev. case_decide; [|done].
  by destruct (deref σ y).
Qed.
Lemma nxt_upd_n σ c v y : nxt (upd_n c v σ) y = nxt σ y.
Proof. done. Qed.
Lemma prv_upd_n σ c v y : prv (upd_n c v σ) y = prv σ y.
Proof. done. Qed.
Lemma vl_upd_n σ c v y : vl (upd_n c v σ) y = vl σ y.
Proof. done. Qed.
Lemma nxt_put_list σ c lo y : nxt (put_list c lo σ) y = nxt σ y.
Proof. done. Qed.
Lemma prv_put_list σ c lo y : prv (put_list c lo σ) y = prv σ y.
Proof. done. Qed.
Lemma vl_put_list σ c lo y : vl (put_list c lo σ) y = vl σ y.
Proof. done. Qed.
Lemma nxt_free_node σ x y :
  nxt (free_node x σ) y = if decide (x = y) then None else nxt σ y.
Proof. unfold nxt. rewrite deref_free_node. by case_decide. Qed.
Lemma prv_free_node σ x y :
  prv (free_node x σ) y = if decide (x = y) then None else prv σ y.
Proof. unfold prv. rewrite deref_free_node. by case_decide. Qed.
Lemma vl_free_node σ x y :
  vl (free_node x σ) y = if decide (x = y) then None else vl σ y.
Proof. unfold vl. rewrite deref_free_node. by case_decide. Qed.
Lemma nxt_put_node σ x nd y :
  x ≠ null →
  nxt (put_node x nd σ) y = if decide (x = y) then Some (next nd) else nxt σ y.
Proof. intros. unfold nxt. rewrite deref_put_node by done. by case_decide. Qed.
Lemma prv_put_node σ x nd y :
  x ≠ null →
  prv (put_node x nd σ) y = if decide (x = y) then Some (prev nd) else prv σ y.
Proof. intros. unfold prv. rewrite deref_put_node by done. by case_decide. Qed.
Lemma vl_put_node σ x nd y :
  x ≠ null →
  vl (put_node x nd σ) y = if decide (x = y) then Some (val nd) else vl σ y.
Proof. intros. unfold vl. rewrite deref_put_node by done. by case_decide. Qed.

Lemma nxt_is_Some σ x : is_Some (nxt σ x) ↔ is_Some (deref σ x).
Proof. unfold nxt. by rewrite fmap_is_Some. Qed.
Lemma prv_is_Some σ x : is_Some (prv σ x) ↔ is_Some (deref σ x).
Proof. unfold prv. by rewrite fmap_is_Some. Qed.
Lemma vl_is_Some σ x : is_Some (vl σ x) ↔ is_Some (deref σ x).
Proof. unfold vl. by rewrite fmap_is_Some. Qed.

Lemma live_not_null σ x : is_Some (deref σ x) → x ≠ null.
Proof. unfold deref. case_decide; [by intros []|done]. Qed.

Lemma live_lookup σ x : is_Some (deref σ x) → is_Some (nodes σ !! x).
Proof. unfold deref. case_decide; [by intros []|done]. Qed.

(** ** Running the primitives *)

Lemma run_bind {A B} (m : M A) (k : A → M B) σ (r : A) σ' :
  m σ = Ok r σ' → bind m k σ = k r σ'.
Proof. unfold bind. by intros ->. Qed.

Lemma run_bind_throw {A B} (m : M A) (k : A → M B) σ e σ' :
  m σ = Throw e σ' → bind m k σ = Throw e σ'.
Proof. unfold bind. by intros ->. Qed.

Lemma run_bind_undefined {A B} (m : M A) (k : A → M B) σ :
  m σ = Undefined → bind m k σ = Undefined.
Proof. unfold bind. by intros ->. Qed.

Lemma run_ret {A} (r : A) σ : ret r σ = Ok r σ.
Proof. done. Qed.

Lemma bind_assoc {A B C} (m : M A) (k : A → M B) (k' : B → M C) σ :
  bind (bind m k) k' σ = bind m (λ r, bind (k r) k') σ.
Proof. unfold bind. by destruct (m σ). Qed.

Lemma run_get_next σ x y : nxt σ x = Some y → get_next x σ = Ok y σ.
Proof. unfold get_next. by intros ->. Qed.
Lemma run_get_prev σ x y : prv σ x = Some y → get_prev x σ = Ok y σ.
Proof. unfold get_prev. by intros ->. Qed.
Lemma run_get_val σ x v : vl σ x = Some v → get_val x σ = Ok v σ.
Proof. unfold get_val. by intros ->. Qed.
Lemma run_get_value σ x v : vl σ x = Some (Some v) → get_value x σ = Ok v σ.
Proof. intros H. unfold get_value. by rewrite (run_bind _ _ _ _ _ (run_get_val _ _ _ H)). Qed.
Lemma run_set_next σ x v :
  is_Some (deref σ x) → set_next x v σ = Ok tt (upd_next x v σ).
Proof. unfold set_next. by intros [? ->]. Qed.
Lemma run_set_prev σ x v :
  is_Some (deref σ x) → set_prev x v σ = Ok tt (upd_prev x v σ).
Proof. unfold set_prev. by intros [? ->]. Qed.
Lemma run_get_s σ c lo : lderef σ c = Some lo → get_s c σ = Ok (list_s lo) σ.
Proof. unfold get_s. by intros ->. Qed.
Lemma run_get_n σ c lo : lderef σ c = Some lo → get_n c σ = Ok (list_n lo) σ.
Proof. unfold get_n. by intros ->. Qed.
Lemma run_set_n σ c v :
  is_Some (lderef σ c) → set_n c v σ = Ok tt (upd_n c v σ).
Proof. unfold set_n. by intros [? ->]. Qed.
Lemma run_delete_node σ x :
  is_Some (deref σ x) → delete_node x σ = Ok tt (free_node x σ).
Proof.
  intros H. unfold delete_node.
  rewrite decide_False by by eapply live_not_null.
  by destruct (live_lookup _ _ H) as [? ->].
Qed.

(** ** Segments and rings *)

Lemma link_live_l σ x y : link σ x y → is_Some (deref σ x).
Proof. intros [H _]. apply nxt_is_Some. eauto. Qed.
Lemma link_live_r σ x y : link σ x y → is_Some (deref σ y).
Proof. intros [_ H]. apply prv_is_Some. eauto. Qed.

Lemma seg_app σ a q1 x q2 b :
  seg σ a (q1 ++ x :: q2) b ↔ seg σ a q1 x ∧ seg σ x q2 b.
Proof.
  revert a. induction q1 as [|y q1 IH]; intros a; simpl; [done|].
  rewrite IH. tauto.
Qed.

Lemma seg_snoc σ a q x b : seg σ a (q ++ [x]) b ↔ seg σ a q x ∧ link σ x b.
Proof. apply seg_app. Qed.

(** The first and the last link of a segment. *)
Lemma seg_head σ a q b : seg σ a q b → link σ a (default b (head q)).
Proof. destruct q; simpl; tauto. Qed.

Lemma seg_last σ a q b : seg σ a q b → link σ (default a (last q)) b.
Proof.
  destruct q as [|x q _] using rev_ind; [done|].
  rewrite seg_snoc, last_snoc. simpl. tauto.
Qed.

Lemma seg_live σ a q b y : seg σ a q b → y ∈ a :: q ++ [b] → is_Some (deref σ y).
Proof.
  revert a. induction q as [|x q IH]; intros a; simpl.
  - intros Hl. rewrite !elem_of_cons, elem_of_nil.
    intros [->|[->|[]]]; [by eapply link_live_l|by eapply link_live_r].
  - intros [Hl Hs]. rewrite elem_of_cons. intros [->|Hy].
    + by eapply link_live_l.
    + by apply (IH x).
Qed.

(** A segment only depends on the [next] fields of its sources and the
    [prev] fields of its targets. *)
Lemma seg_frame σ σ' a q b :
  seg σ a q b →
  (∀ y, y ∈ a :: q → nxt σ' y = nxt σ y) →
  (∀ y, y ∈ q ++ [b] → prv σ' y = prv σ y) →
  seg σ' a q b.
Proof.
  revert a. induction q as [|x q IH]; intros a; simpl.
  - intros [H1 H2] Hn Hp. split.
    + rewrite Hn; [done|set_solver].
    + rewrite Hp; [done|set_solver].
  - intros [[H1 H2] Hs] Hn Hp. split; [split|].
    + rewrite Hn; [done|set_solver].
    + rewrite Hp; [done|set_solver].
    + apply IH; [done|intros; apply Hn; set_solver|intros; apply Hp; set_solver].
Qed.

(** Liveness of a node after an update. *)
Lemma live_upd_next σ x v y :
  is_Some (deref (upd_next x v σ) y) ↔ is_Some (deref σ y).
Proof. rewrite deref_upd_next. case_decide; [|done]. by rewrite fmap_is_Some. Qed.
Lemma live_upd_prev σ x v y :
  is_Some (deref (upd_prev x v σ) y) ↔ is_Some (deref σ y).
Proof. rewrite deref_upd_prev. case_decide; [|done]. by rewrite fmap_is_Some. Qed.
Lemma live_upd_n σ c v y :
  is_Some (deref (upd_n c v σ) y) ↔ is_Some (deref σ y).
Proof. done. Qed.
Lemma live_put_list σ c lo y :
  is_Some (deref (put_list c lo σ) y) ↔ is_Some (deref σ y).
Proof. done. Qed.
Lemma live_free_node σ x y :
  is_Some (deref (free_node x σ) y) ↔ x ≠ y ∧ is_Some (deref σ y).
Proof.
  rewrite deref_free_node. case_decide; [|tauto].
  split; [by intros []|tauto].
Qed.
Lemma live_put_node σ x nd y :
  x ≠ null →
  is_Some (deref (put_node x nd σ) y) ↔ x = y ∨ is_Some (deref σ y).
Proof.
  intros. rewrite deref_put_node by done. case_decide; [|tauto].
  split; [tauto|eauto].
Qed.
Lemma llive_upd_n σ c v c' :
  is_Some (lderef (upd_n c v σ) c') ↔ is_Some (lderef σ c').
Proof. rewrite lderef_upd_n. case_decide; [|done]. by rewrite fmap_is_Some. Qed.

Create Rewrite HintDb store.
Hint Rewrite nxt_upd_next nxt_upd_prev prv_upd_prev prv_upd_next
  vl_upd_next vl_upd_prev nxt_upd_n prv_upd_n vl_upd_n
  nxt_put_list prv_put_list vl_put_list
  nxt_free_node prv_free_node vl_free_node
  deref_upd_next deref_upd_prev deref_upd_n deref_free_node deref_put_list
  lderef_upd_next lderef_upd_prev lderef_free_node lderef_put_node
  lderef_upd_n : store.
Hint Rewrite nxt_put_node prv_put_node vl_put_node deref_put_node
  lderef_put_list using (first [done|congruence]) : store.

(** Linear arithmetic on counts and indices; what is known about
    addresses is set aside first. *)
Ltac zlia :=
  repeat match goal with
    | H : ?a ≠ ?b |- _ => lazymatch type of a with N => clear H end
    | H : ?a = ?b |- _ => lazymatch type of a with N => clear H end
    end;
  lia.

(** Decide the pointer comparisons of the goal from the hypotheses. *)
Ltac dec_tac :=
  repeat match goal with
    | |- context [decide (?P)] =>
        first [ rewrite (decide_True (P:=P)) by congruence
              | rewrite (decide_False (P:=P)) by congruence
              | rewrite (decide_True (P:=P)) by done
              | rewrite (decide_False (P:=P)) by done
              | rewrite (decide_True (P:=P)) by zlia
              | rewrite (decide_False (P:=P)) by zlia ]
    | |- context [bool_decide (?P)] =>
        first [ rewrite (bool_decide_eq_true_2 P) by congruence
              | rewrite (bool_decide_eq_false_2 P) by congruence
              | rewrite (bool_decide_eq_true_2 P) by done
              | rewrite (bool_decide_eq_false_2 P) by done
              | rewrite (bool_decide_eq_true_2 P) by zlia
              | rewrite (bool_decide_eq_false_2 P) by zlia ]
    end.

(** Read a field of an updated store. *)
Ltac rd :=
  autorewrite with store; dec_tac; simpl;
  repeat match goal with
    | H : ?t = Some _ |- context [?t] => rewrite H; simpl
    end;
  first [done | eassumption | solve [eauto]].

Lemma run_bind_eq {A B} (m : M A) (k : A → M B) σ (r : A) σ' R :
  m σ = Ok r σ' → k r σ' = R → bind m k σ = R.
Proof. intros H <-. by apply run_bind. Qed.

(** Liveness of a node or of a list object in an updated store. *)
Ltac lv :=
  repeat first
    [ rewrite live_upd_next | rewrite live_upd_prev | rewrite live_upd_n
    | rewrite live_put_list | rewrite live_free_node
    | rewrite live_put_node by (first [done|congruence])
    | rewrite llive_upd_n ];
  autorewrite with store; dec_tac;
  first [done | eassumption | solve [eauto] | by (split; [congruence|eauto])
        | by (left; congruence) | by (right; eauto) ].

(** One step of the program on the left of the goal. *)
Ltac mstep :=
  lazymatch goal with
  | |- bind (get_next _) _ _ = _ =>
      eapply run_bind_eq; [apply run_get_next; rd|]
  | |- bind (get_prev _) _ _ = _ =>
      eapply run_bind_eq; [apply run_get_prev; rd|]
  | |- bind (get_val _) _ _ = _ =>
      eapply run_bind_eq; [apply run_get_val; rd|]
  | |- bind (get_value _) _ _ = _ =>
      eapply run_bind_eq; [apply run_get_value; rd|]
  | |- bind (set_next _ _) _ _ = _ =>
      eapply run_bind_eq; [apply run_set_next; lv|]
  | |- bind (set_prev _ _) _ _ = _ =>
      eapply run_bind_eq; [apply run_set_prev; lv|]
  | |- bind (get_s _) _ _ = _ =>
      eapply run_bind_eq; [apply run_get_s; rd|]
  | |- bind (get_n _) _ _ = _ =>
      eapply run_bind_eq; [apply run_get_n; rd|]
  | |- bind (set_n _ _) _ _ = _ =>
      eapply run_bind_eq; [apply run_set_n; lv|]
  | |- bind (delete_node _) _ _ = _ =>
      eapply run_bind_eq; [apply run_delete_node; lv|]
  | |- bind (ret _) _ _ = _ =>
      eapply run_bind_eq; [apply run_ret|]
  | |- bind (bind _ _) _ _ = _ =>
      rewrite bind_assoc
  | |- set_next _ _ _ = _ => apply run_set_next; lv
  | |- set_prev _ _ _ = _ => apply run_set_prev; lv
  | |- set_n _ _ _ = _ => apply run_set_n; lv
  | |- delete_node _ _ = _ => apply run_delete_node; lv
  | |- get_next _ _ = _ => apply run_get_next; rd
  | |- get_prev _ _ = _ => apply run_get_prev; rd
  | |- get_value _ _ = _ => apply run_get_value; rd
  end;
  cbn [it_p it_owner cit_p cit_owner fst snd list_s list_n negb];
  dec_tac;
  cbn [it_p it_owner cit_p cit_owner fst snd list_s list_n negb].

(** ** What [rep] says about the list object and the two ends *)

Section Rep.
Context σ this s items (Hrep : rep σ this s items).

Lemma rep_lderef : lderef σ this = Some (LObj s (Z.of_nat (length items))).
Proof using Hrep. apply Hrep. Qed.

Lemma rep_this_not_null : this ≠ null.
Proof using Hrep.
  pose proof rep_lderef as H. unfold lderef in H. by case_decide.
Qed.

Lemma rep_nodup : NoDup (s :: items.*1).
Proof using Hrep. apply Hrep. Qed.

Lemma rep_seg : seg σ s (items.*1) s.
Proof using Hrep. apply Hrep. Qed.

Lemma rep_live y : y ∈ s :: items.*1 → is_Some (deref σ y).
Proof using Hrep. intros Hy. eapply seg_live; [apply rep_seg|]. set_solver. Qed.

Lemma rep_s_not_null : s ≠ null.
Proof using Hrep. eapply live_not_null, rep_live. set_solver. Qed.

Lemma rep_vl_s : vl σ s = Some None.
Proof using Hrep. apply Hrep. Qed.

Lemma rep_vl x v : (x, v) ∈ items → vl σ x = Some (Some v).
Proof using Hrep.
  intros Hx. destruct Hrep as (_ & _ & _ & _ & Hv).
  rewrite Forall_forall in Hv. by apply (Hv (x, v)).
Qed.

Lemma rep_first : nxt σ s = Some (default s (head items.*1)).
Proof using Hrep. apply (seg_head _ _ _ _ rep_seg). Qed.

Lemma rep_last : prv σ s = Some (default s (last items.*1)).
Proof using Hrep. apply (seg_last _ _ _ _ rep_seg). Qed.

Lemma rep_length_0 : Z.of_nat (length items) = 0 ↔ items = [].
Proof using Hrep. destruct items; simpl; [done|]. split; [lia|done]. Qed.

End Rep.

(** ** Iterators at the two ends *)

Lemma run_at_end_or_null_end σ this s items :
  rep σ this s items → at_end_or_null this s σ = Ok true σ.
Proof.
  intros Hrep. unfold at_end_or_null.
  pose proof (rep_this_not_null _ _ _ _ Hrep).
  pose proof (rep_s_not_null _ _ _ _ Hrep).
  pose proof (rep_lderef _ _ _ _ Hrep).
  dec_tac. mstep. done.
Qed.

Lemma run_at_end_or_null_data σ this s items x :
  rep σ this s items → x ∈ items.*1 → at_end_or_null this x σ = Ok false σ.
Proof.
  intros Hrep Hx. unfold at_end_or_null.
  pose proof (rep_this_not_null _ _ _ _ Hrep).
  pose proof (rep_lderef _ _ _ _ Hrep).
  assert (x ≠ null).
  { eapply live_not_null, (rep_live _ _ _ _ Hrep). set_solver. }
  assert (x ≠ s).
  { pose proof (rep_nodup _ _ _ _ Hrep) as Hnd.
    apply NoDup_cons in Hnd as [Hs _]. by intros ->. }
  dec_tac. mstep. done.
Qed.

Lemma last_fst items x v : last items = Some (x, v) → last items.*1 = Some x.
Proof. intros H. by rewrite fmap_last, H. Qed.

Lemma head_fst items x v : head items = Some (x, v) → head items.*1 = Some x.
Proof. by destruct items as [|[??]?]; simpl; intros [= -> ->]. Qed.

Lemma last_Some_elem_of {A} (l : list A) (x : A) : last l = Some x → x ∈ l.
Proof.
  intros H. apply last_Some in H as [l' ->]. set_solver.
Qed.

Lemma head_Some_elem_of {A} (l : list A) (x : A) : head l = Some x → x ∈ l.
Proof. destruct l; simpl; [done|]. intros [= ->]. set_solver. Qed.

Section EndIterator.
Context σ this s items (Hrep : rep σ this s items).

Let Hthis := rep_this_not_null _ _ _ _ Hrep.
Let Hs := rep_s_not_null _ _ _ _ Hrep.
Let Hlo := rep_lderef _ _ _ _ Hrep.
Let Hlast := rep_last _ _ _ _ Hrep.

Lemma it_incr_end :
  it_post_incr (It this s) σ = Throw invalid_iterator σ ∧
  it_pre_incr (It this s) σ = Throw invalid_iterator σ.
Proof using Hrep.
  unfold it_post_incr, it_pre_incr; simpl.
  by rewrite !(run_bind _ _ _ _ _ (run_at_end_or_null_end _ _ _ _ Hrep)).
Qed.

Lemma cit_incr_end :
  cit_post_incr (CIt this s) σ = Throw invalid_iterator σ ∧
  cit_pre_incr (CIt this s) σ = Throw invalid_iterator σ.
Proof using Hrep.
  unfold cit_post_incr, cit_pre_incr; simpl.
  by rewrite !(run_bind _ _ _ _ _ (run_at_end_or_null_end _ _ _ _ Hrep)).
Qed.

Lemma deref_end :
  it_deref (It this s) σ = Throw invalid_iterator σ ∧
  cit_deref (CIt this s) σ = Throw invalid_iterator σ.
Proof using Hrep.
  unfold it_deref, cit_deref, not_dereferenceable; simpl.
  rewrite !bind_assoc.
  by rewrite !(run_bind _ _ _ _ _ (run_at_end_or_null_end _ _ _ _ Hrep)).
Qed.

Lemma decr_end_empty :
  items = [] →
  it_pre_decr (It this s) σ = Throw invalid_iterator σ ∧
  it_post_decr (It this s) σ = Throw invalid_iterator σ ∧
  cit_pre_decr (CIt this s) σ = Throw invalid_iterator σ ∧
  cit_post_decr (CIt this s) σ = Throw invalid_iterator σ.
Proof using Hrep.
  intros ->. simpl in *.
  unfold it_pre_decr, it_post_decr, cit_pre_decr, cit_post_decr; simpl.
  dec_tac.
  repeat split; repeat mstep; done.
Qed.

Lemma decr_end_nonempty x v :
  last items = Some (x, v) →
  it_pre_decr (It this s) σ = Ok (It this x, It this x) σ ∧
  it_post_decr (It this s) σ = Ok (It this s, It this x) σ ∧
  cit_pre_decr (CIt this s) σ = Ok (CIt this x, CIt this x) σ ∧
  cit_post_decr (CIt this s) σ = Ok (CIt this s, CIt this x) σ.
Proof using Hlast Hlo Hrep Hs Hthis.
  intros Hl. rewrite (last_fst _ _ _ Hl) in Hlast. simpl in Hlast.
  assert (Z.of_nat (length items) ≠ 0).
  { rewrite (rep_length_0 _ _ _ _ Hrep). by intros ->. }
  unfold it_pre_decr, it_post_decr, cit_pre_decr, cit_post_decr; simpl.
  dec_tac.
  repeat split; repeat mstep; done.
Qed.

End EndIterator.

Section BeginIterator.
Context σ this s x v rest (Hrep : rep σ this s ((x, v) :: rest)).

Let Hthis := rep_this_not_null _ _ _ _ Hrep.
Let Hlo := rep_lderef _ _ _ _ Hrep.
Let Hfirst := rep_first _ _ _ _ Hrep.

Lemma first_not_sentinel : x ≠ s ∧ x ≠ null ∧ prv σ x = Some s.
Proof using Hfirst Hlo Hrep Hthis. clear lt eqb.
  split; [|split].
  - pose proof (rep_nodup _ _ _ _ Hrep) as Hnd. simpl in Hnd.
    apply NoDup_cons in Hnd as [Hs _]. set_solver.
  - eapply live_not_null, (rep_live _ _ _ _ Hrep). set_solver.
  - pose proof (rep_seg _ _ _ _ Hrep) as Hseg. simpl in Hseg.
    by destruct Hseg as [[_ ?] _].
Qed.

Lemma run_begin_end :
  begin_ this σ = Ok (It this x) σ ∧ end_ this σ = Ok (It this s) σ ∧
  cbegin this σ = Ok (CIt this x) σ ∧ cend this σ = Ok (CIt this s) σ.
Proof using Hfirst Hlo Hrep.
  simpl in Hfirst. unfold begin_, end_, cbegin, cend.
  repeat split; repeat mstep; done.
Qed.

Lemma decr_begin :
  it_pre_decr (It this x) σ = Ok (It this s, It this s) σ ∧
  it_post_decr (It this x) σ = Ok (It this x, It this s) σ ∧
  cit_pre_decr (CIt this x) σ = Ok (CIt this s, CIt this s) σ ∧
  cit_post_decr (CIt this x) σ = Ok (CIt this x, CIt this s) σ.
Proof using Hfirst Hlo Hrep Hthis.
  destruct first_not_sentinel as (? & ? & ?).
  unfold it_pre_decr, it_post_decr, cit_pre_decr, cit_post_decr; simpl.
  dec_tac.
  repeat split; repeat mstep; done.
Qed.

End BeginIterator.

(** ** Relinking segments *)

Lemma nodup_app_ne {A} (l k : list A) (x y : A) :
  NoDup (l ++ k) → x ∈ l → y ∈ k → x ≠ y.
Proof. intros (_ & H & _)%NoDup_app Hx Hy ->. by apply (H y). Qed.

Lemma nodup_cons_ne {A} (l : list A) (x y : A) :
  NoDup (x :: l) → y ∈ l → x ≠ y.
Proof. intros [H _]%NoDup_cons Hy ->. done. Qed.

Lemma default_last_elem_of {A} (a : A) (q : list A) :
  default a (last q) ∈ a :: q.
Proof.
  destruct (last q) eqn:E; simpl; [|by left].
  right. by apply last_Some_elem_of.
Qed.

Lemma default_head_elem_of {A} (b : A) (q : list A) :
  default b (head q) ∈ q ++ [b].
Proof.
  destruct q; simpl; [by left|by left].
Qed.

(** Redirect the end of a segment to [c]. *)
Lemma seg_redirect σ σ' a q x c :
  seg σ a q x →
  NoDup (a :: q) →
  nxt σ' (default a (last q)) = Some c →
  prv σ' c = Some (default a (last q)) →
  (∀ y, y ∈ a :: q → y ≠ default a (last q) → nxt σ' y = nxt σ y) →
  (∀ y, y ∈ q → prv σ' y = prv σ y) →
  seg σ' a q c.
Proof.
  destruct q as [|z q _] using rev_ind; simpl.
  - by intros _ _ ? ? _ _.
  - rewrite last_snoc; simpl. rewrite !seg_snoc.
    intros [Hseg Hl] Hnd Hn Hp Hfn Hfp. split; [|done].
    eapply seg_frame; [done| |].
    + intros y Hy. apply Hfn.
      * rewrite app_comm_cons. apply elem_of_app. by left.
      * rewrite app_comm_cons in Hnd.
        eapply nodup_app_ne; [done|done|by left].
    + intros y Hy. by apply Hfp.
Qed.

(** Take [x] out from between two segments. *)
Lemma seg_unlink σ σ' a q1 x q2 b A C :
  A = default a (last q1) →
  C = default b (head q2) →
  seg σ a q1 x → seg σ x q2 b →
  NoDup (a :: q1 ++ x :: q2) → NoDup (q1 ++ x :: q2 ++ [b]) →
  nxt σ' A = Some C → prv σ' C = Some A →
  (∀ y, y ≠ A → y ≠ x → nxt σ' y = nxt σ y) →
  (∀ y, y ≠ C → y ≠ x → prv σ' y = prv σ y) →
  seg σ' a (q1 ++ q2) b.
Proof.
  intros EA EC H1 H2 Hnd1 Hnd2 Hn Hp Hfn Hfp.
  assert (A ∈ a :: q1) as HA by (subst A; apply default_last_elem_of).
  assert (C ∈ q2 ++ [b]) as HC by (subst C; apply default_head_elem_of).
  rewrite app_comm_cons in Hnd1.
  assert (seg σ' a q1 C) as H1'.
  { eapply seg_redirect; [done| | | | |].
    - by apply NoDup_app in Hnd1 as (? & _).
    - by rewrite <-EA.
    - by rewrite <-EA.
    - intros y Hy Hne. apply Hfn; [by rewrite EA|].
      apply (nodup_app_ne _ _ _ _ Hnd1); [done|by left].
    - intros y Hy. apply Hfp.
      + apply (nodup_app_ne _ _ _ _ Hnd2); [done|by right].
      + apply (nodup_app_ne _ _ _ _ Hnd2); [done|by left]. }
  destruct q2 as [|z q2]; simpl in H2, EC, HC, Hnd2 |- *.
  - rewrite app_nil_r. by subst C.
  - subst C. apply seg_app. split; [done|]. destruct H2 as [_ H2].
    eapply seg_frame; [done| |].
    + intros y Hy. apply Hfn.
      * apply not_eq_sym. apply (nodup_app_ne _ _ _ _ Hnd1); [done|by right].
      * apply NoDup_app in Hnd1 as (_ & _ & Hnd1).
        apply not_eq_sym. by apply (nodup_cons_ne _ _ _ Hnd1).
    + intros y Hy. apply NoDup_app in Hnd2 as (_ & _ & Hnd2).
      apply Hfp.
      * apply NoDup_cons in Hnd2 as [_ Hnd2].
        apply not_eq_sym. by apply (nodup_cons_ne _ _ _ Hnd2).
      * apply not_eq_sym. apply (nodup_cons_ne _ _ _ Hnd2). by right.
Qed.

(** ** Frames *)

Lemma nxt_deref σ σ' y : deref σ' y = deref σ y → nxt σ' y = nxt σ y.
Proof. unfold nxt. by intros ->. Qed.
Lemma prv_deref σ σ' y : deref σ' y = deref σ y → prv σ' y = prv σ y.
Proof. unfold prv. by intros ->. Qed.
Lemma vl_deref σ σ' y : deref σ' y = deref σ y → vl σ' y = vl σ y.
Proof. unfold vl. by intros ->. Qed.

Lemma elem_of_fst items x v : (x, v) ∈ items → x ∈ items.*1.
Proof. intros H. apply list_elem_of_fmap. by exists (x, v). Qed.

(** [rep] only depends on the list object and on the nodes of the ring. *)
Lemma rep_frame σ σ' c s items :
  rep σ c s items →
  lderef σ' c = lderef σ c →
  (∀ y, y ∈ s :: items.*1 → deref σ' y = deref σ y) →
  rep σ' c s items.
Proof.
  intros (Hlo & Hlen & [Hnd Hseg] & Hs & Hv) Hl Hd.
  split; [by rewrite Hl|]. split; [done|]. split; [split; [done|]|split].
  - eapply seg_frame; [done| |].
    + intros y Hy. by apply nxt_deref, Hd.
    + intros y Hy. apply prv_deref, Hd.
      apply elem_of_app in Hy as [?|Hy]; [by right|].
      apply list_elem_of_singleton in Hy as ->. by left.
  - rewrite <-Hs. apply vl_deref, Hd. by left.
  - rewrite Forall_forall in Hv |- *. intros [x v] Hx; simpl.
    specialize (Hv _ Hx); simpl in Hv.
    rewrite <-Hv. apply vl_deref, Hd. right.
    by eapply elem_of_fst.
Qed.

(** ** Unlinking and destroying a data node *)

Lemma run_erase_node σ x A C :
  prv σ x = Some A → nxt σ x = Some C →
  is_Some (deref σ A) → is_Some (deref σ C) → x ≠ A →
  erase_node x σ = Ok x (upd_prev C A (upd_next A C σ)).
Proof.
  intros Hp Hn HA HC Hne. unfold erase_node.
  repeat mstep. done.
Qed.

Lemma rep_unlinked σ this s i1 x v i2 :
  rep σ this s (i1 ++ (x, v) :: i2) →
  rep (unlinked this (default s (last i1.*1)) x (default s (head i2.*1))
         (Z.of_nat (length (i1 ++ i2))) σ) this s (i1 ++ i2).
Proof. clear lt eqb.
  intros Hrep.
  pose proof (rep_this_not_null _ _ _ _ Hrep) as Hthis.
  destruct Hrep as (Hlo & Hlen & [Hnd Hseg] & Hs & Hv).
  rewrite fmap_app, fmap_cons in Hnd, Hseg. simpl in Hnd, Hseg.
  apply seg_app in Hseg as [H1 H2].
  set (A := default s (last i1.*1)). set (C := default s (head i2.*1)).
  assert (A ∈ s :: i1.*1) as HA by apply default_last_elem_of.
  assert (C ∈ i2.*1 ++ [s]) as HC by apply default_head_elem_of.
  assert (Hnd2 : NoDup (i1.*1 ++ x :: i2.*1 ++ [s])).
  { apply NoDup_cons in Hnd as [Hs1 Hnd].
    rewrite app_comm_cons, app_assoc. apply NoDup_app. split; [done|].
    split; [|apply NoDup_singleton].
    intros y Hy ->%list_elem_of_singleton. done. }
  assert (x ≠ A) as HxA.
  { rewrite app_comm_cons in Hnd. apply not_eq_sym.
    apply (nodup_app_ne _ _ _ _ Hnd); [done|by left]. }
  assert (x ≠ C) as HxC.
  { apply NoDup_app in Hnd2 as (_ & _ & Hnd2).
    by apply (nodup_cons_ne _ _ _ Hnd2). }
  assert (x ≠ s) as Hxs.
  { apply not_eq_sym. apply (nodup_cons_ne _ _ _ Hnd).
    apply elem_of_app. right. by left. }
  pose proof (seg_last _ _ _ _ H1) as [HnA HpX]. fold A in HnA.
  pose proof (seg_head _ _ _ _ H2) as [HnX HpC]. fold C in HpC.
  unfold unlinked.
  split; [|split; [|split; [split|split]]].
  - autorewrite with store. dec_tac. by rewrite Hlo.
  - rewrite length_app, length_cons in Hlen. rewrite length_app. lia.
  - rewrite fmap_app. apply NoDup_cons in Hnd as [Hs1 Hnd].
    apply NoDup_cons. split.
    + rewrite !not_elem_of_app, not_elem_of_cons in Hs1.
      rewrite not_elem_of_app. tauto.
    + apply NoDup_app in Hnd as (? & Hd & [_ ?]%NoDup_cons).
      apply NoDup_app. split; [done|]. split; [|done].
      intros y Hy Hy'. apply (Hd y Hy). by right.
  - rewrite fmap_app.
    eapply (seg_unlink σ _ s _ x _ s A C); [done|done|done|done|done|done| | | |].
    + autorewrite with store. dec_tac. by rewrite HnA.
    + autorewrite with store. dec_tac. by rewrite HpC.
    + intros y ? ?. autorewrite with store. by dec_tac.
    + intros y ? ?. autorewrite with store. by dec_tac.
  - autorewrite with store. by dec_tac.
  - rewrite Forall_forall in Hv |- *. intros [y w] Hy; simpl.
    assert (x ≠ y).
    { apply elem_of_app in Hy as [Hy|Hy]; apply elem_of_fst in Hy.
      - rewrite app_comm_cons in Hnd. apply not_eq_sym.
        apply (nodup_app_ne _ _ _ _ Hnd); [by right|by left].
      - apply NoDup_app in Hnd2 as (_ & _ & Hnd2).
        apply (nodup_cons_ne _ _ _ Hnd2). apply elem_of_app. by left. }
    autorewrite with store. dec_tac.
    apply (Hv (y, w)). rewrite elem_of_app, elem_of_cons in *. tauto.
Qed.

Lemma wrap64_small z : 0 ≤ z < size_max → wrap64 z = z.
Proof. intros. unfold wrap64. by apply Z.mod_small. Qed.

Lemma rep_decompose σ this s i1 x v i2 :
  rep σ this s (i1 ++ (x, v) :: i2) →
  let A := default s (last i1.*1) in
  let C := default s (head i2.*1) in
  prv σ x = Some A ∧ nxt σ x = Some C ∧ nxt σ A = Some x ∧ prv σ C = Some x ∧
  x ≠ A ∧ x ≠ C ∧ x ≠ s ∧ x ≠ null ∧
  A ∈ s :: i1.*1 ∧ C ∈ i2.*1 ++ [s] ∧
  is_Some (deref σ A) ∧ is_Some (deref σ C) ∧ is_Some (deref σ x).
Proof.
  intros Hrep A C.
  destruct Hrep as (Hlo & Hlen & [Hnd Hseg] & Hs & Hv).
  rewrite fmap_app, fmap_cons in Hnd, Hseg. simpl in Hnd, Hseg.
  apply seg_app in Hseg as [H1 H2].
  assert (A ∈ s :: i1.*1) as HA by apply default_last_elem_of.
  assert (C ∈ i2.*1 ++ [s]) as HC by apply default_head_elem_of.
  pose proof (seg_last _ _ _ _ H1) as [HnA HpX]. fold A in HnA, HpX.
  pose proof (seg_head _ _ _ _ H2) as [HnX HpC]. fold C in HpC, HnX.
  assert (x ≠ A) as HxA.
  { rewrite app_comm_cons in Hnd. apply not_eq_sym.
    apply (nodup_app_ne _ _ _ _ Hnd); [done|by left]. }
  assert (x ≠ s) as Hxs.
  { apply not_eq_sym. apply (nodup_cons_ne _ _ _ Hnd).
    apply elem_of_app. right. by left. }
  assert (x ≠ C) as HxC.
  { apply elem_of_app in HC as [HC| ->%list_elem_of_singleton]; [|done].
    apply NoDup_cons in Hnd as [_ Hnd].
    apply NoDup_app in Hnd as (_ & _ & Hnd).
    by apply (nodup_cons_ne _ _ _ Hnd). }
  assert (is_Some (deref σ x)) as Hx by (apply prv_is_Some; eauto).
  repeat split; try done.
  - by eapply live_not_null.
  - apply nxt_is_Some; eauto.
  - apply prv_is_Some; eauto.
Qed.

Lemma run_erase σ this s i1 x v i2 :
  rep σ this s (i1 ++ (x, v) :: i2) →
  erase this (It this x) σ =
  Ok (It this (default s (head i2.*1)))
     (unlinked this (default s (last i1.*1)) x (default s (head i2.*1))
        (Z.of_nat (length (i1 ++ i2))) σ).
Proof.
  intros Hrep.
  pose proof (rep_this_not_null _ _ _ _ Hrep) as Hthis.
  pose proof (rep_lderef _ _ _ _ Hrep) as Hlo.
  pose proof (rep_decompose _ _ _ _ _ _ _ Hrep)
    as (Hpx & Hnx & HnA & HpC & HxA & HxC & Hxs & Hxn & _ & _ & HlA & HlC & Hlx).
  destruct Hrep as (_ & Hlen & _).
  rewrite length_app, length_cons in *.
  unfold erase; simpl. do 3 mstep.
  eapply run_bind_eq; [by eapply run_erase_node|]. simpl.
  repeat mstep.
  unfold unlinked. rewrite wrap64_small by lia.
  do 3 f_equal. lia.
Qed.

(** ** Iterators at data nodes *)

Lemma run_incr σ this s i1 x v i2 :
  rep σ this s (i1 ++ (x, v) :: i2) →
  let C := default s (head i2.*1) in
  it_pre_incr (It this x) σ = Ok (It this C, It this C) σ ∧
  it_post_incr (It this x) σ = Ok (It this x, It this C) σ ∧
  cit_pre_incr (CIt this x) σ = Ok (CIt this C, CIt this C) σ ∧
  cit_post_incr (CIt this x) σ = Ok (CIt this x, CIt this C) σ.
Proof.
  intros Hrep C.
  pose proof (rep_decompose _ _ _ _ _ _ _ Hrep) as (_ & Hnx & _).
  assert (x ∈ (i1 ++ (x, v) :: i2).*1) as Hx.
  { rewrite fmap_app. apply elem_of_app. right. by left. }
  pose proof (run_at_end_or_null_data _ _ _ _ _ Hrep Hx) as Hg.
  unfold it_pre_incr, it_post_incr, cit_pre_incr, cit_post_incr; simpl.
  rewrite !(run_bind _ _ _ _ _ Hg).
  repeat split; by mstep.
Qed.

Lemma run_deref σ this s items x v :
  rep σ this s items → (x, v) ∈ items →
  it_deref (It this x) σ = Ok v σ ∧ cit_deref (CIt this x) σ = Ok v σ.
Proof.
  intros Hrep Hx.
  pose proof (run_at_end_or_null_data _ _ _ _ _ Hrep (elem_of_fst _ _ _ Hx)) as Hg.
  pose proof (rep_vl _ _ _ _ Hrep _ _ Hx) as Hv.
  unfold it_deref, cit_deref, not_dereferenceable; simpl.
  rewrite !bind_assoc, !(run_bind _ _ _ _ _ Hg).
  split; repeat mstep; by apply run_get_value.
Qed.

(** ** The ring of a store is unique *)

Lemma seg_unique σ a q1 q2 b :
  seg σ a q1 b → seg σ a q2 b → b ∉ q1 → b ∉ q2 → q1 = q2.
Proof.
  revert a q2. induction q1 as [|x q1 IH]; intros a [|y q2]; simpl; [done|..].
  - intros [H1 _] [[H2 _] _] _ Hb. rewrite H1 in H2.
    injection H2 as ->. exfalso. apply Hb. by left.
  - intros [[H1 _] _] [H2 _] Hb _. rewrite H1 in H2.
    injection H2 as ->. exfalso. apply Hb. by left.
  - intros [[H1 _] Hs1] [[H2 _] Hs2] Hb1 Hb2. rewrite H1 in H2.
    injection H2 as ->. f_equal.
    apply (IH y); [done|done| |]; intros ?; [apply Hb1|apply Hb2]; by right.
Qed.

Lemma rep_unique σ this s1 s2 items1 items2 :
  rep σ this s1 items1 → rep σ this s2 items2 →
  s1 = s2 ∧ items1 = items2.
Proof.
  intros (Hlo1 & _ & [Hnd1 Hseg1] & _ & Hv1) (Hlo2 & _ & [Hnd2 Hseg2] & _ & Hv2).
  rewrite Hlo1 in Hlo2. injection Hlo2 as -> _. split; [done|].
  apply NoDup_cons in Hnd1 as [Hs1 _]. apply NoDup_cons in Hnd2 as [Hs2 _].
  pose proof (seg_unique _ _ _ _ _ Hseg1 Hseg2 Hs1 Hs2) as Heq.
  clear -Heq Hv1 Hv2. revert items2 Heq Hv2.
  induction items1 as [|[x v] items1 IH]; intros [|[y w] items2]; simpl; try done.
  intros [= -> Heq] Hv2.
  apply Forall_cons in Hv1 as [Hx Hv1]. apply Forall_cons in Hv2 as [Hy Hv2].
  simpl in *. rewrite Hx in Hy. injection Hy as ->. f_equal. by apply IH.
Qed.

Lemma valid_iff σ this s items y :
  rep σ this s items → valid σ (It this y) ↔ y ∈ s :: items.*1.
Proof.
  intros Hrep. split.
  - intros (s' & items' & Hrep' & Hy). simpl in *.
    by destruct (rep_unique _ _ _ _ _ _ Hrep Hrep') as [-> ->].
  - intros Hy. by exists s, items.
Qed.

(** ** Linking a new node *)

Lemma seg_app_head σ a q1 q2 b :
  seg σ a (q1 ++ q2) b → seg σ a q1 (default b (head q2)).
Proof.
  destruct q2 as [|z q2]; simpl; [by rewrite app_nil_r|].
  rewrite seg_app. tauto.
Qed.

(** Put [cur] between two segments. *)
Lemma seg_insert σ σ' a q1 q2 b P pos cur :
  P = default a (last q1) →
  pos = default b (head q2) →
  seg σ a (q1 ++ q2) b →
  NoDup (a :: q1 ++ q2) → NoDup (q1 ++ q2 ++ [b]) →
  cur ∉ a :: q1 ++ q2 ++ [b] →
  nxt σ' P = Some cur → prv σ' cur = Some P →
  nxt σ' cur = Some pos → prv σ' pos = Some cur →
  (∀ y, y ≠ P → y ≠ cur → nxt σ' y = nxt σ y) →
  (∀ y, y ≠ pos → y ≠ cur → prv σ' y = prv σ y) →
  seg σ' a (q1 ++ cur :: q2) b.
Proof.
  intros EP Epos Hseg Hnd1 Hnd2 Hcur HnP Hpc Hnc Hpp Hfn Hfp.
  assert (P ∈ a :: q1) as HP by (subst P; apply default_last_elem_of).
  rewrite app_comm_cons in Hnd1.
  rewrite !not_elem_of_cons, !not_elem_of_app, not_elem_of_cons in Hcur.
  destruct Hcur as (Hca & Hc1 & Hc2 & Hcb & _).
  apply seg_app. split.
  - eapply seg_redirect; [by eapply seg_app_head| | | | |].
    + by apply NoDup_app in Hnd1 as (? & _).
    + by rewrite <-EP.
    + by rewrite <-EP.
    + intros y Hy Hne. apply Hfn; [by rewrite EP|].
      intros ->. apply elem_of_cons in Hy as [?|?]; done.
    + intros y Hy. apply Hfp; [|by intros ->].
      subst pos. destruct q2 as [|z q2]; simpl.
      * apply (nodup_app_ne _ _ _ _ Hnd2); [done|by left].
      * apply (nodup_app_ne _ _ _ _ Hnd2); [done|by left].
  - destruct q2 as [|z q2]; simpl in Epos |- *; subst pos; [done|].
    split; [done|]. apply seg_app in Hseg as [_ Hseg].
    eapply seg_frame; [done| |].
    + intros y Hy. apply Hfn.
      * apply not_eq_sym. by apply (nodup_app_ne _ _ _ _ Hnd1).
      * intros ->. apply Hc2. by apply elem_of_cons in Hy as [->|?]; [left|right].
    + intros y Hy. apply NoDup_app in Hnd2 as (_ & _ & Hnd2). apply Hfp.
      * apply not_eq_sym. by apply (nodup_cons_ne _ _ _ Hnd2).
      * intros ->. apply elem_of_app in Hy as [?|?%list_elem_of_singleton].
        -- apply Hc2. by right.
        -- done.
Qed.

Hypothesis alloc_fresh : ∀ h, alloc h ≠ null ∧ h !! alloc h = None.

Lemma alloc_dead σ : deref σ (alloc (nodes σ)) = None.
Proof using alloc_fresh.
  unfold deref. case_decide; [done|]. apply alloc_fresh.
Qed.

Lemma alloc_not_live σ y : is_Some (deref σ y) → y ≠ alloc (nodes σ).
Proof using alloc_fresh. intros [? H] ->. by rewrite alloc_dead in H. Qed.

Lemma rep_linked σ this s i1 i2 value :
  rep σ this s (i1 ++ i2) →
  Z.of_nat (length (i1 ++ i2)) + 1 < size_max →
  let cur := alloc (nodes σ) in
  rep (linked this (default s (last i1.*1)) (default s (head i2.*1)) cur value
         (Z.of_nat (length (i1 ++ i2)) + 1) σ) this s (i1 ++ (cur, value) :: i2).
Proof using alloc_fresh. clear lt eqb.
  intros Hrep Hsz cur.
  pose proof (rep_this_not_null _ _ _ _ Hrep) as Hthis.
  assert (∀ y, y ∈ s :: (i1 ++ i2).*1 → y ≠ cur) as Hfresh.
  { intros y Hy. by eapply alloc_not_live, rep_live. }
  assert (cur ≠ null) as Hcn by apply alloc_fresh.
  destruct Hrep as (Hlo & Hlen & [Hnd Hseg] & Hs & Hv).
  rewrite fmap_app in Hnd, Hseg, Hfresh.
  set (P := default s (last i1.*1)). set (pos := default s (head i2.*1)).
  assert (P ∈ s :: i1.*1) as HP by apply default_last_elem_of.
  assert (pos ∈ i2.*1 ++ [s]) as Hpos by apply default_head_elem_of.
  assert (P ≠ cur) as HPc.
  { apply Hfresh. rewrite app_comm_cons. apply elem_of_app. by left. }
  assert (pos ≠ cur) as Hposc.
  { apply Hfresh. apply elem_of_app in Hpos as [?| ->%list_elem_of_singleton].
    - right. apply elem_of_app. by right.
    - by left. }
  assert (s ≠ cur) as Hsc by (apply Hfresh; by left).
  assert (Hnd2 : NoDup (i1.*1 ++ i2.*1 ++ [s])).
  { apply NoDup_cons in Hnd as [Hs1 Hnd].
    rewrite app_assoc. apply NoDup_app. split; [done|].
    split; [|apply NoDup_singleton].
    intros y Hy ->%list_elem_of_singleton. done. }
  pose proof (seg_last _ _ _ _ (seg_app_head _ _ _ _ _ Hseg)) as [HnP Hppos].
  fold P pos in HnP, Hppos.
  assert (is_Some (deref σ P)) as HlP by (apply nxt_is_Some; eauto).
  assert (is_Some (deref σ pos)) as Hlpos by (apply prv_is_Some; eauto).
  unfold linked.
  split; [|split; [|split; [split|split]]].
  - autorewrite with store. dec_tac. rewrite Hlo; simpl. do 2 f_equal.
    rewrite !length_app, length_cons. lia.
  - rewrite length_app, length_cons. rewrite length_app in Hsz. lia.
  - rewrite fmap_app, fmap_cons; simpl. apply NoDup_cons in Hnd as [Hs1 Hnd].
    apply NoDup_cons. split.
    + rewrite not_elem_of_app in Hs1.
      rewrite not_elem_of_app, not_elem_of_cons. tauto.
    + apply NoDup_app in Hnd as (? & Hd & ?).
      apply NoDup_app. split; [done|]. split.
      * intros y Hy [->|Hy']%elem_of_cons; [|by apply (Hd y)].
        apply (Hfresh cur); [|done]. right. apply elem_of_app. by left.
      * apply NoDup_cons. split; [|done]. intros Hc.
        apply (Hfresh cur); [|done]. right. apply elem_of_app. by right.
  - rewrite fmap_app, fmap_cons; simpl.
    eapply (seg_insert σ _ s _ _ s P pos cur); [done|done|done|done|done|..].
    + intros Hc. apply elem_of_cons in Hc as [Hc|Hc]; [done|].
      rewrite app_assoc in Hc.
      apply elem_of_app in Hc as [Hc|Hc%list_elem_of_singleton]; [|done].
      apply (Hfresh cur); [by right|done].
    + autorewrite with store. dec_tac. by rewrite HnP.
    + autorewrite with store. by dec_tac.
    + autorewrite with store. by dec_tac.
    + autorewrite with store. dec_tac. by rewrite Hppos.
    + intros y ? ?. autorewrite with store. by dec_tac.
    + intros y ? ?. autorewrite with store. by dec_tac.
  - autorewrite with store. by dec_tac.
  - rewrite Forall_forall in Hv |- *. intros [y w] Hy; simpl.
    rewrite elem_of_app, elem_of_cons in Hy.
    autorewrite with store. simpl.
    destruct Hy as [Hy|[[= -> ->]|Hy]].
    + assert (cur ≠ y).
      { apply not_eq_sym, Hfresh. right. apply elem_of_app. left.
        by eapply elem_of_fst. }
      dec_tac. apply (Hv (y, w)). apply elem_of_app. by left.
    + by dec_tac.
    + assert (cur ≠ y).
      { apply not_eq_sym, Hfresh. right. apply elem_of_app. right.
        by eapply elem_of_fst. }
      dec_tac. apply (Hv (y, w)). apply elem_of_app. by right.
Qed.

Lemma run_new_node σ value :
  new_node alloc value σ =
  Ok (alloc (nodes σ)) (put_node (alloc (nodes σ)) (Node null null (Some value)) σ).
Proof. done. Qed.

Lemma run_new_sentinel σ :
  new_sentinel alloc σ =
  Ok (alloc (nodes σ))
     (put_node (alloc (nodes σ)) (Node (alloc (nodes σ)) (alloc (nodes σ)) None) σ).
Proof. done. Qed.

Lemma run_insert σ this s i1 i2 value :
  rep σ this s (i1 ++ i2) →
  Z.of_nat (length (i1 ++ i2)) + 1 < size_max →
  let cur := alloc (nodes σ) in
  insert alloc this (It this (default s (head i2.*1))) value σ =
  Ok (It this cur)
     (linked this (default s (last i1.*1)) (default s (head i2.*1)) cur value
        (Z.of_nat (length (i1 ++ i2)) + 1) σ).
Proof using alloc_fresh.
  intros Hrep Hsz cur.
  pose proof (rep_this_not_null _ _ _ _ Hrep) as Hthis.
  pose proof (rep_lderef _ _ _ _ Hrep) as Hlo.
  assert (cur ≠ null) as Hcn by apply alloc_fresh.
  pose proof (rep_seg _ _ _ _ Hrep) as Hseg. rewrite fmap_app in Hseg.
  pose proof (seg_last _ _ _ _ (seg_app_head _ _ _ _ _ Hseg)) as [HnP Hppos].
  set (P := default s (last i1.*1)) in *.
  set (pos := default s (head i2.*1)) in *.
  assert (is_Some (deref σ P)) as HlP by (apply nxt_is_Some; eauto).
  assert (is_Some (deref σ pos)) as Hlpos by (apply prv_is_Some; eauto).
  assert (pos ≠ null) by by eapply live_not_null.
  assert (P ≠ cur) as HPc by by apply alloc_not_live.
  assert (pos ≠ cur) as Hposc by by apply alloc_not_live.
  unfold insert; simpl. dec_tac.
  eapply run_bind_eq; [apply run_new_node|]. fold cur.
  unfold insert_node.
  repeat mstep.
  unfold linked. rewrite wrap64_small; [done|]. lia.
Qed.

(** Every position of the ring is where some suffix of the items starts. *)
Lemma ring_position s items y :
  y ∈ s :: items.*1 →
  ∃ i1 i2, items = i1 ++ i2 ∧ y = default s (head i2.*1).
Proof.
  intros [->|Hy]%elem_of_cons.
  - exists items, []. by rewrite app_nil_r.
  - apply list_elem_of_fmap in Hy as ([x v] & -> & Hy).
    apply list_elem_of_split in Hy as (i1 & i2 & ->).
    by exists i1, ((x, v) :: i2).
Qed.

Lemma deref_linked σ this P pos cur value n' y :
  cur ≠ null → y ≠ P → y ≠ pos → y ≠ cur →
  deref (linked this P pos cur value n' σ) y = deref σ y.
Proof. intros. unfold linked. autorewrite with store. by dec_tac. Qed.

Lemma lderef_linked σ this P pos cur value n' c :
  c ≠ this → lderef (linked this P pos cur value n' σ) c = lderef σ c.
Proof. intros. unfold linked. autorewrite with store. by dec_tac. Qed.

Lemma deref_unlinked σ this A x C n' y :
  y ≠ A → y ≠ x → y ≠ C →
  deref (unlinked this A x C n' σ) y = deref σ y.
Proof. intros. unfold unlinked. autorewrite with store. by dec_tac. Qed.

Lemma deref_unlinked_dead σ this A x C n' :
  deref (unlinked this A x C n' σ) x = None.
Proof. intros. unfold unlinked. autorewrite with store. by dec_tac. Qed.

Lemma lderef_unlinked σ this A x C n' c :
  c ≠ this → lderef (unlinked this A x C n' σ) c = lderef σ c.
Proof. intros. unfold unlinked. autorewrite with store. by dec_tac. Qed.

(** ** [push_back], [push_front], [pop_back], [pop_front] *)

Lemma run_push_back σ this s items value :
  rep σ this s items →
  Z.of_nat (length items) + 1 < size_max →
  push_back alloc this value σ =
  Ok tt (linked this (default s (last items.*1)) s (alloc (nodes σ)) value
           (Z.of_nat (length items) + 1) σ).
Proof using alloc_fresh.
  intros Hrep Hsz. pose proof (rep_lderef _ _ _ _ Hrep) as Hlo.
  unfold push_back. mstep.
  rewrite <-(app_nil_r items) in Hrep, Hsz.
  eapply run_bind_eq; [by apply (run_insert σ this s items [] value)|].
  by rewrite app_nil_r.
Qed.

Lemma run_push_front σ this s items value :
  rep σ this s items →
  Z.of_nat (length items) + 1 < size_max →
  push_front alloc this value σ =
  Ok tt (linked this s (default s (head items.*1)) (alloc (nodes σ)) value
           (Z.of_nat (length items) + 1) σ).
Proof using alloc_fresh.
  intros Hrep Hsz. pose proof (rep_lderef _ _ _ _ Hrep) as Hlo.
  pose proof (rep_first _ _ _ _ Hrep) as Hf.
  unfold push_front. do 2 mstep.
  by eapply run_bind_eq; [by apply (run_insert σ this s [] items value)|].
Qed.

Lemma run_pop_back σ this s items x v :
  rep σ this s (items ++ [(x, v)]) →
  pop_back this σ =
  Ok tt (unlinked this (default s (last items.*1)) x s
           (Z.of_nat (length items)) σ).
Proof.
  intros Hrep. pose proof (rep_lderef _ _ _ _ Hrep) as Hlo.
  pose proof (rep_last _ _ _ _ Hrep) as Hl.
  rewrite fmap_app in Hl. simpl in Hl. rewrite last_snoc in Hl. simpl in Hl.
  rewrite length_app in Hlo; simpl in Hlo.
  unfold pop_back. do 3 mstep.
  eapply run_bind_eq; [by apply (run_erase σ this s items x v [])|].
  by rewrite app_nil_r.
Qed.

Lemma run_pop_front σ this s items x v :
  rep σ this s ((x, v) :: items) →
  pop_front this σ =
  Ok tt (unlinked this s x (default s (head items.*1))
           (Z.of_nat (length items)) σ).
Proof.
  intros Hrep. pose proof (rep_lderef _ _ _ _ Hrep) as Hlo.
  pose proof (rep_first _ _ _ _ Hrep) as Hf. simpl in Hf, Hlo.
  unfold pop_front. do 3 mstep.
  by eapply run_bind_eq; [by apply (run_erase σ this s [] x v items)|].
Qed.

Lemma run_pop_empty σ this s :
  rep σ this s [] →
  pop_back this σ = Throw container_is_empty σ ∧
  pop_front this σ = Throw container_is_empty σ.
Proof.
  intros Hrep. pose proof (rep_lderef _ _ _ _ Hrep) as Hlo. simpl in Hlo.
  unfold pop_back, pop_front. split; by mstep.
Qed.

(** ** Construction *)

Lemma run_list_ctor σ this :
  list_ctor alloc this σ =
  Ok tt (put_list this (LObj (alloc (nodes σ)) 0)
           (put_node (alloc (nodes σ))
              (Node (alloc (nodes σ)) (alloc (nodes σ)) None) σ)).
Proof. done. Qed.

Lemma rep_list_ctor σ this :
  this ≠ null →
  rep (put_list this (LObj (alloc (nodes σ)) 0)
         (put_node (alloc (nodes σ))
            (Node (alloc (nodes σ)) (alloc (nodes σ)) None) σ))
      this (alloc (nodes σ)) [].
Proof using alloc_fresh.
  intros Hthis. set (a := alloc (nodes σ)).
  assert (a ≠ null) as Ha by apply alloc_fresh.
  split; [|split; [|split; [split|split]]]; simpl.
  - autorewrite with store. by dec_tac.
  - done.
  - apply NoDup_singleton.
  - split; autorewrite with store; by dec_tac.
  - autorewrite with store; by dec_tac.
  - done.
Qed.

(** ** [clear] *)

Lemma seg_npath σ a q b : seg σ a q b → npath σ q b.
Proof.
  revert a. induction q as [|x q IH]; intros a; simpl; [done|].
  intros [_ Hs]. split; [|by eapply IH].
  apply (seg_head _ _ _ _ Hs).
Qed.

Lemma npath_frame σ σ' l b :
  npath σ l b → (∀ y, y ∈ l → nxt σ' y = nxt σ y) → npath σ' l b.
Proof.
  induction l as [|x l IH]; simpl; [done|].
  intros [H1 H2] Hf. split.
  - rewrite Hf; [done|by left].
  - apply IH; [done|]. intros y Hy. apply Hf. by right.
Qed.

Lemma deref_free_all σ l y :
  deref (free_all l σ) y = if decide (y ∈ l) then None else deref σ y.
Proof.
  revert σ. induction l as [|x l IH]; intros σ; unfold free_all; simpl; [done|].
  fold (free_all l (free_node x σ)).
  rewrite IH, deref_free_node.
  destruct (decide (y ∈ l)).
  - rewrite decide_True; [done|by right].
  - destruct (decide (x = y)) as [->|].
    + rewrite decide_True; [done|by left].
    + rewrite decide_False; [done|]. intros [?|?]%elem_of_cons; congruence.
Qed.

Lemma lderef_free_all σ l c : lderef (free_all l σ) c = lderef σ c.
Proof.
  revert σ. induction l as [|x l IH]; intros σ; unfold free_all; simpl; [done|].
  fold (free_all l (free_node x σ)). by rewrite IH.
Qed.

Lemma run_clear_loop fuel σ this s n l :
  lderef σ this = Some (LObj s n) →
  NoDup (s :: l) → npath σ l s →
  (length l ≤ fuel)%nat →
  clear_loop fuel this (default s (head l)) σ = Ok tt (free_all l σ).
Proof.
  revert fuel σ. induction l as [|x l IH]; intros fuel σ Hlo Hnd Hp Hf.
  - destruct fuel; unfold clear_loop; simpl; by mstep.
  - destruct fuel as [|fuel]; simpl in Hf; [lia|].
    unfold clear_loop; fold (@clear_loop T). simpl.
    destruct Hp as [Hx Hp].
    assert (x ≠ s) by (apply not_eq_sym, (nodup_cons_ne _ _ _ Hnd); by left).
    assert (is_Some (deref σ x)) by (apply nxt_is_Some; eauto).
    do 3 mstep.
    change (free_all (x :: l) σ) with (free_all l (free_node x σ)).
    apply IH.
    + by autorewrite with store.
    + apply NoDup_cons in Hnd as [Hs Hnd]. apply NoDup_cons in Hnd as [_ Hnd].
      apply NoDup_cons. split; [|done]. intros ?. apply Hs. by right.
    + eapply npath_frame; [done|]. intros y Hy. autorewrite with store.
      rewrite decide_False; [done|]. intros ->.
      apply NoDup_cons in Hnd as [_ Hnd]. by apply NoDup_cons in Hnd as [? _].
    + lia.
Qed.

(** The live nodes of a store are at least the nodes of a ring. *)
Lemma nodup_live_size σ (l : list N) :
  NoDup l → (∀ y, y ∈ l → is_Some (deref σ y)) → (length l ≤ size (nodes σ))%nat.
Proof.
  intros Hnd Hl.
  assert (list_to_set l ⊆ dom (nodes σ)) as Hsub.
  { intros y Hy. apply elem_of_list_to_set in Hy.
    apply elem_of_dom. by apply live_lookup, Hl. }
  apply subseteq_size in Hsub.
  rewrite size_list_to_set in Hsub by done.
  by rewrite size_dom in Hsub.
Qed.

Lemma rep_size σ this s items :
  rep σ this s items → (S (length items) ≤ size (nodes σ))%nat.
Proof.
  intros Hrep.
  pose proof (nodup_live_size σ (s :: items.*1) (rep_nodup _ _ _ _ Hrep)
                (rep_live _ _ _ _ Hrep)) as H.
  simpl in H. by rewrite length_fmap in H.
Qed.

Lemma run_clear σ this s items :
  rep σ this s items →
  clear this σ = Ok tt (cleared this s items.*1 σ).
Proof.
  intros Hrep. pose proof (rep_lderef _ _ _ _ Hrep) as Hlo.
  pose proof (rep_first _ _ _ _ Hrep) as Hf.
  assert (is_Some (deref σ s)) as Hs by (apply (rep_live _ _ _ _ Hrep); by left).
  pose proof (rep_size _ _ _ _ Hrep) as Hsz.
  pose proof (rep_nodup _ _ _ _ Hrep) as Hnd.
  unfold clear. mstep. destruct items as [|[x v] items]; simpl in *.
  - dec_tac. unfold reset_sentinel. by repeat mstep.
  - dec_tac. do 2 mstep. unfold heap_size.
    eapply run_bind_eq; [done|]. simpl.
    eapply run_bind_eq.
    { eapply (run_clear_loop _ σ this s _ (x :: items.*1)); [done|done| |].
      - apply (seg_npath _ s). apply (rep_seg _ _ _ _ Hrep).
      - simpl. rewrite length_fmap. lia. }
    assert (is_Some (deref (free_all (x :: items.*1) σ) s)).
    { rewrite deref_free_all. rewrite decide_False; [done|].
      by apply NoDup_cons in Hnd as [? _]. }
    assert (lderef (free_all (x :: items.*1) σ) this = lderef σ this) as Hl'
      by apply lderef_free_all.
    rewrite Hlo in Hl'.
    unfold reset_sentinel. by repeat mstep.
Qed.

Lemma rep_cleared σ this s items :
  rep σ this s items → rep (cleared this s items.*1 σ) this s [].
Proof.
  intros Hrep. pose proof (rep_lderef _ _ _ _ Hrep) as Hlo.
  pose proof (rep_this_not_null _ _ _ _ Hrep) as Hthis.
  pose proof (rep_vl_s _ _ _ _ Hrep) as Hvs.
  pose proof (rep_nodup _ _ _ _ Hrep) as Hnd.
  assert (is_Some (deref σ s)) as [nd Hnd']
    by (apply (rep_live _ _ _ _ Hrep); by left).
  assert (deref (free_all items.*1 σ) s = Some nd) as Hfs.
  { rewrite deref_free_all, decide_False; [done|].
    by apply NoDup_cons in Hnd as [? _]. }
  unfold cleared. destruct items as [|[x v] items]; simpl in *.
  - split; [|split; [|split; [split|split]]]; simpl.
    + done.
    + done.
    + apply NoDup_singleton.
    + unfold link, nxt, prv. autorewrite with store. dec_tac.
      by rewrite Hnd'.
    + by autorewrite with store.
    + done.
  - split; [|split; [|split; [split|split]]]; simpl.
    + autorewrite with store. dec_tac. by rewrite lderef_free_all, Hlo.
    + done.
    + apply NoDup_singleton.
    + unfold link, nxt, prv. autorewrite with store. dec_tac.
      by rewrite Hfs.
    + autorewrite with store. unfold vl in *. rewrite Hfs.
      by rewrite Hnd' in Hvs.
    + done.
Qed.

Lemma deref_cleared σ this s l y :
  y ≠ s → deref (cleared this s l σ) y = if decide (y ∈ l) then None else deref σ y.
Proof.
  intros. unfold cleared. destruct l.
  - autorewrite with store. dec_tac. rewrite decide_False; [done|].
    by intros ?%elem_of_nil.
  - autorewrite with store. dec_tac. apply deref_free_all.
Qed.

Lemma lderef_cleared σ this s l c :
  c ≠ this → lderef (cleared this s l σ) c = lderef σ c.
Proof.
  intros. unfold cleared. destruct l; autorewrite with store; [done|].
  dec_tac. apply lderef_free_all.
Qed.

(** ** Copying *)

Lemma run_copy_loop fuel σ this s other os items o1 o2 :
  this ≠ other →
  rep σ this s items → rep σ other os (o1 ++ o2) →
  (∀ y, y ∈ s :: items.*1 → y ∉ os :: (o1 ++ o2).*1) →
  Z.of_nat (length items + length o2) < size_max →
  (length o2 ≤ fuel)%nat →
  ∃ σ' new,
    copy_loop alloc fuel this other (default os (head o2.*1)) σ = Ok tt σ' ∧
    rep σ' this s (items ++ new) ∧ new.*2 = o2.*2 ∧
    (∀ y, y ∉ s :: items.*1 → is_Some (deref σ y) → deref σ' y = deref σ y) ∧
    (∀ y, y ∈ new.*1 → deref σ y = None) ∧
    (∀ c, c ≠ this → lderef σ' c = lderef σ c).
Proof using alloc_fresh. clear lt eqb.
  intros Hne. revert fuel σ items o1.
  induction o2 as [|[x v] o2 IH]; intros fuel σ items o1 Hthis Hother Hdisj Hsz Hf.
  - exists σ, []. pose proof (rep_lderef _ _ _ _ Hother) as Hlo.
    rewrite app_nil_r. split; [|split; [done|split; [done|split; [done|split]]]].
    + destruct fuel; unfold copy_loop; by mstep.
    + by intros y ?%elem_of_nil.
    + done.
  - destruct fuel as [|fuel]; simpl in Hf; [lia|].
    pose proof (rep_lderef _ _ _ _ Hother) as Hlo.
    pose proof (rep_decompose _ _ _ _ _ _ _ Hother)
      as (_ & Hnx & _ & _ & _ & _ & Hxs & _ & _ & _ & _ & _ & Hlx).
    assert (vl σ x = Some (Some v)) as Hvx.
    { apply (rep_vl _ _ _ _ Hother). apply elem_of_app. right. by left. }
    set (cur := alloc (nodes σ)).
    set (P := default s (last items.*1)).
    set (σ1 := linked this P s cur v (Z.of_nat (length items) + 1) σ).
    assert (cur ≠ null) as Hcn by apply alloc_fresh.
    assert (rep σ1 this s (items ++ [(cur, v)])) as Hthis1.
    { pose proof (rep_linked σ this s items [] v) as H.
      rewrite app_nil_r in H. apply H; [done|]. simpl in Hsz. lia. }
    assert (∀ y, y ∈ os :: (o1 ++ (x, v) :: o2).*1 → deref σ1 y = deref σ y) as Hfr.
    { intros y Hy. apply deref_linked; [done| | |].
      - intros ->. eapply Hdisj; [apply default_last_elem_of|done].
      - intros ->. eapply Hdisj; [by left|done].
      - by apply alloc_not_live, (rep_live _ _ _ _ Hother). }
    assert (∀ y, y ∉ s :: items.*1 → is_Some (deref σ y) →
                 deref σ1 y = deref σ y) as Hfr1.
    { intros y Hy Hl. apply deref_linked; [done| | |].
      - intros ->. apply Hy. apply default_last_elem_of.
      - intros ->. apply Hy. by left.
      - by apply alloc_not_live. }
    assert (rep σ1 other os (o1 ++ (x, v) :: o2)) as Hother1.
    { eapply rep_frame; [done|by apply lderef_linked|done]. }
    destruct (IH fuel σ1 (items ++ [(cur, v)]) (o1 ++ [(x, v)]))
      as (σ' & new & Hrun & Hrep' & Hvals & Hfr' & Hdead & Hlfr).
    + done.
    + by rewrite <-app_assoc.
    + rewrite <-app_assoc. simpl. intros y Hy Hy'.
      rewrite fmap_app in Hy. simpl in Hy.
      change (y ∈ (s :: items.*1) ++ [cur]) in Hy.
      apply elem_of_app in Hy as [Hy|Hy%list_elem_of_singleton].
      * by eapply Hdisj.
      * subst y. apply (alloc_not_live σ cur); [|done].
        by apply (rep_live _ _ _ _ Hother).
    + rewrite length_app. simpl in *. lia.
    + lia.
    + exists σ', ((cur, v) :: new). split; [|split; [|split; [|split; [|split]]]].
      * unfold copy_loop; fold (@copy_loop T alloc). simpl.
        do 2 mstep.
        eapply run_bind_eq; [by eapply run_push_back; [done|simpl in Hsz; lia]|].
        fold cur P σ1. simpl.
        eapply run_bind_eq; [apply run_get_next; by rewrite (nxt_deref σ σ1);
          [|apply Hfr; right; rewrite fmap_app; apply elem_of_app; right; left]|].
        done.
      * by rewrite <-app_assoc in Hrep'.
      * simpl. by f_equal.
      * intros y Hy Hl. rewrite Hfr'.
        -- by apply Hfr1.
        -- rewrite fmap_app. simpl.
           change (y ∉ (s :: items.*1) ++ [cur]).
           intros [?|?%list_elem_of_singleton]%elem_of_app; [done|].
           subst y. by eapply alloc_not_live.
        -- by rewrite Hfr1.
      * intros y [->|Hy]%elem_of_cons; [apply alloc_dead|].
        specialize (Hdead y Hy).
        destruct (deref σ y) eqn:E; [|done].
        assert (y ∉ s :: items.*1).
        { intros Hin. pose proof (rep_nodup _ _ _ _ Hrep') as Hnd.
          rewrite !fmap_app, <-app_assoc in Hnd. simpl in Hnd.
          change (NoDup ((s :: items.*1) ++ cur :: new.*1)) in Hnd.
          apply NoDup_app in Hnd as (_ & Hnd & _).
          apply (Hnd y); [done|]. by right. }
        rewrite Hfr1 in Hdead; [congruence|done|by rewrite E].
      * intros c Hc. rewrite Hlfr by done. by apply lderef_linked.
Qed.

Lemma run_heap_size σ : heap_size σ = Ok (size (nodes σ)) σ.
Proof. done. Qed.

Lemma alloc_not_in_ring σ c s items :
  rep σ c s items → alloc (nodes σ) ∉ s :: items.*1.
Proof using alloc_fresh.
  intros Hrep Hy. apply (alloc_not_live σ (alloc (nodes σ))); [|done].
  by apply (rep_live _ _ _ _ Hrep).
Qed.

Lemma run_list_copy_ctor σ this other os oitems :
  this ≠ null → this ≠ other →
  rep σ other os oitems →
  ∃ σ' s new,
    list_copy_ctor alloc this other σ = Ok tt σ' ∧
    rep σ' this s new ∧ new.*2 = oitems.*2 ∧
    rep σ' other os oitems ∧
    (∀ y, y ∈ s :: new.*1 → deref σ y = None) ∧
    (∀ y, is_Some (deref σ y) → deref σ' y = deref σ y) ∧
    (∀ c, c ≠ this → lderef σ' c = lderef σ c).
Proof using alloc_fresh. clear lt eqb.
  intros Hthis Hne Hother.
  set (a := alloc (nodes σ)).
  set (σ0 := put_list this (LObj a 0) (put_node a (Node a a None) σ)).
  assert (a ≠ null) as Ha by apply alloc_fresh.
  assert (rep σ0 this a []) as Hthis0 by by apply rep_list_ctor.
  assert (∀ y, is_Some (deref σ y) → deref σ0 y = deref σ y) as Hfr0.
  { intros y Hy. unfold σ0. autorewrite with store.
    rewrite decide_False; [done|]. by apply not_eq_sym, alloc_not_live. }
  assert (∀ c, c ≠ this → lderef σ0 c = lderef σ c) as Hlfr0.
  { intros c Hc. unfold σ0. autorewrite with store. by dec_tac. }
  assert (rep σ0 other os oitems) as Hother0.
  { eapply rep_frame; [exact Hother|by apply Hlfr0|].
    intros y Hy. by apply Hfr0, (rep_live _ _ _ _ Hother). }
  destruct (run_copy_loop (S (size (nodes σ0))) σ0 this a other os [] [] oitems)
    as (σ' & new & Hrun & Hrep' & Hvals & Hfr' & Hdead & Hlfr); try done.
  - intros y ->%list_elem_of_singleton Hy.
    by apply (alloc_not_in_ring _ _ _ _ Hother).
  - simpl. destruct Hother as (_ & ? & _). lia.
  - pose proof (rep_size _ _ _ _ Hother0). lia.
  - exists σ', a, new. simpl in Hrep'.
    assert (∀ y, is_Some (deref σ y) → deref σ' y = deref σ y) as Hfr.
    { intros y Hy. rewrite Hfr'.
      - by apply Hfr0.
      - intros ->%list_elem_of_singleton. by apply (alloc_not_live σ a).
      - by rewrite Hfr0. }
    split; [|split; [done|split; [done|split; [|split; [|split]]]]].
    + unfold list_copy_ctor.
      eapply run_bind_eq; [apply run_list_ctor|]. fold a σ0.
      pose proof (rep_lderef _ _ _ _ Hother0) as Hlo.
      pose proof (rep_first _ _ _ _ Hother0) as Hf.
      do 2 mstep.
      eapply run_bind_eq; [apply run_heap_size|]. done.
    + eapply rep_frame; [exact Hother| |].
      * rewrite Hlfr by done. by apply Hlfr0.
      * intros y Hy. by apply Hfr, (rep_live _ _ _ _ Hother).
    + intros y [->|Hy]%elem_of_cons; [apply alloc_dead|].
      specialize (Hdead y Hy).
      destruct (deref σ y) eqn:E; [|done].
      rewrite Hfr0 in Hdead by by rewrite E. congruence.
    + done.
    + intros c Hc. rewrite Hlfr by done. by apply Hlfr0.
Qed.

Lemma run_assign_self σ this : assign alloc this this σ = Ok tt σ.
Proof. unfold assign. by rewrite decide_True. Qed.

Lemma run_assign σ this s items other os oitems :
  this ≠ other →
  rep σ this s items → rep σ other os oitems →
  (∀ y, y ∈ s :: items.*1 → y ∉ os :: oitems.*1) →
  ∃ σ' new,
    assign alloc this other σ = Ok tt σ' ∧
    rep σ' this s new ∧ new.*2 = oitems.*2 ∧
    rep σ' other os oitems ∧
    (∀ y, y ∉ s :: items.*1 → is_Some (deref σ y) → deref σ' y = deref σ y) ∧
    (∀ c, c ≠ this → lderef σ' c = lderef σ c).
Proof using alloc_fresh. clear lt eqb.
  intros Hne Hthis Hother Hdisj.
  set (σ0 := cleared this s items.*1 σ).
  assert (rep σ0 this s []) as Hthis0 by by apply rep_cleared.
  assert (∀ y, y ∉ s :: items.*1 → deref σ0 y = deref σ y) as Hfr0.
  { intros y Hy. unfold σ0. apply not_elem_of_cons in Hy as [? ?].
    rewrite deref_cleared by done. by rewrite decide_False. }
  assert (∀ c, c ≠ this → lderef σ0 c = lderef σ c) as Hlfr0.
  { intros c Hc. by apply lderef_cleared. }
  assert (rep σ0 other os oitems) as Hother0.
  { eapply rep_frame; [exact Hother|by apply Hlfr0|].
    intros y Hy. apply Hfr0. intros Hy'. by apply (Hdisj y). }
  destruct (run_copy_loop (S (size (nodes σ0))) σ0 this s other os [] [] oitems)
    as (σ' & new & Hrun & Hrep' & Hvals & Hfr' & Hdead & Hlfr); try done.
  - intros y ->%list_elem_of_singleton. apply Hdisj. by left.
  - simpl. destruct Hother as (_ & ? & _). lia.
  - pose proof (rep_size _ _ _ _ Hother0). lia.
  - exists σ', new. simpl in Hrep'.
    assert (∀ y, y ∉ s :: items.*1 → is_Some (deref σ y) →
                 deref σ' y = deref σ y) as Hfr.
    { intros y Hy Hl. rewrite Hfr'.
      - by apply Hfr0.
      - intros ->%list_elem_of_singleton. apply Hy. by left.
      - by rewrite Hfr0. }
    split; [|split; [done|split; [done|split; [|split]]]].
    + unfold assign. rewrite decide_False by done.
      eapply run_bind_eq; [by eapply run_clear|]. fold σ0.
      pose proof (rep_lderef _ _ _ _ Hother0) as Hlo.
      pose proof (rep_first _ _ _ _ Hother0) as Hf.
      do 2 mstep.
      eapply run_bind_eq; [apply run_heap_size|]. done.
    + eapply rep_frame; [exact Hother| |].
      * rewrite Hlfr by done. by apply Hlfr0.
      * intros y Hy. apply Hfr; [|by apply (rep_live _ _ _ _ Hother)].
        intros Hy'. by apply (Hdisj y).
    + done.
    + intros c Hc. rewrite Hlfr by done. by apply Hlfr0.
Qed.

(** ** [reverse] *)

Lemma swap_links_involutive (nd : node T) : swap_links (swap_links nd) = nd.
Proof. by destruct nd. Qed.

Lemma seg_rev σ σ' a q b :
  seg σ a q b →
  (∀ y, y ∈ a :: q ++ [b] → nxt σ' y = prv σ y ∧ prv σ' y = nxt σ y) →
  seg σ' b (rev q) a.
Proof.
  revert a. induction q as [|x q IH]; intros a; simpl.
  - intros [H1 H2] Hsw. split.
    + destruct (Hsw b) as [-> _]; [by right; left|done].
    + destruct (Hsw a) as [_ ->]; [by left|done].
  - intros [[H1 H2] Hs] Hsw. rewrite seg_snoc. split.
    + apply IH; [done|]. intros y Hy. apply Hsw. by right.
    + split.
      * destruct (Hsw x) as [-> _]; [by right; left|done].
      * destruct (Hsw a) as [_ ->]; [by left|done].
Qed.

Lemma nodes_upd_swap σ cur t pv nd y :
  nodes σ !! cur = Some nd → next nd = t → prev nd = pv →
  nodes (upd_prev cur t (upd_next cur pv σ)) !! y =
  if decide (y = cur) then swap_links <$> nodes σ !! y else nodes σ !! y.
Proof.
  intros Hnd <- <-. unfold upd_prev, upd_next, upd_node; simpl.
  rewrite !lookup_alter. destruct (decide (y = cur)) as [->|].
  - rewrite !decide_True by done. by rewrite Hnd.
  - by rewrite !decide_False by congruence.
Qed.

Lemma run_reverse_loop fuel σ this s n cur rest :
  lderef σ this = Some (LObj s n) →
  NoDup (cur :: rest) → s ∉ rest →
  npath σ (cur :: rest) s →
  (length rest < fuel)%nat →
  ∃ σ', reverse_loop fuel this cur σ = Ok tt σ' ∧
        lists σ' = lists σ ∧
        ∀ y, nodes σ' !! y =
             if decide (y ∈ cur :: rest) then swap_links <$> nodes σ !! y
             else nodes σ !! y.
Proof.
  revert fuel σ cur. induction rest as [|t rest IH];
    intros fuel σ cur Hlo Hnd Hs [Hn Hp] Hf;
    (destruct fuel as [|fuel]; simpl in Hf; [lia|]).
  - assert (is_Some (deref σ cur)) as [nd Hcur] by (apply nxt_is_Some; eauto).
    pose proof Hcur as Hraw. unfold deref in Hraw. case_decide; [done|].
    assert (prv σ cur = Some (prev nd)) as Hpv by (unfold prv; by rewrite Hcur).
    assert (next nd = s) as Hnx.
    { unfold nxt in Hn. rewrite Hcur in Hn. by injection Hn. }
    exists (upd_prev cur s (upd_next cur (prev nd) σ)).
    split; [|split; [done|]].
    + unfold reverse_loop. simpl in Hn. repeat mstep. done.
    + intros y. rewrite (nodes_upd_swap σ cur s (prev nd) nd) by done.
      destruct (decide (y = cur)) as [->|].
      * rewrite decide_True; [done|by left].
      * rewrite decide_False; [done|]. by intros ?%list_elem_of_singleton.
  - assert (is_Some (deref σ cur)) as [nd Hcur] by (apply nxt_is_Some; eauto).
    pose proof Hcur as Hraw. unfold deref in Hraw. case_decide; [done|].
    assert (prv σ cur = Some (prev nd)) as Hpv by (unfold prv; by rewrite Hcur).
    simpl in Hn.
    assert (next nd = t) as Hnx.
    { unfold nxt in Hn. rewrite Hcur in Hn. by injection Hn. }
    assert (t ≠ s) by (intros ->; apply Hs; by left).
    assert (cur ∉ t :: rest) as Hcr by by apply NoDup_cons in Hnd as [? _].
    set (σ1 := upd_prev cur t (upd_next cur (prev nd) σ)).
    destruct (IH fuel σ1 t) as (σ' & Hrun & Hl & Hnodes).
    + done.
    + by apply NoDup_cons in Hnd as [_ ?].
    + intros ?. apply Hs. by right.
    + eapply npath_frame; [done|]. intros y Hy. unfold σ1.
      autorewrite with store. rewrite decide_False; [done|]. by intros ->.
    + lia.
    + exists σ'. split; [|split; [done|]].
      * unfold reverse_loop; fold (@reverse_loop T). by repeat mstep.
      * intros y. rewrite Hnodes. unfold σ1.
        rewrite (nodes_upd_swap σ cur t (prev nd) nd) by done.
        destruct (decide (y = cur)) as [->|].
        -- rewrite decide_False by done. rewrite decide_True; [done|by left].
        -- destruct (decide (y ∈ t :: rest)).
           ++ rewrite decide_True; [done|by right].
           ++ rewrite decide_False; [done|].
              by intros [?|?]%elem_of_cons.
Qed.

Lemma run_reverse σ this s items :
  rep σ this s items →
  ∃ σ', reverse this σ = Ok tt σ' ∧
        lists σ' = lists σ ∧
        ∀ y, nodes σ' !! y =
             if decide (y ∈ s :: items.*1) then swap_links <$> nodes σ !! y
             else nodes σ !! y.
Proof.
  intros Hrep. pose proof (rep_lderef _ _ _ _ Hrep) as Hlo.
  pose proof (rep_nodup _ _ _ _ Hrep) as Hnd.
  pose proof (rep_size _ _ _ _ Hrep) as Hsz.
  destruct (run_reverse_loop (S (size (nodes σ))) σ this s
              (Z.of_nat (length items)) s items.*1)
    as (σ' & Hrun & Hl & Hnodes); try done.
  - by apply NoDup_cons in Hnd as [? _].
  - split; [apply (rep_first _ _ _ _ Hrep)|].
    apply (seg_npath _ s), (rep_seg _ _ _ _ Hrep).
  - rewrite length_fmap. lia.
  - exists σ'. split; [|done]. unfold reverse. mstep.
    by eapply run_bind_eq; [apply run_heap_size|].
Qed.

Lemma state_eq σ σ' : nodes σ' = nodes σ → lists σ' = lists σ → σ' = σ.
Proof. destruct σ, σ'; simpl. by intros -> ->. Qed.

Lemma rev_fst items : (rev items).*1 = rev items.*1.
Proof. unfold fmap. apply map_rev. Qed.

Lemma elem_of_rev {A} (l : list A) (x : A) : x ∈ rev l ↔ x ∈ l.
Proof. rewrite rev_alt. apply elem_of_reverse. Qed.

Lemma NoDup_rev {A} (l : list A) : NoDup l → NoDup (rev l).
Proof. rewrite !NoDup_ListNoDup. apply List.NoDup_rev. Qed.

Section Reversed.
Context σ σ' (cyc : list N).
Context (Hl : lists σ' = lists σ).
Context (Hnodes : ∀ y, nodes σ' !! y =
           if decide (y ∈ cyc) then swap_links <$> nodes σ !! y
           else nodes σ !! y).

Lemma reversed_deref y :
  deref σ' y = if decide (y ∈ cyc) then swap_links <$> deref σ y else deref σ y.
Proof using Hnodes.
  unfold deref. rewrite Hnodes.
  destruct (decide (y = null)); [by case_decide|done].
Qed.

Lemma reversed_in y :
  y ∈ cyc → nxt σ' y = prv σ y ∧ prv σ' y = nxt σ y ∧ vl σ' y = vl σ y.
Proof using Hnodes.
  intros Hy. unfold nxt, prv, vl. rewrite reversed_deref.
  rewrite decide_True by done. by destruct (deref σ y).
Qed.

Lemma reversed_lderef c : lderef σ' c = lderef σ c.
Proof using Hl. unfold lderef. by rewrite Hl. Qed.

End Reversed.

Lemma rep_reversed σ σ' this s items :
  rep σ this s items →
  lists σ' = lists σ →
  (∀ y, nodes σ' !! y =
        if decide (y ∈ s :: items.*1) then swap_links <$> nodes σ !! y
        else nodes σ !! y) →
  rep σ' this s (rev items).
Proof.
  intros (Hlo & Hlen & [Hnd Hseg] & Hs & Hv) Hl Hnodes.
  pose proof (reversed_in σ σ' _ Hnodes) as Hin.
  split; [|split; [|split; [split|split]]].
  - rewrite (reversed_lderef σ σ' Hl). by rewrite length_rev.
  - by rewrite length_rev.
  - rewrite rev_fst. apply NoDup_cons in Hnd as [? ?].
    apply NoDup_cons. split; [by rewrite elem_of_rev|by apply NoDup_rev].
  - rewrite rev_fst. eapply seg_rev; [done|].
    intros y Hy. destruct (Hin y) as (? & ? & _); [|done].
    rewrite app_comm_cons in Hy.
    apply elem_of_app in Hy as [?| ->%list_elem_of_singleton]; [done|by left].
  - destruct (Hin s) as (_ & _ & ->); [by left|done].
  - rewrite Forall_forall in Hv |- *. intros [x v] Hx. simpl.
    rewrite elem_of_rev in Hx.
    destruct (Hin x) as (_ & _ & ->).
    + right. by apply (elem_of_fst _ _ v).
    + by apply (Hv (x, v)).
Qed.

Lemma run_reverse_twice σ this s items :
  rep σ this s items →
  ∃ σ', reverse this σ = Ok tt σ' ∧ rep σ' this s (rev items) ∧
        reverse this σ' = Ok tt σ.
Proof.
  intros Hrep. destruct (run_reverse _ _ _ _ Hrep) as (σ' & Hrun & Hl & Hnodes).
  pose proof (rep_reversed _ _ _ _ _ Hrep Hl Hnodes) as Hrep'.
  exists σ'. split; [done|split; [done|]].
  destruct (run_reverse _ _ _ _ Hrep') as (σ'' & Hrun' & Hl' & Hnodes').
  rewrite Hrun'. f_equal. apply state_eq; [|congruence].
  apply map_eq. intros y. rewrite Hnodes', Hnodes.
  destruct (decide (y ∈ s :: items.*1)) as [Hy|Hy].
  - rewrite decide_True.
    + destruct (nodes σ !! y) as [nd|]; simpl; [|done].
      by rewrite swap_links_involutive.
    + rewrite rev_fst. apply elem_of_cons in Hy as [->|Hy]; [by left|right].
      by apply elem_of_rev.
  - rewrite decide_False; [done|]. rewrite rev_fst.
    intros [->|Hy']%elem_of_cons; apply Hy; [by left|right].
    by apply elem_of_rev.
Qed.

Lemma run_reverse_small σ this s items :
  rep σ this s items → (length items ≤ 1)%nat →
  reverse this σ = Ok tt σ.
Proof.
  intros Hrep Hlen.
  destruct (run_reverse _ _ _ _ Hrep) as (σ' & Hrun & Hl & Hnodes).
  rewrite Hrun. f_equal. apply state_eq; [|done].
  apply map_eq. intros y. rewrite Hnodes.
  destruct (decide (y ∈ s :: items.*1)) as [Hy|Hy]; [|done].
  assert (nxt σ y = prv σ y) as Heq.
  { pose proof (rep_seg _ _ _ _ Hrep) as Hseg.
    destruct items as [|[x v] [|? ?]]; simpl in *; [| |lia].
    - apply list_elem_of_singleton in Hy as ->.
      destruct Hseg as [-> ->]. done.
    - destruct Hseg as [[Hsx Hxs] [Hxs' Hsx']].
      apply elem_of_cons in Hy as [->| ->%list_elem_of_singleton]; congruence. }
  assert (is_Some (deref σ y)) as [nd Hnd] by by apply (rep_live _ _ _ _ Hrep).
  unfold nxt, prv in Heq. rewrite Hnd in Heq. simpl in Heq.
  unfold deref in Hnd. case_decide; [done|]. rewrite Hnd. simpl.
  f_equal. destruct nd as [p n v]. unfold swap_links. simpl in *. congruence.
Qed.

(** ** [unique] *)

Lemma uniq_from_drop_eq (e : N * T) l :
  uniq_from eqb e l = e :: unique_list eqb (drop_eq eqb e.2 l).
Proof.
  induction l as [|e' l IH]; simpl; [done|].
  destruct (eqb e.2 e'.2); [done|]. done.
Qed.

Lemma drop_eq_length v l : (length (drop_eq eqb v l) ≤ length l)%nat.
Proof.
  induction l as [|e l IH]; simpl; [done|].
  destruct (eqb v e.2); simpl; lia.
Qed.

Lemma drop_eq_subseteq v l : drop_eq eqb v l ⊆ l.
Proof.
  induction l as [|e l IH]; simpl; [done|].
  destruct (eqb v e.2); [|done]. intros e' Hy. right. by apply IH.
Qed.

Lemma fst_subseteq (l k : list (N * T)) : l ⊆ k → l.*1 ⊆ k.*1.
Proof.
  intros H y ([x v] & -> & Hy)%list_elem_of_fmap. simpl.
  apply (elem_of_fst _ _ v). by apply H.
Qed.

Lemma shrunk_refl σ this s items :
  rep σ this s items → shrunk σ σ this s items items.
Proof.
  intros. split; [done|]. split; [by intros ?|].
  split; [done|]. split; [by intros ? ? ?|done].
Qed.

Lemma shrunk_trans σ σ1 σ' this s items items1 result :
  rep σ this s items →
  shrunk σ σ1 this s items items1 → shrunk σ1 σ' this s items1 result →
  shrunk σ σ' this s items result.
Proof.
  intros Hrep (Hrep1 & Hsub1 & Hf1 & Hd1 & Hl1) (Hrep' & Hsub' & Hf' & Hd' & Hl').
  pose proof (fst_subseteq _ _ Hsub1) as Hsub11.
  split; [done|]. split; [by etrans|]. split; [|split].
  - intros y Hy. rewrite Hf'; [by apply Hf1|].
    intros [->|Hy']%elem_of_cons; apply Hy; [by left|right]. by apply Hsub11.
  - intros y Hy Hny. destruct (decide (y ∈ items1.*1)) as [Hin|Hnin].
    + by apply Hd'.
    + rewrite Hf'; [by apply Hd1|].
      intros [->|Hy']%elem_of_cons; [|done].
      pose proof (rep_nodup _ _ _ _ Hrep) as Hnd.
      by apply NoDup_cons in Hnd as [? _].
  - intros c Hc. rewrite Hl' by done. by apply Hl1.
Qed.

Lemma shrunk_unlinked σ this s i1 x v i2 :
  rep σ this s (i1 ++ (x, v) :: i2) →
  shrunk σ (unlinked this (default s (last i1.*1)) x (default s (head i2.*1))
              (Z.of_nat (length (i1 ++ i2))) σ)
    this s (i1 ++ (x, v) :: i2) (i1 ++ i2).
Proof. clear lt eqb.
  intros Hrep. split; [by apply (rep_unlinked _ _ _ _ _ v)|].
  pose proof (rep_decompose _ _ _ _ _ _ _ Hrep)
    as (_ & _ & _ & _ & _ & _ & _ & _ & HA & HC & _).
  split; [|split; [|split]].
  - intros y. rewrite !elem_of_app, elem_of_cons. tauto.
  - intros y Hy. apply deref_unlinked.
    + intros ->. apply Hy. rewrite fmap_app, app_comm_cons.
      apply elem_of_app. by left.
    + intros ->. apply Hy. right. rewrite fmap_app. apply elem_of_app.
      right. by left.
    + intros ->. apply Hy.
      apply elem_of_app in HC as [?| ->%list_elem_of_singleton]; [|by left].
      right. rewrite fmap_app. apply elem_of_app. right. by right.
  - intros y Hy Hny.
    assert (y = x) as ->; [|apply deref_unlinked_dead].
    rewrite fmap_app, elem_of_app in Hy, Hny. simpl in Hy.
    rewrite elem_of_cons in Hy. tauto.
  - intros c Hc. by apply lderef_unlinked.
Qed.

Lemma last_fst_snoc (i1 : list (N * T)) x v s :
  default s (last (i1 ++ [(x, v)]).*1) = x.
Proof. rewrite fmap_app. simpl. by rewrite last_snoc. Qed.

Lemma run_unique_run k σ this s i1 x v rest :
  rep σ this s (i1 ++ (x, v) :: rest) →
  (length rest ≤ k)%nat →
  ∃ σ',
    unique_run eqb k this x (default s (head rest.*1)) σ =
      Ok (default s (head (drop_eq eqb v rest).*1)) σ' ∧
    shrunk σ σ' this s (i1 ++ (x, v) :: rest) (i1 ++ (x, v) :: drop_eq eqb v rest).
Proof.
  revert k σ. induction rest as [|[y w] rest IH]; intros k σ Hrep Hk.
  - exists σ. split; [|by apply shrunk_refl].
    pose proof (rep_lderef _ _ _ _ Hrep) as Hlo.
    destruct k; unfold unique_run; by mstep.
  - pose proof (rep_lderef _ _ _ _ Hrep) as Hlo.
    assert (vl σ x = Some (Some v)) as Hvx.
    { apply (rep_vl _ _ _ _ Hrep). apply elem_of_app. right. by left. }
    assert (vl σ y = Some (Some w)) as Hvy.
    { apply (rep_vl _ _ _ _ Hrep). apply elem_of_app. right. right. by left. }
    assert (rep σ this s ((i1 ++ [(x, v)]) ++ (y, w) :: rest)) as Hrep2
      by by rewrite <-app_assoc.
    pose proof (rep_decompose _ _ _ _ _ _ _ Hrep2)
      as (Hpy & Hny & _ & _ & HyA & _ & Hys & _ & _ & _ & HlA & HlC & Hly).
    rewrite last_fst_snoc in Hpy, HyA, HlA.
    simpl. destruct (eqb v w) eqn:Heq.
    + destruct k as [|k]; simpl in Hk; [lia|].
      set (C := default s (head rest.*1)) in *.
      set (σ1 := unlinked this x y C
                   (Z.of_nat (length ((i1 ++ [(x, v)]) ++ rest))) σ).
      pose proof (shrunk_unlinked _ _ _ _ _ _ _ Hrep2) as Hsh.
      rewrite last_fst_snoc in Hsh. fold C σ1 in Hsh.
      rewrite <-!app_assoc in Hsh. simpl in Hsh.
      destruct (IH k σ1) as (σ' & Hrun & Hsh'); [apply Hsh|lia|].
      exists σ'. split; [|by eapply shrunk_trans].
      unfold unique_run; fold (@unique_run T eqb).
      do 3 mstep. rewrite Heq. mstep.
      eapply run_bind_eq; [by eapply run_erase_node|]. cbv beta.
      do 3 mstep.
      destruct Hrep as (_ & Hlen & _).
      replace (Z.of_nat (length (i1 ++ (x, v) :: (y, w) :: rest)) - 1)
        with (Z.of_nat (length ((i1 ++ [(x, v)]) ++ rest)));
        [|rewrite !length_app; simpl; lia].
      rewrite wrap64_small; [done|].
      rewrite !length_app in *; simpl in *; lia.
    + exists σ. split; [|by apply shrunk_refl].
      destruct k; unfold unique_run; do 3 mstep; by rewrite Heq.
Qed.

Lemma run_unique_loop fuel k σ this s i1 x v rest :
  rep σ this s (i1 ++ (x, v) :: rest) →
  (length rest < fuel)%nat → (length rest ≤ k)%nat →
  ∃ σ',
    unique_loop eqb fuel k this x σ = Ok tt σ' ∧
    shrunk σ σ' this s (i1 ++ (x, v) :: rest) (i1 ++ uniq_from eqb (x, v) rest).
Proof.
  revert σ i1 x v rest. induction fuel as [|fuel IH];
    intros σ i1 x v rest Hrep Hf Hk; [lia|].
  pose proof (rep_lderef _ _ _ _ Hrep) as Hlo.
  pose proof (rep_decompose _ _ _ _ _ _ _ Hrep)
    as (_ & Hnx & _ & _ & _ & _ & Hxs & _).
  destruct (run_unique_run k σ this s i1 x v rest) as (σ1 & Hrun1 & Hsh1);
    [done|done|].
  rewrite uniq_from_drop_eq. simpl.
  pose proof (drop_eq_length v rest) as Hdl.
  destruct (drop_eq eqb v rest) as [|[y w] rest'] eqn:Hd; simpl in *.
  - exists σ1. split; [|done].
    unfold unique_loop; fold (@unique_loop T eqb). do 2 mstep.
    eapply run_bind_eq; [done|].
    destruct Hsh1 as (Hrep1 & _). pose proof (rep_lderef _ _ _ _ Hrep1).
    destruct fuel; unfold unique_loop; by mstep.
  - pose proof Hsh1 as (Hrep1 & _).
    assert (rep σ1 this s ((i1 ++ [(x, v)]) ++ (y, w) :: rest')) as Hrep1'
      by by rewrite <-app_assoc.
    destruct (IH σ1 (i1 ++ [(x, v)]) y w rest') as (σ' & Hrun & Hsh');
      [done|lia|lia|].
    rewrite <-!app_assoc in Hsh'. simpl in Hsh'.
    exists σ'. split; [|by apply (shrunk_trans _ _ _ _ _ _ _ _ Hrep Hsh1 Hsh')].
    unfold unique_loop; fold (@unique_loop T eqb). do 2 mstep.
    by eapply run_bind_eq.
Qed.

Lemma unique_list_small items : (length items ≤ 1)%nat → unique_list eqb items = items.
Proof. destruct items as [|? [|? ?]]; simpl; [done|done|lia]. Qed.

Lemma run_unique σ this s items :
  rep σ this s items →
  ∃ σ', unique eqb this σ = Ok tt σ' ∧
        shrunk σ σ' this s items (unique_list eqb items).
Proof.
  intros Hrep. pose proof (rep_lderef _ _ _ _ Hrep) as Hlo.
  destruct (decide (length items ≤ 1)%nat) as [Hle|Hgt].
  - exists σ. rewrite unique_list_small by done.
    split; [|by apply shrunk_refl].
    unfold unique. by mstep.
  - destruct items as [|[x v] rest]; simpl in Hgt; [lia|].
    pose proof (rep_first _ _ _ _ Hrep) as Hf. simpl in Hf, Hlo.
    pose proof (rep_size _ _ _ _ Hrep) as Hsz. simpl in Hsz.
    destruct (run_unique_loop (S (size (nodes σ))) (S (size (nodes σ)))
                σ this s [] x v rest) as (σ' & Hrun & Hsh); [done|lia|lia|].
    exists σ'. split; [|done].
    unfold unique. do 3 mstep.
    by eapply run_bind_eq; [apply run_heap_size|].
Qed.

(** ** Moving a block of nodes from one ring into another *)

(** Redirect the start of a segment to [c]. *)
Lemma seg_redirect_start σ σ' x q b c :
  seg σ x q b →
  NoDup (q ++ [b]) →
  nxt σ' c = Some (default b (head q)) →
  prv σ' (default b (head q)) = Some c →
  (∀ y, y ∈ q → nxt σ' y = nxt σ y) →
  (∀ y, y ∈ q ++ [b] → y ≠ default b (head q) → prv σ' y = prv σ y) →
  seg σ' c q b.
Proof.
  destruct q as [|z q]; simpl.
  - by intros _ _ ? ? _ _.
  - intros [Hl Hseg] Hnd Hn Hp Hfn Hfp. split; [done|].
    eapply seg_frame; [done| |].
    + intros y Hy. by apply Hfn.
    + intros y Hy. apply Hfp; [by right|].
      apply not_eq_sym. by apply (nodup_cons_ne _ _ _ Hnd).
Qed.

Lemma disj_ne (L1 L2 : list N) y z :
  (∀ z, z ∈ L1 → z ∉ L2) → y ∈ L1 → z ∈ L2 → y ≠ z.
Proof. intros H Hy Hz ->. by apply (H z). Qed.

(** Keep what is known about the membership of [x] only. *)
Ltac keep_mem_of x :=
  repeat match goal with
    | H : ?P |- _ =>
        lazymatch P with
        | x ∈ _ => fail
        | _ => clear H
        end
    end.

Ltac mem_solver :=
  lazymatch goal with
  | |- ?x ∈ _ => keep_mem_of x; set_solver
  end.

(** [y ≠ z] for nodes of two disjoint rings. *)
Ltac dj Hd :=
  first [ by (apply (disj_ne _ _ _ _ Hd); mem_solver)
        | by (apply not_eq_sym, (disj_ne _ _ _ _ Hd); mem_solver) ].

Lemma NoDup_splice (s : N) (j1 j2 bl : list N) :
  NoDup (s :: j1 ++ j2) → NoDup bl →
  (∀ z, z ∈ s :: j1 ++ j2 → z ∉ bl) →
  NoDup (s :: j1 ++ bl ++ j2).
Proof.
  intros H1 H2 Hd.
  rewrite (Permutation_app_swap_app j1 bl j2), Permutation_middle.
  apply NoDup_app. split; [done|]. split; [|done].
  intros z Hz Hz'. by apply (Hd z).
Qed.

Lemma rep_splice σ σ' this s other os i1 i2 blk rest f lastb :
  rep σ this s (i1 ++ i2) → rep σ other os (blk ++ rest) →
  (∀ z, z ∈ s :: (i1 ++ i2).*1 → z ∉ os :: (blk ++ rest).*1) →
  head blk.*1 = Some f → last blk.*1 = Some lastb →
  Z.of_nat (length (i1 ++ blk ++ i2)) < size_max →
  lderef σ' this = Some (LObj s (Z.of_nat (length (i1 ++ blk ++ i2)))) →
  lderef σ' other = Some (LObj os (Z.of_nat (length rest))) →
  nxt σ' (default s (last i1.*1)) = Some f →
  prv σ' f = Some (default s (last i1.*1)) →
  nxt σ' lastb = Some (default s (head i2.*1)) →
  prv σ' (default s (head i2.*1)) = Some lastb →
  nxt σ' os = Some (default os (head rest.*1)) →
  prv σ' (default os (head rest.*1)) = Some os →
  (∀ y, y ≠ default s (last i1.*1) → y ≠ lastb → y ≠ os → nxt σ' y = nxt σ y) →
  (∀ y, y ≠ f → y ≠ default s (head i2.*1) → y ≠ default os (head rest.*1) →
        prv σ' y = prv σ y) →
  (∀ y, vl σ' y = vl σ y) →
  rep σ' this s (i1 ++ blk ++ i2) ∧ rep σ' other os rest.
Proof.
  intros (_ & _ & [Hnd1 Hseg1] & Hvs1 & Hv1) (_ & Hlen2 & [Hnd2 Hseg2] & Hvs2 & Hv2).
  intros Hdisj Hf Hlast Hsz Hlo1 Hlo2.
  rewrite !fmap_app in *.
  assert (default s (last i1.*1) ∈ s :: i1.*1) as HP by apply default_last_elem_of.
  assert (default s (head i2.*1) ∈ i2.*1 ++ [s]) as Hpos
    by apply default_head_elem_of.
  assert (default os (head rest.*1) ∈ rest.*1 ++ [os]) as Hnb
    by apply default_head_elem_of.
  pose proof (seg_app_head _ _ _ _ _ Hseg1) as HsegA.
  remember (default s (last i1.*1)) as P eqn:EP.
  remember (default s (head i2.*1)) as pos eqn:Epos.
  remember (default os (head rest.*1)) as nb eqn:Enb.
  remember (blk.*1) as b1 eqn:Eb1. remember (i1.*1) as j1 eqn:Ej1.
  remember (i2.*1) as j2 eqn:Ej2. remember (rest.*1) as r1 eqn:Er1.
  assert (f ∈ b1) as Hfin by by apply head_Some_elem_of.
  assert (lastb ∈ b1) as Hlin by by apply last_Some_elem_of.
  destruct b1 as [|f' b']; [done|]. injection Hf as ->.
  assert (default f (last b') = lastb) as Hlb.
  { rewrite last_cons in Hlast. by destruct (last b'); injection Hlast as ->. }
  (* the segments of the two rings *)
  simpl in Hseg2. destruct Hseg2 as [Hlf Hseg2].
  pose proof (seg_app_head _ _ _ _ _ Hseg2) as HsegC. rewrite <-Enb in HsegC.
  pose proof Hnd1 as Hnd1'. pose proof Hnd2 as Hnd2'.
  rewrite ?NoDup_cons, ?NoDup_app, ?NoDup_cons in Hnd1', Hnd2'.
  intros HnP Hpf Hnl Hpp Hno Hpn Hfn Hfp Hfv.
  assert (Hnb1 : NoDup (f :: b')).
  { by destruct Hnd2' as (_ & ? & _). }
  assert (HsC : seg σ' f b' pos).
  { eapply seg_redirect; [exact HsegC|done|by rewrite Hlb|by rewrite Hlb| |].
    - intros y Hy Hne. rewrite Hlb in Hne. apply Hfn; [|done|].
      + dj Hdisj.
      + clear -Hnd2' Hy. set_solver.
    - intros y Hy. apply Hfp.
      + clear -Hnb1 Hy. rewrite NoDup_cons in Hnb1. set_solver.
      + dj Hdisj.
      + clear -Hnd2' Hnb Hy. set_solver. }
  assert (HsA : seg σ' s j1 f).
  { eapply seg_redirect; [exact HsegA| |by rewrite <-EP|by rewrite <-EP| |].
    - clear -Hnd1. rewrite app_comm_cons in Hnd1.
      by apply NoDup_app in Hnd1 as (? & _).
    - intros y Hy Hne. apply Hfn; [by rewrite EP| |].
      + dj Hdisj.
      + dj Hdisj.
    - intros y Hy. apply Hfp.
      + dj Hdisj.
      + clear -Hnd1' Hpos Hy. set_solver.
      + dj Hdisj. }
  assert (HsB : seg σ' s (j1 ++ f :: b' ++ j2) s).
  { apply seg_app. split; [done|].
    destruct j2 as [|p2 j2']; simpl in Epos; subst pos.
    - by rewrite app_nil_r.
    - apply seg_app. split; [done|].
      apply seg_app in Hseg1 as [_ HsegB].
      eapply seg_frame; [exact HsegB| |].
      + intros y Hy. apply Hfn.
        * clear -Hnd1' HP Hy. set_solver.
        * dj Hdisj.
        * dj Hdisj.
      + intros y Hy. apply Hfp.
        * dj Hdisj.
        * clear -Hnd1' Hy. rewrite ?NoDup_cons in Hnd1'. set_solver.
        * dj Hdisj. }
  assert (HsD : seg σ' os r1 os).
  { assert (seg σ (default f (last b')) r1 os) as HsegD.
    { clear Enb Hnb Er1. destruct r1 as [|n1 r1'].
      - rewrite app_nil_r in Hseg2. by apply seg_last in Hseg2.
      - apply seg_app in Hseg2 as [Hx Hseg2].
        simpl. split; [by apply seg_last in Hx|done]. }
    eapply seg_redirect_start;
      [exact HsegD| |by rewrite <-Enb|by rewrite <-Enb| |].
    - clear -Hnd2'. rewrite NoDup_app. split; [naive_solver|].
      split; [|apply NoDup_singleton]. set_solver.
    - intros y Hy. apply Hfn.
      + dj Hdisj.
      + clear -Hnd2' Hlin Hy. set_solver.
      + clear -Hnd2' Hy. set_solver.
    - intros y Hy Hne. rewrite <-Enb in Hne. apply Hfp; [| |done].
      + clear -Hnd2' Hy. set_solver.
      + dj Hdisj. }
  split.
  - split; [done|]. split; [done|]. split; [split|split].
    + rewrite !fmap_app, <-Ej1, <-Ej2, <-Eb1.
      apply NoDup_splice; [done|done|].
      intros z Hz Hz'. apply (Hdisj z Hz). right. apply elem_of_app. by left.
    + by rewrite !fmap_app, <-Ej1, <-Ej2, <-Eb1.
    + by rewrite Hfv.
    + rewrite Forall_forall in Hv1, Hv2 |- *. intros [y w] Hy; simpl.
      rewrite Hfv. rewrite !elem_of_app in Hy.
      destruct Hy as [Hy|[Hy|Hy]].
      * apply (Hv1 (y, w)). apply elem_of_app. by left.
      * apply (Hv2 (y, w)). apply elem_of_app. by left.
      * apply (Hv1 (y, w)). apply elem_of_app. by right.
  - split; [done|]. split; [|split; [split|split]].
    + rewrite length_app in Hlen2. lia.
    + rewrite <-Er1. destruct Hnd2' as (Ho & _ & _ & Hr).
      apply NoDup_cons. split; [|done].
      intros ?. apply Ho. apply elem_of_app. by right.
    + by rewrite <-Er1.
    + by rewrite Hfv.
    + rewrite Forall_forall in Hv2 |- *. intros [y w] Hy; simpl.
      rewrite Hfv. apply (Hv2 (y, w)). apply elem_of_app. by right.
Qed.

(** ** The loops of [merge] *)

Lemma run_merge_skip k σ this s pre la b vb :
  rep σ this s (pre ++ la) →
  vl σ b = Some (Some vb) →
  (length la ≤ k)%nat →
  merge_skip lt k this (default s (head la.*1)) b σ =
  Ok (default s (head (span (λ e, negb (lt vb e.2)) la).2.*1)) σ.
Proof.
  revert k pre. induction la as [|[x v] la IH]; intros k pre Hrep Hb Hk.
  - pose proof (rep_lderef _ _ _ _ Hrep) as Hlo.
    destruct k; unfold merge_skip; by mstep.
  - pose proof (rep_lderef _ _ _ _ Hrep) as Hlo.
    pose proof (rep_decompose _ _ _ _ _ _ _ Hrep)
      as (_ & Hnx & _ & _ & _ & _ & Hxs & _).
    assert (vl σ x = Some (Some v)) as Hvx.
    { apply (rep_vl _ _ _ _ Hrep). apply elem_of_app. right. by left. }
    simpl. destruct (lt vb v) eqn:E; simpl.
    + destruct k; unfold merge_skip; do 3 mstep; by rewrite E.
    + destruct k as [|k]; simpl in Hk; [lia|].
      unfold merge_skip; fold (@merge_skip T lt). do 3 mstep.
      rewrite E. simpl. mstep.
      apply (IH k (pre ++ [(x, v)])); [by rewrite <-app_assoc|done|lia].
Qed.

Lemma run_merge_block k σ other os pre lb a va cnt :
  rep σ other os (pre ++ lb) →
  vl σ a = Some (Some va) →
  (length lb ≤ k)%nat →
  0 ≤ cnt → cnt + Z.of_nat (length lb) < size_max →
  merge_block lt k other a (default os (head lb.*1)) cnt σ =
  Ok (default os (head (span (λ e, lt e.2 va) lb).2.*1),
      cnt + Z.of_nat (length (span (λ e, lt e.2 va) lb).1)) σ.
Proof.
  revert k pre cnt. induction lb as [|[x v] lb IH]; intros k pre cnt Hrep Ha Hk H0 Hc.
  - pose proof (rep_lderef _ _ _ _ Hrep) as Hlo.
    destruct k; unfold merge_block; mstep; simpl; by rewrite Z.add_0_r.
  - pose proof (rep_lderef _ _ _ _ Hrep) as Hlo.
    pose proof (rep_decompose _ _ _ _ _ _ _ Hrep)
      as (_ & Hnx & _ & _ & _ & _ & Hxs & _).
    assert (vl σ x = Some (Some v)) as Hvx.
    { apply (rep_vl _ _ _ _ Hrep). apply elem_of_app. right. by left. }
    simpl. destruct (lt v va) eqn:E; simpl.
    + destruct k as [|k]; simpl in Hk; [lia|].
      unfold merge_block; fold (@merge_block T lt). do 3 mstep.
      rewrite E. mstep. simpl in Hc.
      rewrite wrap64_small by lia.
      rewrite (IH k (pre ++ [(x, v)])); [|by rewrite <-app_assoc|done|lia|lia|lia].
      do 2 f_equal. lia.
    + destruct k; unfold merge_block; do 3 mstep; rewrite E;
        by rewrite Z.add_0_r.
Qed.

Lemma run_merge_walk k σ q b i cnt :
  npath σ q b →
  (k ≥ Z.to_nat (cnt - i))%nat →
  cnt - i ≤ Z.of_nat (length q) → 0 ≤ i → cnt < size_max →
  ∃ e, merge_walk k (default b (head q)) i cnt σ = Ok e σ.
Proof.
  revert k i. induction q as [|x q IH]; intros k i Hp Hk Hc H0 Hsz.
  - simpl in Hc. exists b. destruct k; unfold merge_walk;
      by rewrite decide_False by lia.
  - destruct (decide (i < cnt)) as [Hlt|Hge].
    + destruct k as [|k]; [lia|]. destruct Hp as [Hx Hp].
      destruct (IH k (i + 1)) as (e & He); [done|lia|simpl in Hc; lia|lia|done|].
      exists e. unfold merge_walk; fold (@merge_walk T).
      rewrite decide_True by done. simpl. mstep.
      by rewrite wrap64_small by lia.
    + exists x. destruct k; unfold merge_walk; by rewrite decide_False by lia.
Qed.

Lemma rep_link_at σ c s i1 i2 :
  rep σ c s (i1 ++ i2) →
  link σ (default s (last i1.*1)) (default s (head i2.*1)).
Proof.
  intros Hrep. pose proof (rep_seg _ _ _ _ Hrep) as Hseg.
  rewrite fmap_app in Hseg. by apply seg_app_head, seg_last in Hseg.
Qed.

Lemma span_lt_nonempty va (b : N) vb lb :
  lt vb va = true →
  ∃ blk', (span (λ e : N * T, lt e.2 va) ((b, vb) :: lb)).1 = (b, vb) :: blk'.
Proof. intros E. simpl. rewrite E. simpl. eauto. Qed.

Lemma last_cons_default {A} (x : A) (l : list A) :
  last (x :: l) = Some (default x (last l)).
Proof. rewrite last_cons. by destruct (last l). Qed.

Lemma run_merge_take_block k σ this s other os i1 a va i2 b vb lb :
  this ≠ other →
  rep σ this s (i1 ++ (a, va) :: i2) →
  rep σ other os ((b, vb) :: lb) →
  (∀ z, z ∈ s :: (i1 ++ (a, va) :: i2).*1 → z ∉ os :: ((b, vb) :: lb).*1) →
  lt vb va = true →
  Z.of_nat (length (i1 ++ (a, va) :: i2) + length ((b, vb) :: lb)) < size_max →
  (S (length lb) ≤ k)%nat →
  let blk := (span (λ e, lt e.2 va) ((b, vb) :: lb)).1 in
  let rest := (span (λ e, lt e.2 va) ((b, vb) :: lb)).2 in
  ∃ σ',
    merge_take_block lt k this other a b σ =
      Ok (default os (head rest.*1)) σ' ∧
    rep σ' this s (i1 ++ blk ++ (a, va) :: i2) ∧
    rep σ' other os rest ∧
    (∀ y, vl σ' y = vl σ y) ∧
    (∀ y, y ∉ s :: (i1 ++ (a, va) :: i2).*1 → y ∉ os :: ((b, vb) :: lb).*1 →
          deref σ' y = deref σ y) ∧
    (∀ c, c ≠ this → c ≠ other → lderef σ' c = lderef σ c).
Proof.
  intros Hne Hthis Hother Hdisj Hlt Hsz Hk blk rest.
  destruct (span_lt_nonempty va b vb lb Hlt) as (blk' & Eblk). fold blk in Eblk.
  pose proof (span_app (λ e : N * T, lt e.2 va) ((b, vb) :: lb)) as Eapp.
  fold blk rest in Eapp.
  pose proof (rep_lderef _ _ _ _ Hthis) as Hlo1.
  pose proof (rep_lderef _ _ _ _ Hother) as Hlo2.
  pose proof (rep_decompose _ _ _ _ _ _ _ Hthis)
    as (Hpa & _ & HnP & _ & HaP & _ & Has & _ & HPin & _ & HlP & _ & Hla).
  pose proof Hother as Hother'. rewrite <-Eapp in Hother'.
  pose proof (rep_link_at _ _ _ _ _ Hother') as [Hnl Hpn].
  pose proof (rep_first _ _ _ _ Hother) as Hfo. simpl in Hfo.
  assert (prv σ b = Some os) as Hpb.
  { pose proof (rep_seg _ _ _ _ Hother) as Hseg. simpl in Hseg.
    by destruct Hseg as [[_ ?] _]. }
  assert (vl σ a = Some (Some va)) as Hva.
  { apply (rep_vl _ _ _ _ Hthis). apply elem_of_app. right. by left. }
  assert (last blk.*1 = Some (default os (last blk.*1))) as Hlastb.
  { rewrite Eblk. simpl. rewrite last_cons_default. simpl.
    by destruct (last blk'.*1). }
  assert (default os (head rest.*1) ∈ rest.*1 ++ [os]) as Hnbin
    by apply default_head_elem_of.
  remember (default s (last i1.*1)) as P eqn:EP.
  remember (default os (head rest.*1)) as nb eqn:Enb.
  remember (default os (last blk.*1)) as lastb eqn:Elastb.
  assert (lastb ∈ blk.*1) as Hlin by by apply last_Some_elem_of.
  assert (blk.*1 ⊆ ((b, vb) :: lb).*1) as Hsub.
  { rewrite <-Eapp, fmap_app. intros z Hz. apply elem_of_app. by left. }
  assert (is_Some (deref σ os)) as Hlos by (apply nxt_is_Some; eauto).
  assert (is_Some (deref σ nb)) as Hlnb by (apply prv_is_Some; eauto).
  assert (is_Some (deref σ lastb)) as Hll by (apply nxt_is_Some; eauto).
  assert (is_Some (deref σ b)) as Hlb by (apply prv_is_Some; eauto).
  pose proof (rep_nodup _ _ _ _ Hother') as Hnd2.
  pose proof (rep_nodup _ _ _ _ Hthis) as Hnd1.
  rewrite !fmap_app in Hnd2. rewrite Eblk in Hnd2. simpl in Hnd2.
  assert (os ≠ lastb) as Hol.
  { apply NoDup_cons in Hnd2 as [Ho _]. intros ->. apply Ho.
    rewrite Eblk in Hlin. simpl in Hlin.
    rewrite app_comm_cons. apply elem_of_app. by left. }
  assert (os ≠ b) as Hob.
  { apply NoDup_cons in Hnd2 as [Ho _]. intros ->. apply Ho. by left. }
  assert (∀ z, z ∈ s :: (i1 ++ (a, va) :: i2).*1 →
               z ≠ os ∧ z ≠ b ∧ z ≠ lastb ∧ z ≠ nb) as Hdj.
  { intros z Hz. specialize (Hdisj z Hz).
    rewrite not_elem_of_cons in Hdisj. destruct Hdisj as [Hzo Hzl].
    split; [done|]. split; [|split].
    - intros ->. apply Hzl. by left.
    - intros ->. apply Hzl. by apply Hsub.
    - intros ->.
      apply elem_of_app in Hnbin as [Hin| ->%list_elem_of_singleton]; [|done].
      apply Hzl. rewrite <-Eapp, fmap_app. apply elem_of_app. by right. }
  assert (a ∈ s :: (i1 ++ (a, va) :: i2).*1) as Hain.
  { right. rewrite fmap_app. apply elem_of_app. right. by left. }
  assert (P ∈ s :: (i1 ++ (a, va) :: i2).*1) as HPin'.
  { rewrite fmap_app, app_comm_cons. apply elem_of_app. by left. }
  destruct (Hdj a Hain) as (Hao & Hab & Hal & Hanb).
  destruct (Hdj P HPin') as (HPo & HPb & HPl & HPnb).
  assert (b ≠ nb) as Hbnb.
  { intros Heq. apply elem_of_app in Hnbin as [Hin|Hin%list_elem_of_singleton].
    - apply NoDup_cons in Hnd2 as [_ Hnd2]. apply NoDup_cons in Hnd2 as [Hb _].
      apply Hb. rewrite <-Heq in Hin. apply elem_of_app. by right.
    - congruence. }
  assert (Z.of_nat (length blk) + Z.of_nat (length rest) =
          Z.of_nat (S (length lb))) as Hlens.
  { rewrite <-Nat2Z.inj_add, <-length_app, Eapp. done. }
  rewrite length_app in Hsz. simpl in Hsz.
  rewrite length_app in Hlo1. simpl in Hlo1, Hlo2.
  (* run *)
  set (n1 := Z.of_nat (length (i1 ++ blk ++ (a, va) :: i2))).
  set (n2 := Z.of_nat (length rest)).
  exists (upd_n other n2 (upd_n this n1
            (upd_prev a lastb (upd_next lastb a
               (upd_prev b P (upd_next P b
                  (upd_prev nb os (upd_next os nb σ)))))))).
  split.
  { unfold merge_take_block.
    eapply run_bind_eq.
    { apply (run_merge_block k σ other os [] ((b, vb) :: lb) a va 0);
        [done|done|simpl; zlia|zlia|simpl; zlia]. }
    fold blk rest. rewrite <-Enb. simpl.
    destruct (run_merge_walk k σ blk.*1 nb 1 (Z.of_nat (length blk)))
      as (e & He).
    - apply (seg_npath σ os).
      pose proof (rep_seg _ _ _ _ Hother') as Hseg. rewrite fmap_app in Hseg.
      apply seg_app_head in Hseg. by rewrite Enb.
    - zlia.
    - rewrite length_fmap. zlia.
    - zlia.
    - zlia.
    - rewrite Eblk in He. simpl in He.
      rewrite Eblk. simpl length.
      eapply run_bind_eq; [exact He|]. simpl. mstep.
      assert ((if decide (nb = os) then get_prev os else get_prev nb) σ
              = Ok lastb σ) as Hend.
      { destruct (decide (nb = os)) as [Heq|].
        - apply run_get_prev. by rewrite <-Heq.
        - by apply run_get_prev. }
      eapply run_bind_eq; [exact Hend|]. simpl.
      repeat mstep.
      unfold n1, n2. rewrite Eblk in Hlens |- *.
      rewrite ?length_app in Hlens |- *. cbn [length] in Hlens |- *.
      rewrite ?length_app. cbn [length].
      rewrite !wrap64_small by zlia.
      unfold ret. do 3 f_equal; [f_equal|]; zlia. }
  match goal with |- _ ∧ rep ?st _ _ _ ∧ _ => set (σ' := st) end.
  assert (∀ y, vl σ' y = vl σ y) as Hfv.
  { intros y. unfold σ'. by autorewrite with store. }
  assert (rep σ' this s (i1 ++ blk ++ (a, va) :: i2) ∧ rep σ' other os rest)
    as [Hr1 Hr2].
  { eapply (rep_splice σ σ' this s other os i1 ((a, va) :: i2) blk rest b lastb);
     [exact Hthis|by rewrite Eapp|by rewrite Eapp|by rewrite Eblk|done|..];
     try exact Hfv; rewrite <-?EP, <-?Enb; unfold σ'; simpl.
    all: try (autorewrite with store; dec_tac; simpl).
    all: try done.
    all: try by (repeat match goal with
                   | H : ?t = Some _ |- context [?t] => rewrite H
                   end).
    - rewrite ?length_app. cbn [length]. rewrite ?length_app. cbn [length].
      rewrite ?length_app in Hlens. zlia.
    - intros y ? ? ?. autorewrite with store. by dec_tac.
    - intros y ? ? ?. autorewrite with store. by dec_tac. }
  split; [done|]. split; [done|]. split; [done|]. split.
  - intros y Hy1 Hy2. unfold σ'.
    assert (y ≠ os) by (intros ->; apply Hy2; by left).
    assert (y ≠ b) by (intros ->; apply Hy2; right; by left).
    assert (y ≠ lastb) by (intros ->; apply Hy2; right; by apply Hsub).
    assert (y ≠ a) by by intros ->.
    assert (y ≠ P) by by intros ->.
    assert (y ≠ nb).
    { intros ->. apply Hy2.
      apply elem_of_app in Hnbin as [Hin| ->%list_elem_of_singleton]; [|by left].
      right. rewrite <-Eapp, fmap_app. apply elem_of_app. by right. }
    autorewrite with store. by dec_tac.
  - intros c ? ?. unfold σ'. autorewrite with store. by dec_tac.
Qed.

(** Rewrite with the reads known from the hypotheses. *)
Ltac known_reads :=
  repeat match goal with
    | H : ?t = Some _ |- context [?t] => rewrite H
    end.

Section WholeRing.
(** The whole ring of [other] is moved behind the items of [this]. *)
Context σ this s (other os : N) items (b : N) (vb : T) (lb : list (N * T)).
Context (Hne : this ≠ other).
Context (Hthis : rep σ this s items).
Context (Hother : rep σ other os ((b, vb) :: lb)).
Context (Hdisj : ∀ z, z ∈ s :: items.*1 → z ∉ os :: ((b, vb) :: lb).*1).
Context (Hsz : Z.of_nat (length items + length ((b, vb) :: lb)) < size_max).

Let P := default s (last items.*1).
Let lastb := default b (last lb.*1).
Let n1 := Z.of_nat (length (items ++ (b, vb) :: lb)).

Lemma whole_ring_facts :
  lderef σ this = Some (LObj s (Z.of_nat (length items))) ∧
  lderef σ other = Some (LObj os (Z.of_nat (S (length lb)))) ∧
  nxt σ P = Some s ∧ prv σ s = Some P ∧
  nxt σ os = Some b ∧ prv σ b = Some os ∧
  nxt σ lastb = Some os ∧ prv σ os = Some lastb ∧
  last ((b, vb) :: lb).*1 = Some lastb ∧
  is_Some (deref σ P) ∧ is_Some (deref σ s) ∧ is_Some (deref σ os) ∧
  is_Some (deref σ b) ∧ is_Some (deref σ lastb) ∧
  os ≠ b ∧ os ≠ lastb ∧ os ≠ s ∧ os ≠ P ∧ s ≠ b ∧ s ≠ lastb ∧
  P ≠ b ∧ P ≠ lastb.
Proof using Hdisj Hother Hsz Hthis.
  pose proof (rep_lderef _ _ _ _ Hthis) as Hlo1.
  pose proof (rep_lderef _ _ _ _ Hother) as Hlo2. simpl in Hlo2.
  pose proof (rep_link_at σ this s items []) as [HnP Hps].
  { by rewrite app_nil_r. }
  simpl in HnP, Hps. fold P in HnP, Hps.
  pose proof (rep_link_at σ other os ((b, vb) :: lb) []) as [Hnl Hpo].
  { by rewrite app_nil_r. }
  assert (last ((b, vb) :: lb).*1 = Some lastb) as Hlast.
  { simpl. apply last_cons_default. }
  rewrite Hlast in Hnl, Hpo. simpl in Hnl, Hpo.
  pose proof (rep_link_at σ other os [] ((b, vb) :: lb) Hother) as [Hno Hpb].
  simpl in Hno, Hpb.
  assert (lastb ∈ ((b, vb) :: lb).*1) as Hlin by by apply last_Some_elem_of.
  assert (P ∈ s :: items.*1) as HPin by apply default_last_elem_of.
  pose proof (rep_nodup _ _ _ _ Hother) as Hnd2.
  apply NoDup_cons in Hnd2 as [Ho _].
  pose proof (Hdisj s) as Hds. pose proof (Hdisj P HPin) as HdP.
  rewrite not_elem_of_cons in Hds, HdP.
  assert (b ∈ ((b, vb) :: lb).*1) as Hbin by by left.
  repeat split; try done.
  - apply nxt_is_Some; eauto.
  - apply prv_is_Some; eauto.
  - apply nxt_is_Some; eauto.
  - apply prv_is_Some; eauto.
  - apply nxt_is_Some; eauto.
  - by intros <-.
  - by intros <-.
  - apply not_eq_sym, Hds. by left.
  - apply not_eq_sym, HdP.
  - intros <-. apply Hds; [by left|done].
  - intros <-. apply Hds; [by left|done].
  - intros <-. by apply HdP.
  - intros <-. by apply HdP.
Qed.

Lemma rep_whole_ring σ' :
  lderef σ' this = Some (LObj s n1) →
  lderef σ' other = Some (LObj os 0) →
  nxt σ' P = Some b → prv σ' b = Some P →
  nxt σ' lastb = Some s → prv σ' s = Some lastb →
  nxt σ' os = Some os → prv σ' os = Some os →
  (∀ y, y ≠ P → y ≠ lastb → y ≠ os → nxt σ' y = nxt σ y) →
  (∀ y, y ≠ b → y ≠ s → y ≠ os → prv σ' y = prv σ y) →
  (∀ y, vl σ' y = vl σ y) →
  rep σ' this s (items ++ (b, vb) :: lb) ∧ rep σ' other os [].
Proof using Hdisj Hne Hother Hsz Hthis.
  intros Hlo1 Hlo2 HnP Hpb Hnl Hps Hno Hpo Hfn Hfp Hfv.
  destruct whole_ring_facts
    as (_ & _ & _ & _ & _ & _ & _ & _ & Hlast & _).
  pose proof (rep_splice σ σ' this s other os items [] ((b, vb) :: lb) [] b lastb)
    as H.
  rewrite !app_nil_r in H. apply H; try done.
  rewrite length_app. lia.
Qed.

Lemma run_merge_splice_rest :
  items ≠ [] →
  ∃ σ',
    merge_splice_rest this other b σ = Ok tt σ' ∧
    rep σ' this s (items ++ (b, vb) :: lb) ∧
    rep σ' other os [] ∧
    (∀ y, vl σ' y = vl σ y) ∧
    (∀ y, y ∉ s :: items.*1 → y ∉ os :: ((b, vb) :: lb).*1 →
          deref σ' y = deref σ y) ∧
    (∀ c, c ≠ this → c ≠ other → lderef σ' c = lderef σ c).
Proof using Hdisj Hne Hother Hsz Hthis.
  intros _.
  destruct whole_ring_facts
    as (Hlo1 & Hlo2 & HnP & Hps & Hno & Hpb & Hnl & Hpo & Hlast &
        HlP & Hls & Hlos & Hlb & Hll &
        Hob & Hol & Hos & HoP & Hsb & Hsl & HPb & HPl).
  set (σ' := upd_n other 0 (upd_n this n1
     (upd_prev s lastb (upd_next lastb s (upd_prev b P (upd_next P b
        (upd_prev os os (upd_next os os
           (upd_prev os os (upd_next os os σ)))))))))).
  exists σ'. split.
  { unfold merge_splice_rest. repeat mstep.
    unfold σ', n1. rewrite length_app. simpl length.
    simpl length in Hsz.
    rewrite wrap64_small; [|zlia].
    rewrite <-Nat2Z.inj_add. by mstep. }
  assert (∀ y, vl σ' y = vl σ y) as Hfv.
  { intros y. unfold σ'. by autorewrite with store. }
  split; [|split; [|split; [done|split]]].
  1, 2: apply (rep_whole_ring σ'); unfold σ'; try done;
        try (intros y ? ? ?); autorewrite with store; dec_tac; simpl;
        known_reads; done.
  - intros y Hy1 Hy2. unfold σ'.
    pose proof (default_last_elem_of s items.*1) as HPin. fold P in HPin.
    pose proof (last_Some_elem_of _ _ Hlast) as Hlin.
    assert (y ≠ os) by (intros ->; apply Hy2; by left).
    assert (y ≠ b) by (intros ->; apply Hy2; right; by left).
    assert (y ≠ lastb) by (intros ->; apply Hy2; by right).
    assert (y ≠ s) by (intros ->; apply Hy1; by left).
    assert (y ≠ P) by by intros ->.
    autorewrite with store. by dec_tac.
  - intros c ? ?. unfold σ'. autorewrite with store. by dec_tac.
Qed.

Lemma run_merge_move_all :
  items = [] →
  ∃ σ',
    merge_move_all this other σ = Ok tt σ' ∧
    rep σ' this s (items ++ (b, vb) :: lb) ∧
    rep σ' other os [] ∧
    (∀ y, vl σ' y = vl σ y) ∧
    (∀ y, y ∉ s :: items.*1 → y ∉ os :: ((b, vb) :: lb).*1 →
          deref σ' y = deref σ y) ∧
    (∀ c, c ≠ this → c ≠ other → lderef σ' c = lderef σ c).
Proof using Hdisj Hne Hother Hsz Hthis.
  intros Hnil.
  destruct whole_ring_facts
    as (Hlo1 & Hlo2 & HnP & Hps & Hno & Hpb & Hnl & Hpo & Hlast &
        HlP & Hls & Hlos & Hlb & Hll &
        Hob & Hol & Hos & HoP & Hsb & Hsl & HPb & HPl).
  assert (P = s) as EP by (unfold P; by rewrite Hnil).
  rewrite EP in HnP, Hps.
  set (σ' := upd_n other 0 (upd_next os os (upd_prev os os
     (upd_n this n1
        (upd_next lastb s (upd_prev b s
           (upd_prev s lastb (upd_next s b σ)))))))).
  exists σ'. split.
  { unfold merge_move_all. repeat mstep.
    unfold σ', n1. rewrite length_app, Hnil. simpl length. simpl Nat.add.
    by mstep. }
  assert (∀ y, vl σ' y = vl σ y) as Hfv.
  { intros y. unfold σ'. by autorewrite with store. }
  split; [|split; [|split; [done|split]]].
  1, 2: apply (rep_whole_ring σ'); rewrite ?EP; unfold σ'; try done;
        try (intros y ? ? ?); autorewrite with store; dec_tac; simpl;
        known_reads; done.
  - intros y Hy1 Hy2. unfold σ'.
    pose proof (last_Some_elem_of _ _ Hlast) as Hlin.
    assert (y ≠ os) by (intros ->; apply Hy2; by left).
    assert (y ≠ b) by (intros ->; apply Hy2; right; by left).
    assert (y ≠ lastb) by (intros ->; apply Hy2; by right).
    assert (y ≠ s) by (intros ->; apply Hy1; by left).
    autorewrite with store. by dec_tac.
  - intros c ? ?. unfold σ'. autorewrite with store. by dec_tac.
Qed.

End WholeRing.

Lemma run_merge_loop fuel k σ this s other os pre la lb :
  this ≠ other → pre ++ la ≠ [] →
  rep σ this s (pre ++ la) → rep σ other os lb →
  (∀ z, z ∈ s :: (pre ++ la).*1 → z ∉ os :: lb.*1) →
  Z.of_nat (length (pre ++ la) + length lb) < size_max →
  (length lb < fuel)%nat → (length la ≤ k)%nat → (length lb ≤ k)%nat →
  ∃ σ',
    merge_loop lt fuel k this other
      (default s (head la.*1)) (default os (head lb.*1)) σ = Ok tt σ' ∧
    merged σ σ' this s other os (pre ++ la) lb
      (pre ++ merge_list (lt_item lt) la lb).
Proof.
  unfold merged. intros Hne. revert σ pre la lb.
  induction fuel as [|fuel IH]; intros σ pre la lb Hnil Hthis Hother Hdisj Hsz Hf Hka Hkb;
    [lia|].
  pose proof (rep_lderef _ _ _ _ Hother) as Hlo2.
  pose proof (rep_lderef _ _ _ _ Hthis) as Hlo1.
  destruct lb as [|[b vb] lb].
  { exists σ. split.
    - unfold merge_loop. by mstep.
    - rewrite merge_list_nil_r. split; [done|split; [done|split; [done|split; done]]]. }
  assert (b ≠ os) as Hbo.
  { pose proof (rep_nodup _ _ _ _ Hother) as Hnd. simpl in Hnd.
    apply NoDup_cons in Hnd as [Ho _]. intros ->. apply Ho. by left. }
  assert (vl σ b = Some (Some vb)) as Hvb.
  { apply (rep_vl _ _ _ _ Hother). by left. }
  rewrite (merge_list_skip (lt_item lt) la (b, vb) lb).
  pose proof (span_app (λ e : N * T, negb (lt vb e.2)) la) as Espan.
  pose proof (span_snd_head (λ e : N * T, negb (lt vb e.2)) la) as Hhead.
  pose proof (run_merge_skip k σ this s pre la b vb Hthis Hvb Hka) as Hskip.
  change (λ a : N * T, negb (lt_item lt (b, vb) a))
    with (λ e : N * T, negb (lt vb e.2)).
  destruct (span (λ e : N * T, negb (lt vb e.2)) la) as [la1 la2].
  simpl in Espan, Hhead, Hskip |- *. subst la.
  destruct la2 as [|[a va] la2]; simpl in Hskip.
  - (* the rest of [other] goes to the end *)
    rewrite app_nil_r in *.
    destruct (run_merge_splice_rest σ this s other os (pre ++ la1) b vb lb)
      as (σ' & Hrun & Hr1 & Hr2 & Hfv & Hfr & Hlfr); try done.
    exists σ'. split; [|by rewrite app_assoc].
    unfold merge_loop; fold (@merge_loop T lt). mstep.
    eapply run_bind_eq; [exact Hskip|]. simpl. by mstep.
  - (* a block of [other] goes before [a] *)
    assert (lt vb va = true) as Hlt.
    { specialize (Hhead (a, va) eq_refl). simpl in Hhead.
      by apply negb_false_iff in Hhead. }
    assert (rep σ this s ((pre ++ la1) ++ (a, va) :: la2)) as Hthis'
      by by rewrite <-app_assoc.
    assert (∀ z, z ∈ s :: ((pre ++ la1) ++ (a, va) :: la2).*1
                 → z ∉ os :: ((b, vb) :: lb).*1) as Hdisj0
      by by rewrite <-app_assoc.
    assert (Z.of_nat (length ((pre ++ la1) ++ (a, va) :: la2)
                      + length ((b, vb) :: lb)) < size_max) as Hsz0
      by by rewrite <-app_assoc.
    assert (S (length lb) ≤ k)%nat as Hk0 by (simpl in Hkb; lia).
    destruct (run_merge_take_block k σ this s other os (pre ++ la1) a va la2
                b vb lb Hne Hthis' Hother Hdisj0 Hlt Hsz0 Hk0)
      as (σ1 & Hrun1 & Hr1 & Hr2 & Hfv1 & Hfr1 & Hlfr1).
    rewrite (merge_list_block (lt_item lt) (a, va) la2 ((b, vb) :: lb)).
    change (λ b0 : N * T, lt_item lt b0 (a, va)) with (λ e : N * T, lt e.2 va).
    pose proof (span_app (λ e : N * T, lt e.2 va) ((b, vb) :: lb)) as Espan2.
    destruct (span_lt_nonempty va b vb lb Hlt) as (blk' & Eblk).
    destruct (span (λ e : N * T, lt e.2 va) ((b, vb) :: lb)) as [blk rest].
    simpl in Espan2, Eblk, Hrun1, Hr1, Hr2 |- *. subst blk.
    assert (lb = blk' ++ rest) as -> by (by injection Espan2).
    clear Espan2.
    pose proof (rep_nodup _ _ _ _ Hother) as Hnd2.
    assert (∀ z, z ∈ s :: (((pre ++ la1) ++ (b, vb) :: blk') ++ (a, va) :: la2).*1
                 → z ∉ os :: rest.*1) as Hdisj1.
    { intros z Hz Hz'. specialize (Hdisj z).
      revert Hz Hz' Hdisj Hnd2. clear.
      rewrite ?fmap_app, ?fmap_cons, ?fmap_app. simpl.
      generalize (pre.*1) (la1.*1) (la2.*1) (blk'.*1) (rest.*1).
      intros l1 l2 l3 l4 l5 Hz Hz' Hdisj Hnd2.
      rewrite ?NoDup_cons, ?NoDup_app in Hnd2.
      set_solver. }
    destruct (IH σ1 ((pre ++ la1) ++ (b, vb) :: blk') ((a, va) :: la2) rest)
      as (σ' & Hrun & Hr1' & Hr2' & Hfv' & Hfr' & Hlfr'); try done.
    { by destruct (pre ++ la1). }
    { by rewrite <-app_assoc. }
    { rewrite ?length_app in Hsz |- *. simpl in Hsz |- *.
      rewrite ?length_app in Hsz |- *. simpl in Hsz |- *. lia. }
    { simpl in Hf. rewrite length_app in Hf. lia. }
    { rewrite length_app in Hka. simpl in Hka |- *. lia. }
    { simpl in Hkb. rewrite length_app in Hkb. lia. }
    exists σ'. split.
    { unfold merge_loop; fold (@merge_loop T lt). mstep.
      eapply run_bind_eq; [exact Hskip|]. simpl. mstep.
      assert (a ≠ s) as Has.
      { pose proof (rep_decompose _ _ _ _ _ _ _ Hthis')
          as (_ & _ & _ & _ & _ & _ & ? & _). done. }
      dec_tac.
      eapply run_bind_eq; [exact Hrun1|]. exact Hrun. }
    split; [|split; [done|split; [|split]]].
    + rewrite <-?app_assoc in Hr1'. simpl in Hr1' |- *.
      rewrite <-?app_assoc. exact Hr1'.
    + intros y. by rewrite Hfv', Hfv1.
    + intros y Hy1 Hy2.
      rewrite Hfr'.
      * apply Hfr1; [|done]. by rewrite <-app_assoc.
      * revert Hy1 Hy2. clear.
        rewrite ?fmap_app, ?fmap_cons, ?fmap_app. simpl.
        generalize (pre.*1) (la1.*1) (la2.*1) (blk'.*1) (rest.*1).
        set_solver.
      * revert Hy2. clear.
        rewrite ?fmap_cons, ?fmap_app. simpl.
        generalize (blk'.*1) (rest.*1).
        set_solver.
    + intros c ? ?. rewrite Hlfr' by done. by apply Hlfr1.
Qed.

Lemma run_merge_self σ this : merge lt this this σ = Ok tt σ.
Proof. unfold merge. by dec_tac. Qed.

Lemma run_merge σ this s other os l1 l2 :
  this ≠ other →
  rep σ this s l1 → rep σ other os l2 →
  (∀ z, z ∈ s :: l1.*1 → z ∉ os :: l2.*1) →
  Z.of_nat (length l1 + length l2) < size_max →
  ∃ σ',
    merge lt this other σ = Ok tt σ' ∧
    merged σ σ' this s other os l1 l2 (merge_list (lt_item lt) l1 l2).
Proof.
  intros Hne Hthis Hother Hdisj Hsz.
  pose proof (rep_lderef _ _ _ _ Hother) as Hlo2.
  pose proof (rep_lderef _ _ _ _ Hthis) as Hlo1.
  destruct l2 as [|[b vb] l2].
  { exists σ. split.
    - simpl in Hlo2. unfold merge. dec_tac. by mstep.
    - rewrite merge_list_nil_r. unfold merged.
      split; [done|split; [done|split; [done|split; done]]]. }
  destruct l1 as [|[a va] l1].
  { destruct (run_merge_move_all σ this s other os [] b vb l2)
      as (σ' & Hrun & Hm); try done.
    exists σ'. split; [|exact Hm].
    simpl in Hlo1, Hlo2. unfold merge. dec_tac. mstep. mstep. exact Hrun. }
  pose proof (rep_size _ _ _ _ Hthis) as Hs1.
  pose proof (rep_size _ _ _ _ Hother) as Hs2.
  destruct (run_merge_loop (S (size (nodes σ))) (S (size (nodes σ)))
              σ this s other os [] ((a, va) :: l1) ((b, vb) :: l2))
    as (σ' & Hrun & Hm); try done.
  { simpl in Hs2 |- *. lia. }
  { simpl in Hs1 |- *. lia. }
  { simpl in Hs2 |- *. lia. }
  exists σ'. split; [|exact Hm].
  pose proof (rep_first _ _ _ _ Hthis) as Hf1.
  pose proof (rep_first _ _ _ _ Hother) as Hf2.
  simpl in Hf1, Hf2.
  simpl in Hlo1, Hlo2. unfold merge. dec_tac. do 6 mstep.
  eapply run_bind_eq; [apply run_heap_size|]. exact Hrun.
Qed.

(** ** [sort]: the loops over the arrays *)

Lemma run_arr_get σ (arr : list N) (i : Z) x :
  arr !! Z.to_nat i = Some x → arr_get arr i σ = Ok x σ.
Proof. intros H. unfold arr_get. by rewrite H. Qed.

Lemma run_arr_set σ (arr : list N) (i : Z) x :
  (Z.to_nat i < length arr)%nat →
  arr_set arr i x σ = Ok (<[Z.to_nat i := x]> arr) σ.
Proof. intros H. unfold arr_set. by rewrite decide_True. Qed.

Lemma run_arr_get_at σ (l1 : list N) x l2 :
  arr_get (l1 ++ x :: l2) (Z.of_nat (length l1)) σ = Ok x σ.
Proof. apply run_arr_get. rewrite Nat2Z.id. apply list_lookup_middle. done. Qed.

Lemma run_arr_set_at σ (l1 : list N) y x l2 :
  arr_set (l1 ++ y :: l2) (Z.of_nat (length l1)) x σ = Ok (l1 ++ x :: l2) σ.
Proof.
  rewrite run_arr_set.
  - rewrite Nat2Z.id. by rewrite insert_app_r_alt, Nat.sub_diag by lia.
  - rewrite Nat2Z.id, length_app. simpl. lia.
Qed.

Lemma wrap64_succ_length {B} (l : list B) (x : B) :
  Z.of_nat (length l) + 1 < size_max →
  wrap64 (Z.of_nat (length l) + 1) = Z.of_nat (length (l ++ [x])).
Proof.
  intros H. rewrite wrap64_small by lia. rewrite length_app. simpl. lia.
Qed.

Lemma app_cons_shift {B} (l1 : list B) (e : B) l2 l3 :
  l1 ++ (e :: l2) ++ l3 = (l1 ++ [e]) ++ l2 ++ l3.
Proof. by rewrite <-app_assoc. Qed.

Lemma length_snoc_cons {B} (l1 : list B) (e : B) l2 :
  length ((l1 ++ [e]) ++ l2) = length (l1 ++ e :: l2).
Proof. by rewrite <-app_assoc. Qed.

(** [while (p < hi) tmp[t++] = arr[p++];] copies a stretch of [arr] to
    [tmp]. *)
Lemma run_sort_copy fuel σ (A1 X A2 T1 Y T2 : list N) hi :
  hi = Z.of_nat (length (A1 ++ X)) →
  length Y = length X →
  (length X ≤ fuel)%nat →
  Z.of_nat (length (A1 ++ X)) < size_max →
  Z.of_nat (length (T1 ++ X)) < size_max →
  sort_copy fuel (A1 ++ X ++ A2) (T1 ++ Y ++ T2)
    (Z.of_nat (length A1)) hi (Z.of_nat (length T1)) σ =
  Ok (T1 ++ X ++ T2, Z.of_nat (length (T1 ++ X))) σ.
Proof.
  revert A1 T1 Y fuel hi. induction X as [|x X IH]; intros A1 T1 Y fuel hi -> HY Hf Hp Ht.
  - destruct Y; [|done]. rewrite !app_nil_r.
    destruct fuel; unfold sort_copy; rewrite decide_False by lia; done.
  - destruct Y as [|y Y]; [done|]. destruct fuel as [|fuel]; [simpl in Hf; lia|].
    unfold sort_copy; fold (@sort_copy T).
    rewrite decide_True by (rewrite length_app; simpl; lia).
    rewrite length_app in Hp, Ht. simpl in Hp, Ht, Hf, HY.
    eapply run_bind_eq; [apply run_arr_get_at|].
    eapply run_bind_eq; [apply (run_arr_set_at σ T1 y x (Y ++ T2))|].
    rewrite (wrap64_succ_length A1 x), (wrap64_succ_length T1 x) by lia.
    change (T1 ++ x :: Y ++ T2) with (T1 ++ (x :: Y) ++ T2).
    rewrite !app_cons_shift, <-(length_snoc_cons A1 x X), <-(length_snoc_cons T1 x X).
    apply IH; rewrite ?length_snoc_cons, ?length_app; simpl; lia.
Qed.

(** [for (size_t k = l; k < r; ++k) arr[k] = tmp[k];] *)
Lemma run_sort_copy_back fuel σ (A1 X A2 T1 Y T2 : list N) r :
  r = Z.of_nat (length (A1 ++ X)) →
  length T1 = length A1 →
  length Y = length X →
  (length X ≤ fuel)%nat →
  Z.of_nat (length (A1 ++ X)) < size_max →
  sort_copy_back fuel (A1 ++ X ++ A2) (T1 ++ Y ++ T2) (Z.of_nat (length A1)) r σ =
  Ok (A1 ++ Y ++ A2) σ.
Proof.
  revert A1 T1 Y fuel r. induction X as [|x X IH]; intros A1 T1 Y fuel r -> HT HY Hf Hp.
  - destruct Y; [|done]. rewrite !app_nil_r.
    destruct fuel; unfold sort_copy_back; rewrite decide_False by lia; done.
  - destruct Y as [|y Y]; [done|]. destruct fuel as [|fuel]; [simpl in Hf; lia|].
    unfold sort_copy_back; fold (@sort_copy_back T).
    rewrite decide_True by (rewrite length_app; simpl; lia).
    rewrite length_app in Hp. simpl in Hp, Hf, HY.
    rewrite <-HT at 1.
    eapply run_bind_eq; [apply run_arr_get_at|].
    eapply run_bind_eq; [apply (run_arr_set_at σ A1 x y (X ++ A2))|].
    rewrite (wrap64_succ_length A1 y) by lia.
    change (A1 ++ y :: X ++ A2) with (A1 ++ (y :: X) ++ A2).
    rewrite !app_cons_shift, <-(length_snoc_cons A1 x X).
    apply IH; rewrite ?length_snoc_cons, ?length_app; simpl; lia.
Qed.

Lemma lookup_at_length {B} (l l1 : list B) (e : B) l2 (n : Z) :
  l = l1 ++ e :: l2 → n = Z.of_nat (length l1) → l !! Z.to_nat n = Some e.
Proof. intros -> ->. rewrite Nat2Z.id. by apply list_lookup_middle. Qed.

Lemma insert_at_length {B} (l l1 : list B) (e e' : B) l2 (n : Z) :
  l = l1 ++ e :: l2 → n = Z.of_nat (length l1) →
  (Z.to_nat n < length l)%nat ∧ <[Z.to_nat n := e']> l = l1 ++ e' :: l2.
Proof.
  intros -> ->. rewrite Nat2Z.id. split.
  - rewrite length_app. simpl. lia.
  - by rewrite insert_app_r_alt, Nat.sub_diag by lia.
Qed.

Lemma run_arr_set_eq σ (arr l1 : list N) y x l2 (i : Z) :
  arr = l1 ++ y :: l2 → i = Z.of_nat (length l1) →
  arr_set arr i x σ = Ok (l1 ++ x :: l2) σ.
Proof. intros -> ->. apply run_arr_set_at. Qed.

Lemma merge_list_nil_l (l : list (N * T)) : merge_list (lt_item lt) [] l = l.
Proof. by destruct l. Qed.

(** Equations between lists that differ in bracketing only. *)
Ltac assoc_tac :=
  rewrite ?fmap_app, ?fmap_cons; simpl; rewrite <-?app_assoc; simpl;
  rewrite <-?app_assoc; reflexivity.

Ltac len_tac :=
  rewrite ?length_app, ?length_fmap, ?length_cons in *; simpl in *;
  rewrite ?length_app, ?length_fmap in *; lia.

(** [while (p < mid && q < r) ...]: the merge of [L] and [R] until one of
    them is used up. *)
Lemma run_sort_merge fuel σ (arr tmp : list N) p mid q r t
    (A0 : list N) (L : list (N * T)) (AM : list N) (R : list (N * T))
    (A2 T1 Y T2 : list N) :
  arr = A0 ++ L.*1 ++ AM ++ R.*1 ++ A2 →
  tmp = T1 ++ Y ++ T2 →
  valued σ L → valued σ R →
  p = Z.of_nat (length A0) → mid = p + Z.of_nat (length L) →
  q = mid + Z.of_nat (length AM) → r = q + Z.of_nat (length R) →
  t = Z.of_nat (length T1) →
  length Y = (length L + length R)%nat →
  (length L + length R ≤ fuel)%nat →
  r < size_max → t + Z.of_nat (length Y) < size_max →
  ∃ (M L1 L2 R1 R2 : list (N * T)) (Y' : list N),
    sort_merge lt fuel arr tmp p mid q r t σ =
      Ok (T1 ++ M.*1 ++ Y' ++ T2,
          (p + Z.of_nat (length L1), q + Z.of_nat (length R1),
           t + Z.of_nat (length M))) σ ∧
    L = L1 ++ L2 ∧ R = R1 ++ R2 ∧ (L2 = [] ∨ R2 = []) ∧
    merge_list (lt_item lt) L R = M ++ L2 ++ R2 ∧
    length M = (length L1 + length R1)%nat ∧
    length Y' = (length L2 + length R2)%nat.
Proof.
  revert arr tmp p q t A0 L AM R T1 Y.
  induction fuel as [|fuel IH];
    intros arr tmp p q t A0 L AM R T1 Y Earr Etmp HvL HvR Ep Emid Eq Er Et HY Hf Hr Ht.
  - destruct L; [|simpl in Hf; lia]. destruct R; [|simpl in Hf; lia].
    exists [], [], [], [], [], Y. simpl.
    split; [|split_and!; first [done|by left]].
    unfold sort_merge. rewrite decide_False by (simpl in *; lia).
    rewrite !Z.add_0_r. by subst tmp.
  - destruct L as [|[a va] L].
    { exists [], [], [], [], R, Y. simpl.
      split; [|rewrite merge_list_nil_l; split_and!; first [done|by left]].
      unfold sort_merge. rewrite decide_False by (simpl in *; lia).
      rewrite !Z.add_0_r. by subst tmp. }
    destruct R as [|[b vb] R].
    { exists [], [], ((a, va) :: L), [], [], Y.
      split; [|rewrite merge_list_nil_r;
               split_and!;
               first [done|by right|by rewrite app_nil_r|simpl in *; lia]].
      unfold sort_merge. rewrite decide_False by (simpl in *; lia).
      simpl. rewrite !Z.add_0_r. by subst tmp. }
    apply Forall_cons in HvL as [Hva HvL]. apply Forall_cons in HvR as [Hvb HvR].
    simpl in Hva, Hvb.
    destruct Y as [|y Y]; [done|].
    assert (arr !! Z.to_nat q = Some b) as Hq.
    { apply (lookup_at_length arr (A0 ++ ((a, va) :: L).*1 ++ AM) b (R.*1 ++ A2)).
      - subst arr. assoc_tac.
      - subst. len_tac. }
    assert (arr !! Z.to_nat p = Some a) as Hp.
    { apply (lookup_at_length arr A0 a (L.*1 ++ AM ++ ((b, vb) :: R).*1 ++ A2)).
      - subst arr. assoc_tac.
      - done. }
    unfold sort_merge; fold (@sort_merge T lt).
    rewrite decide_True by (simpl in *; lia).
    rewrite (merge_list_cons (lt_item lt) (a, va) L (b, vb) R).
    change (lt_item lt (b, vb) (a, va)) with (lt vb va).
    destruct (lt vb va) eqn:Elt.
    + (* the head of [R] goes first *)
      destruct (IH arr (T1 ++ b :: Y ++ T2) p (wrap64 (q + 1)) (wrap64 (t + 1))
                  A0 ((a, va) :: L) (AM ++ [b]) R (T1 ++ [b]) Y)
        as (M & L1 & L2 & R1 & R2 & Y' & Hrun & EL & ER & Hor & Em & HM & HY').
      * subst arr. assoc_tac.
      * assoc_tac.
      * by apply Forall_cons.
      * done.
      * done.
      * done.
      * rewrite wrap64_small by (subst; len_tac). subst. len_tac.
      * rewrite wrap64_small by (subst; len_tac). subst. len_tac.
      * rewrite wrap64_small by (subst; len_tac). subst. len_tac.
      * simpl in HY |- *. lia.
      * simpl in Hf |- *. lia.
      * done.
      * rewrite wrap64_small by (subst; len_tac). simpl in Ht |- *. lia.
      * exists ((b, vb) :: M), L1, L2, ((b, vb) :: R1), R2, Y'.
        split; [|split; [done|split; [by rewrite ER|split; [done|
                 split; [by rewrite Em|split; [simpl; lia|done]]]]]].
        eapply run_bind_eq; [by apply run_arr_get|].
        mstep.
        eapply run_bind_eq; [by apply run_arr_get|].
        mstep. rewrite Elt. simpl.
        eapply run_bind_eq; [by apply run_arr_get|].
        eapply run_bind_eq;
          [apply (run_arr_set_eq σ tmp T1 y b (Y ++ T2)); [by subst tmp|done]|].
        rewrite Hrun. f_equal. f_equal.
        -- assoc_tac.
        -- rewrite !wrap64_small by (subst; len_tac).
           f_equal; [f_equal|]; simpl length; lia.
    + (* the head of [L] goes first *)
      destruct (IH arr (T1 ++ a :: Y ++ T2) (wrap64 (p + 1)) q (wrap64 (t + 1))
                  (A0 ++ [a]) L AM ((b, vb) :: R) (T1 ++ [a]) Y)
        as (M & L1 & L2 & R1 & R2 & Y' & Hrun & EL & ER & Hor & Em & HM & HY').
      * subst arr. assoc_tac.
      * assoc_tac.
      * done.
      * by apply Forall_cons.
      * rewrite wrap64_small by (subst; len_tac). subst. len_tac.
      * rewrite wrap64_small by (subst; len_tac). subst. len_tac.
      * done.
      * done.
      * rewrite wrap64_small by (subst; len_tac). subst. len_tac.
      * simpl in HY |- *. lia.
      * simpl in Hf |- *. lia.
      * done.
      * rewrite wrap64_small by (subst; len_tac). simpl in Ht |- *. lia.
      * exists ((a, va) :: M), ((a, va) :: L1), L2, R1, R2, Y'.
        split; [|split; [by rewrite EL|split; [done|split; [done|
                 split; [by rewrite Em|split; [simpl; lia|done]]]]]].
        eapply run_bind_eq; [by apply run_arr_get|].
        mstep.
        eapply run_bind_eq; [by apply run_arr_get|].
        mstep. rewrite Elt. simpl.
        eapply run_bind_eq; [by apply run_arr_get|].
        eapply run_bind_eq;
          [apply (run_arr_set_eq σ tmp T1 y a (Y ++ T2)); [by subst tmp|done]|].
        rewrite Hrun. f_equal. f_equal.
        -- assoc_tac.
        -- rewrite !wrap64_small by (subst; len_tac).
           f_equal; [f_equal|]; simpl length; lia.
Qed.

Lemma run_sort_copy_eq fuel σ (arr tmp : list N) p hi t
    (A1 X A2 T1 Y T2 : list N) :
  arr = A1 ++ X ++ A2 → tmp = T1 ++ Y ++ T2 →
  p = Z.of_nat (length A1) → hi = p + Z.of_nat (length X) →
  t = Z.of_nat (length T1) →
  length Y = length X → (length X ≤ fuel)%nat →
  hi < size_max → t + Z.of_nat (length X) < size_max →
  sort_copy fuel arr tmp p hi t σ = Ok (T1 ++ X ++ T2, t + Z.of_nat (length X)) σ.
Proof.
  intros -> -> -> -> -> HY Hf Hhi Ht.
  rewrite (run_sort_copy fuel σ A1 X A2 T1 Y T2); try done.
  - do 2 f_equal. len_tac.
  - len_tac.
  - len_tac.
  - len_tac.
Qed.

Lemma run_sort_copy_back_eq fuel σ (arr tmp : list N) k r
    (A1 X A2 T1 Y T2 : list N) :
  arr = A1 ++ X ++ A2 → tmp = T1 ++ Y ++ T2 →
  k = Z.of_nat (length A1) → r = k + Z.of_nat (length X) →
  length T1 = length A1 → length Y = length X → (length X ≤ fuel)%nat →
  r < size_max →
  sort_copy_back fuel arr tmp k r σ = Ok (A1 ++ Y ++ A2) σ.
Proof.
  intros -> -> -> -> HT HY Hf Hr.
  apply run_sort_copy_back; try done; len_tac.
Qed.

(** One run of the body of the inner [for] of [sort] replaces two
    neighbouring stretches of the array by their merge. *)
Lemma run_sort_run fuel σ (arr tmp : list N) m width i
    (A0 : list N) (L R : list (N * T)) (A2 : list N) :
  arr = A0 ++ L.*1 ++ R.*1 ++ A2 →
  length tmp = length arr →
  valued σ L → valued σ R →
  i = Z.of_nat (length A0) →
  (if decide (wrap64 (i + width) < m) then wrap64 (i + width) else m)
    = i + Z.of_nat (length L) →
  (if decide (wrap64 (i + wrap64 (Z.shiftl width 1)) < m)
   then wrap64 (i + wrap64 (Z.shiftl width 1)) else m)
    = i + Z.of_nat (length L) + Z.of_nat (length R) →
  (length L + length R ≤ fuel)%nat →
  Z.of_nat (length arr) < size_max →
  ∃ tmp',
    sort_run lt fuel arr tmp m width i σ =
      Ok (A0 ++ (merge_list (lt_item lt) L R).*1 ++ A2, tmp') σ ∧
    length tmp' = length tmp.
Proof.
  intros Earr Hlen HvL HvR Ei Emid Er Hf Hsz.
  assert (length arr = length A0 + (length L + length R) + length A2)%nat as Hla
    by (subst arr; len_tac).
  set (T1 := take (length A0) tmp).
  set (Y := take (length L + length R) (drop (length A0) tmp)).
  set (T2 := drop (length L + length R) (drop (length A0) tmp)).
  assert (tmp = T1 ++ Y ++ T2) as Etmp.
  { unfold T1, Y, T2. by rewrite !take_drop. }
  assert (length T1 = length A0) as HT1.
  { unfold T1. rewrite length_take. lia. }
  assert (length Y = (length L + length R)%nat) as HY.
  { unfold Y. rewrite length_take, length_drop. lia. }
  clearbody T1 Y T2.
  destruct (run_sort_merge fuel σ arr tmp i (i + Z.of_nat (length L))
              (i + Z.of_nat (length L))
              (i + Z.of_nat (length L) + Z.of_nat (length R)) i
              A0 L [] R A2 T1 Y T2)
    as (M & L1 & L2 & R1 & R2 & Y' & Hrun & EL & ER & Hor & Em & HM & HY');
    try done; try (simpl; lia).
  exists (T1 ++ (merge_list (lt_item lt) L R).*1 ++ T2).
  split; [|rewrite Etmp, !length_app, length_fmap, merge_list_length; lia].
  unfold sort_run. rewrite Emid, Er.
  eapply run_bind_eq; [exact Hrun|]. cbv beta iota.
  assert (length L = length L1 + length L2)%nat as HlL by (subst L; len_tac).
  assert (length R = length R1 + length R2)%nat as HlR by (subst R; len_tac).
  eapply run_bind_eq.
  { apply (run_sort_copy_eq fuel σ _ _ _ _ _ (A0 ++ L1.*1) (L2.*1)
             (R.*1 ++ A2) (T1 ++ M.*1) (take (length L2) Y')
             (drop (length L2) Y' ++ T2)).
    - subst arr L. assoc_tac.
    - rewrite <-!app_assoc. f_equal. f_equal.
      by rewrite (app_assoc (take _ _)), take_drop.
    - len_tac.
    - len_tac.
    - len_tac.
    - rewrite length_take, length_fmap. lia.
    - len_tac.
    - len_tac.
    - len_tac. }
  cbv beta iota.
  eapply run_bind_eq.
  { apply (run_sort_copy_eq fuel σ _ _ _ _ _ (A0 ++ L.*1 ++ R1.*1) (R2.*1)
             A2 (T1 ++ M.*1 ++ L2.*1) (drop (length L2) Y') T2).
    - subst arr R. assoc_tac.
    - assoc_tac.
    - len_tac.
    - len_tac.
    - len_tac.
    - rewrite length_drop, length_fmap. lia.
    - len_tac.
    - len_tac.
    - len_tac. }
  cbv beta iota.
  eapply run_bind_eq.
  { apply (run_sort_copy_back_eq fuel σ _ _ _ _ A0 (L.*1 ++ R.*1) A2
             T1 (M.*1 ++ L2.*1 ++ R2.*1) T2).
    - subst arr. assoc_tac.
    - assoc_tac.
    - done.
    - len_tac.
    - done.
    - len_tac.
    - len_tac.
    - len_tac. }
  cbv beta. unfold ret. rewrite Em, !fmap_app. f_equal. f_equal; assoc_tac.
Qed.

Lemma run_sort_pass_exit fuel σ (arr tmp : list N) m w i :
  m ≤ i → sort_pass lt fuel arr tmp m w i σ = Ok (arr, tmp) σ.
Proof.
  intros H. destruct fuel; unfold sort_pass; by rewrite decide_False by lia.
Qed.

Lemma shiftl_1 z : Z.shiftl z 1 = 2 * z.
Proof. rewrite Z.shiftl_mul_pow2 by lia. lia. Qed.

Lemma valued_perm σ (l l' : list (N * T)) : l ≡ₚ l' → valued σ l → valued σ l'.
Proof. intros Hp. unfold valued. by rewrite Hp. Qed.

(** One pass over the array merges its chunks two by two. *)
Lemma run_sort_pass fuel σ (arr tmp : list N) m (w : nat)
    (A0 : list N) (cs : list (list (N * T))) :
  arr = A0 ++ (concat cs).*1 →
  valued σ (concat cs) →
  chunks_ok w cs → (0 < w)%nat →
  m = Z.of_nat (length arr) →
  length tmp = length arr →
  (length (concat cs) ≤ fuel)%nat →
  3 * m < size_max → Z.of_nat w < m →
  ∃ tmp',
    sort_pass lt fuel arr tmp m (Z.of_nat w) (Z.of_nat (length A0)) σ =
      Ok (A0 ++ (concat (merge_pairs (lt_item lt) cs)).*1, tmp') σ ∧
    length tmp' = length tmp.
Proof.
  revert arr tmp A0 cs.
  induction fuel as [|fuel IH];
    intros arr tmp A0 cs Earr Hv Hok Hw Em Htmp Hf Hm Hwm.
  { destruct cs as [|c cs].
    - exists tmp. split; [|done]. subst arr. simpl. rewrite app_nil_r in *.
      by apply run_sort_pass_exit; lia.
    - exfalso. pose proof (chunks_ok_nonempty w (c :: cs) Hok) as Hne.
      destruct (concat (c :: cs)); [by apply Hne|simpl in Hf; lia]. }
  assert (wrap64 (Z.shiftl (Z.of_nat w) 1) = 2 * Z.of_nat w) as Ew2.
  { rewrite shiftl_1, wrap64_small; lia. }
  destruct cs as [|c1 [|c2 cs]].
  - exists tmp. split; [|done]. subst arr. simpl. rewrite app_nil_r in *.
    by apply run_sort_pass_exit; lia.
  - (* one chunk is left *)
    simpl in Hok, Earr, Hv. rewrite app_nil_r in Earr, Hv.
    assert (length arr = length A0 + length c1)%nat as Hla.
    { subst arr. rewrite length_app, length_fmap. done. }
    destruct (run_sort_run (Z.to_nat m) σ arr tmp m (Z.of_nat w)
                (Z.of_nat (length A0)) A0 c1 [] [])
      as (tmp1 & Hrun & Htmp1).
    + subst arr. simpl. by rewrite app_nil_r.
    + done.
    + done.
    + by apply Forall_nil.
    + done.
    + rewrite wrap64_small by lia. rewrite decide_False by lia. lia.
    + rewrite Ew2.
      rewrite wrap64_small by lia. rewrite decide_False by lia. simpl. lia.
    + simpl. lia.
    + lia.
    + exists tmp1. split; [|by rewrite Htmp1].
      unfold sort_pass; fold (@sort_pass T lt).
      rewrite decide_True by lia.
      eapply run_bind_eq; [exact Hrun|]. cbv beta. cbn [fst snd].
      rewrite run_sort_pass_exit.
      * rewrite merge_list_nil_r.
        change (merge_pairs (lt_item lt) [c1]) with [c1]. simpl.
        by rewrite !app_nil_r.
      * rewrite Ew2, wrap64_small; lia.
  - (* two chunks are merged *)
    destruct Hok as [Hc1 Hok].
    assert (0 < length c2 ≤ w)%nat as Hc2.
    { destruct cs; simpl in Hok; lia. }
    assert (length arr = length A0 + length c1 + length c2 + length (concat cs))%nat
      as Hla.
    { subst arr. simpl. rewrite !length_app, !length_fmap, !length_app. lia. }
    assert (valued σ c1 ∧ valued σ c2 ∧ valued σ (concat cs)) as (Hv1 & Hv2 & Hv3).
    { simpl in Hv. unfold valued in *. rewrite !Forall_app in Hv. tauto. }
    change (merge_pairs (lt_item lt) (c1 :: c2 :: cs))
      with (merge_list (lt_item lt) c1 c2 :: merge_pairs (lt_item lt) cs).
    destruct (run_sort_run (Z.to_nat m) σ arr tmp m (Z.of_nat w)
                (Z.of_nat (length A0)) A0 c1 c2 (concat cs).*1)
      as (tmp1 & Hrun & Htmp1).
    + subst arr. simpl. by rewrite !fmap_app.
    + done.
    + done.
    + done.
    + done.
    + rewrite wrap64_small by lia. rewrite decide_True by lia. lia.
    + rewrite Ew2.
      rewrite wrap64_small by lia.
      destruct cs as [|c3 cs].
      * simpl in Hla. rewrite decide_False by lia. lia.
      * destruct Hok as [Hc2' Hok].
        pose proof (chunks_ok_nonempty w (c3 :: cs) Hok) as Hne.
        assert (0 < length (concat (c3 :: cs)))%nat
          by (destruct (concat (c3 :: cs)); [by destruct Hne|simpl; lia]).
        rewrite decide_True by lia. lia.
    + lia.
    + lia.
    + destruct cs as [|c3 cs].
      * exists tmp1. split; [|by rewrite Htmp1].
        unfold sort_pass; fold (@sort_pass T lt).
        rewrite decide_True by lia.
        eapply run_bind_eq; [exact Hrun|]. cbv beta. cbn [fst snd].
        rewrite run_sort_pass_exit.
        -- change (merge_pairs (lt_item lt) []) with (@nil (list (N * T))).
           simpl. by rewrite !app_nil_r.
        -- rewrite Ew2, wrap64_small; simpl in Hla; lia.
      * destruct Hok as [Hc2' Hok].
        destruct (IH (A0 ++ (merge_list (lt_item lt) c1 c2).*1 ++
                        (concat (c3 :: cs)).*1) tmp1
                    (A0 ++ (merge_list (lt_item lt) c1 c2).*1) (c3 :: cs))
          as (tmp2 & Hrun2 & Htmp2).
        -- by rewrite <-app_assoc.
        -- done.
        -- done.
        -- done.
        -- rewrite Em, Hla. f_equal.
           rewrite !length_app, !length_fmap, merge_list_length. lia.
        -- rewrite Htmp1, Htmp, Hla.
           rewrite !length_app, !length_fmap, merge_list_length. lia.
        -- simpl in Hf |- *. rewrite !length_app in Hf. rewrite length_app. lia.
        -- done.
        -- done.
        -- exists tmp2. split; [|by rewrite Htmp2, Htmp1].
           unfold sort_pass; fold (@sort_pass T lt).
           rewrite decide_True by lia.
           eapply run_bind_eq; [exact Hrun|]. cbv beta. cbn [fst snd].
           replace (wrap64 (Z.of_nat (length A0) + wrap64 (Z.shiftl (Z.of_nat w) 1)))
             with (Z.of_nat (length (A0 ++ (merge_list (lt_item lt) c1 c2).*1))).
           ++ etrans; [exact Hrun2|]. f_equal. f_equal.
              simpl concat. rewrite fmap_app.
              by rewrite <-app_assoc.
           ++ rewrite Ew2, wrap64_small by lia.
              rewrite length_app, length_fmap, merge_list_length. lia.
Qed.

(** The passes of width [w], [2w], [4w], ... *)
Lemma run_sort_widths fuel σ (arr tmp : list N) m (w : nat)
    (cs : list (list (N * T))) :
  arr = (concat cs).*1 →
  valued σ (concat cs) →
  chunks_ok w cs → (0 < w)%nat →
  m = Z.of_nat (length arr) →
  length tmp = length arr →
  3 * m < size_max →
  m ≤ Z.of_nat w * 2 ^ Z.of_nat fuel →
  ∃ tmp',
    sort_widths lt fuel arr tmp m (Z.of_nat w) σ =
      Ok ((concat (merge_passes (lt_item lt) fuel w (length (concat cs)) cs)).*1,
          tmp') σ.
Proof.
  revert arr tmp w cs.
  induction fuel as [|fuel IH];
    intros arr tmp w cs Earr Hv Hok Hw Em Htmp Hm Hfuel.
  - assert (length arr = length (concat cs)) as Hla.
    { subst arr. by rewrite length_fmap. }
    exists tmp. unfold sort_widths. rewrite decide_False by lia.
    rewrite merge_passes_exit by lia. by subst arr.
  - assert (length arr = length (concat cs)) as Hla.
    { subst arr. by rewrite length_fmap. }
    destruct (decide (Z.of_nat w < m)) as [Hlt|Hge].
    + destruct (run_sort_pass (Z.to_nat m) σ arr tmp m w [] cs)
        as (tmp1 & Hrun & Htmp1); try done; [lia|]. simpl in Hrun.
      destruct (IH (concat (merge_pairs (lt_item lt) cs)).*1 tmp1 (w + w)%nat
                  (merge_pairs (lt_item lt) cs))
        as (tmp2 & Hrun2).
      * done.
      * eapply valued_perm; [|exact Hv]. by rewrite merge_pairs_perm.
      * by apply chunks_ok_merge_pairs.
      * lia.
      * rewrite Em, Hla. f_equal.
        by rewrite length_fmap, merge_pairs_length.
      * rewrite Htmp1, Htmp, Hla.
        by rewrite length_fmap, merge_pairs_length.
      * done.
      * rewrite Nat2Z.inj_succ, Z.pow_succ_r in Hfuel by lia. lia.
      * exists tmp2. unfold sort_widths; fold (@sort_widths T lt).
        rewrite decide_True by done.
        eapply run_bind_eq; [exact Hrun|]. cbv beta. cbn [fst snd].
        replace (wrap64 (Z.shiftl (Z.of_nat w) 1)) with (Z.of_nat (w + w)).
        -- rewrite merge_pairs_length in Hrun2.
           rewrite merge_passes_step by lia. exact Hrun2.
        -- rewrite shiftl_1, wrap64_small; lia.
    + exists tmp. unfold sort_widths; fold (@sort_widths T lt).
      rewrite decide_False by lia.
      rewrite merge_passes_exit by lia. by subst arr.
Qed.

(** [for (node *x = s->next; x != s; x = x->next) arr[idx++] = x;] fills
    the array with the nodes of the ring, in order. *)
Lemma run_sort_fill fuel σ this s (pre rest : list (N * T)) (arr Y : list N) idx :
  rep σ this s (pre ++ rest) →
  arr = pre.*1 ++ Y → length Y = length rest →
  idx = Z.of_nat (length pre) →
  (length rest ≤ fuel)%nat →
  sort_fill fuel this (default s (head rest.*1)) idx arr σ
  = Ok ((pre ++ rest).*1) σ.
Proof.
  revert pre arr Y idx fuel.
  induction rest as [|[x v] rest IH]; intros pre arr Y idx fuel Hrep Earr HY Eidx Hf.
  - pose proof (rep_lderef _ _ _ _ Hrep) as Hlo.
    destruct Y; [|done]. subst arr. rewrite !app_nil_r.
    destruct fuel; unfold sort_fill; by mstep.
  - pose proof (rep_lderef _ _ _ _ Hrep) as Hlo.
    pose proof (rep_decompose _ _ _ _ _ _ _ Hrep)
      as (_ & Hnx & _ & _ & _ & _ & Hxs & _).
    pose proof (rep_size _ _ _ _ Hrep) as Hsize.
    destruct Hrep as (Hlo' & Hlen & Hrest).
    assert (rep σ this s ((pre ++ [(x, v)]) ++ rest)) as Hrep'
      by (rewrite <-app_assoc; by split).
    destruct Y as [|y Y]; [done|].
    destruct fuel as [|fuel]; [simpl in Hf; lia|].
    simpl head. simpl default.
    unfold sort_fill; fold (@sort_fill T). mstep.
    eapply run_bind_eq.
    { apply (run_arr_set_eq σ arr (pre.*1) y x Y); [done|].
      by rewrite length_fmap. }
    mstep.
    rewrite (IH (pre ++ [(x, v)]) (pre.*1 ++ x :: Y) Y
               (wrap64 (idx + 1)) fuel Hrep').
    + by rewrite <-app_assoc.
    + rewrite fmap_app. simpl. by rewrite <-app_assoc.
    + simpl in HY. lia.
    + rewrite length_app in Hlen |- *. simpl in Hlen |- *.
      rewrite wrap64_small; lia.
    + simpl in Hf. lia.
Qed.

(** The links written by the relinking loop: the nodes of the array,
    in order, after the sentinel. *)
Lemma run_sort_relink fuel σ s (D : list N) a (R arr : list N) m :
  arr = D ++ a :: R → m = Z.of_nat (length arr) → m < size_max →
  NoDup (s :: arr) →
  (∀ y, y ∈ arr → is_Some (deref σ y)) →
  seg σ s D a →
  (length R ≤ fuel)%nat →
  ∃ σ' D' z,
    sort_relink fuel arr m (Z.of_nat (length D) + 1) σ = Ok tt σ' ∧
    arr = D' ++ [z] ∧ seg σ' s D' z ∧
    (∀ y, vl σ' y = vl σ y) ∧
    (∀ c, lderef σ' c = lderef σ c) ∧
    (∀ y, is_Some (deref σ' y) ↔ is_Some (deref σ y)) ∧
    (∀ y, y ∉ arr → deref σ' y = deref σ y) ∧
    prv σ' s = prv σ s.
Proof. clear alloc_fresh alloc.
  revert D a σ fuel.
  induction R as [|b R IH]; intros D a σ fuel Earr Em Hm Hnd Hlive Hseg Hf.
  - exists σ, D, a. split; [|done].
    destruct fuel; unfold sort_relink; rewrite decide_False; try done;
      subst; len_tac.
  - destruct fuel as [|fuel]; [simpl in Hf; lia|].
    assert (is_Some (deref σ a)) as Hla by (apply Hlive; subst arr; set_solver).
    assert (is_Some (deref σ b)) as Hlb by (apply Hlive; subst arr; set_solver).
    assert (a ≠ b ∧ a ∉ s :: D ∧ b ∉ s :: D ∧ b ≠ s ∧ a ≠ s) as (Hab & HaD & HbD & Hbs & Has).
    { subst arr. clear -Hnd. rewrite app_comm_cons in Hnd.
      apply NoDup_app in Hnd as (_ & Hd & Hnd).
      apply NoDup_cons in Hnd as [Ha _].
      split_and!.
      - intros ->. apply Ha. by left.
      - intros H. apply (Hd a H). by left.
      - intros H. apply (Hd b H). right. by left.
      - intros ->. apply (Hd s); [by left|]. right. by left.
      - intros ->. apply (Hd s); [by left|]. by left. }
    set (σ1 := upd_prev b a (upd_next a b σ)).
    destruct (IH (D ++ [a]) b σ1 fuel) as (σ' & D' & z & Hrun & ED & Hseg' & Hv & Hl & Hlv & Hfr & Hps).
    + subst arr. by rewrite <-app_assoc.
    + done.
    + done.
    + done.
    + intros y Hy. unfold σ1. rewrite live_upd_prev, live_upd_next. by apply Hlive.
    + apply seg_snoc. split.
      * eapply seg_frame; [exact Hseg| |].
        -- intros y Hy. unfold σ1. rewrite nxt_upd_prev, nxt_upd_next.
           rewrite decide_False; [done|]. intros <-. by apply HaD.
        -- intros y Hy. unfold σ1. rewrite prv_upd_prev, prv_upd_next.
           rewrite decide_False; [done|]. intros <-.
           apply elem_of_app in Hy as [Hy|Hy].
           ++ apply HbD. by right.
           ++ apply list_elem_of_singleton in Hy. done.
      * split; unfold σ1.
        -- rewrite nxt_upd_prev, nxt_upd_next, decide_True by done.
           destruct Hla as [nd Hnd']. unfold nxt. by rewrite Hnd'.
        -- rewrite prv_upd_prev, decide_True by done.
           rewrite prv_upd_next.
           destruct Hlb as [nd Hnd']. unfold prv. by rewrite Hnd'.
    + simpl in Hf. lia.
    + exists σ', D', z. split; [|split; [done|split; [done|split_and!]]].
      * unfold sort_relink; fold (@sort_relink T).
        rewrite decide_True by (subst; len_tac).
        eapply run_bind_eq.
        { apply run_arr_get.
          apply (lookup_at_length arr (D ++ [a]) b R);
            [subst arr; by rewrite <-app_assoc|len_tac]. }
        eapply run_bind_eq.
        { apply run_arr_get.
          apply (lookup_at_length arr D a (b :: R)); [done|].
          rewrite wrap64_small; subst; len_tac. }
        mstep.
        eapply run_bind_eq.
        { apply run_arr_get.
          apply (lookup_at_length arr D a (b :: R)); [done|].
          rewrite wrap64_small; subst; len_tac. }
        eapply run_bind_eq.
        { apply run_arr_get.
          apply (lookup_at_length arr (D ++ [a]) b R);
            [subst arr; by rewrite <-app_assoc|len_tac]. }
        mstep.
        replace (wrap64 (Z.of_nat (length D) + 1 + 1))
          with (Z.of_nat (length (D ++ [a])) + 1); [exact Hrun|].
        rewrite wrap64_small; subst; len_tac.
      * intros y. rewrite Hv. unfold σ1. by rewrite vl_upd_prev, vl_upd_next.
      * intros c. rewrite Hl. done.
      * intros y. rewrite Hlv. unfold σ1. by rewrite live_upd_prev, live_upd_next.
      * intros y Hy. rewrite Hfr by done. unfold σ1.
        rewrite deref_upd_prev, deref_upd_next.
        rewrite !decide_False; [done| |]; intros <-; apply Hy; subst arr; set_solver.
      * rewrite Hps. unfold σ1. rewrite prv_upd_prev, prv_upd_next.
        by rewrite decide_False.
Qed.

Lemma run_sort_small σ this s items :
  rep σ this s items → (length items ≤ 1)%nat → sort lt this σ = Ok tt σ.
Proof.
  intros Hrep Hlen. pose proof (rep_lderef _ _ _ _ Hrep) as Hlo.
  unfold sort. mstep. rewrite ?decide_True by lia. done.
Qed.

Lemma run_sort σ this s items :
  rep σ this s items →
  3 * Z.of_nat (length items) < size_max →
  ∃ σ', sort lt this σ = Ok tt σ' ∧ sorted_state lt σ σ' this s items.
Proof. clear alloc_fresh alloc.
  intros Hrep Hbound.
  destruct (decide (length items ≤ 1)%nat) as [Hsmall|Hbig].
  { exists σ. split; [by eapply run_sort_small|].
    unfold sorted_state. by rewrite bottom_up_sort_small. }
  pose proof (rep_lderef _ _ _ _ Hrep) as Hlo.
  pose proof (rep_first _ _ _ _ Hrep) as Hfirst.
  pose proof (rep_size _ _ _ _ Hrep) as Hsize.
  pose proof (rep_nodup _ _ _ _ Hrep) as Hnd.
  pose proof (rep_vl_s _ _ _ _ Hrep) as Hvs.
  assert (is_Some (deref σ s)) as Hls by (apply (rep_live _ _ _ _ Hrep); by left).
  assert (valued σ items) as Hval by apply Hrep.
  set (m := Z.of_nat (length items)) in *.
  remember ((bottom_up_sort (lt_item lt) items).*1) as l' eqn:El'.
  assert (l' ≡ₚ items.*1) as Hperm by (subst l'; by rewrite bottom_up_sort_perm).
  assert (length l' = length items) as Hll
    by (subst l'; by rewrite length_fmap, bottom_up_sort_length).
  assert (NoDup (s :: l')) as Hnd' by (by rewrite Hperm).
  assert (∀ y, y ∈ l' → is_Some (deref σ y)) as Hlive.
  { intros y Hy. apply (rep_live _ _ _ _ Hrep). right. by rewrite <-Hperm. }
  (* the array phase *)
  assert (sort_fill (S (size (nodes σ))) this (default s (head items.*1)) 0
            (replicate (Z.to_nat m) null) σ = Ok (items.*1) σ) as Hfill.
  { apply (run_sort_fill _ σ this s [] items _ (replicate (Z.to_nat m) null));
      try done.
    - rewrite length_replicate. unfold m. lia.
    - lia. }
  destruct (run_sort_widths 64 σ (items.*1) (replicate (Z.to_nat m) null) m 1
              ((λ e, [e]) <$> items))
    as (tmp' & Hwidths).
  { by rewrite concat_singletons. }
  { by rewrite concat_singletons. }
  { apply chunks_ok_singletons. }
  { lia. }
  { by rewrite length_fmap. }
  { rewrite length_replicate, length_fmap. unfold m. lia. }
  { done. }
  { change (2 ^ Z.of_nat 64) with size_max. lia. }
  rewrite concat_singletons in Hwidths.
  rewrite (merge_passes_fuel (lt_item lt) 64 (length items) 1) in Hwidths;
    [|lia|change (2 ^ Z.of_nat 64) with size_max; lia|apply pow2_ge].
  rewrite <-bottom_up_sort_eq, <-El' in Hwidths.
  change (Z.of_nat 1) with 1 in Hwidths.
  (* the relinking *)
  destruct l' as [|a0 R0]; [simpl in Hll; lia|].
  assert (is_Some (deref σ a0)) as Hla0 by (apply Hlive; by left).
  assert (a0 ≠ s) as Ha0s.
  { intros ->. apply NoDup_cons in Hnd' as [Hs _]. apply Hs. by left. }
  set (σ1 := upd_prev a0 s (upd_next s a0 σ)).
  destruct (run_sort_relink (Z.to_nat m) σ1 s [] a0 R0 (a0 :: R0) m)
    as (σ2 & D' & z & Hrelink & ED & Hseg2 & Hv2 & Hl2 & Hlv2 & Hfr2 & Hps2);
    try done.
  { rewrite Hll. done. }
  { lia. }
  { intros y Hy. unfold σ1. rewrite live_upd_prev, live_upd_next. by apply Hlive. }
  { simpl. split; unfold σ1.
    - rewrite nxt_upd_prev, nxt_upd_next, decide_True by done.
      destruct Hls as [nd Hnd0]. unfold nxt. by rewrite Hnd0.
    - rewrite prv_upd_prev, decide_True by done. rewrite prv_upd_next.
      destruct Hla0 as [nd Hnd0]. unfold prv. by rewrite Hnd0. }
  { simpl in Hll. lia. }
  change (Z.of_nat (length []) + 1) with 1 in Hrelink.
  assert (z ≠ s ∧ z ∉ s :: D' ∧ s ∉ D' ++ [z]) as (Hzs & HzD & HsD).
  { rewrite ED in Hnd'. clear -Hnd'.
    apply NoDup_cons in Hnd' as [Hs Hnd']. apply NoDup_app in Hnd' as (_ & Hd & _).
    split_and!.
    - intros ->. apply Hs. apply elem_of_app. right. by left.
    - intros Hz. apply elem_of_cons in Hz as [->|Hz].
      + apply Hs. apply elem_of_app. right. by left.
      + apply (Hd z Hz). by left.
    - done. }
  assert (is_Some (deref σ2 z)) as Hlz.
  { apply Hlv2. unfold σ1. rewrite live_upd_prev, live_upd_next.
    apply Hlive. rewrite ED. apply elem_of_app. right. by left. }
  assert (is_Some (deref σ2 s)) as Hls2.
  { apply Hlv2. unfold σ1. by rewrite live_upd_prev, live_upd_next. }
  set (σ3 := upd_prev s z (upd_next z s σ2)).
  assert (length D' + 1 = length items)%nat as HlD.
  { rewrite <-Hll, ED, length_app. done. }
  exists σ3. split.
  - unfold sort. mstep. rewrite ?decide_False by (unfold m in *; lia).
    do 2 mstep.
    eapply run_bind_eq; [apply run_heap_size|].
    eapply run_bind_eq; [exact Hfill|].
    eapply run_bind_eq; [exact Hwidths|]. cbn [fst snd].
    eapply run_bind_eq; [by apply run_arr_get|].
    eapply run_bind_eq; [by apply run_set_next|].
    eapply run_bind_eq; [by apply run_arr_get|].
    eapply run_bind_eq.
    { apply run_set_prev. by rewrite live_upd_next. }
    eapply run_bind_eq; [exact Hrelink|].
    assert ((a0 :: R0) !! Z.to_nat (wrap64 (Z.of_nat (length items) - 1)) = Some z)
      as Hlast.
    { apply (lookup_at_length _ D' z []); [done|].
      rewrite wrap64_small; lia. }
    eapply run_bind_eq; [by apply run_arr_get|].
    eapply run_bind_eq; [by apply run_set_next|].
    eapply run_bind_eq; [by apply run_arr_get|].
    apply run_set_prev. by rewrite live_upd_next.
  - assert (∀ y, vl σ3 y = vl σ y) as Hv3.
    { intros y. unfold σ3. rewrite vl_upd_prev, vl_upd_next, Hv2.
      unfold σ1. by rewrite vl_upd_prev, vl_upd_next. }
    assert (∀ c, lderef σ3 c = lderef σ c) as Hl3.
    { intros c. unfold σ3. rewrite lderef_upd_prev, lderef_upd_next, Hl2. done. }
    split; [|split; [done|split; [done|]]].
    + split; [by rewrite Hl3, bottom_up_sort_length|].
      split; [rewrite bottom_up_sort_length; unfold m in *; lia|].
      split; [|split].
      * rewrite <-El'. split; [done|]. rewrite ED. apply seg_snoc. split.
        -- eapply seg_frame; [exact Hseg2| |].
           ++ intros y Hy. unfold σ3. rewrite nxt_upd_prev, nxt_upd_next.
              rewrite decide_False; [done|]. by intros <-.
           ++ intros y Hy. unfold σ3. rewrite prv_upd_prev, prv_upd_next.
              rewrite decide_False; [done|]. by intros <-.
        -- split; unfold σ3.
           ++ rewrite nxt_upd_prev, nxt_upd_next, decide_True by done.
              destruct Hlz as [nd Hnd0]. unfold nxt. by rewrite Hnd0.
           ++ rewrite prv_upd_prev, decide_True by done. rewrite prv_upd_next.
              destruct Hls2 as [nd Hnd0]. unfold prv. by rewrite Hnd0.
      * by rewrite Hv3.
      * eapply Forall_impl; [eapply valued_perm; [|exact Hval]; by rewrite bottom_up_sort_perm|].
        intros e He. simpl. by rewrite Hv3.
    + intros y Hy. unfold σ3. rewrite deref_upd_prev, deref_upd_next.
      assert (y ∉ s :: a0 :: R0) as Hy' by (by rewrite Hperm).
      rewrite !decide_False.
      * rewrite Hfr2 by (intros ?; apply Hy'; by right).
        unfold σ1. rewrite deref_upd_prev, deref_upd_next.
        rewrite !decide_False; [done| |]; intros <-; apply Hy'; set_solver.
      * intros <-. apply Hy'. right. rewrite ED. set_solver.
      * intros <-. apply Hy'. by left.
Qed.

Section SortProofs.

(** [<] is a strict weak order: its negation is transitive, and it is
    asymmetric. *)
Hypothesis lt_le_trans :
  ∀ a b c : T, lt b a = false → lt c b = false → lt c a = false.
Hypothesis lt_asym : ∀ a b : T, lt a b = true → lt b a = false.

Lemma lt_item_le_trans (a b c : N * T) :
  lt_item lt b a = false → lt_item lt c b = false → lt_item lt c a = false.
Proof using lt_le_trans. apply lt_le_trans. Qed.

Lemma lt_item_asym (a b : N * T) : lt_item lt a b = true → lt_item lt b a = false.
Proof using lt_asym. apply lt_asym. Qed.

Lemma run_merge_empty σ this other os :
  rep σ other os [] → merge lt this other σ = Ok tt σ.
Proof.
  intros Hother. pose proof (rep_lderef _ _ _ _ Hother) as Hlo.
  simpl in Hlo. unfold merge.
  destruct (decide (this = other)); [done|]. by mstep.
Qed.

(** C3 — [sort()].  For a strict weak order [<], [sort()] returns
    normally and leaves in the ring the nodes it held, in the order of
    the stable sort: the result is a permutation of the old sequence, no
    element is less than an earlier one, and of two nodes of which the
    later is not less than the earlier, the earlier stays earlier.  No
    value slot is written.  On a container of at most one element the
    store is left as it is, and a second [sort()] leaves the sequence as
    the first one made it. *)
Theorem sort_spec σ this s items :
  rep σ this s items →
  3 * Z.of_nat (length items) < size_max →
  ∃ σ' result,
    sort lt this σ = Ok tt σ' ∧
    rep σ' this s result ∧
    result = ssort (lt_item lt) items ∧
    sorted (lt_item lt) result ∧
    result ≡ₚ items ∧
    (∀ e1 e2 : N * T,
       before e1 e2 items → lt_item lt e2 e1 = false → before e1 e2 result) ∧
    (∀ y, vl σ' y = vl σ y) ∧
    ((length items ≤ 1)%nat → σ' = σ) ∧
    ∃ σ'', sort lt this σ' = Ok tt σ'' ∧ rep σ'' this s result.
Proof using lt_asym lt_le_trans.
  intros Hrep Hbound.
  destruct (run_sort _ _ _ _ Hrep Hbound) as (σ' & Hrun & Hrep' & Hv & _).
  rewrite (bottom_up_sort_ssort (lt_item lt) lt_item_le_trans lt_item_asym) in Hrep'.
  exists σ', (ssort (lt_item lt) items). split_and!; try done.
  - apply ssort_sorted; [apply lt_item_le_trans|apply lt_item_asym].
  - apply ssort_perm.
  - intros e1 e2. apply ssort_stable.
  - intros Hlen. pose proof (run_sort_small _ _ _ _ Hrep Hlen) as Hsmall.
    rewrite Hrun in Hsmall. by injection Hsmall.
  - destruct (run_sort _ _ _ _ Hrep') as (σ'' & Hrun' & Hrep'' & _).
    { by rewrite ssort_length. }
    rewrite (bottom_up_sort_ssort (lt_item lt) lt_item_le_trans lt_item_asym) in Hrep''.
    rewrite (ssort_idempotent (lt_item lt) lt_item_le_trans lt_item_asym) in Hrep''.
    by exists σ''.
Qed.

(** C2 — [merge(other)].  For a strict weak order [<] and two distinct
    containers with disjoint rings, each sorted, [merge] returns normally;
    afterwards [this] holds the nodes of both, sorted, every node of
    [this] before every node of [other] that is not less than it (so
    before the ones with an equal key), [other] is empty, and no value
    slot has been written: the nodes of [other] themselves are now nodes
    of [this].  Merging an empty [other] leaves the store as it is, and so
    does merging a container with itself. *)
Theorem merge_spec σ this s other os l1 l2 :
  this ≠ other →
  rep σ this s l1 → rep σ other os l2 →
  (∀ z, z ∈ s :: l1.*1 → z ∉ os :: l2.*1) →
  Z.of_nat (length l1 + length l2) < size_max →
  sorted (lt_item lt) l1 → sorted (lt_item lt) l2 →
  ∃ σ' result,
    merge lt this other σ = Ok tt σ' ∧
    rep σ' this s result ∧
    rep σ' other os [] ∧
    result = merge_list (lt_item lt) l1 l2 ∧
    sorted (lt_item lt) result ∧
    result ≡ₚ l1 ++ l2 ∧
    (∀ e1 e2 : N * T,
       e1 ∈ l1 → e2 ∈ l2 → lt_item lt e2 e1 = false → before e1 e2 result) ∧
    (∀ e1 e2 : N * T,
       before e1 e2 l1 ∨ before e1 e2 l2 → before e1 e2 result) ∧
    (∀ y, vl σ' y = vl σ y) ∧
    (∀ x v, (x, v) ∈ l2 → valid σ' (It this x) ∧ vl σ' x = Some (Some v)) ∧
    (l2 = [] → σ' = σ) ∧
    merge lt this this σ = Ok tt σ.
Proof using lt_asym lt_le_trans.
  intros Hne Hthis Hother Hdisj Hsz Hs1 Hs2.
  destruct (run_merge _ _ _ _ _ _ _ Hne Hthis Hother Hdisj Hsz)
    as (σ' & Hrun & Hrep' & Hrep2 & Hv & _).
  pose proof (merge_sorted (lt_item lt) lt_item_le_trans lt_item_asym l1 l2 Hs1 Hs2)
    as Em.
  exists σ', (merge_list (lt_item lt) l1 l2). split_and!; try done.
  - rewrite Em. apply ssort_sorted; [apply lt_item_le_trans|apply lt_item_asym].
  - apply merge_list_perm.
  - intros e1 e2 Ha Hb Hba. rewrite Em. apply ssort_stable; [|done].
    by apply before_app_lr.
  - intros e1 e2 Hab. rewrite Em.
    assert (∀ l, sorted (lt_item lt) l → before e1 e2 l → lt_item lt e2 e1 = false) as Hsb.
    { clear. intros l Hl (k1 & k2 & k3 & ->).
      induction k1 as [|x k1 IH]; simpl in Hl.
      - destruct Hl as [Hall _]. rewrite Forall_forall in Hall.
        apply Hall. apply elem_of_app. right. by left.
      - apply IH, Hl. }
    destruct Hab as [Hab|Hab].
    + apply ssort_stable; [by apply before_app_l|by apply (Hsb l1)].
    + apply ssort_stable; [by apply before_app_r|by apply (Hsb l2)].
  - intros x v Hx.
    assert ((x, v) ∈ merge_list (lt_item lt) l1 l2) as Hin.
    { rewrite merge_list_perm. apply elem_of_app. by right. }
    split.
    + apply (valid_iff _ _ _ _ _ Hrep'). right. by apply elem_of_fst in Hin.
    + by apply (rep_vl _ _ _ _ Hrep').
  - intros ->. pose proof (run_merge_empty σ this other os Hother) as He.
    rewrite Hrun in He. by injection He.
  - apply run_merge_self.
Qed.

End SortProofs.

(** * The properties stated by the specification *)

(** C1 — iterator stability under [erase].  In a container that holds the
    consecutive data nodes [a], [b], [c], erasing at the position of [b]
    succeeds and returns the position of [c]; an iterator of the container
    that was valid before is valid afterwards exactly when it does not
    denote [b] (whose storage is gone); every other node of the ring keeps
    its value and can be dereferenced as before; incrementing an iterator
    at [a] now yields [c]. *)
Theorem erase_iterator_stability σ this s i1 a va b vb c vc i2 :
  rep σ this s (i1 ++ (a, va) :: (b, vb) :: (c, vc) :: i2) →
  ∃ σ',
    erase this (It this b) σ = Ok (It this c) σ' ∧
    deref σ' b = None ∧
    (∀ y, valid σ (It this y) → (valid σ' (It this y) ↔ y ≠ b)) ∧
    (∀ y, y ≠ b → vl σ' y = vl σ y) ∧
    (∀ y v, (y, v) ∈ i1 ++ (a, va) :: (b, vb) :: (c, vc) :: i2 → y ≠ b →
            it_deref (It this y) σ' = Ok v σ' ∧
            cit_deref (CIt this y) σ' = Ok v σ') ∧
    it_pre_incr (It this a) σ' = Ok (It this c, It this c) σ' ∧
    it_post_incr (It this a) σ' = Ok (It this a, It this c) σ'.
Proof.
  intros Hrep.
  assert (rep σ this s ((i1 ++ [(a, va)]) ++ (b, vb) :: (c, vc) :: i2)) as Hrep1
    by (by rewrite <-app_assoc).
  pose proof (run_erase _ _ _ _ _ _ _ Hrep1) as Hrun.
  pose proof (rep_unlinked _ _ _ _ _ _ _ Hrep1) as Hrep'.
  pose proof (rep_nodup _ _ _ _ Hrep) as Hnd.
  rewrite fmap_app in Hrun, Hrep'.
  change ([(a, va)].*1) with [a] in Hrun, Hrep'.
  rewrite last_snoc in Hrun, Hrep'. simpl in Hrun, Hrep'.
  rewrite <-app_assoc in Hrun, Hrep'. simpl in Hrun, Hrep'.
  eexists. split; [exact Hrun|].
  split; [apply deref_unlinked_dead|].
  assert (b ∉ s :: (i1 ++ (a, va) :: (c, vc) :: i2).*1) as Hb.
  { rewrite fmap_app in Hnd |- *. simpl in Hnd |- *. clear -Hnd.
    rewrite NoDup_cons, NoDup_app in Hnd. rewrite !NoDup_cons in Hnd.
    set_solver. }
  split; [|split; [|split]].
  - intros y Hy. rewrite (valid_iff _ _ _ _ _ Hrep) in Hy.
    rewrite (valid_iff _ _ _ _ _ Hrep'). split.
    + intros Hy' ->. done.
    + intros Hne. rewrite fmap_app in Hy |- *. simpl in Hy |- *.
      clear -Hy Hne. set_solver.
  - intros y Hy. unfold unlinked, vl.
    autorewrite with store. dec_tac.
    repeat case_decide; try done; by destruct (deref σ y).
  - intros y v Hy Hne. apply (run_deref _ _ _ _ _ _ Hrep').
    clear -Hy Hne. set_solver.
  - pose proof (run_incr _ _ _ _ _ _ _ Hrep') as (H1 & H2 & _). by split.
Qed.

(** C5 — the contract of [erase(pos)].  On an empty container it throws
    [container_is_empty] whatever [pos] is; on a non-empty one it throws
    [invalid_iterator] when [pos] belongs to another container, is null or
    is the end position; at a data node it unlinks and destroys the node,
    the count goes down by one, and the position of the following node is
    returned. *)
Theorem erase_contract σ this s items :
  rep σ this s items →
  (items = [] → ∀ pos, erase this pos σ = Throw container_is_empty σ) ∧
  (items ≠ [] → ∀ pos,
     it_owner pos ≠ this ∨ it_p pos = null ∨ it_p pos = s →
     erase this pos σ = Throw invalid_iterator σ) ∧
  (∀ i1 x v i2, items = i1 ++ (x, v) :: i2 →
     ∃ σ',
       erase this (It this x) σ = Ok (It this (default s (head i2.*1))) σ' ∧
       rep σ' this s (i1 ++ i2) ∧
       deref σ' x = None ∧
       lderef σ' this = Some (LObj s (Z.of_nat (length items) - 1))).
Proof.
  intros Hrep. pose proof (rep_lderef _ _ _ _ Hrep) as Hlo.
  split; [|split].
  - intros -> pos. unfold erase. by mstep.
  - intros Hne pos Hpos.
    assert (Z.of_nat (length items) ≠ 0)
      by (by rewrite (rep_length_0 _ _ _ _ Hrep)).
    unfold erase. mstep.
    destruct (decide (it_owner pos ≠ this)) as [|Ho]; [done|].
    destruct (decide (it_p pos = null)) as [|Hn]; [done|].
    mstep. destruct Hpos as [?|[?|Hs]]; [done|done|].
    by rewrite decide_True.
  - intros i1 x v i2 ->.
    pose proof (rep_unlinked _ _ _ _ _ _ _ Hrep) as Hrep'.
    eexists. split; [exact (run_erase _ _ _ _ _ _ _ Hrep)|].
    split; [done|]. split; [apply deref_unlinked_dead|].
    rewrite (rep_lderef _ _ _ _ Hrep'). do 2 f_equal.
    rewrite !length_app. simpl. lia.
Qed.

(** C7 — operations on the end iterator.  Incrementing or dereferencing
    an iterator at the sentinel throws [invalid_iterator]; decrementing it
    throws [invalid_iterator] exactly when the container is empty, and
    otherwise moves it to the last data node. *)
Theorem end_iterator_operations σ this s items :
  rep σ this s items →
  (it_post_incr (It this s) σ = Throw invalid_iterator σ ∧
   it_pre_incr (It this s) σ = Throw invalid_iterator σ ∧
   cit_post_incr (CIt this s) σ = Throw invalid_iterator σ ∧
   cit_pre_incr (CIt this s) σ = Throw invalid_iterator σ) ∧
  (it_deref (It this s) σ = Throw invalid_iterator σ ∧
   cit_deref (CIt this s) σ = Throw invalid_iterator σ) ∧
  (items = [] ↔ it_pre_decr (It this s) σ = Throw invalid_iterator σ) ∧
  (items = [] ↔ it_post_decr (It this s) σ = Throw invalid_iterator σ) ∧
  (items = [] ↔ cit_pre_decr (CIt this s) σ = Throw invalid_iterator σ) ∧
  (items = [] ↔ cit_post_decr (CIt this s) σ = Throw invalid_iterator σ) ∧
  (∀ x v, last items = Some (x, v) →
     it_pre_decr (It this s) σ = Ok (It this x, It this x) σ ∧
     it_post_decr (It this s) σ = Ok (It this s, It this x) σ ∧
     cit_pre_decr (CIt this s) σ = Ok (CIt this x, CIt this x) σ ∧
     cit_post_decr (CIt this s) σ = Ok (CIt this s, CIt this x) σ ∧
     it_deref (It this x) σ = Ok v σ).
Proof.
  intros Hrep.
  pose proof (it_incr_end _ _ _ _ Hrep) as [Hi1 Hi2].
  pose proof (cit_incr_end _ _ _ _ Hrep) as [Hc1 Hc2].
  pose proof (deref_end _ _ _ _ Hrep) as [Hd1 Hd2].
  split; [done|]. split; [done|].
  assert (items = [] ∨ ∃ x v, last items = Some (x, v)) as [->|(x & v & Hl)].
  { destruct (last items) as [[x v]|] eqn:E; [right; eauto|left].
    by apply last_None in E. }
  - pose proof (decr_end_empty _ _ _ _ Hrep eq_refl) as (H1 & H2 & H3 & H4).
    split_and!; done.
  - pose proof (decr_end_nonempty _ _ _ _ Hrep _ _ Hl) as (H1 & H2 & H3 & H4).
    assert (items ≠ []) as Hne by (intros ->; done).
    split_and!.
    + split; [done|]. rewrite H1. done.
    + split; [done|]. rewrite H2. done.
    + split; [done|]. rewrite H3. done.
    + split; [done|]. rewrite H4. done.
    + intros x' v' Hl'. rewrite Hl in Hl'. injection Hl' as <- <-.
      split_and!; try done.
      apply (run_deref _ _ _ _ _ _ Hrep).
      apply last_Some in Hl as (l' & ->). apply elem_of_app. right. by left.
Qed.

(** C10 — decrement at [begin()] of a non-empty container.  The prefix
    and the postfix decrement of an iterator or const_iterator at the
    first data node return normally and leave the iterator at the
    sentinel, where it compares equal to [end()] (to [cend()]). *)
Theorem decrement_at_begin σ this s x v items :
  rep σ this s ((x, v) :: items) →
  ∃ (ib : iterator) (icb : const_iterator) (ie : iterator) (ice : const_iterator),
    begin_ this σ = Ok ib σ ∧ cbegin this σ = Ok icb σ ∧
    end_ this σ = Ok ie σ ∧ cend this σ = Ok ice σ ∧
    it_p ib = x ∧ cit_p icb = x ∧
    (∃ r it', it_pre_decr ib σ = Ok (r, it') σ ∧
              it_p it' = s ∧ it_eq it' ie = true) ∧
    (∃ r it', it_post_decr ib σ = Ok (r, it') σ ∧
              it_p it' = s ∧ it_eq it' ie = true) ∧
    (∃ r it', cit_pre_decr icb σ = Ok (r, it') σ ∧
              cit_p it' = s ∧ cit_eq it' ice = true) ∧
    (∃ r it', cit_post_decr icb σ = Ok (r, it') σ ∧
              cit_p it' = s ∧ cit_eq it' ice = true).
Proof.
  intros Hrep.
  pose proof (run_begin_end _ _ _ _ _ _ Hrep) as (Hb & He & Hcb & Hce).
  pose proof (decr_begin _ _ _ _ _ _ Hrep) as (H1 & H2 & H3 & H4).
  exists (It this x), (CIt this x), (It this s), (CIt this s).
  assert (it_eq (It this s) (It this s) = true) as Heq
    by (unfold it_eq; by rewrite !bool_decide_eq_true_2).
  assert (cit_eq (CIt this s) (CIt this s) = true) as Hceq
    by (unfold cit_eq; by rewrite !bool_decide_eq_true_2).
  split_and!; try done; eauto 10.
Qed.

(** C8 — [reverse()].  The ring holds the same nodes in the reverse
    order, a second [reverse()] gives back the very store the first one
    started from, and on a container of at most one element the store
    is not changed at all. *)
Theorem reverse_spec σ this s items :
  rep σ this s items →
  ∃ σ',
    reverse this σ = Ok tt σ' ∧
    rep σ' this s (rev items) ∧
    reverse this σ' = Ok tt σ ∧
    ((length items ≤ 1)%nat → σ' = σ).
Proof.
  intros Hrep.
  destruct (run_reverse_twice _ _ _ _ Hrep) as (σ' & Hrun & Hrep' & Hback).
  exists σ'. split_and!; try done.
  intros Hlen. pose proof (run_reverse_small _ _ _ _ Hrep Hlen) as Hsmall.
  rewrite Hrun in Hsmall. by injection Hsmall.
Qed.

(** ** [unique] against the wording of the specification *)

Lemma keep_changes_eq (p q : N * T) l :
  (∀ u v w : T, eqb u v = true → eqb u w = eqb v w) →
  eqb p.2 q.2 = true → keep_changes eqb p l = keep_changes eqb q l.
Proof.
  intros Heq Hpq. destruct l as [|e l]; simpl; [done|].
  by rewrite (Heq _ _ e.2 Hpq).
Qed.

Lemma uniq_from_first_of_runs (p : N * T) l :
  (∀ u v w : T, eqb u v = true → eqb u w = eqb v w) →
  uniq_from eqb p l = p :: keep_changes eqb p l.
Proof.
  intros Heq. revert p. induction l as [|e l IH]; intros p; simpl; [done|].
  destruct (eqb p.2 e.2) eqn:E.
  - rewrite IH. f_equal. by apply keep_changes_eq.
  - by rewrite IH.
Qed.

Lemma unique_list_first_of_runs l :
  (∀ u v w : T, eqb u v = true → eqb u w = eqb v w) →
  unique_list eqb l = first_of_runs eqb l.
Proof.
  intros Heq. destruct l as [|e l]; [done|]. by apply uniq_from_first_of_runs.
Qed.

Lemma uniq_from_sublist (p : N * T) l : sublist (uniq_from eqb p l) (p :: l).
Proof.
  revert p. induction l as [|e l IH]; intros p; simpl; [done|].
  destruct (eqb p.2 e.2).
  - specialize (IH p). apply sublist_cons_r in IH as [IH|(k & Hk & IH)].
    + apply sublist_cons_r. left. by apply sublist_cons.
    + rewrite Hk. apply sublist_skip. by apply sublist_cons.
  - apply sublist_skip, IH.
Qed.

Lemma unique_list_sublist l : sublist (unique_list eqb l) l.
Proof. destruct l as [|e l]; [done|]. apply uniq_from_sublist. Qed.

(** C9 — [unique()].  [unique()] returns normally; the ring then holds,
    in their old order, the first node of every run of consecutive
    values equal to that first one; the other nodes are destroyed, and
    the count is lowered by their number.  When [==] is an equivalence
    this is the list in which an element stays exactly when it is the
    first or differs from the one before it, so that equal values that
    are not neighbours all stay. *)
Theorem unique_spec σ this s items :
  rep σ this s items →
  ∃ σ' result,
    unique eqb this σ = Ok tt σ' ∧
    rep σ' this s result ∧
    result = unique_list eqb items ∧
    sublist result items ∧
    (∀ y, y ∈ items.*1 → y ∉ result.*1 → deref σ' y = None) ∧
    lderef σ' this =
      Some (LObj s (Z.of_nat (length items)
                    - Z.of_nat (length items - length result))) ∧
    ((∀ u v w : T, eqb u v = true → eqb u w = eqb v w) →
     result = first_of_runs eqb items).
Proof.
  intros Hrep.
  destruct (run_unique _ _ _ _ Hrep) as (σ' & Hrun & Hrep' & _ & _ & Hdead & _).
  exists σ', (unique_list eqb items).
  pose proof (unique_list_sublist items) as Hsub.
  split_and!; try done.
  - rewrite (rep_lderef _ _ _ _ Hrep'). do 2 f_equal.
    apply sublist_length in Hsub. lia.
  - apply unique_list_first_of_runs.
Qed.

(** C6, as the code has it — a stale iterator is not rejected.  An
    iterator whose owner is this container and whose node has been
    destroyed passes the checks of [insert] and of [erase], which look
    at the owner, at null and, for [erase], at the sentinel and at the
    count only; the destroyed node is then read, which is undefined
    behaviour, not [invalid_iterator].  Only on an empty container does
    [erase] throw, and then [container_is_empty]. *)
Theorem stale_iterator_not_rejected σ this s items x value :
  rep σ this s items →
  x ≠ null → deref σ x = None →
  insert alloc this (It this x) value σ = Undefined ∧
  (items ≠ [] → erase this (It this x) σ = Undefined) ∧
  (items = [] → erase this (It this x) σ = Throw container_is_empty σ).
Proof using alloc_fresh.
  intros Hrep Hx Hdead.
  pose proof (rep_lderef _ _ _ _ Hrep) as Hlo.
  assert (x ≠ s) as Hxs.
  { intros ->. assert (is_Some (deref σ s)) as [? Hs]
      by (apply (rep_live _ _ _ _ Hrep); by left).
    congruence. }
  split; [|split].
  - unfold insert. simpl. rewrite decide_False by (by intros []).
    rewrite decide_False by done.
    pose proof (alloc_fresh (nodes σ)) as [Hcn Hcf].
    unfold new_node, insert_node, bind, set_next, get_prev, set_prev, prv.
    rewrite deref_put_node by done. rewrite decide_True by done.
    destruct (decide (x = alloc (nodes σ))) as [->|Hne].
    + rewrite deref_upd_next, decide_True by done.
      rewrite deref_put_node, decide_True by done. simpl.
      rewrite deref_upd_next, decide_True by done.
      rewrite deref_put_node, decide_True by done. simpl.
      rewrite deref_upd_prev, decide_True by done.
      rewrite deref_upd_next, decide_True by done.
      rewrite deref_put_node, decide_True by done. simpl.
      done.
    + rewrite deref_upd_next, decide_False by done.
      rewrite deref_put_node by done. rewrite decide_False by done.
      by rewrite Hdead.
  - intros Hne.
    assert (Z.of_nat (length items) ≠ 0)
      by (by rewrite (rep_length_0 _ _ _ _ Hrep)).
    unfold erase. simpl. mstep.
    rewrite ?decide_False by first [done|by intros []].
    mstep. rewrite ?decide_False by done.
    unfold bind, get_next, nxt. by rewrite Hdead.
  - intros ->. unfold erase. by mstep.
Qed.

(** ** The invariant of the specification *)

Lemma walk_seg σ s x q fuel :
  seg σ x q s → s ∉ x :: q → (length q < fuel)%nat →
  walk σ fuel s x = Some (x :: q).
Proof.
  revert x fuel. induction q as [|y q IH]; intros x fuel Hseg Hs Hf.
  - destruct fuel as [|fuel]; [lia|]. simpl in Hseg. destruct Hseg as [Hn _].
    unfold walk; fold (@walk T).
    rewrite decide_False by (intros ->; apply Hs; by left).
    rewrite Hn. simpl.
    destruct fuel; unfold walk; by rewrite decide_True.
  - destruct fuel as [|fuel]; [simpl in Hf; lia|].
    simpl in Hseg. destruct Hseg as [[Hn _] Hseg].
    unfold walk; fold (@walk T).
    rewrite decide_False by (intros ->; apply Hs; by left).
    rewrite Hn. simpl. rewrite (IH y fuel); [done|done| |simpl in Hf; lia].
    intros Hy. apply Hs. by right.
Qed.

Lemma rep_forward σ this s items :
  rep σ this s items → forward σ s = Some items.*1.
Proof.
  intros Hrep. pose proof (rep_first _ _ _ _ Hrep) as Hf.
  pose proof (rep_seg _ _ _ _ Hrep) as Hseg.
  pose proof (rep_nodup _ _ _ _ Hrep) as Hnd.
  pose proof (rep_size _ _ _ _ Hrep) as Hsz.
  unfold forward. rewrite Hf. simpl.
  destruct items as [|[x v] items]; simpl.
  - destruct (size (nodes σ)); unfold walk; by rewrite decide_True.
  - simpl in Hseg, Hnd, Hsz. destruct Hseg as [_ Hseg].
    apply walk_seg; [done| |rewrite length_fmap; lia].
    by apply NoDup_cons in Hnd as [? _].
Qed.

Lemma rep_inv σ this s items : rep σ this s items → ring_count_inv σ this.
Proof.
  intros Hrep.
  pose proof (rep_first _ _ _ _ Hrep) as Hf.
  pose proof (rep_last _ _ _ _ Hrep) as Hl.
  exists s, (Z.of_nat (length items)), items.*1.
  split; [apply (rep_lderef _ _ _ _ Hrep)|].
  split; [by eapply rep_forward|].
  split; [by rewrite length_fmap|]. split.
  - intros x [->|Hx]%elem_of_cons.
    + pose proof (rep_link_at σ this s [] items Hrep) as [_ H1].
      pose proof (rep_link_at σ this s items []) as [H2 _].
      { by rewrite app_nil_r. }
      simpl in H1, H2. eauto 10.
    + apply list_elem_of_fmap in Hx as ([x' v] & -> & Hx).
      apply list_elem_of_split in Hx as (i1 & i2 & ->).
      pose proof (rep_decompose _ _ _ _ _ _ _ Hrep) as (H1 & H2 & H3 & H4 & _).
      simpl. eauto 10.
  - rewrite (rep_length_0 _ _ _ _ Hrep), Hf.
    destruct items as [|[x v] items]; simpl; [done|].
    split; [done|]. intros [= ->].
    pose proof (rep_nodup _ _ _ _ Hrep) as Hnd. simpl in Hnd.
    apply NoDup_cons in Hnd as [Hs _]. exfalso. apply Hs. by left.
Qed.

Lemma run_erase_empty σ this s pos :
  rep σ this s [] → erase this pos σ = Throw container_is_empty σ.
Proof.
  intros Hrep. pose proof (rep_lderef _ _ _ _ Hrep) as Hlo.
  unfold erase. by mstep.
Qed.

Lemma run_erase_invalid σ this s items pos :
  rep σ this s items → items ≠ [] →
  it_owner pos ≠ this ∨ it_p pos = null ∨ it_p pos = s →
  erase this pos σ = Throw invalid_iterator σ.
Proof.
  intros Hrep Hne Hpos. pose proof (rep_lderef _ _ _ _ Hrep) as Hlo.
  assert (Z.of_nat (length items) ≠ 0)
    by (by rewrite (rep_length_0 _ _ _ _ Hrep)).
  unfold erase. mstep.
  destruct (decide (it_owner pos ≠ this)) as [|Ho]; [done|].
  destruct (decide (it_p pos = null)) as [|Hn]; [done|].
  mstep. destruct Hpos as [?|[?|Hs]]; [done|done|].
  by rewrite decide_True.
Qed.

Lemma run_insert_invalid σ this pos value :
  it_owner pos ≠ this ∨ it_p pos = null →
  insert alloc this pos value σ = Throw invalid_iterator σ.
Proof.
  intros Hpos. unfold insert.
  destruct (decide (it_owner pos ≠ this)) as [|Ho]; [done|].
  destruct (decide (it_p pos = null)) as [|Hn]; [done|].
  by destruct Hpos.
Qed.

(** Every operation on one container keeps the representation. *)
Lemma run_op_rep σ this s items o :
  rep σ this s items →
  3 * (Z.of_nat (length items) + 1) < size_max →
  op_ok σ this o →
  ∃ σ' items',
    (run_op lt eqb alloc this o σ = Ok tt σ' ∨
     ∃ e, run_op lt eqb alloc this o σ = Throw e σ') ∧
    rep σ' this s items'.
Proof using alloc_fresh.
  intros Hrep Hsz Hok.
  pose proof (rep_lderef _ _ _ _ Hrep) as Hlo.
  destruct o as [[o p] value|[o p]|value|value| | | | | |]; simpl in *.
  - (* insert *)
    destruct (decide (o ≠ this)) as [|Ho].
    { exists σ, items. split; [right; exists invalid_iterator|done].
      eapply run_bind_throw, run_insert_invalid. by left. }
    destruct (decide (p = null)) as [|Hp].
    { exists σ, items. split; [right; exists invalid_iterator|done].
      eapply run_bind_throw, run_insert_invalid. by right. }
    assert (o = this) as -> by (by destruct (decide (o = this))).
    specialize (Hok eq_refl Hp).
    apply (valid_iff _ _ _ _ _ Hrep) in Hok.
    apply ring_position in Hok as (i1 & i2 & -> & ->).
    pose proof (run_insert _ _ _ i1 i2 value Hrep) as Hrun.
    pose proof (rep_linked _ _ _ i1 i2 value Hrep) as Hrep'.
    eexists _, _. split; [left|apply Hrep'; lia].
    eapply run_bind_eq; [apply Hrun; lia|done].
  - (* erase *)
    destruct items as [|e0 items0] eqn:Eitems.
    { exists σ, []. split; [right; exists container_is_empty|done].
      eapply run_bind_throw, run_erase_empty. done. }
    rewrite <-Eitems in *.
    assert (items ≠ []) as Hne by (by subst items).
    destruct (decide (o ≠ this)) as [|Ho].
    { exists σ, items. split; [right; exists invalid_iterator|done].
      eapply run_bind_throw, run_erase_invalid; [done|done|by left]. }
    destruct (decide (p = null)) as [|Hp].
    { exists σ, items. split; [right; exists invalid_iterator|done].
      eapply run_bind_throw, run_erase_invalid; [done|done|right; by left]. }
    assert (o = this) as -> by (by destruct (decide (o = this))).
    destruct (decide (p = s)) as [->|Hps].
    { exists σ, items. split; [right; exists invalid_iterator|done].
      eapply run_bind_throw, run_erase_invalid; [done|done|right; by right]. }
    specialize (Hok eq_refl Hp).
    apply (valid_iff _ _ _ _ _ Hrep) in Hok.
    apply elem_of_cons in Hok as [?|Hok]; [done|].
    apply list_elem_of_fmap in Hok as ([x v] & -> & Hx).
    apply list_elem_of_split in Hx as (i1 & i2 & Hi).
    rewrite Hi in Hrep.
    pose proof (run_erase _ _ _ _ _ _ _ Hrep) as Hrun.
    pose proof (rep_unlinked _ _ _ _ _ _ _ Hrep) as Hrep'.
    eexists _, _. split; [left|exact Hrep'].
    eapply run_bind_eq; [exact Hrun|done].
  - (* push_back *)
    pose proof (run_push_back _ _ _ _ value Hrep) as Hrun.
    pose proof (rep_linked σ this s items [] value) as Hrep'.
    rewrite app_nil_r in Hrep'. simpl in Hrep'.
    eexists _, _. split; [left; apply Hrun; lia|apply Hrep'; [done|lia]].
  - (* push_front *)
    pose proof (run_push_front _ _ _ _ value Hrep) as Hrun.
    pose proof (rep_linked _ _ _ [] items value Hrep) as Hrep'.
    simpl in Hrep'.
    eexists _, _. split; [left; apply Hrun; lia|apply Hrep'; lia].
  - (* pop_back *)
    destruct items as [|e0 items0 _] using rev_ind.
    { exists σ, []. split; [right; exists container_is_empty|done].
      apply (run_pop_empty _ _ _ Hrep). }
    destruct e0 as [x v].
    pose proof (run_pop_back _ _ _ _ _ _ Hrep) as Hrun.
    pose proof (rep_unlinked _ _ _ items0 x v [] Hrep) as Hrep'.
    rewrite app_nil_r in Hrep'. simpl in Hrep'.
    eexists _, _. split; [left; exact Hrun|exact Hrep'].
  - (* pop_front *)
    destruct items as [|[x v] items0].
    { exists σ, []. split; [right; exists container_is_empty|done].
      apply (run_pop_empty _ _ _ Hrep). }
    pose proof (run_pop_front _ _ _ _ _ _ Hrep) as Hrun.
    pose proof (rep_unlinked _ _ _ [] x v items0 Hrep) as Hrep'.
    simpl in Hrep'.
    eexists _, _. split; [left; exact Hrun|exact Hrep'].
  - (* clear *)
    eexists _, _. split; [left; by eapply run_clear|by eapply rep_cleared].
  - (* sort *)
    destruct (run_sort _ _ _ _ Hrep) as (σ' & Hrun & Hrep' & _); [lia|].
    eexists _, _. split; [left; exact Hrun|exact Hrep'].
  - (* reverse *)
    destruct (run_reverse_twice _ _ _ _ Hrep) as (σ' & Hrun & Hrep' & _).
    eexists _, _. split; [left; exact Hrun|exact Hrep'].
  - (* unique *)
    destruct (run_unique _ _ _ _ Hrep) as (σ' & Hrun & Hrep' & _).
    eexists _, _. split; [left; exact Hrun|exact Hrep'].
Qed.

(** C4, as the code has it — the ring and count invariant.  The
    representation of a container gives the invariant of the
    specification (circular and doubly consistent ring, count equal to
    the number of data nodes met from the sentinel back to the sentinel,
    count zero exactly for the ring of the sentinel alone).  Construction
    and copy construction establish the representation, hence the
    invariant; assignment and [merge] of two distinct containers keep it
    for both; and [insert], [erase], [push_back], [push_front],
    [pop_back], [pop_front], [clear], [sort], [reverse], [unique] keep
    it, whether they return or throw, provided that the position handed
    to [insert] or [erase], when it names this container as its owner
    and is not null, denotes a node of the ring of this container
    ([op_ok]).  The code does not check this: an iterator whose node has
    been moved to another container by [merge] passes the tests of
    [insert] and [erase], and the operation then breaks the invariant of
    both containers. *)
Theorem ring_count_invariant_preserved :
  (∀ σ this s items, rep σ this s items → ring_count_inv σ this) ∧
  (∀ σ this, this ≠ null →
     ∃ σ' s, list_ctor alloc this σ = Ok tt σ' ∧
             rep σ' this s [] ∧ ring_count_inv σ' this) ∧
  (∀ σ this other os oitems,
     this ≠ null → this ≠ other → rep σ other os oitems →
     ∃ σ' s new,
       list_copy_ctor alloc this other σ = Ok tt σ' ∧
       rep σ' this s new ∧ rep σ' other os oitems ∧
       ring_count_inv σ' this ∧ ring_count_inv σ' other) ∧
  (∀ σ this s items other os oitems,
     this ≠ other → rep σ this s items → rep σ other os oitems →
     (∀ y, y ∈ s :: items.*1 → y ∉ os :: oitems.*1) →
     ∃ σ' new,
       assign alloc this other σ = Ok tt σ' ∧
       rep σ' this s new ∧ rep σ' other os oitems ∧
       ring_count_inv σ' this ∧ ring_count_inv σ' other) ∧
  (∀ σ this s l1 other os l2,
     this ≠ other → rep σ this s l1 → rep σ other os l2 →
     (∀ z, z ∈ s :: l1.*1 → z ∉ os :: l2.*1) →
     Z.of_nat (length l1 + length l2) < size_max →
     ∃ σ' result,
       merge lt this other σ = Ok tt σ' ∧
       rep σ' this s result ∧ rep σ' other os [] ∧
       ring_count_inv σ' this ∧ ring_count_inv σ' other) ∧
  (∀ σ this s items o,
     rep σ this s items →
     3 * (Z.of_nat (length items) + 1) < size_max →
     op_ok σ this o →
     ∃ σ' items',
       (run_op lt eqb alloc this o σ = Ok tt σ' ∨
        ∃ e, run_op lt eqb alloc this o σ = Throw e σ') ∧
       rep σ' this s items' ∧ ring_count_inv σ' this).
Proof using alloc_fresh.
  split_and!.
  - apply rep_inv.
  - intros σ this Hthis.
    pose proof (rep_list_ctor σ this Hthis) as Hrep.
    eexists _, _. split; [apply run_list_ctor|].
    split; [exact Hrep|by eapply rep_inv].
  - intros σ this other os oitems Hthis Hne Hother.
    destruct (run_list_copy_ctor σ this other os oitems Hthis Hne Hother)
      as (σ' & s & new & Hrun & Hrep1 & _ & Hrep2 & _).
    exists σ', s, new. split_and!; try done; by eapply rep_inv.
  - intros σ this s items other os oitems Hne Hthis Hother Hdisj.
    destruct (run_assign σ this s items other os oitems Hne Hthis Hother Hdisj)
      as (σ' & new & Hrun & Hrep1 & _ & Hrep2 & _).
    exists σ', new. split_and!; try done; by eapply rep_inv.
  - intros σ this s l1 other os l2 Hne Hthis Hother Hdisj Hsz.
    destruct (run_merge _ _ _ _ _ _ _ Hne Hthis Hother Hdisj Hsz)
      as (σ' & Hrun & Hrep1 & Hrep2 & _).
    exists σ', (merge_list (lt_item lt) l1 l2).
    split_and!; try done; by eapply rep_inv.
  - intros σ this s items o Hrep Hsz Hok.
    destruct (run_op_rep σ this s items o Hrep Hsz Hok)
      as (σ' & items' & Hrun & Hrep').
    exists σ', items'. split_and!; try done. by eapply rep_inv.
Qed.

(** * Further properties of the operations *)

(** ** Size, emptiness and the two ends *)

Lemma run_front σ this s x v rest :
  rep σ this s ((x, v) :: rest) → front this σ = Ok v σ.
Proof.
  intros Hrep. pose proof (rep_lderef _ _ _ _ Hrep) as Hlo.
  pose proof (rep_first _ _ _ _ Hrep) as Hf. simpl in Hf.
  assert (vl σ x = Some (Some v)) as Hv by (apply (rep_vl _ _ _ _ Hrep); by left).
  assert (Z.of_nat (length ((x, v) :: rest)) ≠ 0) by (simpl; lia).
  unfold front. do 3 mstep. by apply run_get_value.
Qed.

Lemma run_back σ this s rest x v :
  rep σ this s (rest ++ [(x, v)]) → back this σ = Ok v σ.
Proof.
  intros Hrep. pose proof (rep_lderef _ _ _ _ Hrep) as Hlo.
  pose proof (rep_last _ _ _ _ Hrep) as Hl. rewrite last_fst_snoc in Hl.
  assert (vl σ x = Some (Some v)) as Hv.
  { apply (rep_vl _ _ _ _ Hrep). apply elem_of_app. right. by left. }
  assert (Z.of_nat (length (rest ++ [(x, v)])) ≠ 0)
    by (rewrite length_app; simpl; lia).
  unfold back. do 3 mstep. by apply run_get_value.
Qed.

(** [size()] is the number of data nodes of the ring, [empty()] tells
    whether there is none, and [begin()] equals [end()] exactly then. *)
Theorem size_empty_begin_end σ this s items :
  rep σ this s items →
  size_ this σ = Ok (Z.of_nat (length items)) σ ∧
  empty this σ = Ok (bool_decide (items = [])) σ ∧
  ∃ ib ie : iterator,
    begin_ this σ = Ok ib σ ∧ end_ this σ = Ok ie σ ∧
    (it_eq ib ie = true ↔ items = []).
Proof.
  intros Hrep. pose proof (rep_lderef _ _ _ _ Hrep) as Hlo.
  pose proof (rep_first _ _ _ _ Hrep) as Hf.
  split_and!.
  - unfold size_, get_n. by rewrite Hlo.
  - unfold empty. mstep. unfold ret. do 2 f_equal.
    apply bool_decide_ext. apply (rep_length_0 _ _ _ _ Hrep).
  - exists (It this (default s (head items.*1))), (It this s).
    split_and!.
    + unfold begin_. by repeat mstep.
    + unfold end_. by repeat mstep.
    + unfold it_eq. simpl. rewrite bool_decide_eq_true_2 by done. simpl.
      rewrite bool_decide_eq_true.
      destruct items as [|[x v] items]; simpl; [done|].
      split; [|done]. intros ->.
      pose proof (rep_nodup _ _ _ _ Hrep) as Hnd. simpl in Hnd.
      apply NoDup_cons in Hnd as [Hs _]. exfalso. apply Hs. by left.
Qed.

(** [front()] and [back()] throw [container_is_empty] on an empty
    container and otherwise yield the value of the first and of the last
    data node; the store is not changed. *)
Theorem front_back_spec σ this s items :
  rep σ this s items →
  (items = [] →
     front this σ = Throw container_is_empty σ ∧
     back this σ = Throw container_is_empty σ) ∧
  (∀ x v, head items = Some (x, v) → front this σ = Ok v σ) ∧
  (∀ x v, last items = Some (x, v) → back this σ = Ok v σ).
Proof.
  intros Hrep. pose proof (rep_lderef _ _ _ _ Hrep) as Hlo.
  split_and!.
  - intros ->. simpl in Hlo. unfold front, back. split; by mstep.
  - intros x v Hh. destruct items as [|e rest]; simplify_eq/=.
    by eapply run_front.
  - intros x v Hl. apply last_Some in Hl as (rest & ->).
    by eapply run_back.
Qed.

(** ** Moving an iterator *)

Lemma run_pre_decr σ this s items y p :
  rep σ this s items → items ≠ [] → y ∈ s :: items.*1 → prv σ y = Some p →
  it_pre_decr (It this y) σ = Ok (It this p, It this p) σ ∧
  it_post_decr (It this y) σ = Ok (It this y, It this p) σ.
Proof.
  intros Hrep Hne Hy Hp.
  pose proof (rep_lderef _ _ _ _ Hrep) as Hlo.
  pose proof (rep_this_not_null _ _ _ _ Hrep) as Hthis.
  assert (y ≠ null) as Hyn.
  { eapply live_not_null, (rep_live _ _ _ _ Hrep), Hy. }
  assert (Z.of_nat (length items) ≠ 0)
    by (by rewrite (rep_length_0 _ _ _ _ Hrep)).
  unfold it_pre_decr, it_post_decr; simpl.
  rewrite !(decide_False (P := this = null)) by done.
  rewrite !(decide_False (P := y = null)) by done.
  destruct (decide (y = s)) as [->|Hys]; split; repeat mstep; done.
Qed.

(** At a data node [x] between [A] and [C] (each a data node or the
    sentinel): [++] moves to [C], [--] moves to [A], [*] yields the value
    of [x]; [++] followed by [--] comes back to [x]; [--] followed by
    [++] comes back to [x] unless [x] is the first node, in which case
    the [++] at the end position throws [invalid_iterator]. *)
Theorem iterator_steps σ this s i1 x v i2 :
  rep σ this s (i1 ++ (x, v) :: i2) →
  it_pre_incr (It this x) σ
    = Ok (It this (default s (head i2.*1)), It this (default s (head i2.*1))) σ ∧
  it_pre_decr (It this x) σ
    = Ok (It this (default s (last i1.*1)), It this (default s (last i1.*1))) σ ∧
  it_deref (It this x) σ = Ok v σ ∧
  it_pre_decr (It this (default s (head i2.*1))) σ = Ok (It this x, It this x) σ ∧
  (i1 ≠ [] →
   it_pre_incr (It this (default s (last i1.*1))) σ = Ok (It this x, It this x) σ) ∧
  (i1 = [] →
   it_pre_incr (It this (default s (last i1.*1))) σ = Throw invalid_iterator σ).
Proof.
  intros Hrep.
  pose proof (rep_decompose _ _ _ _ _ _ _ Hrep)
    as (Hpx & Hnx & HnA & HpC & _ & _ & _ & _ & HA & HC & _).
  pose proof (run_incr _ _ _ _ _ _ _ Hrep) as (Hi & _).
  assert (i1 ++ (x, v) :: i2 ≠ []) as Hne by (by destruct i1).
  assert (x ∈ s :: (i1 ++ (x, v) :: i2).*1) as Hx.
  { right. rewrite fmap_app. apply elem_of_app. right. by left. }
  split_and!.
  - done.
  - by apply (run_pre_decr _ _ _ _ _ _ Hrep).
  - apply (run_deref _ _ _ _ _ _ Hrep). apply elem_of_app. right. by left.
  - apply (run_pre_decr _ _ _ _ _ _ Hrep); [done| |done].
    rewrite fmap_app, fmap_cons.
    apply elem_of_app in HC as [HC|HC%list_elem_of_singleton].
    + right. apply elem_of_app. right. by right.
    + rewrite HC. by left.
  - intros Hi1. destruct i1 as [|e i1 _] using rev_ind; [done|].
    destruct e as [a va]. rewrite last_fst_snoc.
    rewrite <-app_assoc in Hrep. simpl in Hrep.
    pose proof (run_incr _ _ _ _ _ _ _ Hrep) as (Hia & _). done.
  - intros ->. simpl. apply (it_incr_end _ _ _ _ Hrep).
Qed.

(** A default-constructed iterator, and any iterator without a node,
    cannot be moved or dereferenced: every operator throws
    [invalid_iterator], in any store, which it leaves unchanged; and so
    does [insert] with it, into whatever container. *)
Theorem null_iterator_operations (σ : state) (o : N) :
  (it_pre_incr (It o null) σ = Throw invalid_iterator σ ∧
   it_post_incr (It o null) σ = Throw invalid_iterator σ ∧
   it_pre_decr (It o null) σ = Throw invalid_iterator σ ∧
   it_post_decr (It o null) σ = Throw invalid_iterator σ ∧
   it_deref (It o null) σ = Throw invalid_iterator σ) ∧
  (cit_pre_incr (CIt o null) σ = Throw invalid_iterator σ ∧
   cit_post_incr (CIt o null) σ = Throw invalid_iterator σ ∧
   cit_pre_decr (CIt o null) σ = Throw invalid_iterator σ ∧
   cit_post_decr (CIt o null) σ = Throw invalid_iterator σ ∧
   cit_deref (CIt o null) σ = Throw invalid_iterator σ) ∧
  ∀ this value,
    insert alloc this (It o null) value σ = Throw invalid_iterator σ.
Proof.
  assert (∀ this value,
            insert alloc this (It o null) value σ = Throw invalid_iterator σ)
    as Hins.
  { intros this value. apply run_insert_invalid. by right. }
  unfold it_pre_incr, it_post_incr, it_pre_decr, it_post_decr, it_deref,
    cit_pre_incr, cit_post_incr, cit_pre_decr, cit_post_decr, cit_deref,
    not_dereferenceable, at_end_or_null; simpl.
  destruct (decide (o = null)); split_and!; done.
Qed.

(** The operators of [const_iterator] are those of [iterator] seen
    through the conversion: same comparison, same value, and the
    comparisons decide equality of owner and node. *)
Theorem const_iterator_mirror (a b : iterator) (σ : state) :
  cit_deref (cit_of_it a) σ = it_deref a σ ∧
  cit_eq (cit_of_it a) (cit_of_it b) = it_eq a b ∧
  (it_eq a b = true ↔ a = b) ∧
  (cit_eq (cit_of_it a) (cit_of_it b) = true ↔ cit_of_it a = cit_of_it b).
Proof.
  destruct a as [oa pa], b as [ob pb].
  unfold cit_deref, it_deref, cit_eq, it_eq, cit_of_it; simpl.
  split_and!; try done.
  - rewrite andb_true_iff, !bool_decide_eq_true. split; [by intros [-> ->]|].
    by intros [= -> ->].
  - rewrite andb_true_iff, !bool_decide_eq_true. split; [by intros [-> ->]|].
    by intros [= -> ->].
Qed.

(** ** Insertion and removal at the ends and in the middle *)

Lemma rep_valid_mono σ σ' this s items items' :
  rep σ this s items → rep σ' this s items' →
  items.*1 ⊆ items'.*1 →
  ∀ y, valid σ (It this y) → valid σ' (It this y).
Proof.
  intros Hrep Hrep' Hsub y.
  rewrite (valid_iff _ _ _ _ _ Hrep), (valid_iff _ _ _ _ _ Hrep').
  rewrite !elem_of_cons. intros [->|Hy]; [by left|right]. by apply Hsub.
Qed.

(** The two neighbours of a position of the ring are nodes of the ring. *)
Lemma ring_ends_in s (i1 i2 : list (N * T)) :
  default s (last i1.*1) ∈ s :: (i1 ++ i2).*1 ∧
  default s (head i2.*1) ∈ s :: (i1 ++ i2).*1.
Proof. clear lt eqb.
  rewrite fmap_app. split.
  - pose proof (default_last_elem_of s i1.*1) as H.
    apply elem_of_cons in H as [->|H]; [by left|].
    right. apply elem_of_app. by left.
  - pose proof (default_head_elem_of s i2.*1) as H.
    apply elem_of_app in H as [H|H].
    + right. apply elem_of_app. by right.
    + apply list_elem_of_singleton in H as ->. by left.
Qed.

(** Linking a new node writes the new node, its two neighbours in the
    ring and the count of [this], and nothing else. *)
Lemma linked_frame σ this s (i1 i2 : list (N * T)) value n' :
  let σ' := linked this (default s (last i1.*1)) (default s (head i2.*1))
              (alloc (nodes σ)) value n' σ in
  (∀ c, c ≠ this → lderef σ' c = lderef σ c) ∧
  (∀ y, y ∉ s :: (i1 ++ i2).*1 → y ≠ alloc (nodes σ) →
        deref σ' y = deref σ y).
Proof using alloc_fresh. clear lt eqb.
  intros σ'. pose proof (ring_ends_in s i1 i2) as [HP Hpos]. split.
  - intros c Hc. by apply lderef_linked.
  - intros y Hy Hcur. apply deref_linked.
    + apply alloc_fresh.
    + by intros ->.
    + by intros ->.
    + done.
Qed.

(** Unlinking a node writes the node, its two neighbours in the ring and
    the count of [this], and nothing else. *)
Lemma unlinked_frame σ this s (i1 : list (N * T)) x (v : T)
    (i2 : list (N * T)) n' :
  let σ' := unlinked this (default s (last i1.*1)) x (default s (head i2.*1))
              n' σ in
  (∀ c, c ≠ this → lderef σ' c = lderef σ c) ∧
  (∀ y, y ∉ s :: (i1 ++ (x, v) :: i2).*1 → deref σ' y = deref σ y).
Proof. clear lt eqb.
  intros σ'. pose proof (ring_ends_in s i1 ((x, v) :: i2)) as [HP _].
  pose proof (ring_ends_in s (i1 ++ [(x, v)]) i2) as [_ HC].
  rewrite <-app_assoc in HC. simpl in HC. split.
  - intros c Hc. by apply lderef_unlinked.
  - intros y Hy. apply deref_unlinked.
    + by intros ->.
    + intros ->. apply Hy. right. rewrite fmap_app. apply elem_of_app.
      right. by left.
    + by intros ->.
Qed.

(** When no other list object and no live node outside the ring of
    [this] has changed, a container whose ring shares no node with that
    ring is as it was, and so are its iterators. *)
Lemma frame_other σ σ' this s items other os oitems :
  (∀ c, c ≠ this → lderef σ' c = lderef σ c) →
  (∀ y, y ∉ s :: items.*1 → is_Some (deref σ y) → deref σ' y = deref σ y) →
  other ≠ this → rep σ other os oitems →
  (∀ y, y ∈ s :: items.*1 → y ∉ os :: oitems.*1) →
  rep σ' other os oitems ∧
  (∀ y, y ∈ os :: oitems.*1 → deref σ' y = deref σ y) ∧
  (∀ y, valid σ (It other y) ↔ valid σ' (It other y)).
Proof. clear lt eqb alloc_fresh alloc.
  intros Hl Hd Hne Hrepo Hdisj.
  assert (∀ y, y ∈ os :: oitems.*1 → deref σ' y = deref σ y) as Hd'.
  { intros y Hy. apply Hd.
    - intros Hin. by apply (Hdisj y).
    - by apply (rep_live _ _ _ _ Hrepo). }
  assert (rep σ' other os oitems) as Hrepo'.
  { eapply rep_frame; [exact Hrepo|by apply Hl|exact Hd']. }
  split; [exact Hrepo'|]. split; [exact Hd'|].
  intros y. by rewrite (valid_iff _ _ _ _ _ Hrepo), (valid_iff _ _ _ _ _ Hrepo').
Qed.

(** [insert(pos, value)] at a position of the container links a new node
    with the value before [pos] and returns its position: the node is one
    that was not live before, dereferencing the returned iterator gives
    the value and incrementing it gives [pos]; every iterator of the
    container that was valid stays valid.  Nothing else is touched: every
    other list object and every node outside the ring, the new one apart,
    is as it was, so that a container whose ring shares no node with this
    one keeps its sequence, its count and its valid iterators.  With
    another container's iterator or a null one [insert] throws
    [invalid_iterator] and changes nothing. *)
Theorem insert_spec σ this s i1 i2 value :
  rep σ this s (i1 ++ i2) →
  Z.of_nat (length (i1 ++ i2)) + 1 < size_max →
  (∃ σ' x,
     insert alloc this (It this (default s (head i2.*1))) value σ
       = Ok (It this x) σ' ∧
     deref σ x = None ∧
     rep σ' this s (i1 ++ (x, value) :: i2) ∧
     it_deref (It this x) σ' = Ok value σ' ∧
     it_pre_incr (It this x) σ'
       = Ok (It this (default s (head i2.*1)),
             It this (default s (head i2.*1))) σ' ∧
     (∀ y, valid σ (It this y) → valid σ' (It this y)) ∧
     (∀ c, c ≠ this → lderef σ' c = lderef σ c) ∧
     (∀ y, y ∉ s :: (i1 ++ i2).*1 → y ≠ x → deref σ' y = deref σ y) ∧
     (∀ other os oitems,
        other ≠ this → rep σ other os oitems →
        (∀ y, y ∈ s :: (i1 ++ i2).*1 → y ∉ os :: oitems.*1) →
        rep σ' other os oitems ∧
        (∀ y, y ∈ os :: oitems.*1 → deref σ' y = deref σ y) ∧
        (∀ y, valid σ (It other y) ↔ valid σ' (It other y)))) ∧
  (∀ pos, it_owner pos ≠ this ∨ it_p pos = null →
     insert alloc this pos value σ = Throw invalid_iterator σ).
Proof using alloc_fresh.
  clear lt eqb.
  intros Hrep Hsz. split; [|intros pos; apply run_insert_invalid].
  pose proof (run_insert _ _ _ _ _ value Hrep Hsz) as Hrun.
  pose proof (rep_linked _ _ _ _ _ value Hrep Hsz) as Hrep'.
  pose proof (linked_frame σ this s i1 i2 value
                (Z.of_nat (length (i1 ++ i2)) + 1)) as [Hfl Hfd].
  simpl in Hrun, Hrep', Hfl, Hfd.
  eexists _, _. split; [exact Hrun|]. split; [apply alloc_dead|].
  split; [exact Hrep'|]. split_and!.
  - apply (run_deref _ _ _ _ _ _ Hrep'). apply elem_of_app. right. by left.
  - apply (run_incr _ _ _ _ _ _ _ Hrep').
  - apply (rep_valid_mono _ _ _ _ _ _ Hrep Hrep').
    rewrite !fmap_app, fmap_cons. intros y. rewrite !elem_of_app, elem_of_cons.
    tauto.
  - exact Hfl.
  - exact Hfd.
  - intros other os oitems Hne Hrepo Hdisj.
    apply (frame_other σ _ this s (i1 ++ i2)); [exact Hfl| |done..].
    intros y Hy Hlive. apply Hfd; [done|by apply alloc_not_live].
Qed.

(** [push_back(value)] appends a new node with the value; afterwards
    [back()] is the value, the count is one more, the nodes that were
    there keep their place, and every valid iterator of the container
    stays valid.  Nothing else is touched: every other list object and
    every node outside the ring, the new one apart, is as it was, so
    that a container whose ring shares no node with this one keeps its
    sequence, its count and its valid iterators. *)
Theorem push_back_spec σ this s items value :
  rep σ this s items →
  Z.of_nat (length items) + 1 < size_max →
  ∃ σ' x,
    push_back alloc this value σ = Ok tt σ' ∧
    deref σ x = None ∧
    rep σ' this s (items ++ [(x, value)]) ∧
    back this σ' = Ok value σ' ∧
    size_ this σ' = Ok (Z.of_nat (length items) + 1) σ' ∧
    (∀ y, valid σ (It this y) → valid σ' (It this y)) ∧
    (∀ c, c ≠ this → lderef σ' c = lderef σ c) ∧
    (∀ y, y ∉ s :: items.*1 → y ≠ x → deref σ' y = deref σ y) ∧
    (∀ other os oitems,
       other ≠ this → rep σ other os oitems →
       (∀ y, y ∈ s :: items.*1 → y ∉ os :: oitems.*1) →
       rep σ' other os oitems ∧
       (∀ y, y ∈ os :: oitems.*1 → deref σ' y = deref σ y) ∧
       (∀ y, valid σ (It other y) ↔ valid σ' (It other y))).
Proof using alloc_fresh.
  intros Hrep Hsz.
  pose proof (run_push_back _ _ _ _ value Hrep Hsz) as Hrun.
  pose proof (rep_linked σ this s items [] value) as Hrep'.
  rewrite app_nil_r in Hrep'. specialize (Hrep' Hrep Hsz). simpl in Hrep'.
  pose proof (linked_frame σ this s items [] value
                (Z.of_nat (length items) + 1)) as Hfr.
  rewrite app_nil_r in Hfr. simpl in Hfr. destruct Hfr as [Hfl Hfd].
  eexists _, _. split; [exact Hrun|]. split; [apply alloc_dead|].
  split; [exact Hrep'|]. split_and!.
  - by eapply run_back.
  - unfold size_, get_n. rewrite (rep_lderef _ _ _ _ Hrep'). simpl.
    do 2 f_equal. rewrite length_app. simpl. lia.
  - apply (rep_valid_mono _ _ _ _ _ _ Hrep Hrep').
    rewrite fmap_app. intros y Hy. apply elem_of_app. by left.
  - exact Hfl.
  - exact Hfd.
  - intros other os oitems Hne Hrepo Hdisj.
    apply (frame_other σ _ this s items); [exact Hfl| |done..].
    intros y Hy Hlive. apply Hfd; [done|by apply alloc_not_live].
Qed.

(** [push_front(value)] puts a new node with the value first; afterwards
    [front()] is the value, the count is one more, the nodes that were
    there keep their place, and every valid iterator of the container
    stays valid.  Nothing else is touched: every other list object and
    every node outside the ring, the new one apart, is as it was, so
    that a container whose ring shares no node with this one keeps its
    sequence, its count and its valid iterators. *)
Theorem push_front_spec σ this s items value :
  rep σ this s items →
  Z.of_nat (length items) + 1 < size_max →
  ∃ σ' x,
    push_front alloc this value σ = Ok tt σ' ∧
    deref σ x = None ∧
    rep σ' this s ((x, value) :: items) ∧
    front this σ' = Ok value σ' ∧
    size_ this σ' = Ok (Z.of_nat (length items) + 1) σ' ∧
    (∀ y, valid σ (It this y) → valid σ' (It this y)) ∧
    (∀ c, c ≠ this → lderef σ' c = lderef σ c) ∧
    (∀ y, y ∉ s :: items.*1 → y ≠ x → deref σ' y = deref σ y) ∧
    (∀ other os oitems,
       other ≠ this → rep σ other os oitems →
       (∀ y, y ∈ s :: items.*1 → y ∉ os :: oitems.*1) →
       rep σ' other os oitems ∧
       (∀ y, y ∈ os :: oitems.*1 → deref σ' y = deref σ y) ∧
       (∀ y, valid σ (It other y) ↔ valid σ' (It other y))).
Proof using alloc_fresh.
  intros Hrep Hsz.
  pose proof (run_push_front _ _ _ _ value Hrep Hsz) as Hrun.
  pose proof (rep_linked σ this s [] items value Hrep Hsz) as Hrep'.
  pose proof (linked_frame σ this s [] items value
                (Z.of_nat (length items) + 1)) as [Hfl Hfd].
  simpl in Hrep', Hfl, Hfd.
  eexists _, _. split; [exact Hrun|]. split; [apply alloc_dead|].
  split; [exact Hrep'|]. split_and!.
  - by eapply run_front.
  - unfold size_, get_n. rewrite (rep_lderef _ _ _ _ Hrep'). simpl.
    do 2 f_equal. lia.
  - apply (rep_valid_mono _ _ _ _ _ _ Hrep Hrep').
    rewrite fmap_cons. intros y Hy. by right.
  - exact Hfl.
  - exact Hfd.
  - intros other os oitems Hne Hrepo Hdisj.
    apply (frame_other σ _ this s items); [exact Hfl| |done..].
    intros y Hy Hlive. apply Hfd; [done|by apply alloc_not_live].
Qed.

(** [pop_back()] and [pop_front()] throw [container_is_empty] on an
    empty container; otherwise they unlink and destroy the last and the
    first data node and leave the others in place, with the iterators
    that denote them.  Nothing else is touched: every other list object
    and every node outside the ring is as it was, so that a container
    whose ring shares no node with this one keeps its sequence, its
    count and its valid iterators. *)
Theorem pop_spec σ this s items :
  rep σ this s items →
  (items = [] →
     pop_back this σ = Throw container_is_empty σ ∧
     pop_front this σ = Throw container_is_empty σ) ∧
  (∀ rest x v, items = rest ++ [(x, v)] →
     ∃ σ', pop_back this σ = Ok tt σ' ∧ rep σ' this s rest ∧
           deref σ' x = None ∧
           (∀ y, y ≠ x → valid σ (It this y) → valid σ' (It this y)) ∧
           (∀ c, c ≠ this → lderef σ' c = lderef σ c) ∧
           (∀ y, y ∉ s :: items.*1 → deref σ' y = deref σ y) ∧
           (∀ other os oitems,
              other ≠ this → rep σ other os oitems →
              (∀ y, y ∈ s :: items.*1 → y ∉ os :: oitems.*1) →
              rep σ' other os oitems ∧
              (∀ y, y ∈ os :: oitems.*1 → deref σ' y = deref σ y) ∧
              (∀ y, valid σ (It other y) ↔ valid σ' (It other y)))) ∧
  (∀ rest x v, items = (x, v) :: rest →
     ∃ σ', pop_front this σ = Ok tt σ' ∧ rep σ' this s rest ∧
           deref σ' x = None ∧
           (∀ y, y ≠ x → valid σ (It this y) → valid σ' (It this y)) ∧
           (∀ c, c ≠ this → lderef σ' c = lderef σ c) ∧
           (∀ y, y ∉ s :: items.*1 → deref σ' y = deref σ y) ∧
           (∀ other os oitems,
              other ≠ this → rep σ other os oitems →
              (∀ y, y ∈ s :: items.*1 → y ∉ os :: oitems.*1) →
              rep σ' other os oitems ∧
              (∀ y, y ∈ os :: oitems.*1 → deref σ' y = deref σ y) ∧
              (∀ y, valid σ (It other y) ↔ valid σ' (It other y)))).
Proof.
  clear lt eqb alloc_fresh alloc.
  intros Hrep. split_and!.
  - intros ->. by apply (run_pop_empty _ _ s).
  - intros rest x v ->.
    pose proof (run_pop_back _ _ _ _ _ _ Hrep) as Hrun.
    pose proof (rep_unlinked _ _ _ rest x v [] Hrep) as Hrep'.
    pose proof (unlinked_frame σ this s rest x v []
                  (Z.of_nat (length rest))) as [Hfl Hfd].
    rewrite app_nil_r in Hrep'. simpl in Hrep', Hfl, Hfd.
    eexists. split; [exact Hrun|]. split; [exact Hrep'|].
    split; [apply deref_unlinked_dead|]. split_and!.
    + intros y Hy.
      rewrite (valid_iff _ _ _ _ _ Hrep), (valid_iff _ _ _ _ _ Hrep').
      rewrite fmap_app, !elem_of_cons, elem_of_app. simpl.
      rewrite list_elem_of_singleton. tauto.
    + exact Hfl.
    + exact Hfd.
    + intros other os oitems Hne Hrepo Hdisj.
      apply (frame_other σ _ this s (rest ++ [(x, v)])); [exact Hfl| |done..].
      intros y Hy _. by apply Hfd.
  - intros rest x v ->.
    pose proof (run_pop_front _ _ _ _ _ _ Hrep) as Hrun.
    pose proof (rep_unlinked _ _ _ [] x v rest Hrep) as Hrep'.
    pose proof (unlinked_frame σ this s [] x v rest
                  (Z.of_nat (length rest))) as [Hfl Hfd].
    simpl in Hrep', Hfl, Hfd.
    eexists. split; [exact Hrun|]. split; [exact Hrep'|].
    split; [apply deref_unlinked_dead|]. split_and!.
    + intros y Hy.
      rewrite (valid_iff _ _ _ _ _ Hrep), (valid_iff _ _ _ _ _ Hrep').
      rewrite fmap_cons, !elem_of_cons. simpl. tauto.
    + exact Hfl.
    + exact Hfd.
    + intros other os oitems Hne Hrepo Hdisj.
      apply (frame_other σ _ this s ((x, v) :: rest)); [exact Hfl| |done..].
      intros y Hy _. by apply Hfd.
Qed.

(** [push_back(value)] followed by [pop_back()] gives back the very
    store it started from: the new node is unlinked and destroyed, and
    links and count are as before. *)
Theorem push_back_pop_back σ this s items value :
  rep σ this s items →
  Z.of_nat (length items) + 1 < size_max →
  (push_back alloc this value;; pop_back this) σ = Ok tt σ.
Proof using alloc_fresh.
  intros Hrep Hsz.
  pose proof (run_push_back _ _ _ _ value Hrep Hsz) as Hrun.
  pose proof (rep_linked σ this s items [] value) as Hrep'.
  rewrite app_nil_r in Hrep'. specialize (Hrep' Hrep Hsz). simpl in Hrep'.
  pose proof (run_pop_back _ _ _ _ _ _ Hrep') as Hpop.
  eapply run_bind_eq; [exact Hrun|]. rewrite Hpop. f_equal.
  pose proof (rep_last _ _ _ _ Hrep) as Hl.
  pose proof (rep_link_at σ this s items []) as [HnP HpS].
  { by rewrite app_nil_r. }
  simpl in HnP, HpS.
  pose proof (alloc_fresh (nodes σ)) as [Hcn Hcf].
  pose proof (rep_lderef _ _ _ _ Hrep) as Hlo.
  pose proof (rep_this_not_null _ _ _ _ Hrep) as Hthis.
  set (P := default s (last items.*1)) in *.
  set (cur := alloc (nodes σ)) in *.
  assert (is_Some (deref σ P)) as HlP by (unfold nxt in HnP; by destruct (deref σ P)).
  assert (is_Some (deref σ s)) as Hls by (unfold prv in HpS; by destruct (deref σ s)).
  assert (P ≠ cur) as HPc by (by apply alloc_not_live).
  assert (s ≠ cur) as Hsc by (by apply alloc_not_live).
  assert (P ≠ null) as HPn by (by eapply live_not_null).
  assert (s ≠ null) as Hsn by (by eapply live_not_null).
  unfold nxt, deref in HnP. rewrite decide_False in HnP by done.
  unfold prv, deref in HpS. rewrite decide_False in HpS by done.
  unfold lderef in Hlo. rewrite decide_False in Hlo by done.
  assert (∃ pp pv, nodes σ !! P = Some (Node pp s pv)) as (pp & pv & EP).
  { destruct (nodes σ !! P) as [[? ? ?]|]; simplify_eq/=; eauto. }
  assert (∃ sn sv, nodes σ !! s = Some (Node P sn sv)) as (sn & sv & ES).
  { destruct (nodes σ !! s) as [[? ? ?]|]; simplify_eq/=; eauto. }
  clear HlP Hls Hl Hrep Hrep' Hrun Hpop HnP HpS.
  clearbody P cur.
  apply state_eq.
  - unfold unlinked, linked, upd_n, free_node, upd_prev, upd_next, upd_node,
      put_node; simpl.
    apply map_eq. intros y.
    destruct (decide (y = cur)) as [->|Hy].
    { rewrite lookup_delete, decide_True by done. by rewrite Hcf. }
    rewrite lookup_delete_ne by done.
    destruct (decide (y = s)) as [->|Hys]; [destruct (decide (P = s)) as [->|HPs]|
      destruct (decide (y = P)) as [->|HyP]].
    + repeat first [rewrite lookup_alter_eq
                   |rewrite lookup_alter_ne by done
                   |rewrite lookup_insert_ne by done].
      rewrite ES. rewrite ES in EP. by injection EP as -> -> ->.
    + repeat first [rewrite lookup_alter_eq
                   |rewrite lookup_alter_ne by done
                   |rewrite lookup_insert_ne by done].
      by rewrite ES.
    + repeat first [rewrite lookup_alter_eq
                   |rewrite lookup_alter_ne by done
                   |rewrite lookup_insert_ne by done].
      by rewrite EP.
    + repeat first [rewrite lookup_alter_eq
                   |rewrite lookup_alter_ne by done
                   |rewrite lookup_insert_ne by done].
      done.
  - unfold unlinked, linked, upd_n, free_node, upd_prev, upd_next, upd_node,
      put_node; simpl.
    apply map_eq. intros c.
    destruct (decide (c = this)) as [->|Hc].
    + rewrite !lookup_alter_eq, Hlo. done.
    + by rewrite !lookup_alter_ne by done.
Qed.

(** ** [clear], copying and destruction *)

(** [clear()] destroys every data node, leaves the ring of the sentinel
    alone with count zero, and touches nothing outside the container. *)
Theorem clear_spec σ this s items :
  rep σ this s items →
  ∃ σ',
    clear this σ = Ok tt σ' ∧
    rep σ' this s [] ∧
    empty this σ' = Ok true σ' ∧
    (∀ y, y ∈ items.*1 → deref σ' y = None) ∧
    (∀ y, y ∉ s :: items.*1 → deref σ' y = deref σ y) ∧
    (∀ c, c ≠ this → lderef σ' c = lderef σ c).
Proof.
  clear lt eqb alloc_fresh alloc.
  intros Hrep.
  pose proof (rep_cleared _ _ _ _ Hrep) as Hrep'.
  pose proof (rep_nodup _ _ _ _ Hrep) as Hnd.
  exists (cleared this s items.*1 σ).
  split; [by apply run_clear|]. split; [done|]. split_and!.
  - unfold empty. pose proof (rep_lderef _ _ _ _ Hrep') as Hlo.
    by mstep.
  - intros y Hy. rewrite deref_cleared.
    + by rewrite decide_True.
    + intros ->. by apply NoDup_cons in Hnd as [? _].
  - intros y Hy. rewrite deref_cleared.
    + rewrite decide_False; [done|]. intros ?. apply Hy. by right.
    + intros ->. apply Hy. by left.
  - intros c Hc. by apply lderef_cleared.
Qed.

(** The copy constructor builds a container with the same values in
    the same order, on nodes that were not live before, and leaves the
    source as it was. *)
Theorem copy_ctor_spec σ this other os oitems :
  this ≠ null → this ≠ other →
  rep σ other os oitems →
  ∃ σ' s new,
    list_copy_ctor alloc this other σ = Ok tt σ' ∧
    rep σ' this s new ∧
    new.*2 = oitems.*2 ∧
    rep σ' other os oitems ∧
    (∀ y, y ∈ s :: new.*1 → deref σ y = None) ∧
    (∀ y, is_Some (deref σ y) → deref σ' y = deref σ y) ∧
    size_ this σ' = size_ other σ'.
Proof using alloc_fresh.
  intros Hthis Hne Hother.
  destruct (run_list_copy_ctor σ this other os oitems Hthis Hne Hother)
    as (σ' & s & new & Hrun & Hrep1 & Hval & Hrep2 & Hfresh & Hkeep & _).
  exists σ', s, new. split_and!; try done.
  unfold size_, get_n.
  rewrite (rep_lderef _ _ _ _ Hrep1), (rep_lderef _ _ _ _ Hrep2). simpl.
  do 2 f_equal. apply (f_equal length) in Hval.
  rewrite !length_fmap in Hval. lia.
Qed.

(** [operator=]: assigning a container to itself changes nothing;
    assigning another one destroys the old data nodes and copies the
    values of the source, which stays as it was. *)
Theorem assign_spec σ this s items other os oitems :
  rep σ this s items → rep σ other os oitems →
  (∀ y, y ∈ s :: items.*1 → y ∉ os :: oitems.*1) →
  assign alloc this this σ = Ok tt σ ∧
  (this ≠ other →
   ∃ σ' new,
     assign alloc this other σ = Ok tt σ' ∧
     rep σ' this s new ∧
     new.*2 = oitems.*2 ∧
     rep σ' other os oitems).
Proof using alloc_fresh.
  intros Hthis Hother Hdisj. split; [apply run_assign_self|].
  intros Hne.
  destruct (run_assign σ this s items other os oitems Hne Hthis Hother Hdisj)
    as (σ' & new & Hrun & Hrep1 & Hval & Hrep2 & _).
  by exists σ', new.
Qed.

(** ** [sort] and [merge] without assumptions on the order *)

(** Whatever the comparison, [sort()] returns normally and only
    reorders: the ring holds the same nodes, each once, in the order
    the merge passes give; count, values and everything outside the
    ring are unchanged. *)
Theorem sort_any_comparison σ this s items :
  rep σ this s items →
  3 * Z.of_nat (length items) < size_max →
  ∃ σ' result,
    sort lt this σ = Ok tt σ' ∧
    rep σ' this s result ∧
    result = bottom_up_sort (lt_item lt) items ∧
    result ≡ₚ items ∧
    (∀ y, vl σ' y = vl σ y) ∧
    (∀ c, lderef σ' c = lderef σ c) ∧
    (∀ y, y ∉ s :: items.*1 → deref σ' y = deref σ y).
Proof.
  intros Hrep Hsz.
  destruct (run_sort _ _ _ _ Hrep Hsz) as (σ' & Hrun & Hrep' & Hv & Hl & Hfr).
  exists σ', (bottom_up_sort (lt_item lt) items). split_and!; try done.
  apply bottom_up_sort_perm.
Qed.

(** Whatever the two sequences, [merge] of two distinct containers
    returns normally and moves every node of [other] into [this]: the
    result is the merge in which an element of [other] goes before the
    first element of [this] it is less than; [other] is left empty; into
    an empty [this] the sequence of [other] is moved as it is. *)
Theorem merge_any_order σ this s other os l1 l2 :
  this ≠ other →
  rep σ this s l1 → rep σ other os l2 →
  (∀ z, z ∈ s :: l1.*1 → z ∉ os :: l2.*1) →
  Z.of_nat (length l1 + length l2) < size_max →
  ∃ σ' result,
    merge lt this other σ = Ok tt σ' ∧
    rep σ' this s result ∧
    rep σ' other os [] ∧
    result = merge_list (lt_item lt) l1 l2 ∧
    result ≡ₚ l1 ++ l2 ∧
    (l1 = [] → result = l2) ∧
    (∀ y, vl σ' y = vl σ y) ∧
    (∀ y, y ∉ s :: l1.*1 → y ∉ os :: l2.*1 → deref σ' y = deref σ y).
Proof.
  intros Hne Hthis Hother Hdisj Hsz.
  destruct (run_merge _ _ _ _ _ _ _ Hne Hthis Hother Hdisj Hsz)
    as (σ' & Hrun & Hrep1 & Hrep2 & Hv & Hfr & _).
  exists σ', (merge_list (lt_item lt) l1 l2). split_and!; try done.
  - apply merge_list_perm.
  - intros ->. apply merge_list_nil_l.
Qed.

(** ** [reverse] and the two ends *)

(** After [reverse()], [front()] is what [back()] was and [back()] is
    what [front()] was. *)
Theorem reverse_swaps_ends σ this s items :
  rep σ this s items → items ≠ [] →
  ∃ σ' vf vb,
    reverse this σ = Ok tt σ' ∧
    front this σ = Ok vf σ ∧ back this σ = Ok vb σ ∧
    front this σ' = Ok vb σ' ∧ back this σ' = Ok vf σ'.
Proof.
  clear lt eqb alloc_fresh alloc.
  intros Hrep Hne.
  destruct (run_reverse_twice _ _ _ _ Hrep) as (σ' & Hrun & Hrep' & _).
  destruct items as [|[x v] rest]; [done|].
  destruct (last ((x, v) :: rest)) as [[y w]|] eqn:El;
    [|by apply last_None in El].
  apply last_Some in El as (front' & El).
  exists σ', v, w. split_and!; try done.
  - by eapply run_front.
  - rewrite El in Hrep. by eapply run_back.
  - rewrite El, rev_app_distr in Hrep'. simpl in Hrep'. by eapply run_front.
  - simpl in Hrep'. by eapply run_back.
Qed.

(** ** Destruction *)

(** The destructor destroys every node of the ring, the sentinel
    included, and the list object; it touches no other node and no
    other list object; using the container afterwards is undefined. *)
Theorem dtor_spec σ this s items :
  rep σ this s items →
  ∃ σ',
    list_dtor this σ = Ok tt σ' ∧
    lderef σ' this = None ∧
    (∀ y, y ∈ s :: items.*1 → deref σ' y = None) ∧
    (∀ y, y ∉ s :: items.*1 → deref σ' y = deref σ y) ∧
    (∀ c, c ≠ this → lderef σ' c = lderef σ c) ∧
    size_ this σ' = Undefined.
Proof.
  clear lt eqb alloc_fresh alloc.
  intros Hrep.
  pose proof (rep_cleared _ _ _ _ Hrep) as Hrep1.
  pose proof (rep_nodup _ _ _ _ Hrep) as Hnd.
  pose proof (rep_this_not_null _ _ _ _ Hrep) as Hthis.
  pose proof (rep_lderef _ _ _ _ Hrep1) as Hlo1. simpl in Hlo1.
  assert (is_Some (deref (cleared this s items.*1 σ) s)) as Hls
    by (apply (rep_live _ _ _ _ Hrep1); by left).
  set (σ1 := cleared this s items.*1 σ) in *.
  exists (free_list this (put_list this (LObj null 0) (free_node s σ1))).
  assert (∀ σ0 c, lderef (free_list this σ0) c
                  = if decide (c = this) then None else lderef σ0 c) as Hfl.
  { intros σ0 c. unfold lderef, free_list. simpl.
    destruct (decide (c = null)); [by case_decide|].
    destruct (decide (c = this)) as [->|].
    - by rewrite lookup_delete, decide_True.
    - by rewrite lookup_delete_ne. }
  split_and!.
  - unfold list_dtor.
    eapply run_bind_eq; [by apply run_clear|]. fold σ1.
    mstep.
    eapply run_bind_eq; [by apply run_delete_node|].
    unfold set_s, bind. rewrite lderef_free_node, Hlo1. done.
  - rewrite Hfl. by rewrite decide_True.
  - intros y Hy. change (deref (free_node s σ1) y = None).
    rewrite deref_free_node. case_decide; [done|].
    unfold σ1. rewrite deref_cleared by done.
    rewrite decide_True; [done|].
    apply elem_of_cons in Hy as [?|?]; done.
  - intros y Hy. change (deref (free_node s σ1) y = deref σ y).
    rewrite deref_free_node.
    rewrite decide_False by (intros <-; apply Hy; by left).
    unfold σ1. rewrite deref_cleared by (intros ->; apply Hy; by left).
    rewrite decide_False; [done|]. intros ?. apply Hy. by right.
  - intros c Hc. rewrite Hfl, decide_False by done.
    rewrite lderef_put_list by done. rewrite decide_False by done.
    rewrite lderef_free_node. unfold σ1. by apply lderef_cleared.
  - unfold size_, get_n. rewrite Hfl. by rewrite decide_True.
Qed.

(** Constructing a container where there was none and destroying it at
    once gives back the store as it was. *)
Theorem ctor_dtor_round_trip σ this :
  this ≠ null → lderef σ this = None →
  (list_ctor alloc this;; list_dtor this) σ = Ok tt σ.
Proof using alloc_fresh.
  clear lt eqb.
  intros Hthis Hnone.
  pose proof (rep_list_ctor σ this Hthis) as Hrep.
  pose proof (alloc_fresh (nodes σ)) as [Han Haf].
  set (a := alloc (nodes σ)) in *.
  set (σ0 := put_list this (LObj a 0) (put_node a (Node a a None) σ)) in *.
  pose proof (rep_cleared _ _ _ _ Hrep) as Hrep1.
  pose proof (rep_lderef _ _ _ _ Hrep1) as Hlo1.
  assert (is_Some (deref (cleared this a [] σ0) a)) as Hls
    by (apply (rep_live _ _ _ _ Hrep1); by left).
  eapply run_bind_eq; [apply run_list_ctor|]. fold a. fold σ0.
  unfold list_dtor.
  eapply run_bind_eq; [by apply (run_clear _ _ _ _ Hrep)|].
  change ([].*1) with (@nil N) in *.
  mstep.
  eapply run_bind_eq; [by apply run_delete_node|].
  unfold set_s, bind. rewrite lderef_free_node, Hlo1. f_equal.
  unfold lderef in Hnone. rewrite decide_False in Hnone by done.
  apply state_eq.
  - unfold free_list, put_list, free_node, cleared, upd_next, upd_prev,
      upd_node, σ0, put_list, put_node; simpl.
    apply map_eq. intros y.
    destruct (decide (y = a)) as [->|Hy].
    + rewrite lookup_delete, decide_True by done. by rewrite Haf.
    + rewrite lookup_delete_ne by done.
      rewrite !lookup_alter_ne by done. by rewrite lookup_insert_ne.
  - unfold free_list, put_list, free_node, cleared, upd_next, upd_prev,
      upd_node, σ0, put_list, put_node; simpl.
    apply map_eq. intros c.
    destruct (decide (c = this)) as [->|Hc].
    + rewrite lookup_delete, decide_True by done. by rewrite Hnone.
    + rewrite lookup_delete_ne by done. by rewrite !lookup_insert_ne.
Qed.

(** ** What an operation leaves alone *)

(** An operation on a container changes no other list object and no
    live node outside the ring of the container. *)
Lemma run_op_frame σ this s items o :
  rep σ this s items →
  3 * (Z.of_nat (length items) + 1) < size_max →
  op_ok σ this o →
  ∃ σ',
    (run_op lt eqb alloc this o σ = Ok tt σ' ∨
     ∃ e, run_op lt eqb alloc this o σ = Throw e σ') ∧
    (∀ c, c ≠ this → lderef σ' c = lderef σ c) ∧
    (∀ y, y ∉ s :: items.*1 → is_Some (deref σ y) → deref σ' y = deref σ y).
Proof using alloc_fresh.
  intros Hrep Hsz Hok.
  pose proof (rep_lderef _ _ _ _ Hrep) as Hlo.
  destruct o as [[o p] value|[o p]|value|value| | | | | |]; simpl in *.
  - (* insert *)
    destruct (decide (o ≠ this)) as [|Ho].
    { exists σ. split; [right; exists invalid_iterator|done].
      eapply run_bind_throw, run_insert_invalid. by left. }
    destruct (decide (p = null)) as [|Hp].
    { exists σ. split; [right; exists invalid_iterator|done].
      eapply run_bind_throw, run_insert_invalid. by right. }
    assert (o = this) as -> by (by destruct (decide (o = this))).
    specialize (Hok eq_refl Hp).
    apply (valid_iff _ _ _ _ _ Hrep) in Hok.
    apply ring_position in Hok as (i1 & i2 & -> & ->).
    pose proof (run_insert _ _ _ i1 i2 value Hrep) as Hrun.
    pose proof (linked_frame σ this s i1 i2 value
                  (Z.of_nat (length (i1 ++ i2)) + 1)) as [Hfl Hfd].
    eexists. split; [left|split; [exact Hfl|]].
    + eapply run_bind_eq; [apply Hrun; lia|done].
    + intros y Hy Hlive. apply Hfd; [done|by apply alloc_not_live].
  - (* erase *)
    destruct items as [|e0 items0] eqn:Eitems.
    { exists σ. split; [right; exists container_is_empty|done].
      eapply run_bind_throw, run_erase_empty. done. }
    rewrite <-Eitems in *.
    assert (items ≠ []) as Hne by (by subst items).
    destruct (decide (o ≠ this)) as [|Ho].
    { exists σ. split; [right; exists invalid_iterator|done].
      eapply run_bind_throw, run_erase_invalid; [done|done|by left]. }
    destruct (decide (p = null)) as [|Hp].
    { exists σ. split; [right; exists invalid_iterator|done].
      eapply run_bind_throw, run_erase_invalid; [done|done|right; by left]. }
    assert (o = this) as -> by (by destruct (decide (o = this))).
    destruct (decide (p = s)) as [->|Hps].
    { exists σ. split; [right; exists invalid_iterator|done].
      eapply run_bind_throw, run_erase_invalid; [done|done|right; by right]. }
    specialize (Hok eq_refl Hp).
    apply (valid_iff _ _ _ _ _ Hrep) in Hok.
    apply elem_of_cons in Hok as [?|Hok]; [done|].
    apply list_elem_of_fmap in Hok as ([x v] & -> & Hx).
    apply list_elem_of_split in Hx as (i1 & i2 & Hi).
    rewrite Hi in Hrep. rewrite Hi.
    pose proof (run_erase _ _ _ _ _ _ _ Hrep) as Hrun.
    pose proof (unlinked_frame σ this s i1 x v i2
                  (Z.of_nat (length (i1 ++ i2)))) as [Hfl Hfd].
    eexists. split; [left|split; [exact Hfl|intros y Hy _; by apply Hfd]].
    eapply run_bind_eq; [exact Hrun|done].
  - (* push_back *)
    pose proof (run_push_back _ _ _ _ value Hrep) as Hrun.
    pose proof (linked_frame σ this s items [] value
                  (Z.of_nat (length items) + 1)) as Hfr.
    rewrite app_nil_r in Hfr. simpl in Hfr. destruct Hfr as [Hfl Hfd].
    eexists. split; [left; apply Hrun; lia|]. split; [exact Hfl|].
    intros y Hy Hlive. apply Hfd; [done|by apply alloc_not_live].
  - (* push_front *)
    pose proof (run_push_front _ _ _ _ value Hrep) as Hrun.
    pose proof (linked_frame σ this s [] items value
                  (Z.of_nat (length items) + 1)) as [Hfl Hfd].
    simpl in Hfl, Hfd.
    eexists. split; [left; apply Hrun; lia|]. split; [exact Hfl|].
    intros y Hy Hlive. apply Hfd; [done|by apply alloc_not_live].
  - (* pop_back *)
    destruct items as [|e0 items0 _] using rev_ind.
    { exists σ. split; [right; exists container_is_empty|done].
      apply (run_pop_empty _ _ _ Hrep). }
    destruct e0 as [x v].
    pose proof (run_pop_back _ _ _ _ _ _ Hrep) as Hrun.
    pose proof (unlinked_frame σ this s items0 x v []
                  (Z.of_nat (length items0))) as [Hfl Hfd].
    simpl in Hfl, Hfd.
    eexists. split; [left; exact Hrun|].
    split; [exact Hfl|intros y Hy _; by apply Hfd].
  - (* pop_front *)
    destruct items as [|[x v] items0].
    { exists σ. split; [right; exists container_is_empty|done].
      apply (run_pop_empty _ _ _ Hrep). }
    pose proof (run_pop_front _ _ _ _ _ _ Hrep) as Hrun.
    pose proof (unlinked_frame σ this s [] x v items0
                  (Z.of_nat (length items0))) as [Hfl Hfd].
    simpl in Hfl, Hfd.
    eexists. split; [left; exact Hrun|].
    split; [exact Hfl|intros y Hy _; by apply Hfd].
  - (* clear *)
    eexists. split; [left; by eapply run_clear|]. split.
    + intros c Hc. by apply lderef_cleared.
    + intros y Hy _. rewrite deref_cleared.
      * rewrite decide_False; [done|]. intros Hin. apply Hy. by right.
      * intros ->. apply Hy. by left.
  - (* sort *)
    destruct (run_sort _ _ _ _ Hrep) as (σ' & Hrun & _ & _ & Hl & Hd); [lia|].
    eexists. split; [left; exact Hrun|].
    split; [intros c _; apply Hl|intros y Hy _; by apply Hd].
  - (* reverse *)
    destruct (run_reverse _ _ _ _ Hrep) as (σ' & Hrun & Hl & Hn).
    eexists. split; [left; exact Hrun|]. split.
    + intros c _. unfold lderef. by rewrite Hl.
    + intros y Hy _. unfold deref. case_decide; [done|].
      rewrite Hn. by rewrite (decide_False (P := y ∈ s :: items.*1)).
  - (* unique *)
    destruct (run_unique _ _ _ _ Hrep) as (σ' & Hrun & _ & _ & Hd & _ & Hl).
    eexists. split; [left; exact Hrun|].
    split; [exact Hl|intros y Hy _; by apply Hd].
Qed.

(** An operation on one container, whether it returns or throws, leaves
    every other container as it was: the list object, the nodes of the
    ring with their links and values, hence the sequence and the count,
    and the iterators that are valid.  This holds for two containers
    whose rings share no node, and for [insert] and [erase] when the
    position handed over, if it names this container as its owner and is
    not null, denotes a node of the ring of this container ([op_ok]): an
    iterator whose node [merge] has moved into another container is not
    rejected, and the operation then relinks that other container. *)
Theorem other_container_untouched σ this s items other os oitems o :
  this ≠ other →
  rep σ this s items → rep σ other os oitems →
  (∀ y, y ∈ s :: items.*1 → y ∉ os :: oitems.*1) →
  3 * (Z.of_nat (length items) + 1) < size_max →
  op_ok σ this o →
  ∃ σ',
    (run_op lt eqb alloc this o σ = Ok tt σ' ∨
     ∃ e, run_op lt eqb alloc this o σ = Throw e σ') ∧
    rep σ' other os oitems ∧
    lderef σ' other = lderef σ other ∧
    (∀ y, y ∈ os :: oitems.*1 → deref σ' y = deref σ y) ∧
    (∀ y, valid σ (It other y) ↔ valid σ' (It other y)).
Proof using alloc_fresh.
  intros Hne Hrep Hrepo Hdisj Hsz Hok.
  destruct (run_op_frame _ _ _ _ _ Hrep Hsz Hok) as (σ' & Hrun & Hl & Hd).
  assert (∀ y, y ∈ os :: oitems.*1 → deref σ' y = deref σ y) as Hd'.
  { intros y Hy. apply Hd.
    - intros Hin. by apply (Hdisj y).
    - by apply (rep_live _ _ _ _ Hrepo). }
  assert (rep σ' other os oitems) as Hrepo'.
  { eapply rep_frame; [exact Hrepo|by apply Hl|exact Hd']. }
  exists σ'. split; [exact Hrun|]. split; [exact Hrepo'|].
  split; [by apply Hl|]. split; [exact Hd'|].
  intros y. by rewrite (valid_iff _ _ _ _ _ Hrepo), (valid_iff _ _ _ _ _ Hrepo').
Qed.

(** ** [unique] leaves no equal neighbours *)

Lemma uniq_from_head (p : N * T) l : ∃ r, uniq_from eqb p l = p :: r.
Proof.
  revert p. induction l as [|e l IH]; intros p; simpl; [by exists []|].
  destruct (eqb p.2 e.2); [apply IH|by eexists].
Qed.

Lemma uniq_from_neighbours (p : N * T) l i1 e1 e2 i2 :
  uniq_from eqb p l = i1 ++ e1 :: e2 :: i2 → eqb e1.2 e2.2 = false.
Proof.
  revert p i1. induction l as [|e l IH]; intros p i1; simpl.
  - destruct i1 as [|? [|? ?]]; discriminate.
  - destruct (eqb p.2 e.2) eqn:E; [apply IH|].
    destruct i1 as [|x i1]; simpl.
    + destruct (uniq_from_head e l) as (r & ->). by intros [= <- <- _].
    + intros [= _ H]. by apply (IH e i1).
Qed.

Lemma unique_list_neighbours l i1 e1 e2 i2 :
  unique_list eqb l = i1 ++ e1 :: e2 :: i2 → eqb e1.2 e2.2 = false.
Proof.
  destruct l as [|p l]; simpl; [|apply uniq_from_neighbours].
  destruct i1; discriminate.
Qed.

Lemma unique_list_fixed (l : list (N * T)) :
  (∀ i1 e1 e2 i2, l = i1 ++ e1 :: e2 :: i2 → eqb e1.2 e2.2 = false) →
  unique_list eqb l = l.
Proof.
  destruct l as [|p l]; [done|]. simpl. revert p.
  induction l as [|e l IH]; intros p Hl; simpl; [done|].
  rewrite (Hl [] p e l eq_refl). f_equal. apply IH.
  intros i1 e1 e2 i2 Heq. apply (Hl (p :: i1) e1 e2 i2). by rewrite Heq.
Qed.

(** After [unique()] no two neighbours hold equal values, whatever [==]
    is, and a second [unique()] removes nothing: it returns normally
    and the ring holds the same nodes in the same order. *)
Theorem unique_idempotent σ this s items :
  rep σ this s items →
  ∃ σ' σ'' result,
    unique eqb this σ = Ok tt σ' ∧
    rep σ' this s result ∧
    result = unique_list eqb items ∧
    (∀ i1 e1 e2 i2, result = i1 ++ e1 :: e2 :: i2 → eqb e1.2 e2.2 = false) ∧
    unique eqb this σ' = Ok tt σ'' ∧
    rep σ'' this s result ∧
    (∀ y, is_Some (deref σ' y) → is_Some (deref σ'' y)).
Proof.
  intros Hrep.
  destruct (run_unique _ _ _ _ Hrep) as (σ' & Hrun & Hrep' & _).
  destruct (run_unique _ _ _ _ Hrep')
    as (σ'' & Hrun' & Hrep'' & _ & Hout & _ & _).
  pose proof (unique_list_neighbours items) as Hnb.
  rewrite (unique_list_fixed _ Hnb) in Hrep''.
  exists σ', σ'', (unique_list eqb items).
  split; [exact Hrun|]. split; [exact Hrep'|]. split; [done|].
  split; [exact Hnb|].
  split; [exact Hrun'|]. split; [exact Hrep''|].
  intros y Hy. destruct (decide (y ∈ s :: (unique_list eqb items).*1)) as [Hin|Hin].
  - by apply (rep_live _ _ _ _ Hrep'').
  - by rewrite Hout.
Qed.

(** ** Inserting a node and erasing it again *)

(** Unlinking the node that has just been linked between [P] and [pos]
    gives back the store. *)
Lemma unlinked_linked σ this s n P pos cur value n' :
  lderef σ this = Some (LObj s n) →
  link σ P pos →
  cur ≠ null → nodes σ !! cur = None →
  unlinked this P cur pos n (linked this P pos cur value n' σ) = σ.
Proof. clear lt eqb alloc_fresh alloc.
  intros Hlo [HnP HpS] Hcn Hcf.
  assert (is_Some (deref σ P)) as HlP
    by (unfold nxt in HnP; by destruct (deref σ P)).
  assert (is_Some (deref σ pos)) as Hls
    by (unfold prv in HpS; by destruct (deref σ pos)).
  assert (P ≠ cur) as HPc.
  { intros ->. apply live_lookup in HlP. rewrite Hcf in HlP. by destruct HlP. }
  assert (pos ≠ cur) as Hsc.
  { intros ->. apply live_lookup in Hls. rewrite Hcf in Hls. by destruct Hls. }
  assert (P ≠ null) as HPn by (by eapply live_not_null).
  assert (pos ≠ null) as Hsn by (by eapply live_not_null).
  assert (this ≠ null) as Hthis.
  { intros ->. unfold lderef in Hlo. by rewrite decide_True in Hlo. }
  unfold nxt, deref in HnP. rewrite decide_False in HnP by done.
  unfold prv, deref in HpS. rewrite decide_False in HpS by done.
  unfold lderef in Hlo. rewrite decide_False in Hlo by done.
  assert (∃ pp pv, nodes σ !! P = Some (Node pp pos pv)) as (pp & pv & EP).
  { destruct (nodes σ !! P) as [[? ? ?]|]; simplify_eq/=; eauto. }
  assert (∃ sn sv, nodes σ !! pos = Some (Node P sn sv)) as (sn & sv & ES).
  { destruct (nodes σ !! pos) as [[? ? ?]|]; simplify_eq/=; eauto. }
  clear HlP Hls HnP HpS.
  apply state_eq.
  - unfold unlinked, linked, upd_n, free_node, upd_prev, upd_next, upd_node,
      put_node; simpl.
    apply map_eq. intros y.
    destruct (decide (y = cur)) as [->|Hy].
    { rewrite lookup_delete, decide_True by done. by rewrite Hcf. }
    rewrite lookup_delete_ne by done.
    destruct (decide (y = pos)) as [->|Hys];
      [destruct (decide (P = pos)) as [->|HPs]|
       destruct (decide (y = P)) as [->|HyP]].
    + repeat first [rewrite lookup_alter_eq
                   |rewrite lookup_alter_ne by done
                   |rewrite lookup_insert_ne by done].
      rewrite ES. rewrite ES in EP. by injection EP as -> -> ->.
    + repeat first [rewrite lookup_alter_eq
                   |rewrite lookup_alter_ne by done
                   |rewrite lookup_insert_ne by done].
      by rewrite ES.
    + repeat first [rewrite lookup_alter_eq
                   |rewrite lookup_alter_ne by done
                   |rewrite lookup_insert_ne by done].
      by rewrite EP.
    + repeat first [rewrite lookup_alter_eq
                   |rewrite lookup_alter_ne by done
                   |rewrite lookup_insert_ne by done].
      done.
  - unfold unlinked, linked, upd_n, free_node, upd_prev, upd_next, upd_node,
      put_node; simpl.
    apply map_eq. intros c.
    destruct (decide (c = this)) as [->|Hc].
    + rewrite !lookup_alter_eq, Hlo. done.
    + by rewrite !lookup_alter_ne by done.
Qed.

(** [insert(pos, value)] followed by [erase] of the iterator it returned
    gives back [pos] and the very store it started from: the new node is
    unlinked and destroyed, and links and count are as before.  The same
    holds for [push_front] followed by [pop_front]. *)
Theorem insert_erase_round_trip σ this s i1 i2 value :
  rep σ this s (i1 ++ i2) →
  Z.of_nat (length (i1 ++ i2)) + 1 < size_max →
  (do it <- insert alloc this (It this (default s (head i2.*1))) value;
   erase this it) σ
  = Ok (It this (default s (head i2.*1))) σ ∧
  (i1 = [] → (push_front alloc this value;; pop_front this) σ = Ok tt σ).
Proof using alloc_fresh.
  intros Hrep Hsz.
  pose proof (run_insert _ _ _ i1 i2 value Hrep Hsz) as Hrun.
  pose proof (rep_linked _ _ _ i1 i2 value Hrep Hsz) as Hrep'.
  simpl in Hrun, Hrep'.
  pose proof (run_erase _ _ _ _ _ _ _ Hrep') as Herase.
  pose proof (alloc_fresh (nodes σ)) as [Hcn Hcf].
  pose proof (rep_lderef _ _ _ _ Hrep) as Hlo.
  pose proof (rep_link_at _ _ _ _ _ Hrep) as Hlink.
  pose proof (unlinked_linked σ this s _ _ _ _ value
                (Z.of_nat (length (i1 ++ i2)) + 1) Hlo Hlink Hcn Hcf) as Heq.
  split.
  - eapply run_bind_eq; [exact Hrun|]. rewrite Herase. by rewrite Heq.
  - intros ->. simpl in *.
    pose proof (run_push_front _ _ _ _ value Hrep Hsz) as Hpf.
    pose proof (run_pop_front _ _ _ _ _ _ Hrep') as Hpop.
    eapply run_bind_eq; [exact Hpf|]. rewrite Hpop. by rewrite Heq.
Qed.

End Proofs.

(** * The allocator and the comparisons of the concrete stores

    [alloc_above] returns storage that holds no live node, [Z.ltb] is a
    strict weak order and [Z.eqb] an equivalence. *)

Lemma alloc_above_fresh {T} (h : gmap N (node T)) :
  alloc_above h ≠ null ∧ h !! alloc_above h = None.
Proof.
  unfold alloc_above, null. split; [lia|].
  assert (∀ k v, h !! k = Some v →
            (k ≤ map_fold (λ k _ acc, N.max k acc) 0%N h)%N) as Hmax.
  { apply (map_fold_weak_ind
             (λ r (m : gmap N (node T)), ∀ k v, m !! k = Some v → (k ≤ r)%N)).
    - intros k v. by rewrite lookup_empty.
    - intros i x m r Hi IH k v Hk.
      destruct (decide (i = k)) as [->|Hne].
      + lia.
      + rewrite lookup_insert_ne in Hk by done. specialize (IH k v Hk). lia. }
  destruct (h !! N.succ _) as [v|] eqn:E; [|done].
  apply Hmax in E. lia.
Qed.

Lemma Z_ltb_le_trans (a b c : Z) :
  (b <? a) = false → (c <? b) = false → (c <? a) = false.
Proof. rewrite !Z.ltb_ge. lia. Qed.

Lemma Z_ltb_asym (a b : Z) : (a <? b) = true → (b <? a) = false.
Proof. rewrite Z.ltb_lt, Z.ltb_ge. lia. Qed.

Lemma Z_eqb_equiv (u v w : Z) : (u =? v) = true → (u =? w) = (v =? w).
Proof. by intros ->%Z.eqb_eq. Qed.

(** [rep] of a concrete store is decided by evaluation. *)
Ltac rep_tac :=
  refine (@bool_decide_unpack _ (rep_dec _ _ _ _) _); vm_compute; exact I.

Ltac disjoint_tac :=
  apply Forall_forall;
  refine (@bool_decide_unpack _ _ _); vm_compute; exact I.

(** * Instances of the theorems on concrete stores *)

Lemma erase_iterator_stability_witness :
  ∃ σ',
    erase 1 (It 1 3) (built 1 [10; 20; 30] empty_store) = Ok (It 1 4) σ' ∧
    deref σ' 3%N = None ∧
    it_pre_incr (It 1 2) σ' = Ok (It 1 4, It 1 4) σ'.
Proof.
  assert (rep (built 1 [10; 20; 30] empty_store) 1 1
            ([] ++ (2%N, 10) :: (3%N, 20) :: (4%N, 30) :: [])) as Hrep
    by rep_tac.
  destruct (@erase_iterator_stability Z _ _ _ _ _ _ _ _ _ _ _ Hrep)
    as (σ' & H1 & H2 & _ & _ & _ & H3 & _).
  exists σ'. split; [exact H1|]. split; [exact H2|exact H3].
Defined.

Lemma merge_spec_witness :
  ∃ σ',
    merge Z.ltb 1 2 (built 2 [2; 3; 4] (built 1 [1; 3; 5] empty_store))
      = Ok tt σ' ∧
    rep σ' 1 1 [(2%N, 1); (6%N, 2); (3%N, 3); (7%N, 3); (8%N, 4); (4%N, 5)] ∧
    rep σ' 2 5 [].
Proof.
  set (σ := built 2 [2; 3; 4] (built 1 [1; 3; 5] empty_store)).
  assert (rep σ 1 1 [(2%N, 1); (3%N, 3); (4%N, 5)]) as H1 by rep_tac.
  assert (rep σ 2 5 [(6%N, 2); (7%N, 3); (8%N, 4)]) as H2 by rep_tac.
  assert ((1 : N) ≠ 2%N) as Hne by lia.
  assert (∀ z : N, z ∈ 1%N :: [(2%N, 1); (3%N, 3); (4%N, 5)].*1
                   → z ∉ 5%N :: [(6%N, 2); (7%N, 3); (8%N, 4)].*1) as Hd
    by disjoint_tac.
  assert (Z.of_nat (length [(2%N, 1); (3%N, 3); (4%N, 5)]
                    + length [(6%N, 2); (7%N, 3); (8%N, 4)]) < size_max) as Hsz
    by (vm_compute; reflexivity).
  assert (sorted (lt_item Z.ltb) [(2%N, 1); (3%N, 3); (4%N, 5)]) as Hs1
    by (simpl; repeat split; repeat constructor).
  assert (sorted (lt_item Z.ltb) [(6%N, 2); (7%N, 3); (8%N, 4)]) as Hs2
    by (simpl; repeat split; repeat constructor).
  destruct (@merge_spec Z Z.ltb Z_ltb_le_trans Z_ltb_asym σ 1 1 2 5 _ _
              Hne H1 H2 Hd Hsz Hs1 Hs2)
    as (σ' & result & Hrun & Hr1 & Hr2 & Hres & _).
  vm_compute in Hres. subst result.
  exists σ'. split; [exact Hrun|]. split; [exact Hr1|exact Hr2].
Defined.

Lemma sort_spec_witness :
  ∃ σ',
    sort Z.ltb 1 (built 1 [2; 1; 2; 1] empty_store) = Ok tt σ' ∧
    rep σ' 1 1 [(3%N, 1); (5%N, 1); (2%N, 2); (4%N, 2)].
Proof.
  set (σ := built 1 [2; 1; 2; 1] empty_store).
  assert (rep σ 1 1 [(2%N, 2); (3%N, 1); (4%N, 2); (5%N, 1)]) as Hrep
    by rep_tac.
  assert (3 * Z.of_nat (length [(2%N, 2); (3%N, 1); (4%N, 2); (5%N, 1)])
          < size_max) as Hsz by (vm_compute; reflexivity).
  destruct (@sort_spec Z Z.ltb Z_ltb_le_trans Z_ltb_asym σ 1 1 _ Hrep Hsz)
    as (σ' & result & Hrun & Hr & Hres & _).
  vm_compute in Hres. subst result.
  exists σ'. split; [exact Hrun|exact Hr].
Defined.

Lemma ring_count_invariant_preserved_witness :
  ∃ σ',
    run_op Z.ltb Z.eqb alloc_above 1 (op_erase (It 1 3))
      (built 1 [3; 1; 2] empty_store) = Ok tt σ' ∧
    ring_count_inv σ' 1.
Proof.
  set (σ := built 1 [3; 1; 2] empty_store).
  assert (rep σ 1 1 [(2%N, 3); (3%N, 1); (4%N, 2)]) as Hrep by rep_tac.
  assert (3 * (Z.of_nat (length [(2%N, 3); (3%N, 1); (4%N, 2)]) + 1)
          < size_max) as Hsz by (vm_compute; reflexivity).
  assert (op_ok σ 1 (op_erase (It 1 3))) as Hok.
  { intros _ _. exists 1%N, [(2%N, 3); (3%N, 1); (4%N, 2)].
    split; [exact Hrep|].
    refine (@bool_decide_unpack _ _ _); vm_compute; exact I. }
  destruct (@ring_count_invariant_preserved Z Z.ltb Z.eqb alloc_above
              alloc_above_fresh) as (_ & _ & _ & _ & _ & Hop).
  destruct (Hop σ 1%N 1%N _ (op_erase (It 1 3)) Hrep Hsz Hok)
    as (σ' & items' & [Hrun|[e Hrun]] & _ & Hinv).
  - exists σ'. split; [exact Hrun|exact Hinv].
  - exfalso. revert Hrun. vm_compute. discriminate.
Defined.

Lemma erase_contract_witness :
  ∃ σ',
    erase 1 (It 1 3) (built 1 [10; 20] empty_store) = Ok (It 1 1) σ' ∧
    rep σ' 1 1 [(2%N, 10)] ∧
    erase 1 (It 1 1) (built 1 [10; 20] empty_store)
      = Throw invalid_iterator (built 1 [10; 20] empty_store).
Proof.
  set (σ := built 1 [10; 20] empty_store).
  assert (rep σ 1 1 [(2%N, 10); (3%N, 20)]) as Hrep by rep_tac.
  destruct (@erase_contract Z σ 1 1 _ Hrep) as (_ & Hinv & Hok).
  destruct (Hok [(2%N, 10)] 3%N 20 [] eq_refl) as (σ' & Hrun & Hr & _).
  exists σ'. split; [exact Hrun|]. split; [exact Hr|].
  apply Hinv; [done|]. right. by right.
Defined.

Lemma stale_iterator_not_rejected_witness :
  let σ := store_of empty_store (erase 1 (It 1 2) (built 1 [10; 20] empty_store)) in
  rep σ 1 1 [(3%N, 20)] ∧
  deref σ 2%N = None ∧
  insert alloc_above 1 (It 1 2) 7 σ = Undefined ∧
  erase 1 (It 1 2) σ = Undefined.
Proof.
  intros σ.
  assert (rep σ 1 1 [(3%N, 20)]) as Hrep by rep_tac.
  assert ((2 : N) ≠ null) as Hx by (unfold null; lia).
  assert (deref σ 2%N = None) as Hdead by (vm_compute; reflexivity).
  destruct (@stale_iterator_not_rejected Z alloc_above alloc_above_fresh
              σ 1 1 _ 2%N 7 Hrep Hx Hdead) as (Hins & Her & _).
  split; [exact Hrep|]. split; [exact Hdead|]. split; [exact Hins|].
  by apply Her.
Defined.

Lemma end_iterator_operations_witness :
  it_pre_incr (It 1 1) (built 1 [10; 20] empty_store)
    = Throw invalid_iterator (built 1 [10; 20] empty_store) ∧
  it_deref (It 1 1) (built 1 [10; 20] empty_store)
    = Throw invalid_iterator (built 1 [10; 20] empty_store) ∧
  it_pre_decr (It 1 1) (built 1 [10; 20] empty_store)
    = Ok (It 1 3, It 1 3) (built 1 [10; 20] empty_store).
Proof.
  set (σ := built 1 [10; 20] empty_store).
  assert (rep σ 1 1 [(2%N, 10); (3%N, 20)]) as Hrep by rep_tac.
  destruct (@end_iterator_operations Z σ 1 1 _ Hrep)
    as ((_ & Hi & _) & (Hd & _) & _ & _ & _ & _ & Hl).
  destruct (Hl 3%N 20 eq_refl) as (Hdec & _).
  split; [exact Hi|]. split; [exact Hd|exact Hdec].
Defined.

Lemma reverse_spec_witness :
  ∃ σ',
    reverse 1 (built 1 [10; 20; 30] empty_store) = Ok tt σ' ∧
    rep σ' 1 1 [(4%N, 30); (3%N, 20); (2%N, 10)] ∧
    reverse 1 σ' = Ok tt (built 1 [10; 20; 30] empty_store).
Proof.
  set (σ := built 1 [10; 20; 30] empty_store).
  assert (rep σ 1 1 [(2%N, 10); (3%N, 20); (4%N, 30)]) as Hrep by rep_tac.
  destruct (@reverse_spec Z σ 1 1 _ Hrep) as (σ' & Hrun & Hr & Hback & _).
  exists σ'. split; [exact Hrun|]. split; [exact Hr|exact Hback].
Defined.

Lemma unique_spec_witness :
  ∃ σ',
    unique Z.eqb 1 (built 1 [1; 1; 2; 1; 1; 3; 3] empty_store) = Ok tt σ' ∧
    rep σ' 1 1 [(2%N, 1); (4%N, 2); (5%N, 1); (7%N, 3)].
Proof.
  set (σ := built 1 [1; 1; 2; 1; 1; 3; 3] empty_store).
  assert (rep σ 1 1 [(2%N, 1); (3%N, 1); (4%N, 2); (5%N, 1); (6%N, 1);
                     (7%N, 3); (8%N, 3)]) as Hrep by rep_tac.
  destruct (@unique_spec Z Z.eqb σ 1 1 _ Hrep)
    as (σ' & result & Hrun & Hr & Hres & _).
  vm_compute in Hres. subst result.
  exists σ'. split; [exact Hrun|exact Hr].
Defined.

Lemma decrement_at_begin_witness :
  ∃ r it',
    it_pre_decr (It 1 2) (built 1 [10; 20] empty_store)
      = Ok (r, it') (built 1 [10; 20] empty_store) ∧
    it_p it' = 1%N ∧ it_eq it' (It 1 1) = true.
Proof.
  set (σ := built 1 [10; 20] empty_store).
  assert (rep σ 1 1 ((2%N, 10) :: [(3%N, 20)])) as Hrep by rep_tac.
  destruct (@decrement_at_begin Z σ 1 1 _ _ _ Hrep)
    as (ib & icb & ie & ice & Hb & _ & He & _ & Hib & _ & (r & it' & Hd & Hp & Heq) & _).
  assert (ib = It 1 2) as ->.
  { destruct ib as [o p]. simpl in Hib. subst p.
    revert Hb. vm_compute. by intros [= ->]. }
  assert (ie = It 1 1) as ->.
  { revert He. vm_compute. by intros [= <-]. }
  exists r, it'. split; [exact Hd|]. split; [exact Hp|exact Heq].
Defined.

(** The invariant is not kept by [insert] with an iterator whose node
    [merge] has moved to another container.  With [a = [1,3,5]],
    [b = [2,3,4]] and [ib = b.begin()], after [a.merge(b)] both containers
    satisfy the invariant; [b.insert(ib, 9)] then passes both tests of
    [insert], returns normally, links the new node into the ring of [a]
    and raises the count of [b]: the count of [b] is 1 and its ring is
    empty, the count of [a] is 6 and its ring has 7 nodes. *)
Lemma ring_count_invariant_counterexample :
  let σ0 := built 2 [2; 3; 4] (built 1 [1; 3; 5] empty_store) in
  let σ1 := store_of σ0 (merge Z.ltb 1 2 σ0) in
  let σ2 := store_of σ1 (insert alloc_above 2 (It 2 6) 9 σ1) in
  begin_ 2 σ0 = Ok (It 2 6) σ0 ∧
  merge Z.ltb 1 2 σ0 = Ok tt σ1 ∧
  ring_count_inv σ1 1 ∧ ring_count_inv σ1 2 ∧
  insert alloc_above 2 (It 2 6) 9 σ1 = Ok (It 2 9) σ2 ∧
  ¬ ring_count_inv σ2 1 ∧ ¬ ring_count_inv σ2 2.
Proof.
  intros σ0 σ1 σ2.
  split; [vm_compute; reflexivity|].
  split; [vm_compute; reflexivity|].
  split.
  { apply (rep_inv σ1 1 1 [(2%N, 1); (6%N, 2); (3%N, 3); (7%N, 3);
                           (8%N, 4); (4%N, 5)]). rep_tac. }
  split; [apply (rep_inv σ1 2 5 []); rep_tac|].
  split; [vm_compute; reflexivity|].
  split.
  - intros (s & n & l & Hlo & Hf & Hn & _).
    vm_compute in Hlo. injection Hlo as <- <-.
    vm_compute in Hf. injection Hf as <-.
    vm_compute in Hn. discriminate.
  - intros (s & n & l & Hlo & Hf & Hn & _).
    vm_compute in Hlo. injection Hlo as <- <-.
    vm_compute in Hf. injection Hf as <-.
    vm_compute in Hn. discriminate.
Qed.

(** The node at address 2 is removed by [erase]; the iterator that
    denoted it is then handed to [insert] and to [erase]: neither throws
    [invalid_iterator]. *)
Lemma stale_iterator_counterexample :
  let σ0 := built 1 [10; 20] empty_store in
  let σ := store_of σ0 (erase 1 (It 1 2) σ0) in
  erase 1 (It 1 2) σ0 = Ok (It 1 3) σ ∧
  insert alloc_above 1 (It 1 2) 7 σ ≠ Throw invalid_iterator σ ∧
  erase 1 (It 1 2) σ ≠ Throw invalid_iterator σ.
Proof.
  split; [vm_compute; reflexivity|].
  split; intros H; vm_compute in H; discriminate.
Qed.

Lemma size_empty_begin_end_witness :
  size_ 1 (built 1 [10; 20] empty_store) = Ok 2 (built 1 [10; 20] empty_store) ∧
  empty 1 (built 1 [10; 20] empty_store)
    = Ok false (built 1 [10; 20] empty_store).
Proof.
  set (σ := built 1 [10; 20] empty_store).
  assert (rep σ 1 1 [(2%N, 10); (3%N, 20)]) as Hrep by rep_tac.
  destruct (@size_empty_begin_end Z σ 1 1 _ Hrep) as (Hs & He & _).
  split; [exact Hs|exact He].
Defined.

Lemma front_back_spec_witness :
  front 1 (built 1 [10; 20] empty_store) = Ok 10 (built 1 [10; 20] empty_store) ∧
  back 1 (built 1 [10; 20] empty_store) = Ok 20 (built 1 [10; 20] empty_store) ∧
  front 1 (built 1 [] empty_store)
    = Throw container_is_empty (built 1 [] empty_store).
Proof.
  assert (rep (built 1 [10; 20] empty_store) 1 1 [(2%N, 10); (3%N, 20)])
    as Hrep by rep_tac.
  assert (rep (built 1 [] empty_store) 1 1 []) as Hrep0 by rep_tac.
  destruct (@front_back_spec Z _ 1 1 _ Hrep) as (_ & Hf & Hb).
  destruct (@front_back_spec Z _ 1 1 _ Hrep0) as (He & _).
  split; [exact (Hf 2%N 10 eq_refl)|]. split; [exact (Hb 3%N 20 eq_refl)|].
  apply He. reflexivity.
Defined.

Lemma iterator_steps_witness :
  it_pre_incr (It 1 3) (built 1 [10; 20; 30] empty_store)
    = Ok (It 1 4, It 1 4) (built 1 [10; 20; 30] empty_store) ∧
  it_pre_decr (It 1 3) (built 1 [10; 20; 30] empty_store)
    = Ok (It 1 2, It 1 2) (built 1 [10; 20; 30] empty_store) ∧
  it_deref (It 1 3) (built 1 [10; 20; 30] empty_store)
    = Ok 20 (built 1 [10; 20; 30] empty_store).
Proof.
  set (σ := built 1 [10; 20; 30] empty_store).
  assert (rep σ 1 1 ([(2%N, 10)] ++ (3%N, 20) :: [(4%N, 30)])) as Hrep
    by rep_tac.
  destruct (@iterator_steps Z σ 1 1 _ _ _ _ Hrep) as (Hi & Hd & Hv & _).
  split; [exact Hi|]. split; [exact Hd|exact Hv].
Defined.

Lemma insert_spec_witness :
  ∃ σ' x,
    insert alloc_above 1 (It 1 3) 15
      (built 2 [7] (built 1 [10; 20] empty_store)) = Ok (It 1 x) σ' ∧
    rep σ' 1 1 [(2%N, 10); (x, 15); (3%N, 20)] ∧
    rep σ' 2 4 [(5%N, 7)].
Proof.
  set (σ := built 2 [7] (built 1 [10; 20] empty_store)).
  assert (rep σ 1 1 ([(2%N, 10)] ++ [(3%N, 20)])) as Hrep by rep_tac.
  assert (rep σ 2 4 [(5%N, 7)]) as Hrepo by rep_tac.
  assert ((2 : N) ≠ 1%N) as Hne by lia.
  assert (∀ y : N, y ∈ 1%N :: ([(2%N, 10)] ++ [(3%N, 20)]).*1
                   → y ∉ 4%N :: [(5%N, 7)].*1) as Hd by disjoint_tac.
  assert (Z.of_nat (length ([(2%N, 10)] ++ [(3%N, 20)])) + 1 < size_max)
    as Hsz by (vm_compute; reflexivity).
  destruct (@insert_spec Z alloc_above alloc_above_fresh σ 1 1 _ _ 15 Hrep Hsz)
    as ((σ' & x & Hrun & _ & Hr & _ & _ & _ & _ & _ & Ho) & _).
  destruct (Ho 2%N 4%N _ Hne Hrepo Hd) as (Hro & _).
  exists σ', x. split; [exact Hrun|]. split; [exact Hr|exact Hro].
Defined.

Lemma push_back_spec_witness :
  ∃ σ' x,
    push_back alloc_above 1 30 (built 2 [7] (built 1 [10; 20] empty_store))
      = Ok tt σ' ∧
    rep σ' 1 1 [(2%N, 10); (3%N, 20); (x, 30)] ∧
    back 1 σ' = Ok 30 σ' ∧
    rep σ' 2 4 [(5%N, 7)].
Proof.
  set (σ := built 2 [7] (built 1 [10; 20] empty_store)).
  assert (rep σ 1 1 [(2%N, 10); (3%N, 20)]) as Hrep by rep_tac.
  assert (rep σ 2 4 [(5%N, 7)]) as Hrepo by rep_tac.
  assert ((2 : N) ≠ 1%N) as Hne by lia.
  assert (∀ y : N, y ∈ 1%N :: [(2%N, 10); (3%N, 20)].*1
                   → y ∉ 4%N :: [(5%N, 7)].*1) as Hd by disjoint_tac.
  assert (Z.of_nat (length [(2%N, 10); (3%N, 20)]) + 1 < size_max)
    as Hsz by (vm_compute; reflexivity).
  destruct (@push_back_spec Z alloc_above alloc_above_fresh σ 1 1 _ 30 Hrep Hsz)
    as (σ' & x & Hrun & _ & Hr & Hb & _ & _ & _ & _ & Ho).
  destruct (Ho 2%N 4%N _ Hne Hrepo Hd) as (Hro & _).
  exists σ', x. split; [exact Hrun|]. split; [exact Hr|].
  split; [exact Hb|exact Hro].
Defined.

Lemma push_front_spec_witness :
  ∃ σ' x,
    push_front alloc_above 1 5 (built 2 [7] (built 1 [10; 20] empty_store))
      = Ok tt σ' ∧
    rep σ' 1 1 [(x, 5); (2%N, 10); (3%N, 20)] ∧
    front 1 σ' = Ok 5 σ' ∧
    rep σ' 2 4 [(5%N, 7)].
Proof.
  set (σ := built 2 [7] (built 1 [10; 20] empty_store)).
  assert (rep σ 1 1 [(2%N, 10); (3%N, 20)]) as Hrep by rep_tac.
  assert (rep σ 2 4 [(5%N, 7)]) as Hrepo by rep_tac.
  assert ((2 : N) ≠ 1%N) as Hne by lia.
  assert (∀ y : N, y ∈ 1%N :: [(2%N, 10); (3%N, 20)].*1
                   → y ∉ 4%N :: [(5%N, 7)].*1) as Hd by disjoint_tac.
  assert (Z.of_nat (length [(2%N, 10); (3%N, 20)]) + 1 < size_max)
    as Hsz by (vm_compute; reflexivity).
  destruct (@push_front_spec Z alloc_above alloc_above_fresh σ 1 1 _ 5 Hrep Hsz)
    as (σ' & x & Hrun & _ & Hr & Hf & _ & _ & _ & _ & Ho).
  destruct (Ho 2%N 4%N _ Hne Hrepo Hd) as (Hro & _).
  exists σ', x. split; [exact Hrun|]. split; [exact Hr|].
  split; [exact Hf|exact Hro].
Defined.

Lemma pop_spec_witness :
  (∃ σ', pop_back 1 (built 2 [7] (built 1 [10; 20] empty_store)) = Ok tt σ' ∧
         rep σ' 1 1 [(2%N, 10)] ∧ rep σ' 2 4 [(5%N, 7)]) ∧
  (∃ σ', pop_front 1 (built 2 [7] (built 1 [10; 20] empty_store)) = Ok tt σ' ∧
         rep σ' 1 1 [(3%N, 20)] ∧ rep σ' 2 4 [(5%N, 7)]).
Proof.
  set (σ := built 2 [7] (built 1 [10; 20] empty_store)).
  assert (rep σ 1 1 [(2%N, 10); (3%N, 20)]) as Hrep by rep_tac.
  assert (rep σ 2 4 [(5%N, 7)]) as Hrepo by rep_tac.
  assert ((2 : N) ≠ 1%N) as Hne by lia.
  assert (∀ y : N, y ∈ 1%N :: [(2%N, 10); (3%N, 20)].*1
                   → y ∉ 4%N :: [(5%N, 7)].*1) as Hd by disjoint_tac.
  destruct (@pop_spec Z σ 1 1 _ Hrep) as (_ & Hb & Hf).
  destruct (Hb [(2%N, 10)] 3%N 20 eq_refl)
    as (σ1 & Hrun1 & Hr1 & _ & _ & _ & _ & Ho1).
  destruct (Hf [(3%N, 20)] 2%N 10 eq_refl)
    as (σ2 & Hrun2 & Hr2 & _ & _ & _ & _ & Ho2).
  destruct (Ho1 2%N 4%N _ Hne Hrepo Hd) as (Hro1 & _).
  destruct (Ho2 2%N 4%N _ Hne Hrepo Hd) as (Hro2 & _).
  split; [exists σ1|exists σ2]; (split; [|split]); assumption.
Defined.

Lemma push_back_pop_back_witness :
  bind (push_back alloc_above 1 30) (λ _, pop_back 1)
    (built 1 [10; 20] empty_store)
  = Ok tt (built 1 [10; 20] empty_store).
Proof.
  set (σ := built 1 [10; 20] empty_store).
  assert (rep σ 1 1 [(2%N, 10); (3%N, 20)]) as Hrep by rep_tac.
  assert (Z.of_nat (length [(2%N, 10); (3%N, 20)]) + 1 < size_max)
    as Hsz by (vm_compute; reflexivity).
  exact (@push_back_pop_back Z alloc_above alloc_above_fresh σ 1 1 _ 30 Hrep Hsz).
Defined.

Lemma clear_spec_witness :
  ∃ σ',
    clear 1 (built 1 [10; 20] empty_store) = Ok tt σ' ∧
    rep σ' 1 1 [] ∧ deref σ' 2%N = None ∧ deref σ' 3%N = None.
Proof.
  set (σ := built 1 [10; 20] empty_store).
  assert (rep σ 1 1 [(2%N, 10); (3%N, 20)]) as Hrep by rep_tac.
  destruct (@clear_spec Z σ 1 1 _ Hrep) as (σ' & Hrun & Hr & _ & Hdead & _).
  exists σ'. split; [exact Hrun|]. split; [exact Hr|].
  split; apply Hdead; simpl.
  - by left.
  - right. by left.
Defined.

Lemma copy_ctor_spec_witness :
  ∃ σ' s new,
    list_copy_ctor alloc_above 2 1 (built 1 [10; 20] empty_store) = Ok tt σ' ∧
    rep σ' 2 s new ∧ new.*2 = [10; 20] ∧
    rep σ' 1 1 [(2%N, 10); (3%N, 20)].
Proof.
  set (σ := built 1 [10; 20] empty_store).
  assert (rep σ 1 1 [(2%N, 10); (3%N, 20)]) as Hrep by rep_tac.
  assert ((2 : N) ≠ null) as H2 by (unfold null; lia).
  assert ((2 : N) ≠ 1%N) as H21 by lia.
  destruct (@copy_ctor_spec Z alloc_above alloc_above_fresh σ 2 1 1 _ H2 H21 Hrep)
    as (σ' & s & new & Hrun & Hr & Hv & Hr1 & _).
  exists σ', s, new. split; [exact Hrun|]. split; [exact Hr|].
  split; [exact Hv|exact Hr1].
Defined.

Lemma assign_spec_witness :
  ∃ σ' new,
    assign alloc_above 1 2 (built 2 [7] (built 1 [10; 20] empty_store))
      = Ok tt σ' ∧
    rep σ' 1 1 new ∧ new.*2 = [7] ∧ rep σ' 2 4 [(5%N, 7)].
Proof.
  set (σ := built 2 [7] (built 1 [10; 20] empty_store)).
  assert (rep σ 1 1 [(2%N, 10); (3%N, 20)]) as H1 by rep_tac.
  assert (rep σ 2 4 [(5%N, 7)]) as H2 by rep_tac.
  assert (∀ y : N, y ∈ 1%N :: [(2%N, 10); (3%N, 20)].*1
                   → y ∉ 4%N :: [(5%N, 7)].*1) as Hd by disjoint_tac.
  assert ((1 : N) ≠ 2%N) as Hne by lia.
  destruct (@assign_spec Z alloc_above alloc_above_fresh σ 1 1 _ 2 4 _ H1 H2 Hd)
    as (_ & Hassign).
  destruct (Hassign Hne) as (σ' & new & Hrun & Hr & Hv & Hr2).
  exists σ', new. split; [exact Hrun|]. split; [exact Hr|].
  split; [exact Hv|exact Hr2].
Defined.

(** With [a < b] read as "[a] is not [b]", which is no order at all,
    [sort] still only reorders. *)
Lemma sort_any_comparison_witness :
  ∃ σ' result,
    sort (λ a b, negb (a =? b)) 1 (built 1 [2; 1; 3] empty_store) = Ok tt σ' ∧
    rep σ' 1 1 result ∧ result ≡ₚ [(2%N, 2); (3%N, 1); (4%N, 3)].
Proof.
  set (σ := built 1 [2; 1; 3] empty_store).
  assert (rep σ 1 1 [(2%N, 2); (3%N, 1); (4%N, 3)]) as Hrep by rep_tac.
  assert (3 * Z.of_nat (length [(2%N, 2); (3%N, 1); (4%N, 3)]) < size_max)
    as Hsz by (vm_compute; reflexivity).
  destruct (@sort_any_comparison Z (λ a b, negb (a =? b)) σ 1 1 _ Hrep Hsz)
    as (σ' & result & Hrun & Hr & _ & Hp & _).
  exists σ', result. split; [exact Hrun|]. split; [exact Hr|exact Hp].
Defined.

Lemma merge_any_order_witness :
  ∃ σ',
    merge Z.ltb 1 2 (built 2 [1; 9; 0] (built 1 [5; 2] empty_store))
      = Ok tt σ' ∧
    rep σ' 1 1 [(5%N, 1); (2%N, 5); (3%N, 2); (6%N, 9); (7%N, 0)] ∧
    rep σ' 2 4 [].
Proof.
  set (σ := built 2 [1; 9; 0] (built 1 [5; 2] empty_store)).
  assert (rep σ 1 1 [(2%N, 5); (3%N, 2)]) as H1 by rep_tac.
  assert (rep σ 2 4 [(5%N, 1); (6%N, 9); (7%N, 0)]) as H2 by rep_tac.
  assert ((1 : N) ≠ 2%N) as Hne by lia.
  assert (∀ z : N, z ∈ 1%N :: [(2%N, 5); (3%N, 2)].*1
                   → z ∉ 4%N :: [(5%N, 1); (6%N, 9); (7%N, 0)].*1) as Hd
    by disjoint_tac.
  assert (Z.of_nat (length [(2%N, 5); (3%N, 2)]
                    + length [(5%N, 1); (6%N, 9); (7%N, 0)]) < size_max) as Hsz
    by (vm_compute; reflexivity).
  destruct (@merge_any_order Z Z.ltb σ 1 1 2 4 _ _ Hne H1 H2 Hd Hsz)
    as (σ' & result & Hrun & Hr1 & Hr2 & Hres & _).
  vm_compute in Hres. subst result.
  exists σ'. split; [exact Hrun|]. split; [exact Hr1|exact Hr2].
Defined.

Lemma reverse_swaps_ends_witness :
  ∃ σ',
    reverse 1 (built 1 [10; 20; 30] empty_store) = Ok tt σ' ∧
    front 1 σ' = Ok 30 σ' ∧ back 1 σ' = Ok 10 σ'.
Proof.
  set (σ := built 1 [10; 20; 30] empty_store).
  assert (rep σ 1 1 [(2%N, 10); (3%N, 20); (4%N, 30)]) as Hrep by rep_tac.
  assert ([(2%N, 10); (3%N, 20); (4%N, 30)] ≠ []) as Hne by done.
  destruct (@reverse_swaps_ends Z σ 1 1 _ Hrep Hne)
    as (σ' & vf & vb & Hrun & Hf & Hb & Hf' & Hb').
  assert (vf = 10) as ->.
  { revert Hf. vm_compute. by intros [= <-]. }
  assert (vb = 30) as ->.
  { revert Hb. vm_compute. by intros [= <-]. }
  exists σ'. split; [exact Hrun|]. split; [exact Hf'|exact Hb'].
Defined.

Lemma dtor_spec_witness :
  ∃ σ',
    list_dtor 1 (built 1 [10; 20] empty_store) = Ok tt σ' ∧
    lderef σ' 1 = None ∧ deref σ' 1%N = None ∧ deref σ' 3%N = None.
Proof.
  set (σ := built 1 [10; 20] empty_store).
  assert (rep σ 1 1 [(2%N, 10); (3%N, 20)]) as Hrep by rep_tac.
  destruct (@dtor_spec Z σ 1 1 _ Hrep) as (σ' & Hrun & Hl & Hdead & _).
  exists σ'. split; [exact Hrun|]. split; [exact Hl|].
  split; apply Hdead; simpl.
  - by left.
  - right. right. by left.
Defined.

Lemma ctor_dtor_round_trip_witness :
  bind (list_ctor alloc_above 2) (λ _, list_dtor 2)
    (built 1 [10; 20] empty_store)
  = Ok tt (built 1 [10; 20] empty_store).
Proof.
  assert ((2 : N) ≠ null) as H2 by (unfold null; lia).
  assert (lderef (built 1 [10; 20] empty_store) 2 = None) as Hnone
    by (vm_compute; reflexivity).
  exact (@ctor_dtor_round_trip Z alloc_above alloc_above_fresh _ 2%N H2 Hnone).
Defined.

Lemma other_container_untouched_witness :
  ∃ σ',
    run_op Z.ltb Z.eqb alloc_above 1 (op_erase (It 1 3))
      (built 2 [7] (built 1 [20; 10] empty_store)) = Ok tt σ' ∧
    rep σ' 2 4 [(5%N, 7)].
Proof.
  set (σ := built 2 [7] (built 1 [20; 10] empty_store)).
  assert (rep σ 1 1 [(2%N, 20); (3%N, 10)]) as H1 by rep_tac.
  assert (rep σ 2 4 [(5%N, 7)]) as H2 by rep_tac.
  assert ((1 : N) ≠ 2%N) as Hne by lia.
  assert (∀ y : N, y ∈ 1%N :: [(2%N, 20); (3%N, 10)].*1
                   → y ∉ 4%N :: [(5%N, 7)].*1) as Hd by disjoint_tac.
  assert (3 * (Z.of_nat (length [(2%N, 20); (3%N, 10)]) + 1) < size_max)
    as Hsz by (vm_compute; reflexivity).
  assert (op_ok σ 1 (op_erase (It 1 3))) as Hok.
  { intros _ _. exists 1%N, [(2%N, 20); (3%N, 10)].
    split; [exact H1|].
    refine (@bool_decide_unpack _ _ _); vm_compute; exact I. }
  destruct (@other_container_untouched Z Z.ltb Z.eqb alloc_above
              alloc_above_fresh σ 1 1 _ 2 4 _ (op_erase (It 1 3))
              Hne H1 H2 Hd Hsz Hok)
    as (σ' & [Hrun|[e Hrun]] & Hr & _).
  - exists σ'. split; [exact Hrun|exact Hr].
  - exfalso. revert Hrun. vm_compute. discriminate.
Defined.

Lemma unique_idempotent_witness :
  ∃ σ' σ'',
    unique Z.eqb 1 (built 1 [4; 4; 6; 4] empty_store) = Ok tt σ' ∧
    unique Z.eqb 1 σ' = Ok tt σ'' ∧
    rep σ'' 1 1 [(2%N, 4); (4%N, 6); (5%N, 4)].
Proof.
  set (σ := built 1 [4; 4; 6; 4] empty_store).
  assert (rep σ 1 1 [(2%N, 4); (3%N, 4); (4%N, 6); (5%N, 4)]) as Hrep
    by rep_tac.
  destruct (@unique_idempotent Z Z.eqb σ 1 1 _ Hrep)
    as (σ' & σ'' & result & Hrun & _ & Hres & _ & Hrun' & Hr' & _).
  vm_compute in Hres. subst result.
  exists σ', σ''. split; [exact Hrun|]. split; [exact Hrun'|exact Hr'].
Defined.

Lemma insert_erase_round_trip_witness :
  (do it <- insert alloc_above 1 (It 1 3) 15; erase 1 it)
    (built 1 [10; 20] empty_store)
  = Ok (It 1 3) (built 1 [10; 20] empty_store).
Proof.
  set (σ := built 1 [10; 20] empty_store).
  assert (rep σ 1 1 ([(2%N, 10)] ++ [(3%N, 20)])) as Hrep by rep_tac.
  assert (Z.of_nat (length ([(2%N, 10)] ++ [(3%N, 20)])) + 1 < size_max)
    as Hsz by (vm_compute; reflexivity).
  exact (proj1 (@insert_erase_round_trip Z alloc_above alloc_above_fresh
                  σ 1 1 _ _ 15 Hrep Hsz)).
Defined.
